(** * The sampler layer of aphrodite-engine, embedded in Rocq

    Source: [aphrodite/modeling/layers/sampler.py].

    Tensors are lists: a row of the logits matrix is a [list ext], the
    matrix a list of rows.  A tensor entry is an extended rational
    ([ext]): the arithmetic is exact on finite values and follows IEEE 754
    on the infinities and on NaN.  Rounding, the sign of zero, overflow
    and underflow are not modelled: a quotient or product of finite
    values is finite here, and [exp] of a finite value is positive,
    where a float can reach an infinity or zero.  The theorems on
    numerical results are therefore stated from the point of the pipeline
    and under the bounds where floats behave the same, and conclude with
    what floats keep (which entries are masked, which token is chosen,
    the shape).  A Python exception (an index out of range, a failed
    [assert], a shape mismatch) is [None]. *)

From Stdlib Require Import QArith Qabs Lqa Lia List Bool.
From stdpp Require Import base option list gmap sorting.

(** ** Extended rationals *)

Inductive ext : Type :=
| NInf
| Fin (q : Q)
| PInf
| NaN.

#[global] Instance ext_inhabited : Inhabited ext := populate NInf.

Definition Qltb (a b : Q) : bool := negb (Qle_bool b a).

(** [x < y] as torch compares floats: false as soon as one side is NaN. *)
Definition ext_ltb (x y : ext) : bool :=
  match x, y with
  | NaN, _ | _, NaN => false
  | NInf, NInf => false
  | NInf, _ => true
  | Fin a, Fin b => Qltb a b
  | Fin _, PInf => true
  | Fin _, NInf => false
  | PInf, _ => false
  end.

Definition ext_leb (x y : ext) : bool :=
  match x, y with
  | NaN, _ | _, NaN => false
  | NInf, _ => true
  | Fin a, Fin b => Qle_bool a b
  | Fin _, PInf => true
  | Fin _, NInf => false
  | PInf, PInf => true
  | PInf, _ => false
  end.

Definition ext_gtb (x y : ext) : bool := ext_ltb y x.
Definition ext_geb (x y : ext) : bool := ext_leb y x.

(** [x != y] on floats: true when one side is NaN. *)
Definition ext_neqb (x y : ext) : bool :=
  match x, y with
  | NInf, NInf | PInf, PInf => false
  | Fin a, Fin b => negb (Qeq_bool a b)
  | _, _ => true
  end.

(** Numerical equality of two entries, with NaN equal to itself: the
    relation in which two tensors are compared. *)
Definition ext_equiv (x y : ext) : Prop :=
  match x, y with
  | NInf, NInf | PInf, PInf | NaN, NaN => True
  | Fin a, Fin b => (a == b)%Q
  | _, _ => False
  end.

Definition is_neg_inf (x : ext) : bool :=
  match x with NInf => true | _ => false end.

Definition is_finite (x : ext) : bool :=
  match x with Fin _ => true | _ => false end.

Definition ext_neg (x : ext) : ext :=
  match x with
  | NInf => PInf
  | Fin q => Fin (- q)
  | PInf => NInf
  | NaN => NaN
  end.

Definition ext_add (x y : ext) : ext :=
  match x, y with
  | NaN, _ | _, NaN => NaN
  | NInf, PInf | PInf, NInf => NaN
  | NInf, _ | _, NInf => NInf
  | PInf, _ | _, PInf => PInf
  | Fin a, Fin b => Fin (a + b)
  end.

Definition ext_sub (x y : ext) : ext := ext_add x (ext_neg y).

(** The infinity of the sign of [q] times [inf]; [0 * inf] is NaN. *)
Definition inf_times (q : Q) (positive : bool) : ext :=
  match (q ?= 0)%Q with
  | Eq => NaN
  | Gt => if positive then PInf else NInf
  | Lt => if positive then NInf else PInf
  end.

Definition ext_mul (x y : ext) : ext :=
  match x, y with
  | NaN, _ | _, NaN => NaN
  | Fin a, Fin b => Fin (a * b)
  | Fin a, PInf | PInf, Fin a => inf_times a true
  | Fin a, NInf | NInf, Fin a => inf_times a false
  | PInf, PInf | NInf, NInf => PInf
  | PInf, NInf | NInf, PInf => NInf
  end.

(** Division; a finite value over zero is an infinity of its sign, and
    [0 / 0] is NaN. *)
Definition ext_div (x y : ext) : ext :=
  match x, y with
  | NaN, _ | _, NaN => NaN
  | Fin a, Fin b =>
      if Qeq_bool b 0 then
        match (a ?= 0)%Q with
        | Eq => NaN
        | Gt => PInf
        | Lt => NInf
        end
      else Fin (a / b)
  | Fin _, PInf | Fin _, NInf => Fin 0
  | PInf, Fin b => if Qltb b 0 then NInf else PInf
  | NInf, Fin b => if Qltb b 0 then PInf else NInf
  | PInf, PInf | PInf, NInf | NInf, PInf | NInf, NInf => NaN
  end.

Definition ext_abs (x : ext) : ext :=
  match x with
  | NInf | PInf => PInf
  | Fin q => Fin (Qabs q)
  | NaN => NaN
  end.

(** [torch.min] of two scalars (NaN propagates). *)
Definition ext_min (x y : ext) : ext :=
  match x, y with
  | NaN, _ | _, NaN => NaN
  | _, _ => if ext_leb x y then x else y
  end.

Declare Scope ext_scope.
Delimit Scope ext_scope with ext.
Bind Scope ext_scope with ext.
Infix "+" := ext_add : ext_scope.
Infix "-" := ext_sub : ext_scope.
Infix "*" := ext_mul : ext_scope.
Infix "/" := ext_div : ext_scope.
Infix "<?" := ext_ltb : ext_scope.
Infix "<=?" := ext_leb : ext_scope.
Infix ">?" := ext_gtb : ext_scope.
Infix ">=?" := ext_geb : ext_scope.

(** ** The transcendental primitives of torch

    [torch.exp], [torch.log] and [torch.sqrt] are no rational functions:
    the development is parametric in them.  The laws are the ones the
    proofs use. *)

Class TorchMath : Type := {
  expQ : Q -> Q;
  lnQ : Q -> Q;
  sqrtQ : Q -> Q;
  expQ_pos : forall q, (0 < expQ q)%Q;
  expQ_mono : forall a b, (a <= b)%Q -> (expQ a <= expQ b)%Q;
}.

Section Transcendental.
Context `{TorchMath}.

Definition ext_exp (x : ext) : ext :=
  match x with
  | NInf => Fin 0
  | Fin q => Fin (expQ q)
  | PInf => PInf
  | NaN => NaN
  end.

Definition ext_log (x : ext) : ext :=
  match x with
  | NInf | NaN => NaN
  | PInf => PInf
  | Fin q =>
      match (q ?= 0)%Q with
      | Eq => NInf
      | Gt => Fin (lnQ q)
      | Lt => NaN
      end
  end.

Definition ext_sqrt (x : ext) : ext :=
  match x with
  | NInf | NaN => NaN
  | PInf => PInf
  | Fin q => if Qltb q 0 then NaN else Fin (sqrtQ q)
  end.

End Transcendental.

(** ** Tensors *)

Abbreviation row := (list ext).
Abbreviation matrix := (list (list ext)).

(** [f] on every row with that row's entry of a batch-aligned parameter
    tensor; the row counts must agree. *)
Definition rows_with {A B} (f : row -> A -> option B)
    (logits : matrix) (params : list A) : option (list B) :=
  if decide (length logits = length params)
  then mapM (fun rp : row * A => f rp.1 rp.2) (zip logits params)
  else None.

(** [tensor.masked_fill_(mask, -inf)] on one row; [logits[mask] = -inf]. *)
Definition masked_fill_neg_inf (l : row) (mask : list bool) : row :=
  zip_with (fun (x : ext) (m : bool) => if m then NInf else x) l mask.

(** ** The batch descriptor

    [SamplingMetadata], [SequenceGroupToSample], [SamplingParams] and
    [SequenceData] are declared in modules that the sampler imports; the
    records below have the fields that sampler.py reads. *)

Inductive SamplingType : Type :=
| GREEDY
| RANDOM
| RANDOM_SEED
| BEAM.

Record SamplingParams : Type := {
  min_tokens : nat;
  all_stop_token_ids : list nat;
  best_of : nat;
  logprobs : option nat;
  prompt_logprobs : option nat;
  use_beam_search : bool;
  sampling_type : SamplingType;
}.

Record SequenceData : Type := {
  output_token_ids_array : list nat;
  cumulative_logprob : ext;
}.

Record SequenceGroupToSample : Type := {
  seq_ids : list nat;
  sampling_params : SamplingParams;
  seq_data : gmap nat SequenceData;
  is_prompt : bool;
  do_sample : bool;
  sample_indices : list nat;
  prompt_logprob_indices : list nat;
}.

Record SamplingMetadata : Type := {
  seq_groups : list SequenceGroupToSample;
  reuse_sampling_tensors : bool;
  skip_sampler_cpu_output : bool;
}.

(** ** [_apply_min_tokens_penalty] *)

(** The positions [j] of [seq_ids] (counted from [j0]) whose sequence has
    produced fewer than [min_tokens] output tokens; a sequence id that is
    no key of [seq_data] is a KeyError. *)
Fixpoint seqs_to_penalize (sd : gmap nat SequenceData) (min_tok : nat)
    (j0 : nat) (ids : list nat) : option (list nat) :=
  match ids with
  | [] => Some []
  | seq_id :: ids' =>
      d ← sd !! seq_id;
      tl ← seqs_to_penalize sd min_tok (S j0) ids';
      Some (if length (output_token_ids_array d) <? min_tok
            then j0 :: tl else tl)
  end.

(** One iteration of the loop over [seq_groups]: the pairs (row, token id)
    that the group adds to [logits_to_penalize]. *)
Definition group_logits_to_penalize (g : SequenceGroupToSample)
    : option (list (nat * nat)) :=
  if negb (do_sample g) then Some []
  else
    start_idx ← sample_indices g !! 0%nat;
    let min_tok := min_tokens (sampling_params g) in
    let token_ids_to_penalize := all_stop_token_ids (sampling_params g) in
    if (0 <? min_tok) && negb (bool_decide (token_ids_to_penalize = []))
    then
      js ← seqs_to_penalize (seq_data g) min_tok 0 (seq_ids g);
      Some (list_prod (map (fun j => start_idx + j)%nat js) token_ids_to_penalize)
    else Some [].

Fixpoint min_tokens_loop (groups : list SequenceGroupToSample)
    : option (list (nat * nat) * nat) :=
  match groups with
  | [] => Some ([], 0%nat)
  | g :: groups' =>
      here ← group_logits_to_penalize g;
      '(later, applied) ← min_tokens_loop groups';
      Some (here ++ later,
            (length (sample_indices g) + length (prompt_logprob_indices g)
             + applied)%nat)
  end.

(** [logits[r, t] = -inf]; an index out of range is an IndexError. *)
Definition set_neg_inf (logits : matrix) (rt : nat * nat) : option matrix :=
  r ← logits !! rt.1;
  _ ← r !! rt.2;
  Some (<[rt.1 := <[rt.2 := NInf]> r]> logits).

Fixpoint set_all_neg_inf (logits : matrix) (rts : list (nat * nat))
    : option matrix :=
  match rts with
  | [] => Some logits
  | rt :: rts' => logits' ← set_neg_inf logits rt; set_all_neg_inf logits' rts'
  end.

Definition _apply_min_tokens_penalty (logits : matrix)
    (sampling_metadata : SamplingMetadata) : option matrix :=
  '(logits_to_penalize, logits_applied) ←
      min_tokens_loop (seq_groups sampling_metadata);
  logits ← set_all_neg_inf logits logits_to_penalize;
  if decide (logits_applied = length logits) then Some logits else None.

(** ** The parameter tensors

    [SamplingTensors] is built by [SamplingTensors.from_sampling_metadata]
    (module [sampling_metadata], imported by the sampler): one entry per
    row, and for the penalties one padded list of token ids per row. *)

Record SamplingTensors : Type := {
  temperatures : list ext;
  top_ps : list ext;
  top_ks : list Z;
  top_as : list ext;
  min_ps : list ext;
  tfss : list ext;
  eta_cutoffs : list ext;
  epsilon_cutoffs : list ext;
  typical_ps : list ext;
  smoothing_factors : list ext;
  smoothing_curves : list ext;
  presence_penalties : list ext;
  frequency_penalties : list ext;
  repetition_penalties : list ext;
  prompt_tokens : list (list nat);
  output_tokens : list (list nat);
}.

(** ** [_get_bin_counts_and_mask] and [_apply_penalties] *)

(** [bin_counts.scatter_add_(1, tokens, ones)] on one row: every token id
    adds one to its bin; an id past the last bin is an index error. *)
Fixpoint scatter_add_ones (bins : list nat) (tokens : list nat)
    : option (list nat) :=
  match tokens with
  | [] => Some bins
  | t :: tokens' =>
      c ← bins !! t;
      scatter_add_ones (<[t := S c]> bins) tokens'
  end.

(** One row of [_get_bin_counts_and_mask]: [vocab_size + 1] bins (the last
    one takes the padding id), cut back to [vocab_size]. *)
Definition _get_bin_counts_and_mask (tokens : list nat) (vocab_size : nat)
    : option (list nat * list bool) :=
  bins ← scatter_add_ones (replicate (S vocab_size) 0%nat) tokens;
  let bin_counts := take vocab_size bins in
  Some (bin_counts, map (fun c => 0 <? c)%nat bin_counts).

Definition ext_of_nat (n : nat) : ext := Fin (inject_Z (Z.of_nat n)).
Definition ext_of_bool (b : bool) : ext := Fin (if b then 1 else 0).

(** One entry of [_apply_penalties]: [seen] is [prompt_mask | output_mask]
    at this token, [count] and [out_seen] are the output bin count and
    mask. *)
Definition penalize_entry (presence frequency repetition : ext)
    (x : ext) (seen : bool) (count : nat) (out_seen : bool) : ext :=
  let repetition := if seen then repetition else Fin 1 in
  let x := if (x >? Fin 0)%ext then (x / repetition)%ext
           else (x * repetition)%ext in
  let x := (x - frequency * ext_of_nat count)%ext in
  (x - presence * ext_of_bool out_seen)%ext.

Record PenaltyRow : Type := {
  pr_prompt_tokens : list nat;
  pr_output_tokens : list nat;
  pr_presence : ext;
  pr_frequency : ext;
  pr_repetition : ext;
}.

Definition penalties_row (l : row) (p : PenaltyRow) : option row :=
  let vocab_size := length l in
  '(_, prompt_mask) ← _get_bin_counts_and_mask (pr_prompt_tokens p) vocab_size;
  '(output_bin_counts, output_mask) ←
      _get_bin_counts_and_mask (pr_output_tokens p) vocab_size;
  Some (zip_with
          (fun (x : ext) (s : bool * (nat * bool)) =>
             penalize_entry (pr_presence p) (pr_frequency p) (pr_repetition p)
                            x s.1 s.2.1 s.2.2)
          l
          (zip (zip_with orb prompt_mask output_mask)
               (zip output_bin_counts output_mask))).

(** The five tensors of the call, row by row; [None] when their row
    counts differ. *)
Fixpoint penalty_rows (pt ot : list (list nat)) (pres freq rep : list ext)
    : option (list PenaltyRow) :=
  match pt, ot, pres, freq, rep with
  | [], [], [], [], [] => Some []
  | a :: pt', b :: ot', c :: pres', d :: freq', e :: rep' =>
      tl ← penalty_rows pt' ot' pres' freq' rep';
      Some ({| pr_prompt_tokens := a; pr_output_tokens := b;
               pr_presence := c; pr_frequency := d; pr_repetition := e |}
            :: tl)
  | _, _, _, _, _ => None
  end.

Definition _apply_penalties (logits : matrix)
    (prompt_tokens_tensor output_tokens_tensor : list (list nat))
    (presence_penalties frequency_penalties repetition_penalties : list ext)
    : option matrix :=
  ps ← penalty_rows prompt_tokens_tensor output_tokens_tensor
        presence_penalties frequency_penalties repetition_penalties;
  rows_with penalties_row logits ps.

(** ** Temperature scaling: [logits.div_(temperatures.unsqueeze(dim=1))] *)

Definition div_row (l : row) (t : ext) : option row :=
  Some (map (fun x => (x / t)%ext) l).

Definition temperature_scaling (logits : matrix) (temps : list ext)
    : option matrix :=
  rows_with div_row logits temps.

(** Modelled from the spec: the entry of the temperatures tensor for a
    row whose sampling temperature is [t].  The tensor is made by
    [SamplingTensors.from_sampling_metadata], whose module
    (sampling_metadata.py) is not among the source files.  The spec
    reserves temperature 0 for greedy sampling and has such a row bypass
    the division; the entry is then 1, which leaves the row as it is.
    The sampler of tpu_model_runner.py does the same with
    [torch.where(t != 0, t, 1.0)]. *)
Definition temperature_entry (t : ext) : ext :=
  if ext_neqb t (Fin 0) then t else Fin 1.

(** ** Row primitives of torch *)

(** The order in which [torch.sort], [torch.max], [torch.argmax] and
    [torch.topk] arrange floats: the numerical one, with NaN above every
    other value. *)
Definition sort_leb (x y : ext) : bool :=
  match x, y with
  | _, NaN => true
  | NaN, _ => false
  | _, _ => ext_leb x y
  end.

(** [tensor.max(dim=-1)]: NaN as soon as one entry is NaN. *)
Definition ext_max (x y : ext) : ext := if sort_leb x y then y else x.
Definition row_max (l : row) : ext := foldr ext_max NInf l.

Definition row_sum (l : row) : ext := foldr ext_add (Fin 0) l.

(** [tensor.nansum(dim=-1)]: NaN entries count as zero. *)
Definition row_nansum (l : row) : ext :=
  row_sum (map (fun x => match x with NaN => Fin 0 | _ => x end) l).

(** [tensor.cumsum(dim=-1)], from the first entry on. *)
Fixpoint cumsum_from (acc : ext) (l : row) : row :=
  match l with
  | [] => []
  | x :: l' => (acc + x)%ext :: cumsum_from (acc + x)%ext l'
  end.
Definition cumsum (l : row) : row := cumsum_from (Fin 0) l.

(** [tensor.diff()]: [out[i] = l[i+1] - l[i]]. *)
Fixpoint diff (l : row) : row :=
  match l with
  | x :: (y :: _) as l' => (y - x)%ext :: diff l'
  | _ => []
  end.

(** [torch.gather(l, dim=-1, index)]: [out[i] = l[index[i]]]. *)
Definition gather {A} (l : list A) (index : list nat) : option (list A) :=
  mapM (fun i => l !! i) index.

(** [base.scatter_(dim=-1, index, src)]: [base[index[j]] = src[j]]. *)
Fixpoint scatter {A} (base : list A) (index : list nat) (src : list A)
    : option (list A) :=
  match index, src with
  | [], _ => Some base
  | i :: index', s :: src' =>
      if decide (i < length base)%nat
      then scatter (<[i := s]> base) index' src'
      else None
  | _ :: _, [] => None
  end.

(** Sorting with the positions carried along, as [tensor.sort] returns
    (values, indices). *)
Definition key_rel (descending : bool) : relation (ext * nat) :=
  fun p q => Is_true (if descending then sort_leb q.1 p.1
                      else sort_leb p.1 q.1).

#[global] Instance key_rel_dec d p q : Decision (key_rel d p q).
Proof. unfold key_rel. apply _. Defined.

Definition sorted_pairs (descending : bool) (l : row) : list (ext * nat) :=
  merge_sort (key_rel descending) (zip l (seq 0 (length l))).

Definition tensor_sort (descending : bool) (l : row) : row * list nat :=
  let s := sorted_pairs descending l in
  (s.*1, s.*2).

(** [torch.argsort] of a tensor of indices. *)
Definition idx_rel : relation (nat * nat) := fun p q => (p.1 <= q.1)%nat.

#[global] Instance idx_rel_dec p q : Decision (idx_rel p q).
Proof. unfold idx_rel. apply _. Defined.

Definition argsort (index : list nat) : list nat :=
  (merge_sort idx_rel (zip index (seq 0 (length index)))).*2.

(** [torch.argmax(l, dim=-1)]: the first position of the greatest entry
    (0 on the empty row, where torch raises). *)
Fixpoint argmax_from (best : ext) (best_i i : nat) (l : row) : nat :=
  match l with
  | [] => best_i
  | x :: l' =>
      if sort_leb x best then argmax_from best best_i (S i) l'
      else argmax_from x i (S i) l'
  end.

Definition argmax (l : row) : nat :=
  match l with
  | [] => 0%nat
  | x :: l' => argmax_from x 0 1 l'
  end.

Section Softmax.
Context `{TorchMath}.

(** [torch.softmax(l, dim=-1)], as the kernel computes it: the greatest
    entry is subtracted before the exponential. *)
Definition softmax (l : row) : row :=
  let m := row_max l in
  let e := map (fun x => ext_exp (x - m)%ext) l in
  let s := row_sum e in
  map (fun x => (x / s)%ext) e.

(** [torch.log_softmax(l, dim=-1)]. *)
Definition log_softmax (l : row) : row :=
  let m := row_max l in
  let s := row_sum (map (fun x => ext_exp (x - m)%ext) l) in
  map (fun x => (x - m - ext_log s)%ext) l.

End Softmax.

(** ** The truncation filters, one row at a time *)

Section Filters.
Context `{TorchMath}.

(** [_apply_top_k_top_p], with [p] and [k] the row's entries. *)
Definition top_k_top_p_row (logits : row) (pk : ext * Z) : option row :=
  let '(p, k) := pk in
  let '(logits_sort, logits_idx) := tensor_sort false logits in
  let size := length logits_sort in
  (* Apply top-k. *)
  let top_k_mask := (Z.of_nat size - k)%Z in
  if negb ((0 <=? top_k_mask)%Z && (top_k_mask <? Z.of_nat size)%Z) then None
  else
    kth ← logits_sort !! Z.to_nat top_k_mask;
    let top_k_mask := map (fun x => (x <? kth)%ext) logits_sort in
    let logits_sort := masked_fill_neg_inf logits_sort top_k_mask in
    (* Apply top-p. *)
    let probs_sort := softmax logits_sort in
    let probs_sum := cumsum probs_sort in
    let top_p_mask := map (fun s => (s <=? Fin 1 - p)%ext) probs_sum in
    (* at least one *)
    let top_p_mask := <[pred size := false]> top_p_mask in
    let logits_sort := masked_fill_neg_inf logits_sort top_p_mask in
    (* Re-sort the probabilities. *)
    let src := seq 0 (length logits_idx) in
    logits_idx_inv ← scatter (replicate (length logits_idx) 0%nat)
                             logits_idx src;
    gather logits_sort logits_idx_inv.

Definition _apply_top_k_top_p (logits : matrix) (p : list ext) (k : list Z)
    : option matrix :=
  if decide (length p = length k)
  then rows_with top_k_top_p_row logits (zip p k)
  else None.

Definition min_p_row (logits : row) (min_p : ext) : option row :=
  let probs := softmax logits in
  let top_probs := row_max probs in
  let scaled_min_p := (min_p * top_probs)%ext in
  let tokens_to_remove := map (fun x => (x <? scaled_min_p)%ext) probs in
  Some (masked_fill_neg_inf logits tokens_to_remove).

Definition _apply_min_p (logits : matrix) (min_p : list ext)
    : option matrix :=
  rows_with min_p_row logits min_p.

Definition top_a_row (logits : row) (top_a : ext) : option row :=
  let probs := softmax logits in
  let top_probs := row_max probs in
  let threshold := (top_probs * top_probs * top_a)%ext in
  let tokens_to_remove := map (fun x => (x <? threshold)%ext) probs in
  Some (masked_fill_neg_inf logits tokens_to_remove).

Definition _apply_top_a (logits : matrix) (top_a : list ext)
    : option matrix :=
  rows_with top_a_row logits top_a.

(** [logits_sort[mask] = -inf] with a boolean mask: the shapes must
    agree. *)
Definition mask_assign_neg_inf (l : row) (mask : list bool) : option row :=
  if decide (length mask = length l)
  then Some (masked_fill_neg_inf l mask)
  else None.

(** The curvature mass of [_apply_tfs]: the absolute second difference of
    the sorted probabilities, normalized by its sum and accumulated. *)
Definition curvature_cdf (logits_sort : row) : row :=
  let d2 := map ext_abs (diff (diff (softmax logits_sort))) in
  let normalized_d2 := map (fun x => (x / row_sum d2)%ext) d2 in
  cumsum normalized_d2.

Definition tfs_row (logits : row) (tfs : ext) : option row :=
  let '(logits_sort, logits_idx) := tensor_sort true logits in
  let curvature_cdf := curvature_cdf logits_sort in
  let tfs_mask := map (fun c => (c >? tfs)%ext) curvature_cdf in
  let tfs_mask := [false] ++ tfs_mask ++ [true] in
  logits_sort ← mask_assign_neg_inf logits_sort tfs_mask;
  gather logits_sort (argsort logits_idx).

Definition _apply_tfs (logits : matrix) (tfs : list ext) : option matrix :=
  rows_with tfs_row logits tfs.

(** [mask.scatter_(dim=1, index=top_idx, value=False)] on one row. *)
Definition clear_at (mask : list bool) (i : nat) : option (list bool) :=
  if decide (i < length mask)%nat then Some (<[i := false]> mask) else None.

Definition eta_cutoff_row (logits : row) (eta_cutoff : ext) : option row :=
  let shifted_logits := log_softmax logits in
  let probs := map ext_exp shifted_logits in
  let neg_entropy :=
    row_nansum (zip_with ext_mul probs shifted_logits) in
  let eps := ext_min eta_cutoff
                     (ext_sqrt eta_cutoff * ext_exp neg_entropy)%ext in
  let eta_mask := map (fun x => (x <? eps)%ext) probs in
  (* guard against nulling out all the logits *)
  let top_idx := argmax probs in
  eta_mask ← clear_at eta_mask top_idx;
  Some (masked_fill_neg_inf logits eta_mask).

Definition _apply_eta_cutoff (logits : matrix) (eta_cutoff : list ext)
    : option matrix :=
  rows_with eta_cutoff_row logits eta_cutoff.

Definition epsilon_cutoff_row (logits : row) (epsilon_cutoff : ext)
    : option row :=
  let probs := softmax logits in
  let eps_mask := map (fun x => (x <? epsilon_cutoff)%ext) probs in
  (* guard against nulling out all the logits *)
  let top_idx := argmax probs in
  eps_mask ← clear_at eps_mask top_idx;
  Some (masked_fill_neg_inf logits eps_mask).

Definition _apply_epsilon_cutoff (logits : matrix)
    (epsilon_cutoff : list ext) : option matrix :=
  rows_with epsilon_cutoff_row logits epsilon_cutoff.

Definition typical_sampling_row (logits : row) (typical_p : ext)
    : option row :=
  let shifted_logits := log_softmax logits in
  let probs := map ext_exp shifted_logits in
  let neg_entropy :=
    row_nansum (zip_with ext_mul probs shifted_logits) in
  let surprisal_deviations :=
    map (fun x => ext_abs (neg_entropy - x)%ext) shifted_logits in
  let indices := (tensor_sort false surprisal_deviations).2 in
  reordered_probs ← gather probs indices;
  let typ_mask_sorted :=
    map (fun c => (c >=? typical_p)%ext) (cumsum reordered_probs) in
  (* Keep at least min_tokens_to_keep *)
  let min_tokens_to_keep := 1%nat in
  let typ_mask_sorted :=
    replicate (min min_tokens_to_keep (length typ_mask_sorted)) false
    ++ drop min_tokens_to_keep typ_mask_sorted in
  typ_mask ← scatter typ_mask_sorted indices typ_mask_sorted;
  Some (masked_fill_neg_inf logits typ_mask).

Definition _apply_typical_sampling (logits : matrix) (typical_p : list ext)
    : option matrix :=
  rows_with typical_sampling_row logits typical_p.

(** [_apply_quadratic_sampling], with the row's smoothing factor and
    curve. *)
Definition quadratic_sampling_row (logits : row) (fc : ext * ext)
    : option row :=
  let '(smoothing_factor, smoothing_curve) := fc in
  let max_logits := row_max logits in
  let k := ((Fin 3 - smoothing_curve) / Fin 2)%ext in
  let s := ((smoothing_curve - Fin 1) / Fin 2)%ext in
  let transformed (x : ext) : ext :=
    let diff := (x - max_logits)%ext in
    if ext_neqb x NInf
    then (ext_neg (k * smoothing_factor * (diff * diff))
          + s * smoothing_factor * (diff * diff * diff) + max_logits)%ext
    else x in
  Some (if (smoothing_factor >? Fin 0)%ext then map transformed logits
        else logits).

Definition _apply_quadratic_sampling (logits : matrix)
    (smoothing_factor smoothing_curve : list ext) : option matrix :=
  if decide (length smoothing_factor = length smoothing_curve)
  then rows_with quadratic_sampling_row logits
                 (zip smoothing_factor smoothing_curve)
  else None.

End Filters.

(** ** [Sampler]: the cached parameter tensors and [forward] *)

(** What [_init_sampling_tensors] stores on the sampler. *)
Record SamplerCache : Type := {
  _sampling_tensors : SamplingTensors;
  _do_penalties : bool;
  _do_top_p_top_k : bool;
  _do_top_as : bool;
  _do_min_p : bool;
  _do_tfss : bool;
  _do_eta_cutoffs : bool;
  _do_epsilon_cutoffs : bool;
  _do_typical_ps : bool;
  _do_quadratic : bool;
}.

Definition vocab_size_of (logits : matrix) : nat := length (hd [] logits).

(** The transforms of the pipeline, in the order in which the
    specification lists them. *)
Inductive Stage : Type :=
| MinTokensGate
| Penalties
| TemperatureScaling
| TopKTopP
| TopA
| MinP
| TailFree
| EtaCutoff
| EpsilonCutoff
| TypicalSampling
| Quadratic.

Definition specified_order : list Stage :=
  [MinTokensGate; Penalties; TemperatureScaling; TopKTopP; TopA; MinP;
   TailFree; EtaCutoff; EpsilonCutoff; TypicalSampling; Quadratic].

(** The stages that run for a batch: the gate and the temperature scaling
    always, the others when their family is active in the batch. *)
Definition stage_active (c : SamplerCache) (s : Stage) : bool :=
  match s with
  | MinTokensGate | TemperatureScaling => true
  | Penalties => _do_penalties c
  | TopKTopP => _do_top_p_top_k c
  | TopA => _do_top_as c
  | MinP => _do_min_p c
  | TailFree => _do_tfss c
  | EtaCutoff => _do_eta_cutoffs c
  | EpsilonCutoff => _do_epsilon_cutoffs c
  | TypicalSampling => _do_typical_ps c
  | Quadratic => _do_quadratic c
  end.

(** [foldM] over stages: each stage takes the logits the one before it
    returned. *)
Fixpoint run_stages (run : Stage -> matrix -> option matrix)
    (stages : list Stage) (logits : matrix) : option matrix :=
  match stages with
  | [] => Some logits
  | s :: stages' => logits' ← run s logits; run_stages run stages' logits'
  end.

Section Forward.
Context `{TorchMath}.

(** [SamplingTensors.from_sampling_metadata(sampling_metadata, vocab_size,
    device, dtype)], the builder of the parameter tensors. *)
Variable from_sampling_metadata : SamplingMetadata -> nat -> SamplerCache.

Definition _init_sampling_tensors (logits : matrix)
    (sampling_metadata : SamplingMetadata) : SamplerCache :=
  from_sampling_metadata sampling_metadata (vocab_size_of logits).

(** The first statement of [forward]: which parameter tensors the call
    works with.  [self] is [None] on a sampler that has built none yet
    (reading [self._do_penalties] is then an AttributeError). *)
Definition prepare_sampling_tensors (self : option SamplerCache)
    (logits : matrix) (sampling_metadata : SamplingMetadata)
    : option SamplerCache :=
  if negb (reuse_sampling_tensors sampling_metadata)
  then Some (_init_sampling_tensors logits sampling_metadata)
  else
    c ← self;
    if _do_penalties c
    then Some (_init_sampling_tensors logits sampling_metadata)
    else Some c.

Definition run_stage (c : SamplerCache) (md : SamplingMetadata)
    (s : Stage) (logits : matrix) : option matrix :=
  let t := _sampling_tensors c in
  match s with
  | MinTokensGate => _apply_min_tokens_penalty logits md
  | Penalties =>
      _apply_penalties logits (prompt_tokens t) (output_tokens t)
        (presence_penalties t) (frequency_penalties t)
        (repetition_penalties t)
  | TemperatureScaling => temperature_scaling logits (temperatures t)
  | TopKTopP => _apply_top_k_top_p logits (top_ps t) (top_ks t)
  | TopA => _apply_top_a logits (top_as t)
  | MinP => _apply_min_p logits (min_ps t)
  | TailFree => _apply_tfs logits (tfss t)
  | EtaCutoff => _apply_eta_cutoff logits (eta_cutoffs t)
  | EpsilonCutoff => _apply_epsilon_cutoff logits (epsilon_cutoffs t)
  | TypicalSampling => _apply_typical_sampling logits (typical_ps t)
  | Quadratic =>
      _apply_quadratic_sampling logits (smoothing_factors t)
        (smoothing_curves t)
  end.

(** The logits part of [Sampler.forward], from the gate to the quadratic
    transform, statement by statement. *)
Definition forward_logits (c : SamplerCache) (logits : matrix)
    (sampling_metadata : SamplingMetadata) : option matrix :=
  let sampling_tensors := _sampling_tensors c in
  logits ← _apply_min_tokens_penalty logits sampling_metadata;
  (* Apply presence and frequency penalties. *)
  logits ← (if _do_penalties c
            then _apply_penalties logits (prompt_tokens sampling_tensors)
                   (output_tokens sampling_tensors)
                   (presence_penalties sampling_tensors)
                   (frequency_penalties sampling_tensors)
                   (repetition_penalties sampling_tensors)
            else Some logits);
  (* Apply temperature scaling. *)
  logits ← temperature_scaling logits (temperatures sampling_tensors);
  logits ← (if _do_top_p_top_k c
            then _apply_top_k_top_p logits (top_ps sampling_tensors)
                   (top_ks sampling_tensors)
            else Some logits);
  logits ← (if _do_top_as c
            then _apply_top_a logits (top_as sampling_tensors)
            else Some logits);
  logits ← (if _do_min_p c
            then _apply_min_p logits (min_ps sampling_tensors)
            else Some logits);
  logits ← (if _do_tfss c
            then _apply_tfs logits (tfss sampling_tensors)
            else Some logits);
  logits ← (if _do_eta_cutoffs c
            then _apply_eta_cutoff logits (eta_cutoffs sampling_tensors)
            else Some logits);
  logits ← (if _do_epsilon_cutoffs c
            then _apply_epsilon_cutoff logits
                   (epsilon_cutoffs sampling_tensors)
            else Some logits);
  logits ← (if _do_typical_ps c
            then _apply_typical_sampling logits
                   (typical_ps sampling_tensors)
            else Some logits);
  if _do_quadratic c
  then _apply_quadratic_sampling logits
         (smoothing_factors sampling_tensors)
         (smoothing_curves sampling_tensors)
  else Some logits.

(** [forward] up to the logits that are handed to the softmax: the
    bundle that the first statement leaves in the sampler's attributes,
    which is the one the call works with, and the transformed logits.
    The tensors of a bundle are flat lists: [_apply_min_p], [_apply_top_a]
    and [_apply_quadratic_sampling] [unsqueeze_] their parameter tensor in
    place, so a cached bundle that ran one of them comes back with that
    tensor reshaped, which a list does not show.  A call on a bundle that
    is fresh, or whose three stages are inactive, is as written here. *)
Definition forward (self : option SamplerCache) (logits : matrix)
    (sampling_metadata : SamplingMetadata)
    : option (SamplerCache * matrix) :=
  c ← prepare_sampling_tensors self logits sampling_metadata;
  logits ← forward_logits c logits sampling_metadata;
  Some (c, logits).

End Forward.

(** ** Draw strategies *)

(** [torch.topk(l, k)]: the [k] greatest entries with their positions,
    greatest first; [k] past the length of [l] is an error. *)
Definition topk (l : row) (k : nat) : option (row * list nat) :=
  if decide (k <= length l)%nat
  then let '(values, indices) := tensor_sort true l in
       Some (take k values, take k indices)
  else None.

(** The cumulative log-probabilities of the parents of a group. *)
Definition cumulative_logprobs (g : SequenceGroupToSample)
    : option (list ext) :=
  mapM (fun seq_id => cumulative_logprob <$> seq_data g !! seq_id)
       (seq_ids g).

(** The body of the loop of [_beam_search_sample] for a group that
    samples: its (next_token_ids, parent_ids). *)
Definition beam_search_group (g : SequenceGroupToSample)
    (logprobs : matrix) (sample_idx : nat)
    : option (list nat * list nat) :=
  let num_parent_seqs := length (seq_ids g) in
  let beam_width := best_of (sampling_params g) in
  let seq_group_logprobs := take num_parent_seqs (drop sample_idx logprobs) in
  if is_prompt g then
    (* Prompt phase. *)
    if decide (num_parent_seqs = 1)%nat then
      let parent_ids := replicate (2 * beam_width) 0%nat in
      l ← seq_group_logprobs !! 0%nat;
      '(_, next_token_ids) ← topk l (2 * beam_width);
      Some (next_token_ids, parent_ids)
    else None
  else
    (* Generation phase. *)
    cum ← cumulative_logprobs g;
    shifted ← rows_with (fun l c => Some (map (fun x => (x + c)%ext) l))
                        seq_group_logprobs cum;
    '(_, topk_ids) ← topk (concat shifted) (2 * beam_width);
    let vocab_size := vocab_size_of shifted in
    Some (map (fun i => i mod vocab_size)%nat topk_ids,
          map (fun i => i / vocab_size)%nat topk_ids).

Fixpoint beam_search_loop (groups : list SequenceGroupToSample)
    (logprobs : matrix) (sample_idx : nat)
    : option (list (list nat * list nat) * nat) :=
  match groups with
  | [] => Some ([], sample_idx)
  | g :: groups' =>
      if negb (do_sample g) then
        '(results, final) ← beam_search_loop groups' logprobs sample_idx;
        Some (([], []) :: results, final)
      else
        r ← beam_search_group g logprobs sample_idx;
        '(results, final) ←
            beam_search_loop groups' logprobs
                             (sample_idx + length (seq_ids g))%nat;
        Some (r :: results, final)
  end.

Definition _beam_search_sample
    (selected_seq_groups : list SequenceGroupToSample) (logprobs : matrix)
    : option (list (list nat * list nat)) :=
  '(results, sample_idx) ← beam_search_loop selected_seq_groups logprobs 0;
  if decide (sample_idx = length logprobs) then Some results else None.

(** [probs[sample_indices, :] = 0]. *)
Fixpoint zero_rows (probs : matrix) (sample_indices : list nat)
    : option matrix :=
  match sample_indices with
  | [] => Some probs
  | i :: rest =>
      l ← probs !! i;
      zero_rows (<[i := map (fun _ => Fin 0) l]> probs) rest
  end.

(** [probs[sample_indices, greedy_samples] = 1.0]. *)
Fixpoint set_ones (probs : matrix) (sample_indices greedy_samples : list nat)
    : option matrix :=
  match sample_indices, greedy_samples with
  | [], [] => Some probs
  | i :: rest, g :: rest' =>
      l ← probs !! i;
      _ ← l !! g;
      set_ones (<[i := <[g := Fin 1]> l]> probs) rest rest'
  | _, _ => None
  end.

(** [_modify_greedy_probs_inplace]: the two tensors it is handed, after
    the call. *)
Definition _modify_greedy_probs_inplace (logprobs probs : matrix)
    (sample_indices greedy_samples : list nat) : option (matrix * matrix) :=
  probs ← zero_rows probs sample_indices;
  probs ← set_ones probs sample_indices greedy_samples;
  Some (logprobs, probs).

(** The GREEDY branch of the first loop of [_sample_with_torch]: the two
    tensors after it, the greedy samples and the tensor of sampled token
    ids (it exists when [include_gpu_probs_tensor] is set; an entry that
    no branch has written yet reads 0 here).  [sample_indices] are the
    rows of the greedy groups; with none the branch is skipped. *)
Definition sample_greedy_with_torch
    (include_gpu_probs_tensor modify_greedy_probs : bool)
    (probs logprobs : matrix) (sample_indices : list nat)
    : option (matrix * matrix * list nat * option (list nat)) :=
  (* Create output tensor for sampled token ids. *)
  let sampled_token_ids_tensor :=
    if include_gpu_probs_tensor
    then Some (replicate (length logprobs) 0%nat) else None in
  if decide (length sample_indices = 0)%nat
  then Some (logprobs, probs, [], sampled_token_ids_tensor)
  else
    selected ← gather logprobs sample_indices;
    let greedy_samples := map argmax selected in
    (* Store sampled tokens in output tensor. *)
    sampled_token_ids_tensor ←
      match sampled_token_ids_tensor with
      | Some t => Some <$> scatter t sample_indices greedy_samples
      | None => Some None
      end;
    if modify_greedy_probs then
      '(logprobs, probs) ←
          _modify_greedy_probs_inplace logprobs probs sample_indices
                                       greedy_samples;
      Some (logprobs, probs, greedy_samples, sampled_token_ids_tensor)
    else Some (logprobs, probs, greedy_samples, sampled_token_ids_tensor).

(** [forward] passes [self.include_gpu_probs_tensor] for both flags:
    [_should_modify_greedy_probs_inplace] returns it. *)
Definition forward_sample_greedy (include_gpu_probs_tensor : bool)
    (probs logprobs : matrix) (sample_indices : list nat)
    : option (matrix * matrix * list nat * option (list nat)) :=
  sample_greedy_with_torch include_gpu_probs_tensor
    include_gpu_probs_tensor probs logprobs sample_indices.

(** ** The logprob extractor *)

Definition count_greater (l : row) (v : ext) : nat :=
  sum_list (map (fun x => if (x >? v)%ext then 1%nat else 0%nat) l).

Definition rank_row (l : row) (index : nat) : option nat :=
  v ← l !! index;
  Some (count_greater l v + 1)%nat.

(** [_get_ranks(x, indices)]: one rank per row of [x]. *)
Definition _get_ranks (x : matrix) (indices : list nat)
    : option (list nat) :=
  rows_with rank_row x indices.

(** [Logprob] of [aphrodite.common.sequence]: the log-probability of a
    token and, when it was computed, its rank in the vocabulary. *)
Record Logprob : Type := {
  logprob : ext;
  rank : option nat;
}.

Definition Logprob_of (lr : ext * nat) : Logprob :=
  {| logprob := lr.1; rank := Some lr.2 |}.

(** [d.update({top_id: (top_prob, rank) for ... in zip(top_ids, top_probs,
    top_ranks)})]: a later entry replaces an earlier one. *)
Fixpoint update_top (d : gmap nat (ext * nat)) (top_ids : list nat)
    (top_probs : list ext) (top_ranks : list nat) : gmap nat (ext * nat) :=
  match top_ids, top_probs, top_ranks with
  | i :: ids, p :: ps, r :: rs => update_top (<[i := (p, r)]> d) ids ps rs
  | _, _, _ => d
  end.

(** [if num_logprobs is not None and num_logprobs > 0: ...]: the top
    entries of row [top_logprob_idx + parent_id] join the dictionary. *)
Definition add_top_logprobs (num_logprobs : option nat)
    (top_token_ids : option (list (list nat)))
    (top_logprobs : option matrix) (r : nat)
    (d : gmap nat (ext * nat)) : option (gmap nat (ext * nat)) :=
  match num_logprobs with
  | Some n =>
      if (0 <? n)%nat then
        ids ← top_token_ids;
        lps ← top_logprobs;
        top_ids ← ids !! r;
        top_probs ← lps !! r;
        Some (update_top d (take n top_ids) (take n top_probs) (seq 1 n))
      else Some d
  | None => Some d
  end.

(** The body of the loop over the sampled tokens in the branch that reads
    the tensors. *)
Fixpoint sampled_logprob_dicts (num_logprobs : option nat)
    (selected_logprob_items : list ext) (rank_items : list nat)
    (top_token_ids : option (list (list nat)))
    (top_logprobs : option matrix) (top_logprob_idx : nat)
    (idx : nat) (next_token_ids parent_seq_ids : list nat)
    : option (list (gmap nat Logprob)) :=
  match next_token_ids, parent_seq_ids with
  | next_token_id :: toks, parent_id :: parents =>
      lp ← selected_logprob_items !! idx;
      rk ← rank_items !! idx;
      sampled_logprobs_dict ←
        add_top_logprobs num_logprobs top_token_ids top_logprobs
          (top_logprob_idx + parent_id)%nat {[ next_token_id := (lp, rk) ]};
      tl ← sampled_logprob_dicts num_logprobs selected_logprob_items
             rank_items top_token_ids top_logprobs top_logprob_idx (S idx)
             toks parents;
      Some (fmap (M := gmap nat) Logprob_of sampled_logprobs_dict :: tl)
  | _, _ => Some []
  end.

(** [_get_sampled_logprob_if_needed]: (sampled_logprobs, top_logprob_idx,
    selected_logprobs_idx).  The four tensors are [None] when
    [_get_logprobs] skipped the computation. *)
Definition _get_sampled_logprob_if_needed (seq_group : SequenceGroupToSample)
    (sample_result : list nat * list nat)
    (selected_logprobs : option (list ext)) (ranks : option (list nat))
    (top_token_ids : option (list (list nat)))
    (top_logprobs : option matrix)
    (selected_logprobs_idx top_logprob_idx : nat)
    : option (list (gmap nat Logprob) * nat * nat) :=
  let num_logprobs := logprobs (sampling_params seq_group) in
  let use_beam := use_beam_search (sampling_params seq_group) in
  let '(next_token_ids, parent_seq_ids) := sample_result in
  if do_sample seq_group then
    if decide (0 < length next_token_ids)%nat then
      sampled_logprobs ←
        (if bool_decide (num_logprobs = None) && negb use_beam then
           (* Use a dummy logprob *)
           Some (map (fun next_token_id : nat =>
                        ({[ next_token_id :=
                              {| logprob := PInf; rank := None |} ]}
                         : gmap nat Logprob))
                     next_token_ids)
         else
           sel ← selected_logprobs;
           rks ← ranks;
           let selected_logprob_items :=
             take (length next_token_ids) (drop selected_logprobs_idx sel) in
           let rank_items :=
             take (length next_token_ids) (drop selected_logprobs_idx rks) in
           sampled_logprob_dicts num_logprobs selected_logprob_items
             rank_items top_token_ids top_logprobs top_logprob_idx 0
             next_token_ids parent_seq_ids);
      Some (sampled_logprobs,
            (top_logprob_idx + length (seq_ids seq_group))%nat,
            (selected_logprobs_idx + length next_token_ids)%nat)
    else None
  else Some ([], top_logprob_idx, selected_logprobs_idx).

(** ** A rational instance of the transcendental primitives

    Positive and monotone like the exponential, and computable: it is the
    instance at which the examples of this file are evaluated. *)

Definition rational_exp (q : Q) : Q :=
  if Qle_bool 0 q then 1 + q else 1 / (1 - q).

Definition rational_ln (q : Q) : Q :=
  if Qle_bool 1 q then q - 1 else 1 - 1 / q.

Definition rational_sqrt (q : Q) : Q := (q + 1) / 2.

Lemma rational_exp_pos (q : Q) : (0 < rational_exp q)%Q.
Proof.
  unfold rational_exp. destruct (Qle_bool 0 q) eqn:E.
  - apply Qle_bool_iff in E. lra.
  - assert (q < 0)%Q as Hq.
    { apply Qnot_le_lt. intros Hle. apply Qle_bool_iff in Hle. congruence. }
    apply Qlt_shift_div_l; lra.
Qed.

Lemma rational_exp_mono (a b : Q) :
  (a <= b)%Q -> (rational_exp a <= rational_exp b)%Q.
Proof.
  intros Hab. unfold rational_exp.
  destruct (Qle_bool 0 a) eqn:Ea, (Qle_bool 0 b) eqn:Eb.
  - lra.
  - apply Qle_bool_iff in Ea.
    assert (b < 0)%Q.
    { apply Qnot_le_lt. intros Hle. apply Qle_bool_iff in Hle. congruence. }
    lra.
  - apply Qle_bool_iff in Eb.
    assert (a < 0)%Q as Ha.
    { apply Qnot_le_lt. intros Hle. apply Qle_bool_iff in Hle. congruence. }
    apply Qle_shift_div_r; [lra|]. nra.
  - assert (a < 0)%Q as Ha.
    { apply Qnot_le_lt. intros Hle. apply Qle_bool_iff in Hle. congruence. }
    assert (b < 0)%Q as Hb.
    { apply Qnot_le_lt. intros Hle. apply Qle_bool_iff in Hle. congruence. }
    apply Qle_shift_div_r; [lra|].
    assert (1 / (1 - b) * (1 - a) == (1 - a) / (1 - b))%Q as E by (field; lra).
    rewrite E. apply Qle_shift_div_l; lra.
Qed.

Definition rational_math : TorchMath :=
  {| expQ := rational_exp; lnQ := rational_ln; sqrtQ := rational_sqrt;
     expQ_pos := rational_exp_pos; expQ_mono := rational_exp_mono |}.

(** [m[r, t]]. *)
Definition cell (m : matrix) (r t : nat) : option ext :=
  l ← m !! r; l !! t.

(** ** Notions of the specification *)

(** [v] is at least every entry of [l], in the order of [torch.max]. *)
Definition is_row_max (l : row) (v : ext) : Prop :=
  forall y, y ∈ l -> sort_leb y v = true.


(** The row of [n] entries with 1 at [g] and 0 elsewhere. *)
Definition one_hot (n g : nat) : row := <[g := Fin 1]> (replicate n (Fin 0)).

(** The rows of [logprobs] that the groups before a group consume. *)
Definition rows_before (groups : list SequenceGroupToSample) : nat :=
  sum_list (map (fun g => if do_sample g then length (seq_ids g) else 0%nat)
                groups).

(** The penalty coefficients of a row at their neutral values. *)
Definition neutral_penalty_row (p : PenaltyRow) : Prop :=
  ext_equiv (pr_presence p) (Fin 0)
  /\ ext_equiv (pr_frequency p) (Fin 0)
  /\ ext_equiv (pr_repetition p) (Fin 1).

(** An entry of a row of logits on its way through the filters: a finite
    score, or minus infinity once it is masked. *)
Definition regular (x : ext) : bool :=
  match x with
  | NInf | Fin _ => true
  | _ => false
  end.

(** A row of regular entries in which at least one token is not masked. *)
Definition live_row (l : row) : bool :=
  forallb regular l && existsb is_finite l.

(** A logits matrix of live rows. *)
Definition live (logits : matrix) : Prop :=
  Forall (fun l => live_row l = true) logits.

(** Probabilities of a row of logits: positive on the finite logits and
    zero on the masked ones. *)
Definition probs_of (l probs : row) : Prop :=
  forall i x, l !! i = Some x ->
    exists p, probs !! i = Some (Fin p)
              /\ (x = NInf -> (p == 0)%Q) /\ (is_finite x = true -> (0 < p)%Q).

(** A finite value above zero. *)
Definition positive_finite (x : ext) : bool :=
  match x with
  | Fin q => Qltb 0 q
  | _ => false
  end.

(** The stages of [forward] before the truncation filters. *)
Definition stages_before_filters : list Stage :=
  [MinTokensGate; Penalties; TemperatureScaling].

(** The adaptive truncation filters, in the order of [forward]. *)
Definition truncation_filters : list Stage :=
  [TopKTopP; TopA; MinP; TailFree; EtaCutoff; EpsilonCutoff;
   TypicalSampling].

(** The bound on the parameters of row [r] under which no truncation
    filter masks the whole row: its [top_a] and its [min_p] are at most 1
    (these two filters have no exemption of their own). *)
Definition row_bounded (t : SamplingTensors) (r : nat) : Prop :=
  (forall a, top_as t !! r = Some a -> (a <=? Fin 1)%ext = true)
  /\ (forall a, min_ps t !! r = Some a -> (a <=? Fin 1)%ext = true).

(** A row with an entry that is not minus infinity. *)
Definition keeps_a_token (l : row) : Prop :=
  exists k x, l !! k = Some x /\ x <> NInf.

(** Neither infinity. *)
Definition not_infinite (x : ext) : Prop :=
  match x with
  | NInf | PInf => False
  | _ => True
  end.

Definition Qsum (l : list Q) : Q := foldr Qplus 0%Q l.

Section Weights.
Context `{TorchMath}.

(** The weight [exp (x - m)] of a regular entry, as a rational. *)
Definition weight (qm : Q) (x : ext) : Q :=
  match x with
  | Fin q => expQ (q - qm)
  | _ => 0%Q
  end.

(** The total weight of a row. *)
Definition total_weight (qm : Q) (l : row) : Q := Qsum (map (weight qm) l).

(** The probability that [softmax] gives an entry of a live row whose
    greatest entry is [qm]. *)
Definition prob (qm : Q) (l : row) (x : ext) : Q :=
  (weight qm x / total_weight qm l)%Q.

End Weights.

(** ** Example batches *)

(** A batch of one decoding group: sequence 7 has produced one token, the
    policy asks for at least three and gates the stop token 0. *)
Definition gated_params : SamplingParams :=
  {| min_tokens := 3; all_stop_token_ids := [0%nat]; best_of := 1;
     logprobs := None; prompt_logprobs := None; use_beam_search := false;
     sampling_type := GREEDY |}.

Definition gated_sequence : SequenceData :=
  {| output_token_ids_array := [4%nat]; cumulative_logprob := Fin 0 |}.

Definition gated_group : SequenceGroupToSample :=
  {| seq_ids := [7%nat]; sampling_params := gated_params;
     seq_data := {[ 7%nat := gated_sequence ]};
     is_prompt := false; do_sample := true;
     sample_indices := [0%nat]; prompt_logprob_indices := [] |}.

Definition gated_batch : SamplingMetadata :=
  {| seq_groups := [gated_group]; reuse_sampling_tensors := false;
     skip_sampler_cpu_output := false |}.

(** Parameter tensors for one row with every filter family inactive. *)
Definition neutral_tensors : SamplingTensors :=
  {| temperatures := [Fin 1]; top_ps := [Fin 1]; top_ks := [2%Z];
     top_as := [Fin 0]; min_ps := [Fin 0]; tfss := [Fin 1];
     eta_cutoffs := [Fin 0]; epsilon_cutoffs := [Fin 0];
     typical_ps := [Fin 1]; smoothing_factors := [Fin 0];
     smoothing_curves := [Fin 1]; presence_penalties := [Fin 0];
     frequency_penalties := [Fin 0]; repetition_penalties := [Fin 1];
     prompt_tokens := [[2%nat]]; output_tokens := [[2%nat]] |}.

Definition neutral_cache : SamplerCache :=
  {| _sampling_tensors := neutral_tensors; _do_penalties := false;
     _do_top_p_top_k := false; _do_top_as := false; _do_min_p := false;
     _do_tfss := false; _do_eta_cutoffs := false;
     _do_epsilon_cutoffs := false; _do_typical_ps := false;
     _do_quadratic := false |}.

(** A batch of one decoding group that gates nothing. *)
Definition plain_params : SamplingParams :=
  {| min_tokens := 0; all_stop_token_ids := []; best_of := 1;
     logprobs := None; prompt_logprobs := None; use_beam_search := false;
     sampling_type := GREEDY |}.

Definition plain_group : SequenceGroupToSample :=
  {| seq_ids := [7%nat]; sampling_params := plain_params;
     seq_data := {[ 7%nat := gated_sequence ]};
     is_prompt := false; do_sample := true;
     sample_indices := [0%nat]; prompt_logprob_indices := [] |}.

Definition plain_batch : SamplingMetadata :=
  {| seq_groups := [plain_group]; reuse_sampling_tensors := false;
     skip_sampler_cpu_output := false |}.

(** The same batch, with the caller's flag set. *)
Definition reuse_batch : SamplingMetadata :=
  {| seq_groups := [plain_group]; reuse_sampling_tensors := true;
     skip_sampler_cpu_output := false |}.

(** A bundle for one row of two tokens with a presence penalty of 1;
    token 1 is in the output so far (2 is the padding id). *)
Definition penalised_cache : SamplerCache :=
  {| _sampling_tensors :=
       {| temperatures := [Fin 1]; top_ps := [Fin 1]; top_ks := [2%Z];
          top_as := [Fin 0]; min_ps := [Fin 0]; tfss := [Fin 1];
          eta_cutoffs := [Fin 0]; epsilon_cutoffs := [Fin 0];
          typical_ps := [Fin 1]; smoothing_factors := [Fin 0];
          smoothing_curves := [Fin 1]; presence_penalties := [Fin 1];
          frequency_penalties := [Fin 0]; repetition_penalties := [Fin 1];
          prompt_tokens := [[2%nat]]; output_tokens := [[1%nat]] |};
     _do_penalties := true; _do_top_p_top_k := false; _do_top_as := false;
     _do_min_p := false; _do_tfss := false; _do_eta_cutoffs := false;
     _do_epsilon_cutoffs := false; _do_typical_ps := false;
     _do_quadratic := false |}.

(** A builder that finds penalties active in the batch. *)
Definition penalising_builder (sampling_metadata : SamplingMetadata)
    (vocab_size : nat) : SamplerCache :=
  penalised_cache.

(** A prompt of one sequence under beam search of width 2. *)
Definition beam_group : SequenceGroupToSample :=
  {| seq_ids := [5%nat];
     sampling_params :=
       {| min_tokens := 0; all_stop_token_ids := []; best_of := 2;
          logprobs := None; prompt_logprobs := None;
          use_beam_search := true; sampling_type := BEAM |};
     seq_data := {[ 5%nat := {| output_token_ids_array := [];
                                cumulative_logprob := Fin 0 |} ]};
     is_prompt := true; do_sample := true;
     sample_indices := [0%nat]; prompt_logprob_indices := [] |}.

Definition beam_row : row := [Fin (-3); Fin (-1); Fin (-2); Fin (-5); Fin (-4)].

(** Parameter tensors for one row of three tokens; [a] is the row's
    [top_a], and every filter family is active. *)
Definition filtering_tensors (a : ext) : SamplingTensors :=
  {| temperatures := [Fin 1]; top_ps := [Fin (9 # 10)]; top_ks := [3%Z];
     top_as := [a]; min_ps := [Fin (1 # 10)]; tfss := [Fin (1 # 2)];
     eta_cutoffs := [Fin (1 # 100)]; epsilon_cutoffs := [Fin (1 # 100)];
     typical_ps := [Fin (9 # 10)]; smoothing_factors := [Fin (1 # 2)];
     smoothing_curves := [Fin 1]; presence_penalties := [Fin 0];
     frequency_penalties := [Fin 0]; repetition_penalties := [Fin 1];
     prompt_tokens := [[3%nat]]; output_tokens := [[3%nat]] |}.

Definition filtering_cache (a : ext) : SamplerCache :=
  {| _sampling_tensors := filtering_tensors a; _do_penalties := false;
     _do_top_p_top_k := true; _do_top_as := true; _do_min_p := true;
     _do_tfss := true; _do_eta_cutoffs := true;
     _do_epsilon_cutoffs := true; _do_typical_ps := true;
     _do_quadratic := true |}.

(** The same with only the top-a family active. *)
Definition top_a_cache (a : ext) : SamplerCache :=
  {| _sampling_tensors := filtering_tensors a; _do_penalties := false;
     _do_top_p_top_k := false; _do_top_as := true; _do_min_p := false;
     _do_tfss := false; _do_eta_cutoffs := false;
     _do_epsilon_cutoffs := false; _do_typical_ps := false;
     _do_quadratic := false |}.

(** ** Further functions and notions *)

(** The number of times [t] is in [tokens]. *)
Definition occurrences (tokens : list nat) (t : nat) : nat :=
  length (List.filter (Nat.eqb t) tokens).

(** A group that is past its minimum, or has no stop token, adds nothing
    to the gate. *)
Definition gate_inactive (g : SequenceGroupToSample) : Prop :=
  do_sample g = true ->
  sample_indices g <> []
  /\ (min_tokens (sampling_params g) = 0%nat
      \/ all_stop_token_ids (sampling_params g) = []).

(** [o] is [l] with some of its entries set to minus infinity. *)
Definition masked_from (l o : row) : Prop :=
  length o = length l
  /\ forall t x, l !! t = Some x -> o !! t = Some x \/ o !! t = Some NInf.

(** The stages that truncate the distribution. *)
Definition masking_stages : list Stage :=
  [TopKTopP; TopA; MinP; TailFree; EtaCutoff; EpsilonCutoff; TypicalSampling].

(** A beam-search group in the generation phase: two live beams (the
    sequences 3 and 4) of width 1. *)
Definition beam_decode_group : SequenceGroupToSample :=
  {| seq_ids := [3%nat; 4%nat];
     sampling_params :=
       {| min_tokens := 0; all_stop_token_ids := []; best_of := 1;
          logprobs := None; prompt_logprobs := None;
          use_beam_search := true; sampling_type := BEAM |};
     seq_data :=
       {[ 3%nat := {| output_token_ids_array := [1%nat];
                      cumulative_logprob := Fin (-1) |};
          4%nat := {| output_token_ids_array := [0%nat];
                      cumulative_logprob := Fin (-3) |} ]};
     is_prompt := false; do_sample := true;
     sample_indices := [0%nat; 1%nat]; prompt_logprob_indices := [] |}.

(** A decoding group that asks for the log-probabilities of the two most
    likely tokens. *)
Definition logprob_group : SequenceGroupToSample :=
  {| seq_ids := [7%nat];
     sampling_params :=
       {| min_tokens := 0; all_stop_token_ids := []; best_of := 1;
          logprobs := Some 2%nat; prompt_logprobs := None;
          use_beam_search := false; sampling_type := RANDOM |};
     seq_data := {[ 7%nat := gated_sequence ]};
     is_prompt := false; do_sample := true;
     sample_indices := [0%nat]; prompt_logprob_indices := [] |}.

(** The number of top log-probabilities that a request asks for. *)
Definition requested (num_logprobs : option nat) : nat :=
  default 0%nat num_logprobs.

(** An entry of a log-probability dictionary that comes from the top-k
    table: its rank is its position there, between 1 and [n]. *)
Definition top_entry (n : nat) (e : Logprob) : Prop :=
  exists r, rank e = Some r /\ (1 <= r <= n)%nat.

(** ** [_apply_token_bans] and [_get_custom_token_bans] *)

(** The loop of [_apply_token_bans], from row [i] on: an empty list of
    banned ids is skipped; [logits[i, banned_token_ids] = -inf] needs the
    row [i] and every banned id to exist. *)
Fixpoint token_bans_loop (logits : matrix) (i : nat)
    (banned_tokens : list (list nat)) : option matrix :=
  match banned_tokens with
  | [] => Some logits
  | banned_token_ids :: rest =>
      if bool_decide (banned_token_ids = [])
      then token_bans_loop logits (S i) rest
      else
        logits ← set_all_neg_inf logits
                   (map (fun t => (i, t)) banned_token_ids);
        token_bans_loop logits (S i) rest
  end.

Definition _apply_token_bans (logits : matrix)
    (banned_tokens : list (list nat)) : option matrix :=
  token_bans_loop logits 0 banned_tokens.

Section CustomTokenBans.

(** The fields that only [_get_custom_token_bans] reads:
    [sampling_params.custom_token_bans] and
    [sampling_metadata.num_prompts]. *)
Variable custom_token_bans : SamplingParams -> list nat.
Variable num_prompts : SamplingMetadata -> nat.

(** The loop over [enumerate(seq_groups)], from position [i] on.  A
    prompt group with prompt log-probabilities gets its ban list
    [prompt_len - 1] more times ([list * n] is empty for a negative
    [n]). *)
Fixpoint custom_token_bans_loop (sampling_metadata : SamplingMetadata)
    (i : nat) (groups : list SequenceGroupToSample) : list (list nat) :=
  match groups with
  | [] => []
  | seq_group :: rest =>
      let sampling_params := sampling_params seq_group in
      let custom_token_bans := custom_token_bans sampling_params in
      (if (i <? num_prompts sampling_metadata)%nat
          && negb (bool_decide (prompt_logprobs sampling_params = None))
       then replicate (length (prompt_logprob_indices seq_group) - 1)
                      custom_token_bans
       else [])
      ++ replicate (length (seq_ids seq_group)) custom_token_bans
      ++ custom_token_bans_loop sampling_metadata (S i) rest
  end.

Definition _get_custom_token_bans (sampling_metadata : SamplingMetadata)
    : list (list nat) :=
  custom_token_bans_loop sampling_metadata 0 (seq_groups sampling_metadata).

(** The number of ban lists that the group at position [i] receives. *)
Definition group_ban_rows (sampling_metadata : SamplingMetadata) (i : nat)
    (seq_group : SequenceGroupToSample) : nat :=
  ((if (i <? num_prompts sampling_metadata)%nat
       && negb (bool_decide
                  (prompt_logprobs (sampling_params seq_group) = None))
    then length (prompt_logprob_indices seq_group) - 1 else 0)
   + length (seq_ids seq_group))%nat.

(** The number of ban lists of the groups [groups], which stand at the
    positions from [i] on. *)
Fixpoint ban_rows_before (sampling_metadata : SamplingMetadata) (i : nat)
    (groups : list SequenceGroupToSample) : nat :=
  match groups with
  | [] => 0
  | seq_group :: rest =>
      (group_ban_rows sampling_metadata i seq_group
       + ban_rows_before sampling_metadata (S i) rest)%nat
  end.

End CustomTokenBans.

(** A row [r] and a token [t] that some ban list names. *)
Definition banned (banned_tokens : list (list nat)) (r t : nat) : Prop :=
  exists ids, banned_tokens !! r = Some ids /\ t ∈ ids.

(** ** [_greedy_sample] and [_random_sample] *)

(** The loop of [_greedy_sample] from [sample_idx] on: a group that does
    not sample gets [([], [])]; a sampling group must have one sequence
    and takes [samples[sample_idx]]. *)
Fixpoint greedy_sample_loop (selected_seq_groups : list SequenceGroupToSample)
    (samples : list nat) (sample_idx : nat)
    : option (list (list nat * list nat)) :=
  match selected_seq_groups with
  | [] => Some []
  | seq_group :: rest =>
      if negb (do_sample seq_group) then
        results ← greedy_sample_loop rest samples sample_idx;
        Some (([], []) :: results)
      else
        let num_parent_seqs := length (seq_ids seq_group) in
        if decide (num_parent_seqs = 1)%nat then
          let parent_ids := seq 0 num_parent_seqs in
          next_token_id ← samples !! sample_idx;
          results ← greedy_sample_loop rest samples
                      (sample_idx + num_parent_seqs);
          Some (([next_token_id], parent_ids) :: results)
        else None
  end.

Definition _greedy_sample (selected_seq_groups : list SequenceGroupToSample)
    (samples : list nat) : option (list (list nat * list nat)) :=
  greedy_sample_loop selected_seq_groups samples 0.

(** The body of the loop of [_random_sample] for a sampling group.
    [random_samples] has one row per sampled row and one column per draw
    (it is what [_multinomial] returned, so it has a column). *)
Definition random_sample_group (seq_group : SequenceGroupToSample)
    (random_samples : list (list nat)) (sample_idx : nat)
    : option (list nat * list nat) :=
  let sampling_params := sampling_params seq_group in
  let num_parent_seqs := length (seq_ids seq_group) in
  if is_prompt seq_group then
    (* Prompt phase. *)
    let parent_ids := replicate (best_of sampling_params) 0%nat in
    r ← random_samples !! sample_idx;
    Some (take (best_of sampling_params) r, parent_ids)
  else
    (* Generation phase. *)
    let parent_ids := seq 0 num_parent_seqs in
    next_token_ids ←
      mapM (fun r : list nat => r !! 0%nat)
           (take num_parent_seqs (drop sample_idx random_samples));
    Some (next_token_ids, parent_ids).

Fixpoint random_sample_loop (selected_seq_groups : list SequenceGroupToSample)
    (random_samples : list (list nat)) (sample_idx : nat)
    : option (list (list nat * list nat)) :=
  match selected_seq_groups with
  | [] => Some []
  | seq_group :: rest =>
      if negb (do_sample seq_group) then
        results ← random_sample_loop rest random_samples sample_idx;
        Some (([], []) :: results)
      else
        r ← random_sample_group seq_group random_samples sample_idx;
        results ← random_sample_loop rest random_samples
                    (sample_idx + length (seq_ids seq_group));
        Some (r :: results)
  end.

Definition _random_sample (selected_seq_groups : list SequenceGroupToSample)
    (random_samples : list (list nat))
    : option (list (list nat * list nat)) :=
  random_sample_loop selected_seq_groups random_samples 0.

(** The number of groups of a list that sample. *)
Definition sampling_groups (groups : list SequenceGroupToSample) : nat :=
  length (List.filter do_sample groups).

(** ** [_multinomial] *)

(** [probs[:, None, :].expand(n, num_samples, V).contiguous().view(-1, V)]:
    every row [num_samples] times in a row. *)
Definition repeat_rows {A} (num_samples : nat) (m : list A) : list A :=
  m ≫= replicate num_samples.

(** [t.view(-1, num_samples)] of a flat tensor: rows of [num_samples]
    entries; an error when [num_samples] is 0 or does not divide the
    number of entries. *)
Fixpoint view_rows {A} (rows num_samples : nat) (l : list A)
    : list (list A) :=
  match rows with
  | 0%nat => []
  | S rows' =>
      take num_samples l :: view_rows rows' num_samples (drop num_samples l)
  end.

Definition view {A} (num_samples : nat) (l : list A)
    : option (list (list A)) :=
  if decide (0 < num_samples /\ length l mod num_samples = 0)%nat
  then Some (view_rows (length l / num_samples) num_samples l)
  else None.

(** [probs.div_(q)] on one row of the same shape. *)
Definition div_noise (l q : row) : option row :=
  if decide (length q = length l) then Some (zip_with ext_div l q) else None.

(** [tensor.argmax(dim=1)] on one row; torch refuses a reduction over an
    empty dimension. *)
Definition argmax_dim1 (l : row) : option nat :=
  if decide (l = []) then None else Some (argmax l).

(** [_multinomial].  [q] is the noise tensor after [exponential_]: the
    code creates it with the shape of the expanded [probs] and fills it,
    all at once or slice by slice with the generators of [seq_groups];
    the draws are a function of what it then holds. *)
Definition _multinomial (probs : matrix) (num_samples : nat) (q : matrix)
    : option (list (list nat)) :=
  let probs := if (1 <? num_samples)%nat
               then repeat_rows num_samples probs else probs in
  divided ← rows_with div_noise probs q;
  samples ← mapM argmax_dim1 divided;
  view num_samples samples.

(** A probability: finite and not negative. *)
Definition is_probability (x : ext) : bool :=
  match x with
  | Fin p => Qle_bool 0 p
  | _ => false
  end.

(** A loop whose body can raise: the state after the last element, or
    [None] as soon as one step fails. *)
Fixpoint fold_option {S A} (f : S -> A -> option S) (s : S) (l : list A)
    : option S :=
  match l with
  | [] => Some s
  | x :: l' => s' ← f s x; fold_option f s' l'
  end.

(** ** Prompt log-probabilities *)

Section PromptLogprobs.

(** The fields of the batch descriptor that only the prompt
    log-probabilities read: [seq_group.query_len],
    [seq_data.get_num_computed_tokens()] and [seq_data.prompt_token_ids]. *)
Variable query_len : SequenceGroupToSample -> option nat.
Variable get_num_computed_tokens : SequenceData -> nat.
Variable prompt_token_ids : SequenceData -> list nat.

(** [_get_next_prompt_tokens]: the asserts are [None]. *)
Definition _get_next_prompt_tokens (seq_group : SequenceGroupToSample)
    : option (list nat) :=
  if is_prompt seq_group then
    query_len ← query_len seq_group;
    (* prompt has only 1 seq id. *)
    match seq_ids seq_group with
    | [seq_id] =>
        seq_data ← seq_data seq_group !! seq_id;
        let computed_len := get_num_computed_tokens seq_data in
        let prompt_tokens := prompt_token_ids seq_data in
        (* +1 because we are looking for a next prompt token. *)
        let next_token_index_start := (computed_len + 1)%nat in
        let next_token_index_end :=
          min (computed_len + query_len + 1) (length prompt_tokens) in
        Some (take (next_token_index_end - next_token_index_start)
                   (drop next_token_index_start prompt_tokens))
    | _ => None
    end
  else None.

(** The loop over [enumerate(next_prompt_tokens)] of
    [_get_prompt_logprob_if_needed]; [top_logprob_idx] goes up by one per
    token. *)
Fixpoint prompt_logprob_dicts (num_logprobs : nat)
    (selected_logprob_items : list ext) (rank_items : list nat)
    (top_token_ids : option (list (list nat)))
    (top_logprobs : option matrix) (top_logprob_idx : nat)
    (idx : nat) (next_prompt_tokens : list nat)
    : option (list (gmap nat Logprob)) :=
  match next_prompt_tokens with
  | [] => Some []
  | token_id :: toks =>
      lp ← selected_logprob_items !! idx;
      rk ← rank_items !! idx;
      prompt_logprobs_dict ←
        add_top_logprobs (Some num_logprobs) top_token_ids top_logprobs
          top_logprob_idx {[ token_id := (lp, rk) ]};
      tl ← prompt_logprob_dicts num_logprobs selected_logprob_items
             rank_items top_token_ids top_logprobs (S top_logprob_idx)
             (S idx) toks;
      Some (fmap (M := gmap nat) Logprob_of prompt_logprobs_dict :: tl)
  end.

(** [_get_prompt_logprob_if_needed]: (prompt_logprobs, top_logprob_idx,
    selected_logprobs_idx). *)
Definition _get_prompt_logprob_if_needed (seq_group : SequenceGroupToSample)
    (selected_logprobs : option (list ext)) (ranks : option (list nat))
    (top_token_ids : option (list (list nat)))
    (top_logprobs : option matrix)
    (selected_logprobs_idx top_logprob_idx : nat)
    : option (option (list (gmap nat Logprob)) * nat * nat) :=
  let sampling_params := sampling_params seq_group in
  match is_prompt seq_group, prompt_logprobs sampling_params with
  | true, Some num_logprobs =>
      next_prompt_tokens ← _get_next_prompt_tokens seq_group;
      sel ← selected_logprobs;
      rks ← ranks;
      let selected_logprob_items :=
        take (length next_prompt_tokens) (drop selected_logprobs_idx sel) in
      let rank_items :=
        take (length next_prompt_tokens) (drop selected_logprobs_idx rks) in
      prompt_logprobs ←
        prompt_logprob_dicts num_logprobs selected_logprob_items rank_items
          top_token_ids top_logprobs top_logprob_idx 0 next_prompt_tokens;
      Some (Some prompt_logprobs,
            (top_logprob_idx + length next_prompt_tokens)%nat,
            (selected_logprobs_idx + length next_prompt_tokens)%nat)
  | _, _ => Some (None, top_logprob_idx, selected_logprobs_idx)
  end.

(** The variables of the first loop of [_get_logprobs]. *)
Record LogprobQuery : Type := {
  query_indices : list nat;
  next_token_ids : list nat;
  largest_num_logprobs : Z;
  lq_use_beam_search : bool;
}.

(** The body of the first loop of [_get_logprobs]. *)
Definition logprob_query_step (q : LogprobQuery)
    (gs : SequenceGroupToSample * (list nat * list nat))
    : option LogprobQuery :=
  let '(seq_group, sample_result) := gs in
  let sampling_params := sampling_params seq_group in
  (* Update indices and tokens for prompt logprobs. *)
  q ← match is_prompt seq_group, prompt_logprobs sampling_params with
      | true, Some n =>
          next_prompt_tokens ← _get_next_prompt_tokens seq_group;
          Some {| query_indices :=
                    query_indices q ++ prompt_logprob_indices seq_group;
                  next_token_ids := next_token_ids q ++ next_prompt_tokens;
                  largest_num_logprobs :=
                    Z.max (largest_num_logprobs q) (Z.of_nat n);
                  lq_use_beam_search := lq_use_beam_search q |}
      | _, _ => Some q
      end;
  (* Update indices and next tokens for sample logprob. *)
  q ← (if do_sample seq_group then
         let '(token_ids, parent_seq_ids) := sample_result in
         query_idx ← sample_indices seq_group !! 0%nat;
         Some {| query_indices :=
                   query_indices q
                   ++ map (fun parent_id => query_idx + parent_id)%nat
                          parent_seq_ids;
                 next_token_ids := next_token_ids q ++ token_ids;
                 largest_num_logprobs :=
                   match logprobs sampling_params with
                   | Some n => Z.max (largest_num_logprobs q) (Z.of_nat n)
                   | None => largest_num_logprobs q
                   end;
                 lq_use_beam_search :=
                   lq_use_beam_search q || use_beam_search sampling_params |}
       else Some q);
  if decide (length (next_token_ids q) = length (query_indices q))
  then Some q else None.

(** The tensors that [_get_logprobs] computes between its two loops:
    (selected_logprobs, ranks, top_logprobs, top_token_ids), all [None]
    when no log-probability is asked for. *)
Definition logprob_tensors (logprobs : matrix) (q : LogprobQuery)
    : option (option (list ext) * option (list nat)
              * option matrix * option (list (list nat))) :=
  if (0 <=? largest_num_logprobs q)%Z || lq_use_beam_search q then
    selected_logprobs ←
      mapM (fun rt : nat * nat => cell logprobs rt.1 rt.2)
           (zip (query_indices q) (next_token_ids q));
    rows ← gather logprobs (query_indices q);
    ranks ← _get_ranks rows (next_token_ids q);
    (* We need to compute top k only if there exists logprobs > 0. *)
    if (0 <? largest_num_logprobs q)%Z then
      top ← mapM (fun l => topk l (Z.to_nat (largest_num_logprobs q)))
                 logprobs;
      Some (Some selected_logprobs, Some ranks, Some (top.*1), Some (top.*2))
    else Some (Some selected_logprobs, Some ranks, None, None)
  else Some (None, None, None, None).

(** The variables of the second loop of [_get_logprobs]. *)
Record LogprobResults : Type := {
  prompt_logprobs_per_seq_group : list (option (list (gmap nat Logprob)));
  sample_logprobs_per_seq_group : list (list (gmap nat Logprob));
  lr_top_logprob_idx : nat;
  lr_selected_logprobs_idx : nat;
}.

Definition logprob_results_step
    (selected_logprobs : option (list ext)) (ranks : option (list nat))
    (top_token_ids : option (list (list nat)))
    (top_logprobs : option matrix)
    (s : LogprobResults)
    (gs : SequenceGroupToSample * (list nat * list nat))
    : option LogprobResults :=
  let '(seq_group, sample_result) := gs in
  '(prompt_logprobs, top_logprob_idx, selected_logprobs_idx) ←
    _get_prompt_logprob_if_needed seq_group selected_logprobs ranks
      top_token_ids top_logprobs (lr_selected_logprobs_idx s)
      (lr_top_logprob_idx s);
  '(sampled_logprobs, top_logprob_idx, selected_logprobs_idx) ←
    _get_sampled_logprob_if_needed seq_group sample_result
      selected_logprobs ranks top_token_ids top_logprobs
      selected_logprobs_idx top_logprob_idx;
  Some {| prompt_logprobs_per_seq_group :=
            prompt_logprobs_per_seq_group s ++ [prompt_logprobs];
          sample_logprobs_per_seq_group :=
            sample_logprobs_per_seq_group s ++ [sampled_logprobs];
          lr_top_logprob_idx := top_logprob_idx;
          lr_selected_logprobs_idx := selected_logprobs_idx |}.

(** [_get_logprobs]: (prompt logprobs, sample logprobs) per sequence
    group. *)
Definition _get_logprobs (logprobs : matrix)
    (sampling_metadata : SamplingMetadata)
    (sample_results : list (list nat * list nat))
    : option (list (option (list (gmap nat Logprob)))
              * list (list (gmap nat Logprob))) :=
  let pairs := zip (seq_groups sampling_metadata) sample_results in
  q ← fold_option logprob_query_step
        {| query_indices := []; next_token_ids := [];
           largest_num_logprobs := (-1)%Z; lq_use_beam_search := false |}
        pairs;
  if decide (length (query_indices q) = 0)%nat then Some ([None], [[]])
  else
    '(selected_logprobs, ranks, top_logprobs, top_token_ids) ←
      logprob_tensors logprobs q;
    s ← fold_option
          (logprob_results_step selected_logprobs ranks top_token_ids
                                top_logprobs)
          {| prompt_logprobs_per_seq_group := [];
             sample_logprobs_per_seq_group := [];
             lr_top_logprob_idx := 0; lr_selected_logprobs_idx := 0 |}
          pairs;
    Some (prompt_logprobs_per_seq_group s, sample_logprobs_per_seq_group s).

End PromptLogprobs.

(** A prompt group in the middle of a chunked prefill: the prompt of
    sequence 7 holds five tokens, two are computed, the chunk has two
    query tokens and asks for one top log-probability per position. *)
Definition prompt_group : SequenceGroupToSample :=
  {| seq_ids := [7%nat];
     sampling_params :=
       {| min_tokens := 0; all_stop_token_ids := []; best_of := 1;
          logprobs := None; prompt_logprobs := Some 1%nat;
          use_beam_search := false; sampling_type := GREEDY |};
     seq_data := {[ 7%nat := {| output_token_ids_array := [];
                                cumulative_logprob := Fin 0 |} ]};
     is_prompt := true; do_sample := false;
     sample_indices := []; prompt_logprob_indices := [0%nat; 1%nat] |}.

Definition prompt_tokens_example : list nat := [10; 11; 12; 13; 14]%nat.

(** A pair (group, sample result) for which [_get_logprobs] queries no
    row: no prompt log-probability index and no parent sequence. *)
Definition queries_nothing
    (gs : SequenceGroupToSample * (list nat * list nat)) : Prop :=
  (is_prompt gs.1 = true ->
   prompt_logprobs (sampling_params gs.1) <> None ->
   prompt_logprob_indices gs.1 = [])
  /\ (do_sample gs.1 = true -> gs.2.2 = []).

(** The placeholder dictionary of a sampled token. *)
Definition placeholder_logprob (next_token_id : nat) : gmap nat Logprob :=
  {[ next_token_id := {| logprob := PInf; rank := None |} ]}.

(** A group that asks for no log-probability at all. *)
Definition asks_no_logprobs (g : SequenceGroupToSample) : Prop :=
  logprobs (sampling_params g) = None
  /\ prompt_logprobs (sampling_params g) = None
  /\ use_beam_search (sampling_params g) = false.

(** ** [_build_sampler_output]

    The three output classes of [aphrodite.common.sequence], with the
    fields that the sampler fills, in the order of its constructor
    calls. *)

Record SequenceOutput : Type := {
  parent_seq_id : nat;
  output_token : nat;
  so_logprobs : gmap nat Logprob;
}.

Record CompletionSequenceGroupOutput : Type := {
  samples : list SequenceOutput;
  cs_prompt_logprobs : option (list (gmap nat Logprob));
}.

(** The tensor of sampled token ids: one entry per row, [None] where no
    branch of the sampler has written ([torch.empty]). *)
Abbreviation token_ids_tensor := (list (option nat)).

Record SamplerOutput : Type := {
  outputs : list CompletionSequenceGroupOutput;
  sampled_token_probs : option matrix;
  sampled_token_ids : option token_ids_tensor;
  out_logprobs : option matrix;
}.

(** The inner loop: one [SequenceOutput] per entry of
    [zip(parent_ids, next_token_ids, group_sample_logprobs)]. *)
Fixpoint seq_outputs_loop (seq_ids : list nat)
    (parent_ids next_token_ids : list nat)
    (group_sample_logprobs : list (gmap nat Logprob))
    : option (list SequenceOutput) :=
  match parent_ids, next_token_ids, group_sample_logprobs with
  | parent_id :: parent_ids, next_token_id :: next_token_ids,
    logprobs :: group_sample_logprobs =>
      seq_id ← seq_ids !! parent_id;
      tl ← seq_outputs_loop seq_ids parent_ids next_token_ids
             group_sample_logprobs;
      Some ({| parent_seq_id := seq_id; output_token := next_token_id;
               so_logprobs := logprobs |} :: tl)
  | _, _, _ => Some []
  end.

(** The outer loop, over [zip(seq_groups, sample_results, prompt_logprobs,
    sample_logprobs)]. *)
Fixpoint sampler_output_loop (groups : list SequenceGroupToSample)
    (sample_results : list (list nat * list nat))
    (prompt_logprobs : list (option (list (gmap nat Logprob))))
    (sample_logprobs : list (list (gmap nat Logprob)))
    : option (list CompletionSequenceGroupOutput) :=
  match groups, sample_results, prompt_logprobs, sample_logprobs with
  | seq_group :: groups, sample_result :: sample_results,
    group_prompt_logprobs :: prompt_logprobs,
    group_sample_logprobs :: sample_logprobs =>
      let '(next_token_ids, parent_ids) := sample_result in
      seq_outputs ← seq_outputs_loop (seq_ids seq_group) parent_ids
                      next_token_ids group_sample_logprobs;
      tl ← sampler_output_loop groups sample_results prompt_logprobs
             sample_logprobs;
      Some ({| samples := seq_outputs;
               cs_prompt_logprobs := group_prompt_logprobs |} :: tl)
  | _, _, _, _ => Some []
  end.

Definition _build_sampler_output
    (sample_results : list (list nat * list nat))
    (sampling_metadata : SamplingMetadata)
    (prompt_logprobs : option (list (option (list (gmap nat Logprob)))))
    (sample_logprobs : option (list (list (gmap nat Logprob))))
    (on_device_tensors : option (matrix * matrix * token_ids_tensor))
    (skip_sampler_cpu_output : bool) : option SamplerOutput :=
  sampler_output ←
    (if negb skip_sampler_cpu_output then
       prompt_logprobs ← prompt_logprobs;
       sample_logprobs ← sample_logprobs;
       sampler_output_loop (seq_groups sampling_metadata) sample_results
         prompt_logprobs sample_logprobs
     else Some []);
  (* If not specified, store None values in SamplerOutput. *)
  Some (match on_device_tensors with
        | Some (sampled_token_probs, logprobs_tensor, sampled_token_ids) =>
            {| outputs := sampler_output;
               sampled_token_probs := Some sampled_token_probs;
               sampled_token_ids := Some sampled_token_ids;
               out_logprobs := Some logprobs_tensor |}
        | None =>
            {| outputs := sampler_output; sampled_token_probs := None;
               sampled_token_ids := None; out_logprobs := None |}
        end).

(** The output for the two beams of [beam_decode_group] when token 9
    continues the second beam and token 8 the first one. *)
Definition beam_decode_batch : SamplingMetadata :=
  {| seq_groups := [beam_decode_group]; reuse_sampling_tensors := false;
     skip_sampler_cpu_output := false |}.

Definition beam_decode_output : SamplerOutput :=
  {| outputs :=
       [{| samples := [{| parent_seq_id := 4; output_token := 9;
                          so_logprobs := placeholder_logprob 9 |};
                       {| parent_seq_id := 3; output_token := 8;
                          so_logprobs := placeholder_logprob 8 |}];
           cs_prompt_logprobs := None |}];
     sampled_token_probs := None; sampled_token_ids := None;
     out_logprobs := None |}.

(** ** [_sample_with_torch] *)

#[global] Instance SamplingType_eq_dec : EqDecision SamplingType.
Proof. solve_decision. Defined.

(** [categorized_seq_group_ids[t]]: the positions, from [i] on, of the
    groups whose sampling type is [t]. *)
Fixpoint categorize_from (i : nat) (groups : list SequenceGroupToSample)
    (t : SamplingType) : list nat :=
  match groups with
  | [] => []
  | seq_group :: rest =>
      if decide (sampling_type (sampling_params seq_group) = t)
      then i :: categorize_from (S i) rest t
      else categorize_from (S i) rest t
  end.

Definition categorized_seq_group_ids (groups : list SequenceGroupToSample)
    (t : SamplingType) : list nat :=
  categorize_from 0 groups t.

(** What the first loop keeps of a sampling type for the second one:
    [greedy_samples], [multinomial_samples[sampling_type]] or
    [beam_search_logprobs]. *)
Inductive Drawn : Type :=
| GreedySamples (greedy_samples : list nat)
| MultinomialSamples (multinomial_samples : list (list nat))
| BeamSearchLogprobs (beam_search_logprobs : matrix).

(** The state of the first loop: the probabilities (greedy rows are
    rewritten in place), the tensor of sampled token ids, and
    [sample_metadata] with the draws of each type, in the order of the
    loop. *)
Record TorchSampling : Type := {
  ts_probs : matrix;
  ts_sampled_token_ids_tensor : option token_ids_tensor;
  ts_sample_metadata : list (list nat * list SequenceGroupToSample * Drawn);
}.

(** [max_best_of_in_batch]. *)
Definition max_best_of (seq_groups : list SequenceGroupToSample) : nat :=
  foldl (fun m g => if is_prompt g
                    then max m (best_of (sampling_params g)) else m)
        1%nat seq_groups.

(** [sample_results_dict.update(zip(seq_group_id, sample_results))]. *)
Definition dict_update {V} (d : gmap nat V) (kvs : list (nat * V))
    : gmap nat V :=
  foldl (fun d kv => <[kv.1 := kv.2]> d) d kvs.

(** The second loop: the draws of a type become the results of its
    groups. *)
Definition sample_second_loop_step (d : gmap nat (list nat * list nat))
    (entry : list nat * list SequenceGroupToSample * Drawn)
    : option (gmap nat (list nat * list nat)) :=
  let '(seq_group_id, seq_groups, drawn) := entry in
  sample_results ←
    match drawn with
    | GreedySamples greedy_samples =>
        _greedy_sample seq_groups greedy_samples
    | MultinomialSamples multinomial_samples =>
        _random_sample seq_groups multinomial_samples
    | BeamSearchLogprobs beam_search_logprobs =>
        _beam_search_sample seq_groups beam_search_logprobs
    end;
  Some (dict_update d (zip seq_group_id sample_results)).

Section SampleWithTorch.

(** [sampling_metadata.categorized_sample_indices[t][:, 0]], the rows of
    the groups of each sampling type, and the noise that [_multinomial]
    draws for the two random types. *)
Variable categorized_sample_indices : SamplingType -> list nat.
Variable noise : SamplingType -> matrix.

(** The body of the first loop, for one sampling type. *)
Definition sample_first_loop_step (logprobs : matrix)
    (sampling_metadata : SamplingMetadata)
    (include_gpu_probs_tensor modify_greedy_probs : bool)
    (st : TorchSampling) (sampling_type : SamplingType)
    : option TorchSampling :=
  let sample_indices := categorized_sample_indices sampling_type in
  let num_tokens := length sample_indices in
  if decide (num_tokens = 0)%nat then Some st
  else
    let seq_group_id :=
      categorized_seq_group_ids (seq_groups sampling_metadata)
                                sampling_type in
    seq_groups ← mapM (fun i => seq_groups sampling_metadata !! i)
                      seq_group_id;
    match sampling_type with
    | GREEDY =>
        selected ← gather logprobs sample_indices;
        greedy_samples ← mapM argmax_dim1 selected;
        (* Store sampled tokens in output tensor. *)
        tensor ←
          match ts_sampled_token_ids_tensor st with
          | Some t =>
              Some <$> scatter t sample_indices (Some <$> greedy_samples)
          | None => Some None
          end;
        probs ←
          (if modify_greedy_probs then
             '(_, probs) ←
               _modify_greedy_probs_inplace logprobs (ts_probs st)
                 sample_indices greedy_samples;
             Some probs
           else Some (ts_probs st));
        Some {| ts_probs := probs;
                ts_sampled_token_ids_tensor := tensor;
                ts_sample_metadata :=
                  ts_sample_metadata st
                  ++ [(seq_group_id, seq_groups,
                       GreedySamples greedy_samples)] |}
    | RANDOM | RANDOM_SEED =>
        let max_best_of_in_batch := max_best_of seq_groups in
        selected ← gather (ts_probs st) sample_indices;
        multinomial_samples ←
          _multinomial selected max_best_of_in_batch (noise sampling_type);
        (* Store sampled tokens in output tensor: a tensor of one column
           takes the draws only when there is one draw per row. *)
        tensor ←
          match ts_sampled_token_ids_tensor st with
          | Some t =>
              if decide (max_best_of_in_batch = 1)%nat then
                draws ← mapM (fun r : list nat => r !! 0%nat)
                             multinomial_samples;
                Some <$> scatter t sample_indices (Some <$> draws)
              else None
          | None => Some None
          end;
        Some {| ts_probs := ts_probs st;
                ts_sampled_token_ids_tensor := tensor;
                ts_sample_metadata :=
                  ts_sample_metadata st
                  ++ [(seq_group_id, seq_groups,
                       MultinomialSamples multinomial_samples)] |}
    | BEAM =>
        beam_search_logprobs ← gather logprobs sample_indices;
        Some {| ts_probs := ts_probs st;
                ts_sampled_token_ids_tensor :=
                  ts_sampled_token_ids_tensor st;
                ts_sample_metadata :=
                  ts_sample_metadata st
                  ++ [(seq_group_id, seq_groups,
                       BeamSearchLogprobs beam_search_logprobs)] |}
    end.

(** [_sample_with_torch]: (sample_results, sampled_token_ids_tensor), and
    the probabilities as the call leaves them.  The sampling types are
    visited in the order of the enumeration. *)
Definition _sample_with_torch (probs logprobs : matrix)
    (sampling_metadata : SamplingMetadata)
    (include_gpu_probs_tensor modify_greedy_probs : bool)
    : option (list (list nat * list nat) * option token_ids_tensor
              * matrix) :=
  (* Create output tensor for sampled token ids. *)
  let sampled_token_ids_tensor :=
    if include_gpu_probs_tensor
    then Some (replicate (length logprobs) None) else None in
  st ← fold_option
         (sample_first_loop_step logprobs sampling_metadata
            include_gpu_probs_tensor modify_greedy_probs)
         {| ts_probs := probs;
            ts_sampled_token_ids_tensor := sampled_token_ids_tensor;
            ts_sample_metadata := [] |}
         [GREEDY; RANDOM; RANDOM_SEED; BEAM];
  sample_results ←
    (if negb (skip_sampler_cpu_output sampling_metadata) then
       d ← fold_option sample_second_loop_step ∅ (ts_sample_metadata st);
       Some (map (fun i => default ([], []) (d !! i))
                 (seq 0 (length (seq_groups sampling_metadata))))
     else Some []);
  Some (sample_results, ts_sampled_token_ids_tensor st, ts_probs st).

(** [_sample] hands over to [_sample_with_torch]. *)
Definition _sample (probs logprobs : matrix)
    (sampling_metadata : SamplingMetadata)
    (include_gpu_probs_tensor modify_greedy_probs : bool)
    : option (list (list nat * list nat) * option token_ids_tensor
              * matrix) :=
  _sample_with_torch probs logprobs sampling_metadata
    include_gpu_probs_tensor modify_greedy_probs.

End SampleWithTorch.

(** The groups of a sampling type. *)
Definition of_type (t : SamplingType) (g : SequenceGroupToSample) : bool :=
  bool_decide (sampling_type (sampling_params g) = t).

(** A batch of two greedy decoding groups around one that draws at
    random, with the rows that the batch builder assigns to them. *)
Definition random_group : SequenceGroupToSample :=
  {| seq_ids := [8%nat];
     sampling_params :=
       {| min_tokens := 0; all_stop_token_ids := []; best_of := 1;
          logprobs := None; prompt_logprobs := None;
          use_beam_search := false; sampling_type := RANDOM |};
     seq_data := {[ 8%nat := gated_sequence ]};
     is_prompt := false; do_sample := true;
     sample_indices := [1%nat]; prompt_logprob_indices := [] |}.

Definition mixed_batch : SamplingMetadata :=
  {| seq_groups := [plain_group; random_group; plain_group];
     reuse_sampling_tensors := false; skip_sampler_cpu_output := false |}.

Definition mixed_sample_indices (t : SamplingType) : list nat :=
  match t with
  | GREEDY => [0; 2]%nat
  | RANDOM => [1%nat]
  | _ => []
  end.

Definition mixed_noise (t : SamplingType) : matrix :=
  [[Fin 1; Fin 1; Fin 1]].

Definition mixed_logprobs : matrix :=
  [[Fin (-3); Fin (-1); Fin (-2)];
   [Fin (-1); Fin (-2); Fin (-3)];
   [Fin (-2); Fin (-3); Fin (-1)]].

Definition mixed_probs : matrix :=
  [[Fin (1 # 10); Fin (6 # 10); Fin (3 # 10)];
   [Fin (6 # 10); Fin (3 # 10); Fin (1 # 10)];
   [Fin (3 # 10); Fin (1 # 10); Fin (6 # 10)]].

(** ** [Sampler.forward], to the end *)

Section ForwardOutput.
Context `{TorchMath}.

Variable from_sampling_metadata : SamplingMetadata -> nat -> SamplerCache.
Variable categorized_sample_indices : SamplingType -> list nat.
Variable noise : SamplingType -> matrix.
Variable query_len : SequenceGroupToSample -> option nat.
Variable get_num_computed_tokens : SequenceData -> nat.
Variable prompt_token_ids : SequenceData -> list nat.

(** [forward]: the sampler's cache after the call and the
    [SamplerOutput].  [include_gpu_probs_tensor] is the attribute of the
    sampler; [_should_modify_greedy_probs_inplace] returns it. *)
Definition forward_output (self : option SamplerCache)
    (include_gpu_probs_tensor : bool) (logits : matrix)
    (sampling_metadata : SamplingMetadata)
    : option (SamplerCache * SamplerOutput) :=
  '(c, logits) ← forward from_sampling_metadata self logits
                   sampling_metadata;
  (* Compute the probabilities. *)
  let probs := map softmax logits in
  (* Compute the log probabilities. *)
  let logprobs := map log_softmax logits in
  (* Sample the next tokens. *)
  '(sample_results, maybe_sampled_tokens_tensor, probs) ←
    _sample categorized_sample_indices noise probs logprobs
      sampling_metadata include_gpu_probs_tensor include_gpu_probs_tensor;
  on_device_tensors ←
    (if include_gpu_probs_tensor then
       t ← maybe_sampled_tokens_tensor;
       Some (Some (probs, logprobs, t))
     else Some None);
  (* Get the logprobs query results. *)
  '(prompt_logprobs, sample_logprobs) ←
    (if negb (skip_sampler_cpu_output sampling_metadata) then
       '(p, s) ← _get_logprobs query_len get_num_computed_tokens
                   prompt_token_ids logprobs sampling_metadata
                   sample_results;
       Some (Some p, Some s)
     else Some (None, None));
  out ← _build_sampler_output sample_results sampling_metadata
          prompt_logprobs sample_logprobs on_device_tensors
          (skip_sampler_cpu_output sampling_metadata);
  Some (c, out).

End ForwardOutput.

(** One greedy decoding group, its row of logits and what [forward]
    returns for it. *)
Definition greedy_sample_indices (t : SamplingType) : list nat :=
  match t with
  | GREEDY => [0%nat]
  | _ => []
  end.

Definition plain_logits : matrix := [[Fin 1; Fin 3; Fin 2]].

Definition plain_output : SamplerOutput :=
  {| outputs :=
       [{| samples :=
             [{| parent_seq_id := 7%nat; output_token := 1%nat;
                 so_logprobs := placeholder_logprob 1 |}];
           cs_prompt_logprobs := None |}];
     sampled_token_probs := None; sampled_token_ids := None;
     out_logprobs := None |}.

(** * Theorems *)

(** ** Lists *)

Lemma lookup_map {A B} (f : A -> B) (l : list A) (i : nat) :
  map f l !! i = f <$> l !! i.
Proof.
  revert i. induction l as [|x l IH]; intros [|i]; simpl; done.
Qed.

(** ** The minimum-token gate *)

Lemma set_neg_inf_hit (m m' : matrix) (rt : nat * nat) :
  set_neg_inf m rt = Some m' -> cell m' rt.1 rt.2 = Some NInf.
Proof.
  unfold set_neg_inf, cell. intros Hs.
  destruct (m !! rt.1) as [l|] eqn:El; simpl in Hs; [|done].
  destruct (l !! rt.2) as [x|] eqn:Ex; simpl in Hs; [|done].
  injection Hs as <-.
  rewrite list_lookup_insert_eq by (by eapply lookup_lt_Some). simpl.
  apply list_lookup_insert_eq. by eapply lookup_lt_Some.
Qed.

Lemma set_neg_inf_keeps (m m' : matrix) (rt : nat * nat) (r t : nat) :
  set_neg_inf m rt = Some m' ->
  cell m r t = Some NInf -> cell m' r t = Some NInf.
Proof.
  destruct rt as [r' t']. unfold set_neg_inf, cell. simpl. intros Hs Hc.
  destruct (m !! r') as [l|] eqn:El; simpl in Hs; [|done].
  destruct (l !! t') as [x|] eqn:Ex; simpl in Hs; [|done].
  injection Hs as <-.
  destruct (decide (r' = r)) as [->|Hr].
  - rewrite El in Hc. simpl in Hc.
    rewrite list_lookup_insert_eq by (by eapply lookup_lt_Some). simpl.
    destruct (decide (t' = t)) as [->|Ht].
    + apply list_lookup_insert_eq. by eapply lookup_lt_Some.
    + by rewrite list_lookup_insert_ne.
  - by rewrite list_lookup_insert_ne.
Qed.

Lemma set_all_neg_inf_keeps (rts : list (nat * nat)) (m m' : matrix)
    (r t : nat) :
  set_all_neg_inf m rts = Some m' ->
  cell m r t = Some NInf -> cell m' r t = Some NInf.
Proof.
  revert m. induction rts as [|rt rts IH]; intros m Hs Hc; simpl in Hs.
  - by injection Hs as <-.
  - destruct (set_neg_inf m rt) as [m1|] eqn:E1; simpl in Hs; [|done].
    eapply IH; [done|]. by eapply set_neg_inf_keeps.
Qed.

Lemma set_all_neg_inf_hit (rts : list (nat * nat)) (m m' : matrix)
    (r t : nat) :
  (r, t) ∈ rts ->
  set_all_neg_inf m rts = Some m' -> cell m' r t = Some NInf.
Proof.
  revert m. induction rts as [|rt rts IH]; intros m Hin Hs; simpl in Hs.
  - by apply elem_of_nil in Hin.
  - destruct (set_neg_inf m rt) as [m1|] eqn:E1; simpl in Hs; [|done].
    apply elem_of_cons in Hin as [<-|Hin].
    + eapply set_all_neg_inf_keeps; [done|].
      by apply (set_neg_inf_hit m m1 (r, t)).
    + by eapply IH.
Qed.

Lemma set_all_neg_inf_length (rts : list (nat * nat)) (m m' : matrix) :
  set_all_neg_inf m rts = Some m' -> length m' = length m.
Proof.
  revert m. induction rts as [|rt rts IH]; intros m Hs; simpl in Hs.
  - by injection Hs as <-.
  - destruct (set_neg_inf m rt) as [m1|] eqn:E1; simpl in Hs; [|done].
    rewrite (IH _ Hs). unfold set_neg_inf in E1.
    destruct (m !! rt.1) as [l|]; simpl in E1; [|done].
    destruct (l !! rt.2); simpl in E1; [|done].
    injection E1 as <-. apply length_insert.
Qed.

Lemma seqs_to_penalize_elem (sd : gmap nat SequenceData) (min_tok : nat)
    (ids : list nat) (j0 j seq_id : nat) (d : SequenceData) (js : list nat) :
  seqs_to_penalize sd min_tok j0 ids = Some js ->
  ids !! j = Some seq_id ->
  sd !! seq_id = Some d ->
  (length (output_token_ids_array d) < min_tok)%nat ->
  (j0 + j)%nat ∈ js.
Proof.
  revert j0 j js. induction ids as [|i ids IH]; intros j0 j js Hs Hj Hd Hlen.
  - done.
  - simpl in Hs.
    destruct (sd !! i) as [di|] eqn:Ei; simpl in Hs; [|done].
    destruct (seqs_to_penalize sd min_tok (S j0) ids) as [tl|] eqn:Et;
      simpl in Hs; [|done].
    injection Hs as <-.
    destruct j as [|j]; simpl in Hj.
    + injection Hj as ->. rewrite Hd in Ei. injection Ei as <-.
      apply Nat.ltb_lt in Hlen. rewrite Hlen, Nat.add_0_r. apply list_elem_of_here.
    + specialize (IH (S j0) j tl Et Hj Hd Hlen).
      replace (j0 + S j)%nat with (S j0 + j)%nat by lia.
      destruct (_ <? _)%nat; [by apply list_elem_of_further|done].
Qed.

Lemma group_logits_to_penalize_elem (g : SequenceGroupToSample)
    (here : list (nat * nat)) (j seq_id start tok : nat)
    (d : SequenceData) :
  group_logits_to_penalize g = Some here ->
  do_sample g = true ->
  sample_indices g !! 0%nat = Some start ->
  seq_ids g !! j = Some seq_id ->
  seq_data g !! seq_id = Some d ->
  (length (output_token_ids_array d) < min_tokens (sampling_params g))%nat ->
  tok ∈ all_stop_token_ids (sampling_params g) ->
  ((start + j)%nat, tok) ∈ here.
Proof.
  unfold group_logits_to_penalize. intros Hg Hdo Hstart Hj Hd Hlen Htok.
  rewrite Hdo, Hstart in Hg. simpl in Hg.
  assert ((0 <? min_tokens (sampling_params g))%nat = true) as Hpos
    by (apply Nat.ltb_lt; lia).
  rewrite Hpos in Hg.
  rewrite bool_decide_eq_false_2 in Hg
    by (intros E; rewrite E in Htok; by apply elem_of_nil in Htok).
  simpl in Hg.
  destruct (seqs_to_penalize _ _ _ _) as [js|] eqn:Ejs; simpl in Hg; [|done].
  injection Hg as <-.
  apply list_elem_of_In, in_prod; [|by apply list_elem_of_In].
  apply (in_map (fun j => start + j)%nat), list_elem_of_In.
  by apply (seqs_to_penalize_elem _ _ _ 0 j seq_id d js Ejs).
Qed.

Lemma min_tokens_loop_elem (groups : list SequenceGroupToSample)
    (g : SequenceGroupToSample) (all here : list (nat * nat))
    (applied : nat) (rt : nat * nat) :
  min_tokens_loop groups = Some (all, applied) ->
  g ∈ groups ->
  group_logits_to_penalize g = Some here ->
  rt ∈ here -> rt ∈ all.
Proof.
  revert all applied.
  induction groups as [|g' groups IH]; intros all applied Hl Hg Hh Hrt.
  - by apply elem_of_nil in Hg.
  - simpl in Hl.
    destruct (group_logits_to_penalize g') as [h'|] eqn:E'; simpl in Hl;
      [|done].
    destruct (min_tokens_loop groups) as [[later ap]|] eqn:El; simpl in Hl;
      [|done].
    injection Hl as <- <-.
    apply elem_of_app. apply elem_of_cons in Hg as [->|Hg].
    + left. rewrite Hh in E'. by injection E' as <-.
    + right. by eapply IH.
Qed.

Lemma min_tokens_loop_defined (groups : list SequenceGroupToSample)
    (g : SequenceGroupToSample) (res : list (nat * nat) * nat) :
  min_tokens_loop groups = Some res ->
  g ∈ groups ->
  is_Some (group_logits_to_penalize g).
Proof.
  revert res. induction groups as [|g' groups IH]; intros res Hl Hg.
  - by apply elem_of_nil in Hg.
  - simpl in Hl.
    destruct (group_logits_to_penalize g') as [h'|] eqn:E'; simpl in Hl;
      [|done].
    destruct (min_tokens_loop groups) as [later|] eqn:El; simpl in Hl;
      [|done].
    apply elem_of_cons in Hg as [->|Hg]; [by eexists|by eapply IH].
Qed.

(** The gate: a stop token of a sequence that is short of its minimum is
    at minus infinity in the tensor the gate returns. *)
Lemma min_tokens_gate_masks (logits gated : matrix) (md : SamplingMetadata)
    (g : SequenceGroupToSample) (j seq_id start tok : nat)
    (d : SequenceData) :
  _apply_min_tokens_penalty logits md = Some gated ->
  g ∈ seq_groups md ->
  do_sample g = true ->
  sample_indices g !! 0%nat = Some start ->
  seq_ids g !! j = Some seq_id ->
  seq_data g !! seq_id = Some d ->
  (length (output_token_ids_array d) < min_tokens (sampling_params g))%nat ->
  tok ∈ all_stop_token_ids (sampling_params g) ->
  cell gated (start + j) tok = Some NInf.
Proof.
  unfold _apply_min_tokens_penalty.
  intros Hgate Hg Hdo Hstart Hj Hd Hlen Htok.
  destruct (min_tokens_loop (seq_groups md)) as [[all applied]|] eqn:El;
    simpl in Hgate; [|done].
  destruct (set_all_neg_inf logits all) as [m|] eqn:Es; simpl in Hgate;
    [|done].
  case_decide; [|done]. injection Hgate as <-.
  destruct (min_tokens_loop_defined _ g _ El Hg) as [here Hhere].
  eapply set_all_neg_inf_hit; [|done].
  eapply min_tokens_loop_elem; [done..|].
  by eapply group_logits_to_penalize_elem.
Qed.

(** ** The order of the pipeline *)

Section ForwardOrder.
Context `{TorchMath}.

(** [forward] runs the stages of the specified order that are active for
    the batch, each on the logits of the one before it. *)
Lemma forward_logits_stages (c : SamplerCache) (logits : matrix)
    (md : SamplingMetadata) :
  forward_logits c logits md
  = run_stages (run_stage c md)
               (List.filter (stage_active c) specified_order) logits.
Proof.
  unfold forward_logits, specified_order. simpl.
  destruct (_apply_min_tokens_penalty logits md) as [l1|]; simpl; [|done].
  destruct (_do_penalties c); simpl;
    [destruct (_apply_penalties _ _ _ _ _ _); simpl; [|done]|];
  (destruct (temperature_scaling _ _); simpl; [|done]);
  (destruct (_do_top_p_top_k c); simpl;
    [destruct (_apply_top_k_top_p _ _ _); simpl; [|done]|]);
  (destruct (_do_top_as c); simpl;
    [destruct (_apply_top_a _ _); simpl; [|done]|]);
  (destruct (_do_min_p c); simpl;
    [destruct (_apply_min_p _ _); simpl; [|done]|]);
  (destruct (_do_tfss c); simpl;
    [destruct (_apply_tfs _ _); simpl; [|done]|]);
  (destruct (_do_eta_cutoffs c); simpl;
    [destruct (_apply_eta_cutoff _ _); simpl; [|done]|]);
  (destruct (_do_epsilon_cutoffs c); simpl;
    [destruct (_apply_epsilon_cutoff _ _); simpl; [|done]|]);
  (destruct (_do_typical_ps c); simpl;
    [destruct (_apply_typical_sampling _ _); simpl; [|done]|]);
  (destruct (_do_quadratic c); simpl;
    [by destruct (_apply_quadratic_sampling _ _ _)|done]).
Qed.

End ForwardOrder.

(** C1: for every batch, [forward] applies the transforms in the
    specified order (the stages of [specified_order] that are active, each
    on the result of the one before it), the minimum-token gate first:
    the later stages run on the tensor the gate returned, in which the
    logit of a gated stop token (minimum 3, stop token 0, one token
    produced so far in the scenario of the specification) is minus
    infinity. *)
Theorem forward_order_min_tokens_gate_first `{TorchMath}
    (c : SamplerCache) (logits gated : matrix) (md : SamplingMetadata)
    (g : SequenceGroupToSample) (j seq_id start tok : nat)
    (d : SequenceData) :
  _apply_min_tokens_penalty logits md = Some gated ->
  g ∈ seq_groups md ->
  do_sample g = true ->
  sample_indices g !! 0%nat = Some start ->
  seq_ids g !! j = Some seq_id ->
  seq_data g !! seq_id = Some d ->
  (length (output_token_ids_array d) < min_tokens (sampling_params g))%nat ->
  tok ∈ all_stop_token_ids (sampling_params g) ->
  forward_logits c logits md
  = run_stages (run_stage c md)
               (List.filter (stage_active c) specified_order) logits
  /\ cell gated (start + j) tok = Some NInf
  /\ exists later,
       List.filter (stage_active c) specified_order = MinTokensGate :: later
       /\ forward_logits c logits md
          = run_stages (run_stage c md) later gated.
Proof.
  intros Hgate Hg Hdo Hstart Hj Hd Hlen Htok.
  split; [apply forward_logits_stages|].
  split; [by eapply min_tokens_gate_masks|].
  eexists. split; [reflexivity|].
  rewrite forward_logits_stages. simpl. by rewrite Hgate.
Qed.

Lemma forward_order_min_tokens_gate_first_witness :
  forward_logits (H := rational_math) neutral_cache [[Fin 1; Fin 2]]
                 gated_batch
  = run_stages (run_stage (H := rational_math) neutral_cache gated_batch)
      (List.filter (stage_active neutral_cache) specified_order)
      [[Fin 1; Fin 2]]
  /\ cell [[NInf; Fin 2]] (0 + 0) 0 = Some NInf
  /\ exists later,
       List.filter (stage_active neutral_cache) specified_order
       = MinTokensGate :: later
       /\ forward_logits (H := rational_math) neutral_cache
            [[Fin 1; Fin 2]] gated_batch
          = run_stages (run_stage (H := rational_math) neutral_cache
                                  gated_batch)
                       later [[NInf; Fin 2]].
Proof.
  apply (forward_order_min_tokens_gate_first (H := rational_math)
           neutral_cache [[Fin 1; Fin 2]] [[NInf; Fin 2]] gated_batch
           gated_group 0 7 0 0 gated_sequence).
  - reflexivity.
  - apply list_elem_of_here.
  - reflexivity.
  - reflexivity.
  - reflexivity.
  - reflexivity.
  - simpl. lia.
  - apply list_elem_of_here.
Defined.

(** ** Row-wise stages *)

Section RowsWith.
Context {A B : Type} (f : row -> A -> option B).

Lemma rows_with_inv (logits : matrix) (params : list A) (out : list B) :
  rows_with f logits params = Some out ->
  length params = length logits
  /\ length out = length logits
  /\ forall i l p, logits !! i = Some l -> params !! i = Some p ->
       exists o, out !! i = Some o /\ f l p = Some o.
Proof.
  unfold rows_with. case_decide as Hlen; [|done]. intros Hm.
  apply mapM_Some_1 in Hm.
  split; [done|]. split.
  - apply Forall2_length in Hm. rewrite <- Hm, length_zip_with. lia.
  - intros i l p Hl Hp.
    assert (zip logits params !! i = Some (l, p)) as Hz.
    { by apply lookup_zip_Some. }
    destruct (Forall2_lookup_l _ _ _ _ _ Hm Hz) as (o & Ho & Hf).
    by exists o.
Qed.

Lemma rows_with_Forall (P : row -> Prop) (R : A -> Prop) (Q : B -> Prop)
    (logits : matrix) (params : list A) (out : list B) :
  (forall l p o, P l -> R p -> f l p = Some o -> Q o) ->
  Forall P logits -> Forall R params ->
  rows_with f logits params = Some out -> Forall Q out.
Proof.
  intros HPQ HP HR Hrw.
  destruct (rows_with_inv _ _ _ Hrw) as (Hlp & Hlo & Hrows).
  apply Forall_lookup. intros i o Ho.
  destruct (lookup_lt_is_Some_2 logits i) as [l Hl].
  { rewrite <- Hlo. by eapply lookup_lt_Some. }
  destruct (lookup_lt_is_Some_2 params i) as [p Hp].
  { rewrite Hlp. by eapply lookup_lt_Some. }
  destruct (Hrows i l p Hl Hp) as (o' & Ho' & Hf).
  rewrite Ho in Ho'. injection Ho' as <-.
  eapply HPQ; [| |done].
  - by eapply Forall_lookup_1.
  - by eapply Forall_lookup_1.
Qed.

Lemma rows_with_total (logits : matrix) (params : list A) :
  length params = length logits ->
  (forall i l p, logits !! i = Some l -> params !! i = Some p ->
     is_Some (f l p)) ->
  is_Some (rows_with f logits params).
Proof.
  intros Hlen Hf. unfold rows_with. rewrite decide_True by done.
  apply mapM_is_Some_2, Forall_lookup. intros i [l p] Hz.
  apply lookup_zip_Some in Hz as [Hl Hp]. simpl. by eapply Hf.
Qed.

End RowsWith.

(** ** Temperature scaling *)

Lemma temperature_entry_not_zero (t : ext) :
  ext_neqb (temperature_entry t) (Fin 0) = true.
Proof.
  unfold temperature_entry. by destruct (ext_neqb t (Fin 0)) eqn:E.
Qed.

Lemma div_by_one (x : ext) : ext_equiv (x / Fin 1)%ext x.
Proof. destruct x as [|q| |]; simpl; try done. field. Qed.

(** C4: the temperature-scaling step of [forward] divides every logit of
    a row by that row's entry of the temperatures tensor
    ([logits.div_(temperatures.unsqueeze(dim=1))], no test on the entry in
    [forward] itself).  With the entries that the builder makes from the
    rows' temperatures [ts] (entry 1 for a temperature 0), no divisor is
    zero, a row whose temperature is not 0 is divided by it, and a row
    whose temperature is 0 is left with the logits it had. *)
Theorem temperature_scaling_divides_every_row (logits out : matrix)
    (ts : list ext) :
  temperature_scaling logits (map temperature_entry ts) = Some out ->
  length out = length logits
  /\ Forall (fun d => ext_neqb d (Fin 0) = true) (map temperature_entry ts)
  /\ (forall i j l t x,
        logits !! i = Some l -> ts !! i = Some t -> l !! j = Some x ->
        (ext_neqb t (Fin 0) = true -> cell out i j = Some (x / t)%ext)
        /\ (ext_neqb t (Fin 0) = false ->
            exists y, cell out i j = Some y /\ ext_equiv y x)).
Proof.
  intros Ht. unfold temperature_scaling in Ht.
  destruct (rows_with_inv _ _ _ _ Ht) as (Hlt & Hlo & Hrows).
  split; [done|]. split.
  { apply Forall_forall. intros d Hd.
    apply list_elem_of_In, in_map_iff in Hd as (t & <- & _).
    apply temperature_entry_not_zero. }
  intros i j l t x Hl Htemp Hx.
  destruct (Hrows i l (temperature_entry t) Hl) as (o & Ho & Hdiv).
  { by rewrite lookup_map, Htemp. }
  unfold div_row in Hdiv. injection Hdiv as <-.
  assert (cell out i j = Some (x / temperature_entry t)%ext) as Hcell.
  { unfold cell. rewrite Ho. simpl. by rewrite lookup_map, Hx. }
  unfold temperature_entry in Hcell. split; intros Hz; rewrite Hz in Hcell.
  - done.
  - eexists. split; [done|]. apply div_by_one.
Qed.

Lemma temperature_scaling_divides_every_row_witness :
  length [[Fin (1 / 2); Fin (4 / 2)]; [Fin (3 / 1); Fin (5 / 1)]]
  = length [[Fin 1; Fin 4]; [Fin 3; Fin 5]]
  /\ Forall (fun d => ext_neqb d (Fin 0) = true)
            (map temperature_entry [Fin 2; Fin 0])
  /\ (forall i j l t x,
        [[Fin 1; Fin 4]; [Fin 3; Fin 5]] !! i = Some l ->
        [Fin 2; Fin 0] !! i = Some t -> l !! j = Some x ->
        (ext_neqb t (Fin 0) = true ->
         cell [[Fin (1 / 2); Fin (4 / 2)]; [Fin (3 / 1); Fin (5 / 1)]] i j
         = Some (x / t)%ext)
        /\ (ext_neqb t (Fin 0) = false ->
            exists y,
              cell [[Fin (1 / 2); Fin (4 / 2)]; [Fin (3 / 1); Fin (5 / 1)]]
                   i j = Some y
              /\ ext_equiv y x)).
Proof.
  apply (temperature_scaling_divides_every_row
           [[Fin 1; Fin 4]; [Fin 3; Fin 5]]
           [[Fin (1 / 2); Fin (4 / 2)]; [Fin (3 / 1); Fin (5 / 1)]]
           [Fin 2; Fin 0]).
  reflexivity.
Defined.

(** ** Penalties *)

Lemma scatter_add_ones_length (tokens bins bins' : list nat) :
  scatter_add_ones bins tokens = Some bins' -> length bins' = length bins.
Proof.
  revert bins. induction tokens as [|t tokens IH]; intros bins Hs;
    simpl in Hs.
  - by injection Hs as <-.
  - destruct (bins !! t) as [c|]; simpl in Hs; [|done].
    rewrite (IH _ Hs). apply length_insert.
Qed.

Lemma get_bin_counts_and_mask_length (tokens : list nat) (vocab_size : nat)
    (counts : list nat) (mask : list bool) :
  _get_bin_counts_and_mask tokens vocab_size = Some (counts, mask) ->
  length counts = vocab_size /\ length mask = vocab_size.
Proof.
  unfold _get_bin_counts_and_mask. intros Hb.
  destruct (scatter_add_ones _ _) as [bins|] eqn:Es; simpl in Hb; [|done].
  injection Hb as <- <-.
  apply scatter_add_ones_length in Es. rewrite length_replicate in Es.
  rewrite length_map, length_take. lia.
Qed.

(** With presence and frequency at 0 and repetition at 1, an entry keeps
    its value. *)
Lemma penalize_entry_neutral (presence frequency repetition x : ext)
    (seen : bool) (count : nat) (out_seen : bool) :
  ext_equiv presence (Fin 0) -> ext_equiv frequency (Fin 0) ->
  ext_equiv repetition (Fin 1) ->
  ext_equiv (penalize_entry presence frequency repetition x seen count
                            out_seen) x.
Proof.
  destruct presence as [|a| |]; try done.
  destruct frequency as [|b| |]; try done.
  destruct repetition as [|r| |]; try done.
  simpl. intros Ha Hb Hr.
  assert (Qeq_bool r 0 = false) as Hr0.
  { destruct (Qeq_bool r 0) eqn:E; [|done].
    apply Qeq_bool_iff in E. rewrite E in Hr. lra. }
  assert (Qeq_bool 1 0 = false) as H10 by reflexivity.
  assert ((r ?= 0)%Q = Gt) as Hrg by (apply Qgt_alt; rewrite Hr; lra).
  unfold penalize_entry, ext_of_nat, ext_of_bool.
  destruct x as [|q| |]; destruct seen; simpl;
    unfold inf_times; rewrite ?Hrg; simpl; try done.
  - destruct (Qltb 0 q); simpl; rewrite ?Hr0; simpl;
      rewrite Ha, Hb, Hr; field.
  - destruct (Qltb 0 q); simpl; rewrite Ha, Hb; field.
  - destruct (Qltb r 0) eqn:E; [|done].
    unfold Qltb in E. apply negb_true_iff in E.
    assert (0 <= r)%Q as Hle by (rewrite Hr; lra).
    apply Qle_bool_iff in Hle. congruence.
Qed.

Lemma zip_with_Forall2_l {A B} (R : A -> A -> Prop) (f : A -> B -> A)
    (l : list A) (k : list B) :
  (length l <= length k)%nat ->
  (forall x y, R (f x y) x) ->
  Forall2 R (zip_with f l k) l.
Proof.
  intros Hlen Hf. revert k Hlen.
  induction l as [|x l IH]; intros [|y k] Hlen; simpl in *;
    try constructor; try lia; [done|].
  apply IH. lia.
Qed.

Lemma penalties_row_neutral (l o : row) (p : PenaltyRow) :
  neutral_penalty_row p ->
  penalties_row l p = Some o -> Forall2 ext_equiv o l.
Proof.
  intros (Ha & Hb & Hr). unfold penalties_row. intros Hp.
  destruct (_get_bin_counts_and_mask (pr_prompt_tokens p) (length l))
    as [[pc pm]|] eqn:E1; simpl in Hp; [|done].
  destruct (_get_bin_counts_and_mask (pr_output_tokens p) (length l))
    as [[oc om]|] eqn:E2; simpl in Hp; [|done].
  injection Hp as <-.
  apply get_bin_counts_and_mask_length in E1 as [_ Hpm].
  apply get_bin_counts_and_mask_length in E2 as [Hoc Hom].
  apply zip_with_Forall2_l.
  - rewrite !length_zip_with. lia.
  - intros x y. by apply penalize_entry_neutral.
Qed.

Lemma penalty_rows_Forall (P Q R : ext -> Prop) (pt ot : list (list nat))
    (pres freq rep : list ext) (ps : list PenaltyRow) :
  penalty_rows pt ot pres freq rep = Some ps ->
  Forall P pres -> Forall Q freq -> Forall R rep ->
  Forall (fun p => P (pr_presence p) /\ Q (pr_frequency p)
                   /\ R (pr_repetition p)) ps.
Proof.
  revert ot pres freq rep ps.
  induction pt as [|a pt IH];
    intros [|b ot] [|c pres] [|d freq] [|e rep] ps Hp HP HQ HR;
    simpl in Hp; try done.
  - injection Hp as <-. constructor.
  - destruct (penalty_rows pt ot pres freq rep) as [tl|] eqn:Et;
      simpl in Hp; [|done].
    injection Hp as <-.
    apply Forall_cons in HP as [HP1 HP], HQ as [HQ1 HQ], HR as [HR1 HR].
    constructor; [done|]. by eapply IH.
Qed.

(** C5, as the claim states it, fails: the neutral repetition coefficient
    is 1, not 0.  With the three coefficients at zero, the logits -2 and 2
    of two tokens of the prompt become 0 and plus infinity. *)
Lemma penalties_all_zero_not_identity :
  _apply_penalties [[Fin (-2); Fin 2]] [[0%nat; 1%nat]] [[2%nat]]
                   [Fin 0] [Fin 0] [Fin 0]
  = Some [[Fin 0; PInf]].
Proof. reflexivity. Qed.

(** C5, amended: when the frequency and presence coefficients of every
    row are zero and the repetition coefficient of every row is one, the
    penalty stage is the identity: the logits after [_apply_penalties] are
    the logits before it. *)
Theorem penalties_identity_at_neutral (logits out : matrix)
    (prompt_tokens_tensor output_tokens_tensor : list (list nat))
    (presence_penalties frequency_penalties repetition_penalties : list ext) :
  Forall (fun p => ext_equiv p (Fin 0)) presence_penalties ->
  Forall (fun p => ext_equiv p (Fin 0)) frequency_penalties ->
  Forall (fun p => ext_equiv p (Fin 1)) repetition_penalties ->
  _apply_penalties logits prompt_tokens_tensor output_tokens_tensor
    presence_penalties frequency_penalties repetition_penalties = Some out ->
  Forall2 (Forall2 ext_equiv) out logits.
Proof.
  intros Hpres Hfreq Hrep. unfold _apply_penalties. intros Ha.
  destruct (penalty_rows _ _ _ _ _) as [ps|] eqn:Eps; simpl in Ha; [|done].
  pose proof (penalty_rows_Forall _ _ _ _ _ _ _ _ _ Eps Hpres Hfreq Hrep)
    as Hneutral.
  destruct (rows_with_inv _ _ _ _ Ha) as (Hlp & Hlo & Hrows).
  apply Forall2_same_length_lookup_2; [done|].
  intros i o l Ho Hl.
  destruct (lookup_lt_is_Some_2 ps i) as [p Hp].
  { rewrite Hlp. by eapply lookup_lt_Some. }
  destruct (Hrows i l p Hl Hp) as (o' & Ho' & Hrow).
  rewrite Ho in Ho'. injection Ho' as <-.
  eapply penalties_row_neutral; [|done].
  by apply (Forall_lookup_1 _ _ _ _ Hneutral Hp).
Qed.

Lemma penalties_identity_at_neutral_witness :
  Forall2 (Forall2 ext_equiv)
          [[Fin (-2 * 1 - 0 * inject_Z 1 - 0 * 0);
            Fin (2 / 1 - 0 * inject_Z 0 - 0 * 0)]]
          [[Fin (-2); Fin 2]].
Proof.
  apply (penalties_identity_at_neutral [[Fin (-2); Fin 2]] _
           [[0%nat; 2%nat]] [[0%nat]] [Fin 0] [Fin 0] [Fin 1]).
  - repeat constructor.
  - repeat constructor.
  - repeat constructor.
  - reflexivity.
Defined.

(** ** The order of floats *)

Lemma Qltb_lt (a b : Q) : Qltb a b = true <-> (a < b)%Q.
Proof.
  unfold Qltb. rewrite negb_true_iff. split.
  - intros E. apply Qnot_le_lt. intros Hle.
    apply Qle_bool_iff in Hle. congruence.
  - intros Hlt. destruct (Qle_bool b a) eqn:E; [|done].
    apply Qle_bool_iff in E. lra.
Qed.

Lemma Qltb_ge (a b : Q) : Qltb a b = false <-> (b <= a)%Q.
Proof.
  unfold Qltb. rewrite negb_false_iff. apply Qle_bool_iff.
Qed.

Lemma sort_leb_refl (x : ext) : sort_leb x x = true.
Proof.
  destruct x as [|q| |]; simpl; try done. apply Qle_bool_iff. lra.
Qed.

Lemma sort_leb_total (x y : ext) :
  sort_leb x y = true \/ sort_leb y x = true.
Proof.
  destruct x as [|a| |], y as [|b| |]; simpl; auto.
  destruct (Qle_bool a b) eqn:E; [by left|right].
  apply Qle_bool_iff.
  assert (~ (a <= b)%Q) by (intros Hle; apply Qle_bool_iff in Hle; congruence).
  lra.
Qed.

Lemma sort_leb_trans (x y z : ext) :
  sort_leb x y = true -> sort_leb y z = true -> sort_leb x z = true.
Proof.
  destruct x as [|a| |], y as [|b| |], z as [|c| |]; simpl; try done.
  rewrite !Qle_bool_iff. lra.
Qed.

(** A value that is at most [v] in the sorting order is not strictly
    greater than [v]. *)
Lemma sort_leb_not_gtb (y v : ext) :
  sort_leb y v = true -> (y >? v)%ext = false.
Proof.
  unfold ext_gtb.
  destruct y as [|a| |], v as [|b| |]; simpl; try done.
  rewrite Qle_bool_iff, Qltb_ge. lra.
Qed.



(** ** [argmax] *)

Lemma argmax_from_spec (l pre : row) (best : ext) (best_i : nat) :
  pre !! best_i = Some best ->
  is_row_max pre best ->
  exists v, (pre ++ l) !! argmax_from best best_i (length pre) l = Some v
            /\ is_row_max (pre ++ l) v.
Proof.
  revert pre best best_i.
  induction l as [|x l IH]; intros pre best best_i Hb Hmax; simpl.
  - exists best. rewrite app_nil_r. done.
  - replace (pre ++ x :: l) with ((pre ++ [x]) ++ l)
      by (by rewrite <- app_assoc).
    replace (S (length pre)) with (length (pre ++ [x]))
      by (rewrite length_app; simpl; lia).
    destruct (sort_leb x best) eqn:E.
    + apply IH.
      * by apply lookup_app_l_Some.
      * intros y Hy. apply elem_of_app in Hy as [Hy|Hy]; [by apply Hmax|].
        apply list_elem_of_singleton in Hy as ->. done.
    + apply IH.
      * rewrite lookup_app_r by lia. by rewrite Nat.sub_diag.
      * assert (sort_leb best x = true) as Hbx
          by (destruct (sort_leb_total x best); [congruence|done]).
        intros y Hy. apply elem_of_app in Hy as [Hy|Hy].
        -- eapply sort_leb_trans; [by apply Hmax|done].
        -- apply list_elem_of_singleton in Hy as ->. apply sort_leb_refl.
Qed.

(** On a row that is not empty, [argmax] is the position of a greatest
    entry. *)
Lemma argmax_spec (l : row) :
  l <> [] ->
  exists v, l !! argmax l = Some v /\ is_row_max l v.
Proof.
  destruct l as [|x l]; [done|]. intros _. simpl.
  apply (argmax_from_spec l [x] x 0).
  - done.
  - intros y Hy. apply list_elem_of_singleton in Hy as ->.
    apply sort_leb_refl.
Qed.

(** ** Ranks *)






(** ** Greedy sampling and the pinned probabilities *)

Lemma one_hot_lookup (n g t : nat) :
  (g < n)%nat -> (t < n)%nat ->
  one_hot n g !! t = Some (if decide (t = g) then Fin 1 else Fin 0).
Proof.
  intros Hg Ht. unfold one_hot. case_decide as E.
  - subst t. apply list_lookup_insert_eq. by rewrite length_replicate.
  - rewrite list_lookup_insert_ne by done. by apply lookup_replicate_2.
Qed.

Lemma map_const_replicate {A B} (l : list A) (b : B) :
  map (fun _ => b) l = replicate (length l) b.
Proof. induction l as [|x l IH]; simpl; [done|by rewrite IH]. Qed.

Lemma zero_rows_spec (sample_indices : list nat) (probs probs' : matrix) :
  zero_rows probs sample_indices = Some probs' ->
  length probs' = length probs
  /\ forall i,
       (i ∈ sample_indices ->
          exists l, probs !! i = Some l
                    /\ probs' !! i = Some (replicate (length l) (Fin 0)))
       /\ (i ∉ sample_indices -> probs' !! i = probs !! i).
Proof.
  revert probs. induction sample_indices as [|i0 rest IH]; intros probs Hz;
    simpl in Hz.
  - injection Hz as <-. split; [done|]. intros i. split; [|done].
    intros Hi. by apply elem_of_nil in Hi.
  - destruct (probs !! i0) as [l0|] eqn:E0; simpl in Hz; [|done].
    destruct (IH _ Hz) as (Hlen & Hrows).
    split; [by rewrite Hlen, length_insert|].
    intros i. destruct (Hrows i) as (Hin & Hout).
    destruct (decide (i = i0)) as [->|Hne].
    + split; [|intros Hni; exfalso; apply Hni, list_elem_of_here].
      intros _. exists l0. split; [done|].
      destruct (decide (i0 ∈ rest)) as [Hr|Hr].
      * destruct (Hin Hr) as (l & Hl & Hl').
        rewrite list_lookup_insert_eq in Hl by (by eapply lookup_lt_Some).
        injection Hl as <-.
        by rewrite Hl', length_map.
      * rewrite (Hout Hr).
        rewrite list_lookup_insert_eq by (by eapply lookup_lt_Some).
        by rewrite map_const_replicate.
    + rewrite list_lookup_insert_ne in Hin, Hout by done. split.
      * intros Hi. apply elem_of_cons in Hi as [?|Hi]; [done|]. by apply Hin.
      * intros Hi. apply Hout. intros Hr. by apply Hi, list_elem_of_further.
Qed.

Lemma set_ones_spec (G : nat -> nat) (sample_indices greedy : list nat)
    (probs probs' : matrix) :
  set_ones probs sample_indices greedy = Some probs' ->
  Forall2 (fun i g => g = G i) sample_indices greedy ->
  length probs' = length probs
  /\ (forall i, i ∉ sample_indices -> probs' !! i = probs !! i)
  /\ forall i n,
       probs !! i = Some (replicate n (Fin 0))
       \/ (probs !! i = Some (one_hot n (G i)) /\ (G i < n)%nat) ->
       i ∈ sample_indices ->
       probs' !! i = Some (one_hot n (G i)) /\ (G i < n)%nat.
Proof.
  revert greedy probs.
  induction sample_indices as [|i0 rest IH]; intros [|g0 gs] probs Hs HG;
    simpl in Hs; try done.
  - injection Hs as <-. split; [done|]. split; [done|].
    intros i n _ Hi. by apply elem_of_nil in Hi.
  - apply Forall2_cons in HG as [-> HG].
    destruct (probs !! i0) as [l0|] eqn:E0; simpl in Hs; [|done].
    destruct (l0 !! G i0) as [x0|] eqn:Ex; simpl in Hs; [|done].
    destruct (IH _ _ Hs HG) as (Hlen & Hout & Hin).
    split; [by rewrite Hlen, length_insert|]. split.
    { intros i Hi. apply not_elem_of_cons in Hi as [Hne Hi].
      rewrite (Hout i Hi). by apply list_lookup_insert_ne. }
    intros i n Hrow Hi.
    destruct (decide (i = i0)) as [->|Hne].
    + assert (<[i0 := <[G i0 := Fin 1]> l0]> probs !! i0
              = Some (one_hot n (G i0)) /\ (G i0 < n)%nat) as [Hnew Hlt].
      { rewrite list_lookup_insert_eq by (by eapply lookup_lt_Some).
        apply lookup_lt_Some in Ex.
        destruct Hrow as [Hz|[Hh _]]; rewrite E0 in *.
        - injection Hz as ->. by rewrite length_replicate in Ex.
        - injection Hh as ->. unfold one_hot in *.
          rewrite length_insert, length_replicate in Ex.
          by rewrite list_insert_insert_eq. }
      destruct (decide (i0 ∈ rest)) as [Hr|Hr].
      * by apply Hin; [right|].
      * by rewrite (Hout i0 Hr).
    + apply elem_of_cons in Hi as [?|Hi]; [done|].
      apply Hin; [|done]. by rewrite list_lookup_insert_ne.
Qed.

Lemma gather_lookup {A} (l : list A) (index : list nat) (out : list A)
    (k i : nat) :
  gather l index = Some out -> index !! k = Some i ->
  exists x, l !! i = Some x /\ out !! k = Some x.
Proof.
  unfold gather. intros Hg Hk. apply mapM_Some_1 in Hg.
  destruct (Forall2_lookup_l _ _ _ _ _ Hg Hk) as (x & Hx & Hl).
  by exists x.
Qed.

(** C6: when the sampler exposes the on-device probability tensors
    ([include_gpu_probs_tensor] is true), after greedy sampling the row of
    the probability tensor of every greedily sampled row is one-hot: 1 at
    the sampled token (the argmax of the row's log-probabilities), 0 at
    every other index; the log-probability tensor is the one that went in
    (and so are the other rows of the probability tensor). *)
Theorem greedy_probs_pinned_one_hot (probs logprobs probs' logprobs' : matrix)
    (sample_indices greedy_samples : list nat)
    (sampled_token_ids : option (list nat)) :
  forward_sample_greedy true probs logprobs sample_indices
  = Some (logprobs', probs', greedy_samples, sampled_token_ids) ->
  logprobs' = logprobs
  /\ length probs' = length probs
  /\ (forall k i, sample_indices !! k = Some i ->
        exists g lp p p',
          logprobs !! i = Some lp /\ g = argmax lp
          /\ greedy_samples !! k = Some g
          /\ probs !! i = Some p /\ probs' !! i = Some p'
          /\ length p' = length p
          /\ forall t, (t < length p)%nat ->
               p' !! t = Some (if decide (t = g) then Fin 1 else Fin 0))
  /\ (forall i, i ∉ sample_indices -> probs' !! i = probs !! i).
Proof.
  unfold forward_sample_greedy, sample_greedy_with_torch.
  case_decide as Hempty.
  { intros Hs. injection Hs as <- <- <- <-.
    apply nil_length_inv in Hempty as ->.
    split; [done|]. split; [done|]. split; [|done].
    intros k i Hk. by rewrite lookup_nil in Hk. }
  intros Hs.
  destruct (gather logprobs sample_indices) as [selected|] eqn:Eg;
    simpl in Hs; [|done].
  destruct (scatter _ sample_indices _) as [ids|]; simpl in Hs; [|done].
  unfold _modify_greedy_probs_inplace in Hs.
  destruct (zero_rows probs sample_indices) as [p1|] eqn:Ez; simpl in Hs;
    [|done].
  destruct (set_ones p1 sample_indices (map argmax selected)) as [p2|] eqn:Eo;
    simpl in Hs; [|done].
  injection Hs as <- <- <- <-.
  set (G := fun i => argmax (default [] (logprobs !! i))).
  assert (Forall2 (fun i g => g = G i) sample_indices (map argmax selected))
    as HG.
  { apply Forall2_same_length_lookup_2.
    - unfold gather in Eg. apply length_mapM in Eg.
      by rewrite length_map.
    - intros k i g Hi Hg. rewrite lookup_map in Hg.
      destruct (gather_lookup _ _ _ _ _ Eg Hi) as (lp & Hlp & Hsel).
      rewrite Hsel in Hg. injection Hg as <-. unfold G. by rewrite Hlp. }
  destruct (zero_rows_spec _ _ _ Ez) as (Hlen1 & Hz).
  destruct (set_ones_spec G _ _ _ _ Eo HG) as (Hlen2 & Hoout & Hoin).
  split; [done|]. split; [by rewrite Hlen2|]. split.
  - intros k i Hk.
    assert (i ∈ sample_indices) as Hi by (by eapply list_elem_of_lookup_2).
    destruct (gather_lookup _ _ _ _ _ Eg Hk) as (lp & Hlp & Hsel).
    destruct (Hz i) as (Hzin & _). destruct (Hzin Hi) as (p & Hp & Hp1).
    destruct (Hoin i (length p) (or_introl Hp1) Hi) as (Hp2 & Hlt).
    assert (G i = argmax lp) as HGi by (unfold G; by rewrite Hlp).
    exists (argmax lp), lp, p, (one_hot (length p) (G i)).
    split; [done|]. split; [done|]. split.
    { by rewrite lookup_map, Hsel. }
    split; [done|]. split; [done|]. split.
    { unfold one_hot. by rewrite length_insert, length_replicate. }
    intros t Ht. rewrite <- HGi. by apply one_hot_lookup.
  - intros i Hi. destruct (Hz i) as (_ & Hzout).
    by rewrite (Hoout i Hi), (Hzout Hi).
Qed.

Lemma greedy_probs_pinned_one_hot_witness :
  [[Fin (-2); Fin (-1)]; [Fin (-1); Fin (-1)]]
  = [[Fin (-2); Fin (-1)]; [Fin (-1); Fin (-1)]]
  /\ length [[Fin 0; Fin 1]; [Fin (1 # 2); Fin (1 # 2)]]
     = length [[Fin (1 # 4); Fin (3 # 4)]; [Fin (1 # 2); Fin (1 # 2)]]
  /\ (forall k i, [0%nat] !! k = Some i ->
        exists g lp p p',
          [[Fin (-2); Fin (-1)]; [Fin (-1); Fin (-1)]] !! i = Some lp
          /\ g = argmax lp
          /\ [1%nat] !! k = Some g
          /\ [[Fin (1 # 4); Fin (3 # 4)]; [Fin (1 # 2); Fin (1 # 2)]] !! i
             = Some p
          /\ [[Fin 0; Fin 1]; [Fin (1 # 2); Fin (1 # 2)]] !! i = Some p'
          /\ length p' = length p
          /\ forall t, (t < length p)%nat ->
               p' !! t = Some (if decide (t = g) then Fin 1 else Fin 0))
  /\ (forall i, i ∉ [0%nat] ->
        [[Fin 0; Fin 1]; [Fin (1 # 2); Fin (1 # 2)]] !! i
        = [[Fin (1 # 4); Fin (3 # 4)]; [Fin (1 # 2); Fin (1 # 2)]] !! i).
Proof.
  apply (greedy_probs_pinned_one_hot
           [[Fin (1 # 4); Fin (3 # 4)]; [Fin (1 # 2); Fin (1 # 2)]]
           [[Fin (-2); Fin (-1)]; [Fin (-1); Fin (-1)]]
           [[Fin 0; Fin 1]; [Fin (1 # 2); Fin (1 # 2)]]
           [[Fin (-2); Fin (-1)]; [Fin (-1); Fin (-1)]]
           [0%nat] [1%nat] (Some [1%nat; 0%nat])).
  reflexivity.
Defined.

(** ** Sorting *)

#[global] Instance key_rel_total d : Total (key_rel d).
Proof.
  intros p q. unfold key_rel.
  destruct d; [destruct (sort_leb_total q.1 p.1)|
               destruct (sort_leb_total p.1 q.1)];
    rewrite !Is_true_true; auto.
Qed.

#[global] Instance key_rel_trans d : Transitive (key_rel d).
Proof.
  intros p q r. unfold key_rel. rewrite !Is_true_true.
  destruct d; intros H1 H2; eapply sort_leb_trans; done.
Qed.

Section TensorSort.
Variable descending : bool.
Variable l : row.

Lemma tensor_sort_pairs :
  tensor_sort descending l
  = ((sorted_pairs descending l).*1, (sorted_pairs descending l).*2).
Proof. done. Qed.

Lemma sorted_pairs_Permutation :
  (sorted_pairs descending l) ≡ₚ zip l (seq 0 (length l)).
Proof. apply merge_sort_Permutation. Qed.

Lemma sorted_pairs_length : length (sorted_pairs descending l) = length l.
Proof.
  rewrite sorted_pairs_Permutation, length_zip_with, length_seq. lia.
Qed.

Lemma sorted_pairs_indices :
  (sorted_pairs descending l).*2 ≡ₚ seq 0 (length l).
Proof.
  rewrite sorted_pairs_Permutation. rewrite snd_zip; [done|].
  rewrite length_seq. lia.
Qed.

Lemma sorted_pairs_values : (sorted_pairs descending l).*1 ≡ₚ l.
Proof.
  rewrite sorted_pairs_Permutation. rewrite fst_zip; [done|].
  rewrite length_seq. lia.
Qed.

Lemma sorted_pairs_NoDup : NoDup ((sorted_pairs descending l).*2).
Proof. rewrite sorted_pairs_indices. apply NoDup_seq. Qed.

Lemma sorted_pairs_elem (v : ext) (i : nat) :
  (v, i) ∈ (sorted_pairs descending l) <-> l !! i = Some v.
Proof.
  rewrite sorted_pairs_Permutation. split.
  - intros Hin. apply elem_of_lookup_zip_with in Hin
      as (j & x & y & [= -> ->] & Hx & Hy).
    apply lookup_seq in Hy as [-> _]. done.
  - intros Hl. apply elem_of_lookup_zip_with. exists i, v, i.
    split; [done|]. split; [done|].
    apply lookup_seq. split; [done|]. by eapply lookup_lt_Some.
Qed.

Lemma sorted_pairs_lookup (k i : nat) (v : ext) :
  (sorted_pairs descending l) !! k = Some (v, i) -> l !! i = Some v.
Proof.
  intros Hk. apply sorted_pairs_elem. by eapply list_elem_of_lookup_2.
Qed.

Lemma sorted_pairs_sorted :
  StronglySorted (key_rel descending) (sorted_pairs descending l).
Proof. apply StronglySorted_merge_sort; apply _. Qed.

(** Two positions of the sorted order, the first before the second. *)
Lemma sorted_pairs_ordered (a b : nat) (p q : ext * nat) :
  (a < b)%nat ->
  sorted_pairs descending l !! a = Some p ->
  sorted_pairs descending l !! b = Some q ->
  key_rel descending p q.
Proof.
  intros Hab Ha Hb.
  pose proof sorted_pairs_sorted as Hs.
  rewrite <- (take_drop b (sorted_pairs descending l)) in Hs.
  eapply StronglySorted_app_1_elem_of; [done| |].
  - apply list_elem_of_lookup. exists a. by rewrite lookup_take_lt.
  - apply list_elem_of_lookup. exists 0%nat.
    by rewrite lookup_drop, Nat.add_0_r.
Qed.

End TensorSort.

(** ** Beam search, prompt phase *)

Lemma topk_spec (l : row) (k : nat) (values : row) (indices : list nat) :
  topk l k = Some (values, indices) ->
  length indices = k
  /\ NoDup indices
  /\ (forall t, t ∈ indices -> (t < length l)%nat)
  /\ (forall t u x y, t ∈ indices -> u ∉ indices ->
        l !! t = Some x -> l !! u = Some y -> sort_leb y x = true).
Proof.
  unfold topk. case_decide as Hk; [|done].
  rewrite tensor_sort_pairs. intros [= <- <-].
  set (s := sorted_pairs true l).
  assert (length s = length l) as Hlen by apply sorted_pairs_length.
  split; [rewrite length_take, length_fmap; lia|]. split.
  { pose proof (sorted_pairs_NoDup true l) as Hnd. fold s in Hnd.
    rewrite <- (take_drop k (s.*2)) in Hnd.
    by apply NoDup_app in Hnd as (Hnd & _). }
  split.
  { intros t Ht. apply elem_of_take in Ht as (a & Ha & _).
    apply list_lookup_fmap_Some in Ha as ([v t'] & -> & Hs).
    apply sorted_pairs_lookup in Hs. simpl. by eapply lookup_lt_Some. }
  intros t u x y Ht Hu Hx Hy.
  apply elem_of_take in Ht as (a & Ha & Hak).
  apply list_lookup_fmap_Some in Ha as ([v t'] & Ht' & Hs). simpl in Ht'.
  subst t'.
  pose proof (sorted_pairs_lookup _ _ _ _ _ Hs) as Hv.
  rewrite Hx in Hv. injection Hv as <-.
  assert ((y, u) ∈ s) as Hin by (by apply sorted_pairs_elem).
  apply list_elem_of_lookup in Hin as (b & Hb).
  assert (k <= b)%nat as Hkb.
  { destruct (decide (k <= b)%nat) as [|Hlt]; [done|].
    exfalso. apply Hu. apply elem_of_take. exists b. split; [|lia].
    by rewrite list_lookup_fmap, Hb. }
  assert (key_rel true (x, t) (y, u)) as Hrel.
  { eapply (sorted_pairs_ordered true l a b); [lia|done|done]. }
  unfold key_rel in Hrel. simpl in Hrel. by apply Is_true_true.
Qed.

Lemma topk_total (l : row) (k : nat) :
  (k <= length l)%nat -> is_Some (topk l k).
Proof.
  intros Hk. unfold topk. rewrite decide_True by done.
  rewrite tensor_sort_pairs. by eexists.
Qed.

Lemma beam_search_loop_lookup (pre post : list SequenceGroupToSample)
    (g : SequenceGroupToSample) (logprobs : matrix) (sample_idx final : nat)
    (results : list (list nat * list nat)) :
  beam_search_loop (pre ++ g :: post) logprobs sample_idx
  = Some (results, final) ->
  do_sample g = true ->
  exists r,
    beam_search_group g logprobs (sample_idx + rows_before pre) = Some r
    /\ results !! length pre = Some r.
Proof.
  revert sample_idx results.
  induction pre as [|g' pre IH]; intros sample_idx results Hl Hdo;
    simpl in Hl.
  - rewrite Hdo in Hl. simpl in Hl.
    unfold rows_before. simpl. rewrite Nat.add_0_r.
    destruct (beam_search_group g logprobs sample_idx) as [r|]; simpl in Hl;
      [|done].
    destruct (beam_search_loop post logprobs _) as [[rs f]|]; simpl in Hl;
      [|done].
    injection Hl as <- <-. by exists r.
  - unfold rows_before. simpl. fold (rows_before pre).
    destruct (do_sample g'); simpl in Hl.
    + destruct (beam_search_group g' logprobs sample_idx) as [r'|];
        simpl in Hl; [|done].
      destruct (beam_search_loop (pre ++ g :: post) logprobs _)
        as [[rs f]|] eqn:El; simpl in Hl; [|done].
      injection Hl as <- <-.
      destruct (IH _ _ El Hdo) as (r & Hr & Hlk).
      exists r. split; [|done].
      by rewrite Nat.add_assoc.
    + destruct (beam_search_loop (pre ++ g :: post) logprobs _)
        as [[rs f]|] eqn:El; simpl in Hl; [|done].
      injection Hl as <- <-.
      destruct (IH _ _ El Hdo) as (r & Hr & Hlk).
      exists r. split; [|done]. by rewrite Nat.add_0_l.
Qed.

(** C7: a beam-search group in the prompt phase, with its single parent
    sequence and beam width [B] ([best_of]), gets exactly [2 * B]
    candidate token ids, each with parent id 0: the positions of the
    [2 * B] greatest entries of the group's row of log-probabilities (they
    are distinct positions of the row, and no entry outside them is
    greater than one of theirs).  [torch.topk] needs the row to have
    [2 * B] entries. *)
Theorem beam_search_prompt_candidates
    (pre post : list SequenceGroupToSample) (g : SequenceGroupToSample)
    (logprobs : matrix) (l : row) (seq_id B : nat) :
  do_sample g = true ->
  is_prompt g = true ->
  seq_ids g = [seq_id] ->
  best_of (sampling_params g) = B ->
  logprobs !! rows_before pre = Some l ->
  (2 * B <= length l)%nat ->
  exists next_token_ids,
    beam_search_group g logprobs (rows_before pre)
    = Some (next_token_ids, replicate (2 * B) 0%nat)
    /\ (forall results,
          _beam_search_sample (pre ++ g :: post) logprobs = Some results ->
          results !! length pre
          = Some (next_token_ids, replicate (2 * B) 0%nat))
    /\ length next_token_ids = (2 * B)%nat
    /\ NoDup next_token_ids
    /\ (forall t, t ∈ next_token_ids -> (t < length l)%nat)
    /\ (forall t u x y, t ∈ next_token_ids -> u ∉ next_token_ids ->
          l !! t = Some x -> l !! u = Some y -> sort_leb y x = true).
Proof.
  intros Hdo Hprompt Hids HB Hrow H2B.
  destruct (topk_total l (2 * B) H2B) as [[values indices] Htopk].
  assert (beam_search_group g logprobs (rows_before pre)
          = Some (indices, replicate (2 * B) 0%nat)) as Hgroup.
  { unfold beam_search_group. rewrite Hprompt, Hids, HB.
    rewrite decide_True by done.
    rewrite lookup_take_lt by (simpl; lia). rewrite lookup_drop.
    replace (rows_before pre + 0)%nat with (rows_before pre) by lia.
    rewrite Hrow. cbn [mbind option_bind]. by rewrite Htopk. }
  exists indices. split; [done|]. split.
  { intros results Hs. unfold _beam_search_sample in Hs.
    destruct (beam_search_loop _ _ _) as [[rs f]|] eqn:El; simpl in Hs;
      [|done].
    case_decide; [|done]. injection Hs as <-.
    destruct (beam_search_loop_lookup _ _ _ _ _ _ _ El Hdo) as (r & Hr & Hlk).
    simpl in Hr. rewrite Hgroup in Hr. by injection Hr as <-. }
  by apply (topk_spec l (2 * B) values indices).
Qed.

Lemma beam_search_prompt_candidates_witness :
  exists next_token_ids,
    beam_search_group beam_group [beam_row] (rows_before [])
    = Some (next_token_ids, replicate (2 * 2) 0%nat)
    /\ (forall results,
          _beam_search_sample ([] ++ beam_group :: []) [beam_row]
          = Some results ->
          results !! length ([] : list SequenceGroupToSample)
          = Some (next_token_ids, replicate (2 * 2) 0%nat))
    /\ length next_token_ids = (2 * 2)%nat
    /\ NoDup next_token_ids
    /\ (forall t, t ∈ next_token_ids -> (t < length beam_row)%nat)
    /\ (forall t u x y, t ∈ next_token_ids -> u ∉ next_token_ids ->
          beam_row !! t = Some x -> beam_row !! u = Some y ->
          sort_leb y x = true).
Proof.
  apply (beam_search_prompt_candidates [] [] beam_group [beam_row] beam_row
           5 2).
  - reflexivity.
  - reflexivity.
  - reflexivity.
  - reflexivity.
  - reflexivity.
  - simpl. lia.
Defined.

(** The whole function on that batch: the four candidates, greatest
    first. *)
Lemma beam_search_sample_example :
  _beam_search_sample [beam_group] [beam_row]
  = Some [([1; 2; 0; 4]%nat, [0; 0; 0; 0]%nat)].
Proof. reflexivity. Qed.

(** ** The logprob extractor without requested logprobs *)

(** C10: for a group that samples, requests no logprobs and does not use
    beam search, [_get_sampled_logprob_if_needed] returns for every sampled
    token a map from that token to the placeholder log-probability plus
    infinity (with no rank), whatever the tensors of selected
    log-probabilities and ranks hold. *)
Theorem sampled_logprob_placeholder (seq_group : SequenceGroupToSample)
    (next_token_ids parent_seq_ids : list nat)
    (selected_logprobs : option (list ext)) (ranks : option (list nat))
    (top_token_ids : option (list (list nat)))
    (top_logprobs : option matrix)
    (selected_logprobs_idx top_logprob_idx : nat) :
  do_sample seq_group = true ->
  logprobs (sampling_params seq_group) = None ->
  use_beam_search (sampling_params seq_group) = false ->
  (0 < length next_token_ids)%nat ->
  exists sampled_logprobs : list (gmap nat Logprob),
    _get_sampled_logprob_if_needed seq_group
      (next_token_ids, parent_seq_ids) selected_logprobs ranks
      top_token_ids top_logprobs selected_logprobs_idx top_logprob_idx
    = Some (sampled_logprobs,
            (top_logprob_idx + length (seq_ids seq_group))%nat,
            (selected_logprobs_idx + length next_token_ids)%nat)
    /\ length sampled_logprobs = length next_token_ids
    /\ forall k next_token_id,
         next_token_ids !! k = Some next_token_id ->
         sampled_logprobs !! k
         = Some {[ next_token_id := {| logprob := PInf; rank := None |} ]}.
Proof.
  intros Hdo Hnone Hbeam Hlen.
  unfold _get_sampled_logprob_if_needed.
  rewrite Hdo, Hnone, Hbeam. rewrite decide_True by done. simpl.
  eexists. split; [reflexivity|]. split; [by rewrite length_map|].
  intros k t Hk. by rewrite lookup_map, Hk.
Qed.

Lemma sampled_logprob_placeholder_witness :
  exists sampled_logprobs : list (gmap nat Logprob),
    _get_sampled_logprob_if_needed plain_group ([3%nat], [0%nat])
      (Some [Fin (-1)]) (Some [2%nat]) None None 0 0
    = Some (sampled_logprobs,
            (0 + length (seq_ids plain_group))%nat,
            (0 + length [3%nat])%nat)
    /\ length sampled_logprobs = length [3%nat]
    /\ forall k next_token_id,
         [3%nat] !! k = Some next_token_id ->
         sampled_logprobs !! k
         = Some {[ next_token_id := {| logprob := PInf; rank := None |} ]}.
Proof.
  apply (sampled_logprob_placeholder plain_group [3%nat] [0%nat]
           (Some [Fin (-1)]) (Some [2%nat]) None None 0 0).
  - reflexivity.
  - reflexivity.
  - reflexivity.
  - simpl. lia.
Defined.

(** ** Reuse of the cached parameter tensors *)

Section Reuse.
Context `{TorchMath}.
Variable from_sampling_metadata : SamplingMetadata -> nat -> SamplerCache.

(** C9, amended: whether [forward] keeps the cached bundle is decided by
    the caller's flag and by the [_do_penalties] flag that the cached
    bundle itself carries, as recorded when it was built; the batch of the
    call is not looked at.  With the flag unset, or with the cached flag
    true, the call builds a bundle from the batch descriptor in hand and
    works with it, whatever is cached.  With the flag set and the cached
    flag false the call works with the cached bundle and does not consult
    the builder (stated for a bundle whose top-a, min-p and quadratic
    stages are inactive, see [forward]).  With the flag set and nothing
    cached, reading the attribute raises. *)
Theorem sampling_tensors_reuse (self : option SamplerCache)
    (logits : matrix) (md : SamplingMetadata) :
  (reuse_sampling_tensors md = false ->
   forward from_sampling_metadata self logits md
   = out ← forward_logits
             (from_sampling_metadata md (vocab_size_of logits)) logits md;
     Some (from_sampling_metadata md (vocab_size_of logits), out))
  /\ (forall c,
        reuse_sampling_tensors md = true -> self = Some c ->
        _do_penalties c = true ->
        forward from_sampling_metadata self logits md
        = out ← forward_logits
                  (from_sampling_metadata md (vocab_size_of logits))
                  logits md;
          Some (from_sampling_metadata md (vocab_size_of logits), out))
  /\ (forall c,
        reuse_sampling_tensors md = true -> self = Some c ->
        _do_penalties c = false ->
        _do_top_as c = false -> _do_min_p c = false ->
        _do_quadratic c = false ->
        forward from_sampling_metadata self logits md
        = out ← forward_logits c logits md; Some (c, out))
  /\ (reuse_sampling_tensors md = true -> self = None ->
      forward from_sampling_metadata self logits md = None).
Proof.
  unfold forward, prepare_sampling_tensors, _init_sampling_tensors.
  split; [|split; [|split]].
  - by intros ->.
  - intros c -> -> Hp. cbn [negb mbind option_bind]. by rewrite Hp.
  - intros c -> -> Hp _ _ _. cbn [negb mbind option_bind]. by rewrite Hp.
  - by intros -> ->.
Qed.

End Reuse.

(** C9, as the claim states it, fails: the reuse does not depend on the
    penalties of the batch in hand.  The builder finds penalties active in
    the batch (token 1 would lose 1); the cached bundle was built without
    penalties and the caller's flag is set: [forward] works with the
    cached bundle and returns the logits unpenalised, where a call without
    the flag rebuilds and penalises. *)
Lemma reuse_ignores_the_penalties_of_the_batch :
  reuse_sampling_tensors reuse_batch = true
  /\ _do_penalties (penalising_builder reuse_batch 2) = true
  /\ forward (H := rational_math) penalising_builder (Some neutral_cache)
       [[Fin 1; Fin 3]] reuse_batch
     = Some (neutral_cache, [[Fin 1; Fin 3]])
  /\ forward (H := rational_math) penalising_builder (Some neutral_cache)
       [[Fin 1; Fin 3]] plain_batch
     = Some (penalised_cache, [[Fin 1; Fin 2]]).
Proof. repeat split; reflexivity. Qed.

Lemma sampling_tensors_reuse_witness :
  forward (H := rational_math) penalising_builder (Some neutral_cache)
    [[Fin 1; Fin 3]] plain_batch
  = Some (penalised_cache, [[Fin 1; Fin 2]])
  /\ forward (H := rational_math) penalising_builder (Some penalised_cache)
       [[Fin 1; Fin 3]] reuse_batch
     = Some (penalised_cache, [[Fin 1; Fin 2]])
  /\ forward (H := rational_math) penalising_builder (Some neutral_cache)
       [[Fin 1; Fin 3]] reuse_batch
     = Some (neutral_cache, [[Fin 1; Fin 3]])
  /\ forward (H := rational_math) penalising_builder None
       [[Fin 1; Fin 3]] reuse_batch
     = None.
Proof.
  split; [|split; [|split]].
  - destruct (sampling_tensors_reuse (H := rational_math)
                penalising_builder (Some neutral_cache) [[Fin 1; Fin 3]]
                plain_batch) as (H1 & _).
    rewrite (H1 eq_refl). reflexivity.
  - destruct (sampling_tensors_reuse (H := rational_math)
                penalising_builder (Some penalised_cache) [[Fin 1; Fin 3]]
                reuse_batch) as (_ & H2 & _).
    rewrite (H2 penalised_cache eq_refl eq_refl eq_refl). reflexivity.
  - destruct (sampling_tensors_reuse (H := rational_math)
                penalising_builder (Some neutral_cache) [[Fin 1; Fin 3]]
                reuse_batch) as (_ & _ & H3 & _).
    rewrite (H3 neutral_cache eq_refl eq_refl eq_refl eq_refl eq_refl
               eq_refl).
    reflexivity.
  - destruct (sampling_tensors_reuse (H := rational_math)
                penalising_builder None [[Fin 1; Fin 3]] reuse_batch)
      as (_ & _ & _ & H4).
    exact (H4 eq_refl eq_refl).
Defined.

(** ** Undoing a sort: [argsort] and [scatter] *)

#[global] Instance idx_rel_total : Total idx_rel.
Proof. intros p q. unfold idx_rel. lia. Qed.

Lemma Sorted_le_seq (s n : nat) : Sorted le (seq s n).
Proof.
  revert s. induction n as [|n IH]; intros s; simpl; [constructor|].
  constructor; [apply IH|]. destruct n; simpl; constructor. lia.
Qed.

Lemma permutation_of_seq_lt (index : list nat) (k i : nat) :
  index ≡ₚ seq 0 (length index) -> index !! k = Some i ->
  (i < length index)%nat.
Proof.
  intros Hp Hk. apply list_elem_of_lookup_2 in Hk.
  rewrite Hp in Hk. apply elem_of_seq in Hk. lia.
Qed.

(** [argsort] of a permutation of the positions is its inverse. *)
Lemma argsort_inverse (index : list nat) (k i : nat) :
  index ≡ₚ seq 0 (length index) ->
  index !! k = Some i ->
  argsort index !! i = Some k.
Proof.
  intros Hp Hk. unfold argsort.
  set (n := length index) in *.
  set (t := merge_sort idx_rel (zip index (seq 0 n))).
  assert (t ≡ₚ zip index (seq 0 n)) as Ht by apply merge_sort_Permutation.
  assert (t.*1 = seq 0 n) as Hfst.
  { apply (Sorted_unique le).
    - apply (Sorted_fmap _ idx_rel); [done|].
      apply Sorted_merge_sort, _.
    - apply Sorted_le_seq.
    - rewrite Ht, fst_zip; [done|]. rewrite length_seq. unfold n. lia. }
  assert (i < n)%nat as Hi by (by eapply permutation_of_seq_lt).
  assert (NoDup index) as Hnd by (rewrite Hp; apply NoDup_seq).
  destruct (lookup_lt_is_Some_2 t i) as [[a b] Hab].
  { rewrite Ht, length_zip_with, length_seq. unfold n. lia. }
  assert (a = i) as ->.
  { assert (t.*1 !! i = Some a) as Ha by (by rewrite list_lookup_fmap, Hab).
    rewrite Hfst in Ha. apply lookup_seq in Ha. lia. }
  assert ((i, b) ∈ zip index (seq 0 n)) as Hin.
  { rewrite <- Ht. by eapply list_elem_of_lookup_2. }
  apply elem_of_lookup_zip_with in Hin as (j & x & y & [= <- <-] & Hx & Hy).
  apply lookup_seq in Hy as [-> _]. simpl.
  rewrite list_lookup_fmap, Hab. simpl. f_equal.
  by eapply NoDup_lookup.
Qed.

Lemma argsort_Permutation (index : list nat) :
  argsort index ≡ₚ seq 0 (length index).
Proof.
  unfold argsort. rewrite merge_sort_Permutation.
  rewrite snd_zip; [done|]. rewrite length_seq. lia.
Qed.

Lemma argsort_length (index : list nat) :
  length (argsort index) = length index.
Proof.
  unfold argsort. rewrite length_fmap, merge_sort_Permutation.
  rewrite length_zip_with, length_seq. lia.
Qed.

Lemma scatter_length {A} (index : list nat) (base src out : list A) :
  scatter base index src = Some out -> length out = length base.
Proof.
  revert base src. induction index as [|i index IH]; intros base src Hs;
    simpl in Hs.
  - by injection Hs as <-.
  - destruct src as [|x src]; [done|]. case_decide; [|done].
    rewrite (IH _ _ Hs). apply length_insert.
Qed.

Lemma scatter_outside {A} (index : list nat) (base src out : list A)
    (i : nat) :
  scatter base index src = Some out -> i ∉ index -> out !! i = base !! i.
Proof.
  revert base src. induction index as [|i0 index IH]; intros base src Hs Hi;
    simpl in Hs.
  - by injection Hs as <-.
  - destruct src as [|x src]; [done|]. case_decide; [|done].
    apply not_elem_of_cons in Hi as [Hne Hi].
    rewrite (IH _ _ Hs Hi). by apply list_lookup_insert_ne.
Qed.

(** [scatter] along distinct positions puts [src[k]] at [index[k]]. *)
Lemma scatter_lookup {A} (index : list nat) (base src out : list A)
    (k i : nat) (x : A) :
  scatter base index src = Some out ->
  NoDup index ->
  index !! k = Some i -> src !! k = Some x ->
  out !! i = Some x.
Proof.
  revert base src k.
  induction index as [|i0 index IH]; intros base src k Hs Hnd Hk Hx;
    simpl in Hs; [done|].
  destruct src as [|x0 src]; [done|]. case_decide as Hlt; [|done].
  apply NoDup_cons in Hnd as [Hni Hnd].
  destruct k as [|k]; simpl in Hk, Hx.
  - injection Hk as ->. injection Hx as ->.
    rewrite (scatter_outside _ _ _ _ _ Hs Hni).
    by apply list_lookup_insert_eq.
  - by eapply IH.
Qed.

Lemma scatter_total {A} (index : list nat) (base src : list A) :
  length index = length src ->
  Forall (fun i => i < length base)%nat index ->
  is_Some (scatter base index src).
Proof.
  revert base src. induction index as [|i index IH]; intros base src Hl Hf;
    simpl.
  - by eexists.
  - destruct src as [|x src]; [done|].
    apply Forall_cons in Hf as [Hi Hf]. rewrite decide_True by done.
    apply IH; [simpl in Hl; lia|]. by rewrite length_insert.
Qed.

Lemma gather_total {A} (l : list A) (index : list nat) :
  Forall (fun i => i < length l)%nat index -> is_Some (gather l index).
Proof.
  intros Hf. apply mapM_is_Some_2. eapply Forall_impl; [done|].
  intros i Hi. simpl. by apply lookup_lt_is_Some_2.
Qed.

Lemma gather_length {A} (l : list A) (index : list nat) (out : list A) :
  gather l index = Some out -> length out = length index.
Proof. intros Hg. symmetry. by eapply length_mapM. Qed.

(** ** Tail-free sampling *)

Lemma length_diff (l : row) : length (diff l) = (length l - 1)%nat.
Proof.
  induction l as [|x [|y l] IH]; simpl in *; try done.
  rewrite IH. lia.
Qed.

Lemma length_cumsum_from (acc : ext) (l : row) :
  length (cumsum_from acc l) = length l.
Proof.
  revert acc. induction l as [|x l IH]; intros acc; simpl; [done|].
  by rewrite IH.
Qed.

Lemma masked_fill_lookup (l : row) (mask : list bool) (k : nat) (x : ext)
    (m : bool) :
  l !! k = Some x -> mask !! k = Some m ->
  masked_fill_neg_inf l mask !! k = Some (if m then NInf else x).
Proof.
  intros Hx Hm. unfold masked_fill_neg_inf.
  rewrite lookup_zip_with, Hx. simpl. by rewrite Hm.
Qed.

Lemma masked_fill_length (l : row) (mask : list bool) :
  length mask = length l ->
  length (masked_fill_neg_inf l mask) = length l.
Proof.
  intros Hl. unfold masked_fill_neg_inf. rewrite length_zip_with. lia.
Qed.

Section TailFree.
Context `{TorchMath}.

Lemma length_softmax (l : row) : length (softmax l) = length l.
Proof. unfold softmax. by rewrite !length_map. Qed.

Lemma length_curvature_cdf (l : row) :
  length (curvature_cdf l) = (length l - 2)%nat.
Proof.
  unfold curvature_cdf, cumsum.
  rewrite length_cumsum_from, !length_map, !length_diff, length_softmax.
  lia.
Qed.

(** The mask of [_apply_tfs] over the sorted order: never on the first
    position, always on the last one, and in between where the curvature
    mass is above the threshold. *)
Lemma tfs_mask_lookup (cdf : row) (tfs : ext) (k : nat) :
  (k < length cdf + 2)%nat ->
  ([false] ++ map (fun c => (c >? tfs)%ext) cdf ++ [true]) !! k
  = Some (if decide (k = 0)%nat then false
          else if decide (k = length cdf + 1)%nat then true
          else match cdf !! (k - 1)%nat with
               | Some c => (c >? tfs)%ext
               | None => false
               end).
Proof.
  intros Hk. destruct k as [|k]; [done|]. simpl.
  rewrite Nat.sub_0_r. case_decide as Hlast.
  - rewrite lookup_app_r by (rewrite length_map; lia).
    rewrite length_map. by replace (k - length cdf)%nat with 0%nat by lia.
  - rewrite lookup_app_l by (rewrite length_map; lia).
    rewrite lookup_map.
    destruct (lookup_lt_is_Some_2 cdf k) as [c Hc]; [lia|].
    by rewrite Hc.
Qed.

(** [tfs_row] on a row of at least two entries: what every position of
    the sorted order becomes, read at the token it holds. *)
Lemma tfs_row_spec (l o : row) (tfs : ext) :
  tfs_row l tfs = Some o ->
  (2 <= length l)%nat
  /\ length o = length l
  /\ forall k v i,
       sorted_pairs true l !! k = Some (v, i) ->
       o !! i
       = Some (if decide (k = 0)%nat then v
               else if decide (k = length l - 1)%nat then NInf
               else match curvature_cdf ((sorted_pairs true l).*1)
                          !! (k - 1)%nat with
                    | Some c => if (c >? tfs)%ext then NInf else v
                    | None => v
                    end).
Proof.
  unfold tfs_row. rewrite tensor_sort_pairs.
  set (s := sorted_pairs true l).
  assert (length s = length l) as Hs by apply sorted_pairs_length.
  set (cdf := curvature_cdf (s.*1)).
  assert (length cdf = length l - 2)%nat as Hcdf.
  { unfold cdf. by rewrite length_curvature_cdf, length_fmap, Hs. }
  intros Ht. unfold mask_assign_neg_inf in Ht.
  case_decide as Hmask; [|done]. simpl in Ht.
  rewrite !length_app, length_fmap in Hmask. simpl in Hmask.
  rewrite length_map in Hmask.
  assert (2 <= length l)%nat as H2 by lia.
  split; [done|]. split.
  { apply gather_length in Ht. by rewrite Ht, argsort_length, length_fmap. }
  intros k v i Hk.
  assert (s.*2 ≡ₚ seq 0 (length (s.*2))) as Hperm.
  { rewrite length_fmap, Hs. apply sorted_pairs_indices. }
  assert (argsort (s.*2) !! i = Some k) as Hinv.
  { apply argsort_inverse; [done|]. by rewrite list_lookup_fmap, Hk. }
  destruct (gather_lookup _ _ _ _ _ Ht Hinv) as (x & Hx & ->).
  assert (k < length cdf + 2)%nat as Hklt.
  { apply lookup_lt_Some in Hk. lia. }
  assert (s.*1 !! k = Some v) as Hv by (by rewrite list_lookup_fmap, Hk).
  pose proof (masked_fill_lookup _ _ k v _ Hv
                (tfs_mask_lookup cdf tfs k Hklt)) as Hm.
  assert (Some x = Some (if if decide (k = 0)%nat then false
                            else if decide (k = length cdf + 1)%nat then true
                            else match cdf !! (k - 1)%nat with
                                 | Some c => (c >? tfs)%ext
                                 | None => false
                                 end
                         then NInf else v)) as Hxv
    by (rewrite <- Hx; exact Hm).
  injection Hxv as ->. f_equal.
  destruct (decide (k = 0)%nat); [done|].
  replace (length cdf + 1)%nat with (length l - 1)%nat by lia.
  destruct (decide (k = length l - 1)%nat); [done|].
  by destruct (cdf !! (k - 1)%nat).
Qed.

Lemma tfs_row_total (l : row) (tfs : ext) :
  (2 <= length l)%nat -> is_Some (tfs_row l tfs).
Proof.
  intros H2. unfold tfs_row. rewrite tensor_sort_pairs.
  set (s := sorted_pairs true l).
  assert (length s = length l) as Hs by apply sorted_pairs_length.
  assert (length ([false] ++ map (fun c => (c >? tfs)%ext)
                                 (curvature_cdf (s.*1)) ++ [true])
          = length (s.*1)) as Hmask.
  { rewrite !length_app, length_fmap. simpl.
    rewrite length_map, length_curvature_cdf, length_fmap. lia. }
  unfold mask_assign_neg_inf. rewrite decide_True by done.
  cbn [mbind option_bind].
  apply gather_total, Forall_forall. intros i Hi.
  rewrite masked_fill_length by done.
  rewrite argsort_Permutation in Hi. apply elem_of_seq in Hi.
  rewrite !length_fmap in *. lia.
Qed.

End TailFree.

(** C3, as the claim states it, fails: the bottom token of the sorted
    order is not exempted, it is always removed.  With the threshold at 1
    the curvature mass (1 at the middle token) is not above it, and the
    least likely token of each row is masked all the same. *)
Lemma tfs_removes_bottom_token :
  _apply_tfs (H := rational_math)
    [[Fin 2; Fin 1; Fin 0]; [Fin 0; Fin 2; Fin 1]] [Fin 1; Fin 1]
  = Some [[Fin 2; Fin 1; NInf]; [NInf; Fin 2; Fin 1]].
Proof. reflexivity. Qed.

(** C3, amended: in the tail-free sampling filter, for every row (of at
    least two tokens): the tokens are sorted descending by logit, that is
    by probability; the absolute second difference of the sorted
    probabilities is normalized by its sum and accumulated
    ([curvature_cdf]); the token at position [k] of the sorted order is
    set to minus infinity when the curvature mass at [k - 1] is above the
    row's threshold; the top token (position 0) is always exempted and
    the bottom token (the last position) is always removed. *)
Theorem tfs_keeps_top_removes_bottom `{TorchMath} (logits out : matrix)
    (tfs : list ext) (r : nat) (l : row) (t : ext) :
  _apply_tfs logits tfs = Some out ->
  logits !! r = Some l ->
  tfs !! r = Some t ->
  exists o,
    out !! r = Some o
    /\ length o = length l
    /\ (2 <= length l)%nat
    /\ (forall a b p q, (a < b)%nat ->
          sorted_pairs true l !! a = Some p ->
          sorted_pairs true l !! b = Some q ->
          sort_leb q.1 p.1 = true)
    /\ (forall k v i,
          sorted_pairs true l !! k = Some (v, i) ->
          l !! i = Some v
          /\ o !! i
             = Some (if decide (k = 0)%nat then v
                     else if decide (k = length l - 1)%nat then NInf
                     else match curvature_cdf ((sorted_pairs true l).*1)
                                !! (k - 1)%nat with
                          | Some c => if (c >? t)%ext then NInf else v
                          | None => v
                          end)).
Proof.
  intros Ha Hl Ht. unfold _apply_tfs in Ha.
  destruct (rows_with_inv _ _ _ _ Ha) as (_ & _ & Hrows).
  destruct (Hrows r l t Hl Ht) as (o & Ho & Hrow).
  destruct (tfs_row_spec l o t Hrow) as (H2 & Hlen & Hpos).
  exists o. split; [done|]. split; [done|]. split; [done|]. split.
  - intros a b p q Hab Hp Hq.
    pose proof (sorted_pairs_ordered true l a b p q Hab Hp Hq) as Hrel.
    unfold key_rel in Hrel. by apply Is_true_true.
  - intros k v i Hk. split; [by eapply sorted_pairs_lookup|by apply Hpos].
Qed.

Lemma tfs_keeps_top_removes_bottom_witness :
  exists o,
    [[Fin 2; Fin 1; NInf]; [NInf; Fin 2; Fin 1]] !! 1%nat = Some o
    /\ length o = length [Fin 0; Fin 2; Fin 1]
    /\ (2 <= length [Fin 0; Fin 2; Fin 1])%nat
    /\ (forall a b p q, (a < b)%nat ->
          sorted_pairs true [Fin 0; Fin 2; Fin 1] !! a = Some p ->
          sorted_pairs true [Fin 0; Fin 2; Fin 1] !! b = Some q ->
          sort_leb q.1 p.1 = true)
    /\ (forall k v i,
          sorted_pairs true [Fin 0; Fin 2; Fin 1] !! k = Some (v, i) ->
          [Fin 0; Fin 2; Fin 1] !! i = Some v
          /\ o !! i
             = Some (if decide (k = 0)%nat then v
                     else if decide (k = length [Fin 0; Fin 2; Fin 1] - 1)%nat
                          then NInf
                     else match curvature_cdf (H := rational_math)
                                  ((sorted_pairs true
                                      [Fin 0; Fin 2; Fin 1]).*1)
                                !! (k - 1)%nat with
                          | Some c => if (c >? Fin 1)%ext then NInf else v
                          | None => v
                          end)).
Proof.
  apply (tfs_keeps_top_removes_bottom (H := rational_math)
           [[Fin 2; Fin 1; Fin 0]; [Fin 0; Fin 2; Fin 1]]
           [[Fin 2; Fin 1; NInf]; [NInf; Fin 2; Fin 1]]
           [Fin 1; Fin 1] 1 [Fin 0; Fin 2; Fin 1] (Fin 1)).
  - reflexivity.
  - reflexivity.
  - reflexivity.
Defined.

(** ** Rows that still hold a token *)

Lemma live_row_iff (l : row) :
  live_row l = true
  <-> (forall x, x ∈ l -> regular x = true)
      /\ exists k q, l !! k = Some (Fin q).
Proof.
  unfold live_row. rewrite andb_true_iff, forallb_forall, existsb_exists.
  split; intros [Hreg Hfin]; split.
  - intros x Hx. by apply Hreg, list_elem_of_In.
  - destruct Hfin as ([|q| |] & Hin & Hx); try done.
    apply list_elem_of_In, list_elem_of_lookup in Hin as (k & Hk).
    by exists k, q.
  - intros x Hx. by apply Hreg, list_elem_of_In.
  - destruct Hfin as (k & q & Hk). exists (Fin q). split; [|done].
    by eapply list_elem_of_In, list_elem_of_lookup_2.
Qed.

Lemma row_max_cons (x : ext) (l : row) :
  row_max (x :: l) = ext_max x (row_max l).
Proof. done. Qed.

Lemma row_max_is_max (l : row) : is_row_max l (row_max l).
Proof.
  induction l as [|x l IH]; intros y Hy.
  - by apply elem_of_nil in Hy.
  - rewrite row_max_cons. unfold ext_max.
    apply elem_of_cons in Hy as [->|Hy].
    + destruct (sort_leb x (row_max l)) eqn:E; [done|apply sort_leb_refl].
    + destruct (sort_leb x (row_max l)) eqn:E; [by apply IH|].
      eapply sort_leb_trans; [by apply IH|].
      destruct (sort_leb_total x (row_max l)); [congruence|done].
Qed.

Lemma row_max_elem (l : row) : row_max l = NInf \/ row_max l ∈ l.
Proof.
  induction l as [|x l IH]; [by left|].
  rewrite row_max_cons. unfold ext_max.
  destruct (sort_leb x (row_max l)).
  - destruct IH as [IH|IH]; [by left|right; by apply list_elem_of_further].
  - right. apply list_elem_of_here.
Qed.

(** The greatest entry of a live row is finite and is one of its
    entries. *)
Lemma row_max_live (l : row) :
  live_row l = true ->
  exists k qm, row_max l = Fin qm /\ l !! k = Some (Fin qm)
               /\ forall x, x ∈ l -> sort_leb x (Fin qm) = true.
Proof.
  intros Hlive. apply live_row_iff in Hlive as (Hreg & k & q & Hk).
  pose proof (row_max_is_max l) as Hmax.
  assert (sort_leb (Fin q) (row_max l) = true) as Hq
    by (by eapply Hmax, list_elem_of_lookup_2).
  destruct (row_max_elem l) as [E|Hin].
  { rewrite E in Hq. done. }
  pose proof (Hreg _ Hin) as Hr.
  destruct (row_max l) as [|qm| |] eqn:E; try done.
  apply list_elem_of_lookup in Hin as (km & Hkm).
  exists km, qm. split; [done|]. split; [done|]. done.
Qed.

Section SoftmaxFacts.
Context `{TorchMath}.
Local Open Scope Q_scope.

Lemma weight_nonneg (qm : Q) (x : ext) : 0 <= weight qm x.
Proof.
  destruct x as [|q| |]; simpl; try lra.
  pose proof (expQ_pos (q - qm)). lra.
Qed.

Lemma weight_exp (qm : Q) (x : ext) :
  regular x = true -> ext_exp (x - Fin qm)%ext = Fin (weight qm x).
Proof. by destruct x. Qed.

Lemma weight_mono (qm : Q) (x y : ext) :
  regular x = true -> regular y = true ->
  sort_leb x y = true -> weight qm x <= weight qm y.
Proof.
  destruct x as [|a| |], y as [|b| |]; try done; cbn [weight];
    intros _ _ Hle.
  - pose proof (expQ_pos (b - qm)). lra.
  - simpl in Hle. apply Qle_bool_iff in Hle. apply expQ_mono. lra.
Qed.

Lemma Qsum_nonneg (ws : list Q) :
  Forall (fun w => 0 <= w) ws -> 0 <= Qsum ws.
Proof.
  induction 1 as [|w ws Hw _ IH]; simpl; [lra|]. unfold Qsum in *. lra.
Qed.

Lemma Qsum_elem_le (ws : list Q) (w : Q) :
  Forall (fun w => 0 <= w) ws -> w ∈ ws -> w <= Qsum ws.
Proof.
  induction 1 as [|w0 ws Hw Hws IH]; intros Hin.
  - by apply elem_of_nil in Hin.
  - pose proof (Qsum_nonneg ws Hws) as Hs. unfold Qsum in *. simpl.
    apply elem_of_cons in Hin as [->|Hin]; [lra|].
    specialize (IH Hin). lra.
Qed.

Lemma row_sum_Fin (ws : list Q) : row_sum (map Fin ws) = Fin (Qsum ws).
Proof.
  induction ws as [|w ws IH]; [done|].
  unfold row_sum, Qsum in *. simpl. by rewrite IH.
Qed.

Lemma map_weight_exp (qm : Q) (l : row) :
  (forall x, x ∈ l -> regular x = true) ->
  map (fun x => ext_exp (x - Fin qm)%ext) l = map Fin (map (weight qm) l).
Proof.
  induction l as [|x l IH]; intros Hreg; [done|]. simpl.
  rewrite weight_exp by apply Hreg, list_elem_of_here.
  f_equal. apply IH. intros y Hy. by apply Hreg, list_elem_of_further.
Qed.

Lemma weights_nonneg (qm : Q) (l : row) :
  Forall (fun w => 0 <= w) (map (weight qm) l).
Proof.
  apply Forall_forall. intros w Hw.
  apply list_elem_of_In, in_map_iff in Hw as (x & <- & _).
  apply weight_nonneg.
Qed.

Lemma total_weight_pos (qm : Q) (l : row) (k : nat) (q : Q) :
  l !! k = Some (Fin q) -> 0 < total_weight qm l.
Proof.
  intros Hk.
  assert (weight qm (Fin q) <= total_weight qm l) as Hle.
  { apply Qsum_elem_le; [apply weights_nonneg|].
    apply list_elem_of_In, in_map, list_elem_of_In.
    by eapply list_elem_of_lookup_2. }
  simpl in Hle. pose proof (expQ_pos (q - qm)). lra.
Qed.

Lemma weight_le_total (qm : Q) (l : row) (x : ext) :
  x ∈ l -> weight qm x <= total_weight qm l.
Proof.
  intros Hx. apply Qsum_elem_le; [apply weights_nonneg|].
  by apply list_elem_of_In, in_map, list_elem_of_In.
Qed.

Lemma softmax_live (l : row) (qm : Q) (k : nat) (q : Q) :
  (forall x, x ∈ l -> regular x = true) ->
  row_max l = Fin qm ->
  l !! k = Some (Fin q) ->
  softmax l = map (fun x => Fin (prob qm l x)) l.
Proof.
  intros Hreg Hmax Hk. unfold softmax. rewrite Hmax.
  rewrite map_weight_exp by done. rewrite row_sum_Fin.
  fold (total_weight qm l).
  pose proof (total_weight_pos qm l k q Hk) as Hpos.
  rewrite !map_map. apply map_ext. intros x. simpl.
  destruct (Qeq_bool (total_weight qm l) 0) eqn:E; [|done].
  apply Qeq_bool_iff in E. lra.
Qed.

Lemma log_softmax_live (l : row) (qm : Q) (k : nat) (q : Q) :
  (forall x, x ∈ l -> regular x = true) ->
  row_max l = Fin qm ->
  l !! k = Some (Fin q) ->
  log_softmax l
  = map (fun x => (x - Fin qm - Fin (lnQ (total_weight qm l)))%ext) l.
Proof.
  intros Hreg Hmax Hk. unfold log_softmax. rewrite Hmax.
  rewrite map_weight_exp by done. rewrite row_sum_Fin.
  fold (total_weight qm l).
  pose proof (total_weight_pos qm l k q Hk) as Hpos.
  apply map_ext. intros x. simpl.
  assert ((total_weight qm l ?= 0) = Gt) as -> by (by apply Qgt_alt).
  done.
Qed.

Lemma prob_nonneg (qm : Q) (l : row) (k : nat) (q : Q) (x : ext) :
  l !! k = Some (Fin q) -> 0 <= prob qm l x.
Proof.
  intros Hk. unfold prob.
  pose proof (total_weight_pos qm l k q Hk).
  pose proof (weight_nonneg qm x).
  apply Qle_shift_div_l; lra.
Qed.

Lemma prob_pos (qm : Q) (l : row) (k : nat) (q a : Q) :
  l !! k = Some (Fin q) -> 0 < prob qm l (Fin a).
Proof.
  intros Hk. unfold prob. simpl.
  pose proof (total_weight_pos qm l k q Hk).
  pose proof (expQ_pos (a - qm)).
  apply Qlt_shift_div_l; lra.
Qed.

Lemma prob_neg_inf (qm : Q) (l : row) : prob qm l NInf == 0.
Proof. unfold prob. simpl. unfold Qdiv. lra. Qed.

Lemma prob_le_1 (qm : Q) (l : row) (k : nat) (q : Q) (x : ext) :
  l !! k = Some (Fin q) -> x ∈ l -> prob qm l x <= 1.
Proof.
  intros Hk Hx. unfold prob.
  pose proof (total_weight_pos qm l k q Hk) as Hpos.
  pose proof (weight_le_total qm l x Hx).
  apply Qle_shift_div_r; [done|]. lra.
Qed.

Lemma prob_mono (qm : Q) (l : row) (k : nat) (q : Q) (x y : ext) :
  l !! k = Some (Fin q) ->
  regular x = true -> regular y = true ->
  sort_leb x y = true -> prob qm l x <= prob qm l y.
Proof.
  intros Hk Hx Hy Hle. unfold prob.
  pose proof (total_weight_pos qm l k q Hk) as Hpos.
  pose proof (weight_mono qm x y Hx Hy Hle).
  apply Qle_shift_div_r; [done|].
  assert (weight qm y / total_weight qm l * total_weight qm l
          == weight qm y) as E by (field; lra).
  by rewrite E.
Qed.

End SoftmaxFacts.

Lemma masked_fill_regular (l : row) (mask : list bool) :
  (forall x, x ∈ l -> regular x = true) ->
  forall x, x ∈ masked_fill_neg_inf l mask -> regular x = true.
Proof.
  intros Hreg x Hx. unfold masked_fill_neg_inf in Hx.
  apply elem_of_lookup_zip_with in Hx as (i & y & m & -> & Hy & _).
  destruct m; [done|]. by eapply Hreg, list_elem_of_lookup_2.
Qed.

(** A mask that spares a finite entry leaves the row live. *)
Lemma masked_fill_live (l : row) (mask : list bool) (k : nat) (q : Q) :
  (forall x, x ∈ l -> regular x = true) ->
  l !! k = Some (Fin q) -> mask !! k = Some false ->
  live_row (masked_fill_neg_inf l mask) = true.
Proof.
  intros Hreg Hk Hm. apply live_row_iff. split.
  - by apply masked_fill_regular.
  - exists k, q. by rewrite (masked_fill_lookup l mask k (Fin q) false).
Qed.

Section MaskingFilters.
Context `{TorchMath}.
Local Open Scope Q_scope.

(** On a live row: the position [km] of a greatest logit, its
    probability [pm], and the greatest probability [qpm] of the row. *)
Lemma softmax_top (l : row) :
  live_row l = true ->
  exists (km : nat) (qm pm qpm : Q),
    l !! km = Some (Fin qm)
    /\ softmax l !! km = Some (Fin pm)
    /\ row_max (softmax l) = Fin qpm
    /\ qpm <= pm /\ 0 < pm /\ 0 <= qpm /\ qpm <= 1
    /\ (forall i x, l !! i = Some x ->
          exists p, softmax l !! i = Some (Fin p)
                    /\ (x = NInf -> p == 0) /\ 0 <= p
                    /\ (is_finite x = true -> 0 < p)).
Proof.
  intros Hlive.
  destruct (row_max_live l Hlive) as (km & qm & Hmax & Hkm & Hle).
  apply live_row_iff in Hlive as (Hreg & _).
  pose proof (softmax_live l qm km qm Hreg Hmax Hkm) as Hsm.
  assert (live_row (softmax l) = true) as Hplive.
  { apply live_row_iff. rewrite Hsm. split.
    - intros y Hy. apply list_elem_of_In, in_map_iff in Hy as (x & <- & _).
      done.
    - exists km, (prob qm l (Fin qm)). by rewrite lookup_map, Hkm. }
  destruct (row_max_live _ Hplive) as (kp & qpm & Hpmax & Hkp & Hple).
  exists km, qm, (prob qm l (Fin qm)), qpm.
  split; [done|]. split; [by rewrite Hsm, lookup_map, Hkm|].
  split; [done|].
  rewrite Hsm, lookup_map in Hkp.
  destruct (l !! kp) as [xp|] eqn:Exp; simpl in Hkp; [|done].
  injection Hkp as <-.
  assert (xp ∈ l) as Hxp by (by eapply list_elem_of_lookup_2).
  split.
  { apply (prob_mono qm l km qm); [done|by apply Hreg|done|by apply Hle]. }
  split; [by eapply prob_pos|]. split; [by eapply prob_nonneg|].
  split; [by eapply prob_le_1|].
  intros i x Hx. exists (prob qm l x).
  split; [by rewrite Hsm, lookup_map, Hx|]. split; [|split].
  - intros ->. apply prob_neg_inf.
  - by eapply prob_nonneg.
  - destruct x; try done. intros _. by eapply prob_pos.
Qed.

(** [_apply_min_p] has no exemption of its own: the most likely token
    survives because the threshold is at most its probability, which
    needs [min_p <= 1]. *)
Lemma min_p_row_live (l o : row) (min_p : ext) :
  (min_p <=? Fin 1)%ext = true ->
  live_row l = true ->
  min_p_row l min_p = Some o -> live_row o = true.
Proof.
  intros Hp Hlive Ho. unfold min_p_row in Ho. injection Ho as <-.
  destruct (softmax_top l Hlive)
    as (km & qm & pm & qpm & Hkm & Hpm & Hmax & Hle & Hpos & H0 & H1 & _).
  apply live_row_iff in Hlive as (Hreg & _).
  eapply masked_fill_live; [done|done|].
  rewrite lookup_map, Hpm, Hmax. simpl. f_equal.
  destruct min_p as [|a| |]; try done; simpl.
  - unfold inf_times. destruct (qpm ?= 0) eqn:E; try done.
    apply Qlt_alt in E. lra.
  - simpl in Hp. apply Qle_bool_iff in Hp. apply Qltb_ge. nra.
Qed.

(** [_apply_top_a] likewise: it needs [top_a <= 1]. *)
Lemma top_a_row_live (l o : row) (top_a : ext) :
  (top_a <=? Fin 1)%ext = true ->
  live_row l = true ->
  top_a_row l top_a = Some o -> live_row o = true.
Proof.
  intros Hp Hlive Ho. unfold top_a_row in Ho. injection Ho as <-.
  destruct (softmax_top l Hlive)
    as (km & qm & pm & qpm & Hkm & Hpm & Hmax & Hle & Hpos & H0 & H1 & _).
  apply live_row_iff in Hlive as (Hreg & _).
  eapply masked_fill_live; [done|done|].
  rewrite lookup_map, Hpm, Hmax. simpl. f_equal.
  destruct top_a as [|a| |]; try done; simpl.
  - unfold inf_times. destruct (qpm * qpm ?= 0) eqn:E; try done.
    apply Qlt_alt in E. nra.
  - simpl in Hp. apply Qle_bool_iff in Hp. apply Qltb_ge. nra.
Qed.

End MaskingFilters.

(** The [argmax] of the probabilities of a live row is a token with a
    finite logit. *)
Lemma argmax_probs_finite (l probs : row) :
  live_row l = true -> length probs = length l -> probs_of l probs ->
  exists q, l !! argmax probs = Some (Fin q).
Proof.
  intros Hlive Hlen Hprobs.
  apply live_row_iff in Hlive as (Hreg & k & q & Hk).
  destruct (argmax_spec probs) as (v & Hv & Hmax).
  { intros ->. apply lookup_lt_Some in Hk. simpl in Hlen. lia. }
  destruct (lookup_lt_is_Some_2 l (argmax probs)) as [x Hx].
  { rewrite <- Hlen. by eapply lookup_lt_Some. }
  destruct (Hprobs _ _ Hx) as (p & Hp & Hzero & _).
  destruct (Hprobs _ _ Hk) as (pk & Hpk & _ & Hpos).
  rewrite Hv in Hp. injection Hp as ->.
  assert (sort_leb (Fin pk) (Fin p) = true) as Hle
    by (by eapply Hmax, list_elem_of_lookup_2).
  simpl in Hle. apply Qle_bool_iff in Hle.
  specialize (Hpos eq_refl).
  pose proof (Hreg x ltac:(by eapply list_elem_of_lookup_2)) as Hrx.
  destruct x as [|qx| |]; try done; [|by exists qx].
  specialize (Hzero eq_refl). lra.
Qed.

(** The guard of the eta and epsilon cutoffs: the mask is cleared at a
    token with a finite logit. *)
Lemma cleared_mask_live (l : row) (mask mask' : list bool) (k : nat)
    (q : Q) :
  (forall x, x ∈ l -> regular x = true) ->
  l !! k = Some (Fin q) ->
  clear_at mask k = Some mask' ->
  live_row (masked_fill_neg_inf l mask') = true.
Proof.
  intros Hreg Hk Hc. unfold clear_at in Hc. case_decide as Hlt; [|done].
  injection Hc as <-. eapply masked_fill_live; [done|done|].
  by apply list_lookup_insert_eq.
Qed.

Section CutoffFilters.
Context `{TorchMath}.
Local Open Scope Q_scope.

Lemma softmax_probs_of (l : row) :
  live_row l = true -> probs_of l (softmax l).
Proof.
  intros Hlive i x Hx.
  destruct (softmax_top l Hlive) as (_ & _ & _ & _ & _ & _ & _ & _ & _ & _
                                     & _ & Hall).
  destruct (Hall i x Hx) as (p & Hp & Hz & _ & Hpos). by exists p.
Qed.

Lemma exp_log_softmax_probs_of (l : row) :
  live_row l = true -> probs_of l (map ext_exp (log_softmax l)).
Proof.
  intros Hlive i x Hx.
  destruct (row_max_live l Hlive) as (km & qm & Hmax & Hkm & Hle).
  apply live_row_iff in Hlive as (Hreg & _).
  rewrite (log_softmax_live l qm km qm Hreg Hmax Hkm).
  rewrite !lookup_map, Hx. simpl.
  pose proof (Hreg x ltac:(by eapply list_elem_of_lookup_2)) as Hrx.
  destruct x as [|q| |]; try done; simpl.
  - exists 0. split; [done|]. split; [done|]. done.
  - eexists. split; [done|]. split; [done|]. intros _. apply expQ_pos.
Qed.

Lemma epsilon_cutoff_row_live (l o : row) (epsilon_cutoff : ext) :
  live_row l = true ->
  epsilon_cutoff_row l epsilon_cutoff = Some o -> live_row o = true.
Proof.
  intros Hlive Ho. unfold epsilon_cutoff_row in Ho.
  destruct (clear_at _ _) as [mask'|] eqn:Ec; simpl in Ho; [|done].
  injection Ho as <-.
  destruct (argmax_probs_finite l (softmax l) Hlive (length_softmax l)
              (softmax_probs_of l Hlive)) as (q & Hq).
  apply live_row_iff in Hlive as (Hreg & _).
  by eapply cleared_mask_live.
Qed.

Lemma eta_cutoff_row_live (l o : row) (eta_cutoff : ext) :
  live_row l = true ->
  eta_cutoff_row l eta_cutoff = Some o -> live_row o = true.
Proof.
  intros Hlive Ho. unfold eta_cutoff_row in Ho.
  destruct (clear_at _ _) as [mask'|] eqn:Ec; simpl in Ho; [|done].
  injection Ho as <-.
  destruct (argmax_probs_finite l (map ext_exp (log_softmax l)) Hlive)
    as (q & Hq).
  { unfold log_softmax. by rewrite !length_map. }
  { by apply exp_log_softmax_probs_of. }
  apply live_row_iff in Hlive as (Hreg & _).
  by eapply cleared_mask_live.
Qed.

End CutoffFilters.

(** ** The sorted order of a live row *)

Lemma sorted_pairs_regular (d : bool) (l : row) (k i : nat) (v : ext) :
  (forall x, x ∈ l -> regular x = true) ->
  sorted_pairs d l !! k = Some (v, i) -> regular v = true.
Proof.
  intros Hreg Hk. apply Hreg.
  apply sorted_pairs_lookup in Hk. by eapply list_elem_of_lookup_2.
Qed.

Lemma sorted_pairs_position (d : bool) (l : row) (i : nat) (v : ext) :
  l !! i = Some v -> exists k, sorted_pairs d l !! k = Some (v, i).
Proof.
  intros Hi. apply list_elem_of_lookup. by apply sorted_pairs_elem.
Qed.

(** Sorted descending, a live row starts with a finite entry. *)
Lemma sorted_desc_head_finite (l : row) :
  live_row l = true ->
  exists q i, sorted_pairs true l !! 0%nat = Some (Fin q, i).
Proof.
  intros Hlive. apply live_row_iff in Hlive as (Hreg & k & q & Hk).
  destruct (sorted_pairs_position true l k (Fin q) Hk) as (b & Hb).
  destruct b as [|b]; [by exists q, k|].
  destruct (lookup_lt_is_Some_2 (sorted_pairs true l) 0) as [[v i] Hv].
  { apply lookup_lt_Some in Hb. lia. }
  pose proof (sorted_pairs_ordered true l 0 (S b) _ _ ltac:(lia) Hv Hb)
    as Hrel.
  unfold key_rel in Hrel. simpl in Hrel. apply Is_true_true in Hrel.
  pose proof (sorted_pairs_regular true l 0 i v Hreg Hv) as Hrv.
  destruct v as [|qv| |]; try done. by exists qv, i.
Qed.

(** Sorted ascending, it ends with one. *)
Lemma sorted_asc_last_finite (l : row) :
  live_row l = true ->
  exists q i, sorted_pairs false l !! (length l - 1)%nat = Some (Fin q, i).
Proof.
  intros Hlive. apply live_row_iff in Hlive as (Hreg & k & q & Hk).
  destruct (sorted_pairs_position false l k (Fin q) Hk) as (b & Hb).
  pose proof (sorted_pairs_length false l) as Hlen.
  pose proof (lookup_lt_Some _ _ _ Hb) as Hblt.
  destruct (decide (b = length l - 1)%nat) as [->|Hne]; [by exists q, k|].
  destruct (lookup_lt_is_Some_2 (sorted_pairs false l) (length l - 1))
    as [[v i] Hv]; [lia|].
  pose proof (sorted_pairs_ordered false l b (length l - 1) _ _
                ltac:(lia) Hb Hv) as Hrel.
  unfold key_rel in Hrel. simpl in Hrel. apply Is_true_true in Hrel.
  pose proof (sorted_pairs_regular false l _ i v Hreg Hv) as Hrv.
  destruct v as [|qv| |]; try done. by exists qv, i.
Qed.

Section SortingFilters.
Context `{TorchMath}.

(** The top token of the sorted order survives [_apply_tfs]. *)
Lemma tfs_row_live (l o : row) (tfs : ext) :
  live_row l = true -> tfs_row l tfs = Some o -> live_row o = true.
Proof.
  intros Hlive Ho.
  destruct (tfs_row_spec l o tfs Ho) as (H2 & Hlen & Hpos).
  destruct (sorted_desc_head_finite l Hlive) as (q & i & Hhead).
  apply live_row_iff in Hlive as (Hreg & _).
  apply live_row_iff. split.
  - intros y Hy. apply list_elem_of_lookup in Hy as (j & Hj).
    destruct (lookup_lt_is_Some_2 l j) as [v Hv].
    { rewrite <- Hlen. by eapply lookup_lt_Some. }
    destruct (sorted_pairs_position true l j v Hv) as (k & Hk).
    rewrite (Hpos k v j Hk) in Hj. injection Hj as <-.
    pose proof (Hreg v ltac:(by eapply list_elem_of_lookup_2)) as Hrv.
    destruct (decide (k = 0)%nat); [done|].
    destruct (decide (k = length l - 1)%nat); [done|].
    destruct (curvature_cdf _ !! _) as [c|]; [|done].
    by destruct (c >? tfs)%ext.
  - exists i, q. by rewrite (Hpos 0%nat (Fin q) i Hhead).
Qed.

(** The quadratic transform maps a finite logit to a finite one and
    leaves a masked one alone. *)
End SortingFilters.

Lemma gather_elem {A} (l : list A) (index : list nat) (out : list A) (y : A) :
  gather l index = Some out -> y ∈ out -> y ∈ l.
Proof.
  unfold gather. intros Hg Hy. apply mapM_Some_1 in Hg.
  apply list_elem_of_lookup in Hy as (j & Hj).
  destruct (Forall2_lookup_r _ _ _ _ _ Hg Hj) as (i & _ & Hi).
  by eapply list_elem_of_lookup_2.
Qed.

Lemma row_sum_finite (l : row) :
  (forall x, x ∈ l -> is_finite x = true) -> exists q, row_sum l = Fin q.
Proof.
  induction l as [|x l IH]; intros Hfin; [by exists 0%Q|].
  destruct IH as (q & Hq).
  { intros y Hy. by apply Hfin, list_elem_of_further. }
  pose proof (Hfin x (list_elem_of_here _ _)) as Hx.
  destruct x as [|a| |]; try done.
  exists (a + q)%Q. unfold row_sum in *. simpl. by rewrite Hq.
Qed.

Section TopKTopP.
Context `{TorchMath}.

(** The greatest entry of the row survives [_apply_top_k_top_p]: it is
    not below the k-th greatest value, and the top-p mask is cleared at
    its position. *)
Lemma top_k_top_p_row_live (l o : row) (pk : ext * Z) :
  live_row l = true ->
  top_k_top_p_row l pk = Some o -> live_row o = true.
Proof.
  intros Hlive Ho. destruct pk as [p k].
  destruct (sorted_asc_last_finite l Hlive) as (q & i & Hlast).
  apply live_row_iff in Hlive as (Hreg & _).
  unfold top_k_top_p_row in Ho. rewrite tensor_sort_pairs in Ho.
  cbv beta iota zeta in Ho.
  set (s := sorted_pairs false l) in *.
  assert (length s = length l) as Hs by apply sorted_pairs_length.
  assert (length (s.*1) = length l) as Hs1 by (by rewrite length_fmap).
  assert (length (s.*2) = length l) as Hs2 by (by rewrite length_fmap).
  assert (0 < length l)%nat as Hpos.
  { apply lookup_lt_Some in Hlast. lia. }
  destruct (negb _) eqn:Erange; [done|].
  destruct (s.*1 !! Z.to_nat _) as [kth|] eqn:Ekth;
    cbn [mbind option_bind] in Ho; [|done].
  destruct (scatter _ _ _) as [inv|] eqn:Einv;
    cbn [mbind option_bind] in Ho; [|done].
  (* the last position of the sorted order *)
  assert (s.*1 !! (length l - 1)%nat = Some (Fin q)) as Hv
    by (by rewrite list_lookup_fmap, Hlast).
  assert (sort_leb kth (Fin q) = true) as Hkth.
  { apply list_lookup_fmap_Some in Ekth as ([kth' j] & -> & Ej). simpl.
    pose proof (lookup_lt_Some _ _ _ Ej) as Hj.
    destruct (decide (Z.to_nat (Z.of_nat (length (s.*1)) - k)
                      = length l - 1)%nat) as [E|E].
    - rewrite E, Hlast in Ej. injection Ej as -> ->. apply sort_leb_refl.
    - assert (Z.to_nat (Z.of_nat (length (s.*1)) - k) < length l - 1)%nat
        as Hlt by lia.
      pose proof (sorted_pairs_ordered false l _ _ _ _ Hlt Ej Hlast)
        as Hrel.
      unfold key_rel in Hrel. simpl in Hrel. by apply Is_true_true. }
  set (m1 := map (fun x => (x <? kth)%ext) (s.*1)) in *.
  set (ls1 := masked_fill_neg_inf (s.*1) m1) in *.
  set (m2 := <[pred (length (s.*1)) := false]>
               (map (fun c => (c <=? Fin 1 - p)%ext) (cumsum (softmax ls1))))
    in *.
  assert (length m1 = length l) as Hm1 by (unfold m1; by rewrite length_map).
  assert (length ls1 = length l) as Hls1.
  { unfold ls1. rewrite masked_fill_length; [done|]. by rewrite Hm1. }
  assert (ls1 !! (length l - 1)%nat = Some (Fin q)) as Hv1.
  { unfold ls1.
    rewrite (masked_fill_lookup _ m1 _ (Fin q) false Hv); [done|].
    unfold m1. rewrite lookup_map, Hv. simpl. f_equal.
    by apply (sort_leb_not_gtb kth (Fin q)). }
  assert (m2 !! (length l - 1)%nat = Some false) as Hm2.
  { unfold m2. rewrite Hs1.
    replace (pred (length l)) with (length l - 1)%nat by lia.
    apply list_lookup_insert_eq.
    unfold cumsum.
    rewrite length_map, length_cumsum_from, length_softmax, Hls1. lia. }
  assert (masked_fill_neg_inf ls1 m2 !! (length l - 1)%nat = Some (Fin q))
    as Hv2 by (by rewrite (masked_fill_lookup _ m2 _ (Fin q) false Hv1 Hm2)).
  assert (forall x, x ∈ masked_fill_neg_inf ls1 m2 -> regular x = true)
    as Hreg2.
  { apply masked_fill_regular, masked_fill_regular.
    intros x Hx. apply list_elem_of_lookup in Hx as (j & Hj).
    apply list_lookup_fmap_Some in Hj as ([x' j'] & -> & Ej).
    by eapply sorted_pairs_regular. }
  assert (inv !! i = Some (length l - 1)%nat) as Hinv.
  { eapply (scatter_lookup _ _ _ _ (length l - 1)%nat); [done| | |].
    - apply sorted_pairs_NoDup.
    - by rewrite list_lookup_fmap, Hlast.
    - apply lookup_seq. rewrite Hs2. split; lia. }
  destruct (gather_lookup _ _ _ _ _ Ho Hinv) as (x & Hx & Hox).
  rewrite Hv2 in Hx. injection Hx as <-.
  apply live_row_iff. split.
  - intros y Hy. by eapply Hreg2, gather_elem.
  - by exists i, q.
Qed.

(** The deviation of the surprisal of a token from the entropy is finite
    on a finite logit and infinite on a masked one, so the least
    deviating token, which [_apply_typical_sampling] always keeps, has a
    finite logit. *)
Lemma typical_sampling_row_live (l o : row) (typical_p : ext) :
  live_row l = true ->
  typical_sampling_row l typical_p = Some o -> live_row o = true.
Proof.
  intros Hlive Ho.
  destruct (row_max_live l Hlive) as (km & qm & Hmax & Hkm & _).
  apply live_row_iff in Hlive as (Hreg & _).
  unfold typical_sampling_row in Ho. cbv beta iota zeta in Ho.
  rewrite (log_softmax_live l qm km qm Hreg Hmax Hkm) in Ho.
  set (ln := lnQ (total_weight qm l)) in *.
  set (shifted := map (fun x => (x - Fin qm - Fin ln)%ext) l) in *.
  set (probs := map ext_exp shifted) in *.
  destruct (row_sum_finite
              (map (fun x => match x with NaN => Fin 0 | _ => x end)
                   (zip_with ext_mul probs shifted))) as (ne & Hne).
  { intros y Hy. apply list_elem_of_In, in_map_iff in Hy as (z & <- & Hz).
    apply list_elem_of_In, elem_of_lookup_zip_with in Hz
      as (j & a & b & -> & Ha & Hb).
    unfold probs in Ha. rewrite lookup_map in Ha. rewrite Hb in Ha.
    injection Ha as <-. unfold shifted in Hb. rewrite lookup_map in Hb.
    destruct (l !! j) as [x|] eqn:Ex; simpl in Hb; [|done].
    injection Hb as <-.
    pose proof (Hreg x ltac:(by eapply list_elem_of_lookup_2)) as Hrx.
    by destruct x. }
  unfold row_nansum in Ho. rewrite Hne in Ho.
  set (dev := map (fun x => ext_abs (Fin ne - x)%ext) shifted) in *.
  assert (forall j x, l !! j = Some x ->
            exists d, dev !! j = Some d
                      /\ (is_finite x = true -> is_finite d = true)
                      /\ (x = NInf -> d = PInf)) as Hdev.
  { intros j x Hx. unfold dev, shifted. rewrite !lookup_map, Hx. simpl.
    eexists. split; [done|]. split.
    - by destruct x.
    - by intros ->. }
  rewrite tensor_sort_pairs in Ho. simpl snd in Ho.
  set (s := sorted_pairs false dev) in *.
  assert (length dev = length l) as Hldev
    by (unfold dev, shifted; by rewrite !length_map).
  assert (length s = length l) as Hs
    by (unfold s; by rewrite sorted_pairs_length).
  destruct (gather probs (s.*2)) as [reordered|] eqn:Eg;
    cbn [mbind option_bind] in Ho; [|done].
  destruct (scatter _ _ _) as [tm|] eqn:Esc;
    cbn [mbind option_bind] in Ho; [|done].
  injection Ho as <-.
  (* the head of the sorted order is a token with a finite logit *)
  destruct (Hdev km (Fin qm) Hkm) as (dm & Hdm & Hfin & _).
  specialize (Hfin eq_refl).
  destruct (sorted_pairs_position false dev km dm Hdm) as (b & Hb).
  destruct (lookup_lt_is_Some_2 s 0) as [[d0 i0] Hhead].
  { apply lookup_lt_Some in Hkm. lia. }
  assert (sort_leb d0 dm = true) as Hle.
  { destruct b as [|b].
    - fold s in Hb. rewrite Hhead in Hb. injection Hb as -> ->.
      apply sort_leb_refl.
    - pose proof (sorted_pairs_ordered false dev 0 (S b) _ _
                    ltac:(lia) Hhead Hb) as Hrel.
      unfold key_rel in Hrel. simpl in Hrel. by apply Is_true_true. }
  pose proof (sorted_pairs_lookup false dev 0 i0 d0 Hhead) as Hd0.
  destruct (lookup_lt_is_Some_2 l i0) as [x0 Hx0].
  { rewrite <- Hldev. by eapply lookup_lt_Some. }
  assert (exists q0, x0 = Fin q0) as (q0 & ->).
  { destruct (Hdev i0 x0 Hx0) as (d & Hd & _ & Hinf).
    rewrite Hd0 in Hd. injection Hd as <-.
    pose proof (Hreg x0 ltac:(by eapply list_elem_of_lookup_2)) as Hrx.
    destruct x0 as [|q0| |]; try done; [|by exists q0].
    rewrite (Hinf eq_refl) in Hle. by destruct dm. }
  (* its position of the mask is cleared *)
  set (tms := map (fun c => (c >=? typical_p)%ext) (cumsum reordered)) in *.
  assert (length tms = length l) as Htms.
  { unfold tms, cumsum. rewrite length_map, length_cumsum_from.
    apply gather_length in Eg. by rewrite Eg, length_fmap. }
  assert ((replicate (min 1 (length tms)) false ++ drop 1 tms) !! 0%nat
          = Some false) as Hfirst.
  { rewrite Htms. apply lookup_lt_Some in Hkm.
    replace (min 1 (length l)) with 1%nat by lia. done. }
  assert (tm !! i0 = Some false) as Htm.
  { eapply (scatter_lookup _ _ _ _ 0%nat); [done| |by rewrite
      list_lookup_fmap, Hhead|done].
    apply sorted_pairs_NoDup. }
  by eapply masked_fill_live.
Qed.

End TopKTopP.

(** ** The truncation filters keep a token *)

Lemma run_stages_app (run : Stage -> matrix -> option matrix)
    (a b : list Stage) (logits : matrix) :
  run_stages run (a ++ b) logits
  = run_stages run a logits ≫= run_stages run b.
Proof.
  revert logits. induction a as [|s a IH]; intros logits; simpl; [done|].
  destruct (run s logits) as [l1|]; simpl; [apply IH|done].
Qed.

(** A product with zero is zero or NaN, never an infinity; sums of
    such values and a finite one are not infinite either. *)
Lemma mul_zero_not_infinite (e : ext) (b : Q) :
  (b == 0)%Q -> not_infinite (e * Fin b)%ext.
Proof.
  intros Hb. destruct e as [|a| |]; simpl; try done;
    unfold inf_times; by rewrite (proj1 (Qeq_alt b 0) Hb).
Qed.

Lemma neg_not_infinite (x : ext) : not_infinite x -> not_infinite (ext_neg x).
Proof. by destruct x. Qed.

Lemma add_not_infinite (x y : ext) :
  not_infinite x -> not_infinite y -> not_infinite (x + y)%ext.
Proof. by destruct x, y. Qed.

Section KeepAToken.
Context `{TorchMath}.

(** One truncation filter on the batch keeps row [r] live. *)
Lemma run_filter_row_live (c : SamplerCache) (md : SamplingMetadata)
    (s : Stage) (logits out : matrix) (r : nat) (l : row) :
  row_bounded (_sampling_tensors c) r ->
  s ∈ truncation_filters ->
  run_stage c md s logits = Some out ->
  logits !! r = Some l -> live_row l = true ->
  exists o, out !! r = Some o /\ live_row o = true.
Proof.
  intros (Hta & Hmp) Hs Hrun Hl Hlive.
  pose proof (lookup_lt_Some _ _ _ Hl) as Hr.
  unfold truncation_filters in Hs.
  repeat (apply elem_of_cons in Hs as [->|Hs]); simpl in Hrun;
    try (by apply elem_of_nil in Hs).
  - unfold _apply_top_k_top_p in Hrun.
    destruct (decide (length _ = length _)); [|done].
    destruct (rows_with_inv _ _ _ _ Hrun) as (Hlp & _ & Hrows).
    destruct (lookup_lt_is_Some_2 (zip (top_ps (_sampling_tensors c))
                                       (top_ks (_sampling_tensors c))) r)
      as [p Hp]; [lia|].
    destruct (Hrows r l p Hl Hp) as (o & Ho & Hf).
    exists o. split; [done|]. by eapply top_k_top_p_row_live.
  - destruct (rows_with_inv _ _ _ _ Hrun) as (Hlp & _ & Hrows).
    destruct (lookup_lt_is_Some_2 (top_as (_sampling_tensors c)) r)
      as [p Hp]; [lia|].
    destruct (Hrows r l p Hl Hp) as (o & Ho & Hf).
    exists o. split; [done|]. eapply top_a_row_live; [|done|done].
    by apply Hta.
  - destruct (rows_with_inv _ _ _ _ Hrun) as (Hlp & _ & Hrows).
    destruct (lookup_lt_is_Some_2 (min_ps (_sampling_tensors c)) r)
      as [p Hp]; [lia|].
    destruct (Hrows r l p Hl Hp) as (o & Ho & Hf).
    exists o. split; [done|]. eapply min_p_row_live; [|done|done].
    by apply Hmp.
  - destruct (rows_with_inv _ _ _ _ Hrun) as (Hlp & _ & Hrows).
    destruct (lookup_lt_is_Some_2 (tfss (_sampling_tensors c)) r)
      as [p Hp]; [lia|].
    destruct (Hrows r l p Hl Hp) as (o & Ho & Hf).
    exists o. split; [done|]. by eapply tfs_row_live.
  - destruct (rows_with_inv _ _ _ _ Hrun) as (Hlp & _ & Hrows).
    destruct (lookup_lt_is_Some_2 (eta_cutoffs (_sampling_tensors c)) r)
      as [p Hp]; [lia|].
    destruct (Hrows r l p Hl Hp) as (o & Ho & Hf).
    exists o. split; [done|]. by eapply eta_cutoff_row_live.
  - destruct (rows_with_inv _ _ _ _ Hrun) as (Hlp & _ & Hrows).
    destruct (lookup_lt_is_Some_2
                (epsilon_cutoffs (_sampling_tensors c)) r)
      as [p Hp]; [lia|].
    destruct (Hrows r l p Hl Hp) as (o & Ho & Hf).
    exists o. split; [done|]. by eapply epsilon_cutoff_row_live.
  - destruct (rows_with_inv _ _ _ _ Hrun) as (Hlp & _ & Hrows).
    destruct (lookup_lt_is_Some_2 (typical_ps (_sampling_tensors c)) r)
      as [p Hp]; [lia|].
    destruct (Hrows r l p Hl Hp) as (o & Ho & Hf).
    exists o. split; [done|]. by eapply typical_sampling_row_live.
Qed.

Lemma run_filters_row_live (c : SamplerCache) (md : SamplingMetadata)
    (stages : list Stage) (logits out : matrix) (r : nat) (l : row) :
  row_bounded (_sampling_tensors c) r ->
  Forall (fun s => s ∈ truncation_filters) stages ->
  run_stages (run_stage c md) stages logits = Some out ->
  logits !! r = Some l -> live_row l = true ->
  exists o, out !! r = Some o /\ live_row o = true.
Proof.
  intros Hb Hst. revert logits l.
  induction Hst as [|s stages Hs _ IH]; intros logits l Hrun Hl Hlive;
    simpl in Hrun.
  - injection Hrun as <-. by exists l.
  - destruct (run_stage c md s logits) as [l1|] eqn:E1; simpl in Hrun;
      [|done].
    destruct (run_filter_row_live c md s logits l1 r l Hb Hs E1 Hl Hlive)
      as (o1 & Ho1 & Hlive1).
    by eapply IH.
Qed.

End KeepAToken.

Lemma live_row_keeps_a_token (l : row) :
  live_row l = true -> keeps_a_token l.
Proof.
  intros Hlive. apply live_row_iff in Hlive as (_ & k & q & Hk).
  by exists k, (Fin q).
Qed.

(** The quadratic transform never sends the greatest logit of a live row
    to minus infinity, whatever the factor and the curve. *)
Lemma quadratic_row_keeps_a_token (l o : row) (fc : ext * ext) :
  live_row l = true ->
  quadratic_sampling_row l fc = Some o -> keeps_a_token o.
Proof.
  destruct fc as [f c]. intros Hlive Ho.
  unfold quadratic_sampling_row in Ho. injection Ho as <-.
  destruct (row_max_live l Hlive) as (km & qm & Hmax & Hkm & _).
  match goal with
  | |- context [if ?b then _ else _] => destruct b
  end; [|by apply live_row_keeps_a_token].
  rewrite Hmax. eexists km, _. rewrite lookup_map, Hkm. simpl.
  split; [done|].
  match goal with
  | |- ?v <> NInf => assert (not_infinite v) as Hv; [|by destruct v]
  end.
  apply add_not_infinite; [apply add_not_infinite|done].
  - apply neg_not_infinite, mul_zero_not_infinite. ring.
  - apply mul_zero_not_infinite. ring.
Qed.

(** C2, as the claim states it, fails: the top-a filter has no exemption
    of its own.  On two equally likely tokens with [top_a] = 3 the
    threshold [top_a * 0.5 ^ 2] is above both probabilities, and the whole
    row leaves the pipeline at minus infinity. *)
Lemma top_a_masks_whole_row :
  forward_logits (H := rational_math) (top_a_cache (Fin 3))
    [[Fin 0; Fin 0]] plain_batch
  = Some [[NInf; NInf]].
Proof. reflexivity. Qed.

(** C2, amended: take the logits as they leave temperature scaling
    ([scaled]), and a row [r] of them with finite or masked entries and at
    least one finite entry, whose [top_a] and [min_p] are at most 1.  After
    the truncation filters and the quadratic transform, each run or
    skipped by its flag, row [r] has an entry that is not minus infinity;
    [forward] is the three stages before them followed by these; and each
    truncation filter on its own keeps such a row one.  Top-k / top-p,
    tail-free sampling, eta cutoff, epsilon cutoff and typical sampling
    reserve the token by an exemption of their own
    ([top_k_top_p_row_live], [tfs_row_live], [eta_cutoff_row_live],
    [epsilon_cutoff_row_live] and [typical_sampling_row_live] have no
    condition on the parameter); top-a and min-p only through the bound
    on theirs. *)
Theorem filters_keep_a_token `{TorchMath} (c : SamplerCache)
    (md : SamplingMetadata) (scaled out : matrix) (r : nat) (l : row) :
  row_bounded (_sampling_tensors c) r ->
  run_stages (run_stage c md)
    (List.filter (stage_active c) (truncation_filters ++ [Quadratic]))
    scaled = Some out ->
  scaled !! r = Some l -> live_row l = true ->
  (exists o, out !! r = Some o /\ keeps_a_token o)
  /\ (forall logits,
        forward_logits c logits md
        = run_stages (run_stage c md)
            (List.filter (stage_active c) stages_before_filters) logits
          ≫= run_stages (run_stage c md)
               (List.filter (stage_active c)
                            (truncation_filters ++ [Quadratic])))
  /\ (forall s before after l',
        s ∈ truncation_filters ->
        run_stage c md s before = Some after ->
        before !! r = Some l' -> live_row l' = true ->
        exists o, after !! r = Some o /\ live_row o = true).
Proof.
  intros Hb Hout Hl Hlive. split; [|split].
  - rewrite List.filter_app, run_stages_app in Hout.
    destruct (run_stages (run_stage c md)
                (List.filter (stage_active c) truncation_filters) scaled)
      as [mid|] eqn:Emid; cbn [mbind option_bind] in Hout; [|done].
    destruct (run_filters_row_live c md
                (List.filter (stage_active c) truncation_filters)
                scaled mid r l Hb) as (m & Hm & Hlm); [|done|done|done|].
    { apply Forall_forall. intros s Hs.
      apply list_elem_of_In, filter_In in Hs as [Hs _].
      by apply list_elem_of_In. }
    cbn [List.filter stage_active] in Hout.
    destruct (_do_quadratic c); cbn [run_stages run_stage] in Hout.
    + destruct (_apply_quadratic_sampling _ _ _) as [o1|] eqn:Eq;
        cbn [mbind option_bind] in Hout; [|done].
      injection Hout as <-.
      unfold _apply_quadratic_sampling in Eq.
      destruct (decide (length _ = length _)); [|done].
      destruct (rows_with_inv _ _ _ _ Eq) as (Hlp & _ & Hrows).
      destruct (lookup_lt_is_Some_2
                  (zip (smoothing_factors (_sampling_tensors c))
                       (smoothing_curves (_sampling_tensors c))) r)
        as [p Hp].
      { rewrite Hlp. by eapply lookup_lt_Some. }
      destruct (Hrows r m p Hm Hp) as (o & Ho & Hf).
      exists o. split; [done|]. by eapply quadratic_row_keeps_a_token.
    + injection Hout as <-. exists m. split; [done|].
      by apply live_row_keeps_a_token.
  - intros logits. rewrite forward_logits_stages.
    change specified_order
      with (stages_before_filters ++ (truncation_filters ++ [Quadratic])).
    by rewrite List.filter_app, run_stages_app.
  - intros s before after l' Hs Hrun Hl' Hlive'.
    by eapply run_filter_row_live.
Qed.

Lemma filters_keep_a_token_witness :
  (exists o, [[NInf; Fin (48 # 16); NInf]] !! 0%nat = Some o
             /\ keeps_a_token o)
  /\ (forall logits,
        forward_logits (H := rational_math) (filtering_cache (Fin (1 # 2)))
          logits plain_batch
        = run_stages
            (run_stage (H := rational_math) (filtering_cache (Fin (1 # 2)))
                       plain_batch)
            (List.filter (stage_active (filtering_cache (Fin (1 # 2))))
                         stages_before_filters) logits
          ≫= run_stages
               (run_stage (H := rational_math)
                          (filtering_cache (Fin (1 # 2))) plain_batch)
               (List.filter (stage_active (filtering_cache (Fin (1 # 2))))
                            (truncation_filters ++ [Quadratic])))
  /\ (forall s before after l',
        s ∈ truncation_filters ->
        run_stage (H := rational_math) (filtering_cache (Fin (1 # 2)))
                  plain_batch s before = Some after ->
        before !! 0%nat = Some l' -> live_row l' = true ->
        exists o, after !! 0%nat = Some o /\ live_row o = true).
Proof.
  apply (filters_keep_a_token (H := rational_math)
           (filtering_cache (Fin (1 # 2))) plain_batch
           [[Fin 1; Fin 3; Fin 2]] [[NInf; Fin (48 # 16); NInf]]
           0%nat [Fin 1; Fin 3; Fin 2]).
  - split; intros a Ha; simpl in Ha; injection Ha as <-; reflexivity.
  - vm_compute. reflexivity.
  - reflexivity.
  - reflexivity.
Defined.

(** * Further properties of the sampler *)

Lemma occurrences_cons (t u : nat) (tokens : list nat) :
  occurrences (u :: tokens) t
  = ((if decide (t = u) then 1 else 0) + occurrences tokens t)%nat.
Proof.
  unfold occurrences. simpl.
  destruct (decide (t = u)) as [->|Hne].
  - by rewrite Nat.eqb_refl.
  - by rewrite (proj2 (Nat.eqb_neq t u) Hne).
Qed.

Lemma occurrences_pos (tokens : list nat) (t : nat) :
  (0 <? occurrences tokens t)%nat = bool_decide (t ∈ tokens).
Proof.
  induction tokens as [|u tokens IH].
  - by rewrite bool_decide_eq_false_2 by apply not_elem_of_nil.
  - rewrite occurrences_cons. destruct (decide (t = u)) as [->|Hne].
    + by rewrite bool_decide_eq_true_2 by apply list_elem_of_here.
    + simpl. rewrite IH.
      destruct (decide (t ∈ tokens)) as [Hin|Hin].
      * rewrite !bool_decide_eq_true_2; [done| |done].
        by apply list_elem_of_further.
      * rewrite !bool_decide_eq_false_2; [done| |done].
        intros Hc. apply elem_of_cons in Hc as [?|?]; done.
Qed.

Lemma scatter_add_ones_spec (tokens bins : list nat) :
  scatter_add_ones bins tokens
  = if decide (Forall (fun t => t < length bins)%nat tokens)
    then Some (imap (fun t c => (c + occurrences tokens t)%nat) bins)
    else None.
Proof.
  revert bins.
  induction tokens as [|u tokens IH]; intros bins; cbn [scatter_add_ones].
  - destruct (decide (Forall _ [])) as [_|Hf]; [|by destruct Hf].
    f_equal.
    apply list_eq. intros i. rewrite list_lookup_imap.
    destruct (bins !! i); simpl; [|done]. f_equal. unfold occurrences. simpl. lia.
  - destruct (bins !! u) as [c|] eqn:Eu; simpl.
    + rewrite IH, length_insert.
      pose proof (lookup_lt_Some _ _ _ Eu) as Hu.
      destruct (decide (Forall _ tokens)) as [Hf|Hf].
      * destruct (decide (Forall _ (u :: tokens))) as [_|Hc];
          [|by destruct Hc; constructor].
        f_equal.
        apply list_eq. intros i. rewrite !list_lookup_imap.
        rewrite occurrences_cons.
        destruct (decide (i = u)) as [->|Hne].
        -- rewrite list_lookup_insert_eq by done. rewrite Eu. simpl.
           f_equal. lia.
        -- by rewrite list_lookup_insert_ne by done.
      * destruct (decide (Forall _ (u :: tokens))) as [Hc|_]; [|done].
        destruct Hf. by apply Forall_cons in Hc as [_ ?].
    + destruct (decide (Forall _ (u :: tokens))) as [Hc|_]; [|done].
      apply Forall_cons in Hc as [Hu _].
      apply lookup_lt_is_Some_2 in Hu. rewrite Eu in Hu. by destruct Hu.
Qed.

(** [_get_bin_counts_and_mask] on one row of token ids: bin [t] counts
    the occurrences of [t] for every id below [vocab_size], the mask marks
    the ids that occur, the padding id [vocab_size] is dropped, and an id
    above it is an index error. *)
Theorem bin_counts_count_occurrences (tokens : list nat) (vocab_size : nat) :
  _get_bin_counts_and_mask tokens vocab_size
  = if decide (Forall (fun t => t <= vocab_size)%nat tokens)
    then Some (map (occurrences tokens) (seq 0 vocab_size),
               map (fun t => bool_decide (t ∈ tokens)) (seq 0 vocab_size))
    else None.
Proof.
  unfold _get_bin_counts_and_mask.
  rewrite scatter_add_ones_spec, length_replicate.
  destruct (decide (Forall (fun t => t <= vocab_size)%nat tokens)) as [Hf|Hf].
  - destruct (decide (Forall _ tokens)) as [_|Hc].
    2:{ destruct Hc. eapply Forall_impl; [done|]. simpl. intros. lia. }
    cbn [mbind option_bind].
    assert (take vocab_size
              (imap (fun t c => (c + occurrences tokens t)%nat)
                    (replicate (S vocab_size) 0%nat))
            = map (occurrences tokens) (seq 0 vocab_size)) as ->.
    { apply list_eq. intros i.
      destruct (decide (i < vocab_size)%nat) as [Hi|Hi].
      - rewrite lookup_take_lt by done.
        rewrite list_lookup_imap, lookup_replicate_2 by lia. simpl.
        by rewrite lookup_map, lookup_seq_lt by done.
      - rewrite lookup_take_ge by lia.
        rewrite lookup_map, lookup_seq_ge by lia. done. }
    f_equal. f_equal. rewrite List.map_map. apply map_ext.
    intros t. apply occurrences_pos.
  - destruct (decide (Forall _ tokens)) as [Hc|_]; [|done].
    destruct Hf. eapply Forall_impl; [done|]. simpl. intros. lia.
Qed.

Lemma set_neg_inf_frame (m m' : matrix) (rt : nat * nat) (r t : nat) :
  set_neg_inf m rt = Some m' ->
  length m' = length m
  /\ (forall l, m !! r = Some l ->
        exists l', m' !! r = Some l' /\ length l' = length l)
  /\ ((r, t) <> rt -> cell m' r t = cell m r t).
Proof.
  destruct rt as [r' t']. unfold set_neg_inf, cell. simpl. intros Hs.
  destruct (m !! r') as [l0|] eqn:El; simpl in Hs; [|done].
  destruct (l0 !! t') as [x|] eqn:Ex; simpl in Hs; [|done].
  injection Hs as <-. split; [apply length_insert|]. split.
  - intros l Hl. destruct (decide (r' = r)) as [->|Hr].
    + rewrite list_lookup_insert_eq by (by eapply lookup_lt_Some).
      rewrite El in Hl. injection Hl as <-.
      eexists. split; [done|]. apply length_insert.
    + rewrite list_lookup_insert_ne by done. by exists l.
  - intros Hne. destruct (decide (r' = r)) as [->|Hr].
    + rewrite list_lookup_insert_eq by (by eapply lookup_lt_Some).
      rewrite El. simpl. apply list_lookup_insert_ne. congruence.
    + by rewrite list_lookup_insert_ne by done.
Qed.

Lemma set_all_neg_inf_frame (rts : list (nat * nat)) (m m' : matrix)
    (r t : nat) :
  set_all_neg_inf m rts = Some m' ->
  (forall l, m !! r = Some l ->
     exists l', m' !! r = Some l' /\ length l' = length l)
  /\ ((r, t) ∉ rts -> cell m' r t = cell m r t).
Proof.
  revert m. induction rts as [|rt rts IH]; intros m Hs; simpl in Hs.
  - injection Hs as <-. split; [|done]. intros l Hl. by exists l.
  - destruct (set_neg_inf m rt) as [m1|] eqn:E1; simpl in Hs; [|done].
    destruct (set_neg_inf_frame m m1 rt r t E1) as (_ & Hrow & Hcell).
    destruct (IH m1 Hs) as (Hrow' & Hcell'). split.
    + intros l Hl. destruct (Hrow l Hl) as (l1 & Hl1 & Hlen1).
      destruct (Hrow' l1 Hl1) as (l' & Hl' & Hlen').
      exists l'. split; [done|]. congruence.
    + intros Hni. apply not_elem_of_cons in Hni as [Hne Hni].
      rewrite (Hcell' Hni). by apply Hcell.
Qed.

Lemma seqs_to_penalize_nil (sd : gmap nat SequenceData) (j0 : nat)
    (ids : list nat) (js : list nat) :
  seqs_to_penalize sd 0 j0 ids = Some js -> js = [].
Proof.
  revert j0 js. induction ids as [|i ids IH]; intros j0 js Hs; simpl in Hs.
  - by injection Hs as <-.
  - destruct (sd !! i) as [d|]; simpl in Hs; [|done].
    destruct (seqs_to_penalize sd 0 (S j0) ids) as [tl|] eqn:Et;
      simpl in Hs; [|done].
    injection Hs as <-. by eapply IH.
Qed.

Lemma group_logits_to_penalize_tokens (g : SequenceGroupToSample)
    (here : list (nat * nat)) (r t : nat) :
  group_logits_to_penalize g = Some here ->
  (r, t) ∈ here ->
  do_sample g = true
  /\ (0 < min_tokens (sampling_params g))%nat
  /\ t ∈ all_stop_token_ids (sampling_params g).
Proof.
  unfold group_logits_to_penalize. intros Hg Hin.
  destruct (do_sample g); simpl in Hg;
    [|injection Hg as <-; by apply elem_of_nil in Hin].
  destruct (sample_indices g !! 0%nat) as [start|]; simpl in Hg; [|done].
  destruct (0 <? min_tokens (sampling_params g))%nat eqn:Emin; simpl in Hg;
    [|injection Hg as <-; by apply elem_of_nil in Hin].
  destruct (bool_decide _); simpl in Hg;
    [injection Hg as <-; by apply elem_of_nil in Hin|].
  destruct (seqs_to_penalize _ _ _ _) as [js|]; simpl in Hg; [|done].
  injection Hg as <-.
  apply list_elem_of_In, in_prod_iff in Hin as [_ Ht].
  split; [done|]. split; [by apply Nat.ltb_lt|by apply list_elem_of_In].
Qed.

Lemma min_tokens_loop_tokens (groups : list SequenceGroupToSample)
    (all : list (nat * nat)) (applied r t : nat) :
  min_tokens_loop groups = Some (all, applied) ->
  applied = sum_list (map (fun g => (length (sample_indices g)
                                     + length (prompt_logprob_indices g))%nat)
                          groups)
  /\ ((r, t) ∈ all ->
      exists g, g ∈ groups /\ do_sample g = true
                /\ (0 < min_tokens (sampling_params g))%nat
                /\ t ∈ all_stop_token_ids (sampling_params g)).
Proof.
  revert all applied.
  induction groups as [|g groups IH]; intros all applied Hl; simpl in Hl.
  - injection Hl as <- <-. split; [done|]. intros Hin.
    by apply elem_of_nil in Hin.
  - destruct (group_logits_to_penalize g) as [here|] eqn:Eg; simpl in Hl;
      [|done].
    destruct (min_tokens_loop groups) as [[later ap]|] eqn:El; simpl in Hl;
      [|done].
    injection Hl as <- <-. destruct (IH later ap eq_refl) as (-> & Hin).
    split; [simpl; lia|]. intros Hrt.
    apply elem_of_app in Hrt as [Hrt|Hrt].
    + exists g. split; [apply list_elem_of_here|].
      by eapply group_logits_to_penalize_tokens.
    + destruct (Hin Hrt) as (g' & Hg' & Hrest).
      exists g'. split; [by apply list_elem_of_further|done].
Qed.

(** The minimum-token gate only masks stop tokens.  When it returns, the
    rows that the groups account for are exactly the rows of the logits;
    the tensor keeps its shape; every entry is the one it was or minus
    infinity; and an entry that changed belongs to a token that is a stop
    token of a sampling group with a positive [min_tokens]. *)
Theorem min_tokens_gate_only_masks_stop_tokens (logits gated : matrix)
    (md : SamplingMetadata) :
  _apply_min_tokens_penalty logits md = Some gated ->
  sum_list (map (fun g => (length (sample_indices g)
                           + length (prompt_logprob_indices g))%nat)
                (seq_groups md)) = length logits
  /\ length gated = length logits
  /\ (forall r l, logits !! r = Some l ->
        exists l', gated !! r = Some l' /\ length l' = length l)
  /\ (forall r t, cell gated r t = cell logits r t
                  \/ (cell gated r t = Some NInf
                      /\ exists g, g ∈ seq_groups md /\ do_sample g = true
                           /\ (0 < min_tokens (sampling_params g))%nat
                           /\ t ∈ all_stop_token_ids (sampling_params g))).
Proof.
  unfold _apply_min_tokens_penalty. intros Hgate.
  destruct (min_tokens_loop (seq_groups md)) as [[all applied]|] eqn:El;
    simpl in Hgate; [|done].
  destruct (set_all_neg_inf logits all) as [m|] eqn:Es; simpl in Hgate;
    [|done].
  case_decide as Happ; [|done]. injection Hgate as <-.
  pose proof (set_all_neg_inf_length _ _ _ Es) as Hlen.
  destruct (min_tokens_loop_tokens _ _ _ 0 0 El) as (Hsum & _).
  split; [congruence|]. split; [done|]. split.
  - intros r l Hl. by apply (set_all_neg_inf_frame all logits m r 0 Es).
  - intros r t. destruct (decide ((r, t) ∈ all)) as [Hin|Hni].
    + right. split; [by eapply set_all_neg_inf_hit|].
      by apply (min_tokens_loop_tokens _ _ _ r t El).
    + left. by apply (set_all_neg_inf_frame all logits m r t Es).
Qed.

Lemma min_tokens_gate_only_masks_stop_tokens_witness :
  sum_list (map (fun g => (length (sample_indices g)
                           + length (prompt_logprob_indices g))%nat)
                (seq_groups gated_batch)) = length [[Fin 1; Fin 2; Fin 3]]
  /\ length [[NInf; Fin 2; Fin 3]] = length [[Fin 1; Fin 2; Fin 3]]
  /\ (forall r l, [[Fin 1; Fin 2; Fin 3]] !! r = Some l ->
        exists l', [[NInf; Fin 2; Fin 3]] !! r = Some l'
                   /\ length l' = length l)
  /\ (forall r t, cell [[NInf; Fin 2; Fin 3]] r t
                  = cell [[Fin 1; Fin 2; Fin 3]] r t
                  \/ (cell [[NInf; Fin 2; Fin 3]] r t = Some NInf
                      /\ exists g, g ∈ seq_groups gated_batch
                           /\ do_sample g = true
                           /\ (0 < min_tokens (sampling_params g))%nat
                           /\ t ∈ all_stop_token_ids (sampling_params g))).
Proof.
  apply (min_tokens_gate_only_masks_stop_tokens
           [[Fin 1; Fin 2; Fin 3]] [[NInf; Fin 2; Fin 3]] gated_batch).
  reflexivity.
Defined.

Lemma group_logits_to_penalize_inactive (g : SequenceGroupToSample) :
  gate_inactive g -> group_logits_to_penalize g = Some [].
Proof.
  unfold gate_inactive, group_logits_to_penalize. intros Hg.
  destruct (do_sample g); simpl; [|done].
  destruct (Hg eq_refl) as (Hne & Hoff).
  destruct (sample_indices g) as [|start rest]; [done|]. simpl.
  destruct Hoff as [-> | ->]; [done|].
  by rewrite andb_false_r.
Qed.

(** With no minimum-token policy in force (every sampling group has
    [min_tokens] at 0 or no stop token), the gate returns the logits
    unchanged, provided the groups account for every row. *)
Theorem min_tokens_gate_inactive (logits : matrix) (md : SamplingMetadata) :
  Forall gate_inactive (seq_groups md) ->
  sum_list (map (fun g => (length (sample_indices g)
                           + length (prompt_logprob_indices g))%nat)
                (seq_groups md)) = length logits ->
  _apply_min_tokens_penalty logits md = Some logits.
Proof.
  unfold _apply_min_tokens_penalty. intros Hoff Hsum.
  assert (min_tokens_loop (seq_groups md)
          = Some ([], length logits)) as ->.
  { rewrite <- Hsum. clear Hsum.
    induction (seq_groups md) as [|g groups IH]; [done|].
    apply Forall_cons in Hoff as [Hg Hoff]. simpl.
    rewrite (group_logits_to_penalize_inactive g Hg), (IH Hoff). done. }
  simpl. by rewrite decide_True.
Qed.

Lemma min_tokens_gate_inactive_witness :
  _apply_min_tokens_penalty [[Fin 1; Fin 2; Fin 3]] plain_batch
  = Some [[Fin 1; Fin 2; Fin 3]].
Proof.
  apply (min_tokens_gate_inactive [[Fin 1; Fin 2; Fin 3]] plain_batch).
  - repeat constructor; done.
  - reflexivity.
Defined.

Lemma penalty_rows_lookup (pt ot : list (list nat))
    (pres freq rep : list ext) (ps : list PenaltyRow) (r : nat)
    (p : PenaltyRow) :
  penalty_rows pt ot pres freq rep = Some ps ->
  ps !! r = Some p ->
  pt !! r = Some (pr_prompt_tokens p)
  /\ ot !! r = Some (pr_output_tokens p)
  /\ pres !! r = Some (pr_presence p)
  /\ freq !! r = Some (pr_frequency p)
  /\ rep !! r = Some (pr_repetition p).
Proof.
  revert ot pres freq rep ps r.
  induction pt as [|a pt IH];
    intros [|b ot] [|c pres] [|d freq] [|e rep] ps r Hp Hr;
    simpl in Hp; try done.
  - by injection Hp as <-.
  - destruct (penalty_rows pt ot pres freq rep) as [tl|] eqn:Et;
      simpl in Hp; [|done].
    injection Hp as <-. destruct r as [|r]; simpl in *.
    + by injection Hr as <-.
    + by eapply IH.
Qed.

(** The entry of token [t] after the penalties of its row. *)
Lemma penalties_row_lookup (l o : row) (p : PenaltyRow) (t : nat) (x : ext) :
  penalties_row l p = Some o ->
  l !! t = Some x ->
  o !! t
  = Some (penalize_entry (pr_presence p) (pr_frequency p) (pr_repetition p)
            x
            (bool_decide (t ∈ pr_prompt_tokens p)
             || bool_decide (t ∈ pr_output_tokens p))
            (occurrences (pr_output_tokens p) t)
            (bool_decide (t ∈ pr_output_tokens p))).
Proof.
  unfold penalties_row. rewrite !bin_counts_count_occurrences.
  intros Hp Hx.
  destruct (decide (Forall _ (pr_prompt_tokens p))); simpl in Hp; [|done].
  destruct (decide (Forall _ (pr_output_tokens p))); simpl in Hp; [|done].
  injection Hp as <-.
  pose proof (lookup_lt_Some _ _ _ Hx) as Ht.
  rewrite lookup_zip_with, Hx. simpl.
  assert (forall {A} (g : nat -> A),
            map g (seq 0 (length l)) !! t = Some (g t)) as Hseq.
  { intros A g. rewrite lookup_map. rewrite lookup_seq_lt; [|lia]. reflexivity. }
  set (pm := map (fun t => bool_decide (t ∈ pr_prompt_tokens p))
                 (seq 0 (length l))).
  set (om := map (fun t => bool_decide (t ∈ pr_output_tokens p))
                 (seq 0 (length l))).
  set (oc := map (occurrences (pr_output_tokens p)) (seq 0 (length l))).
  assert (zip (zip_with orb pm om) (zip oc om) !! t
          = Some (bool_decide (t ∈ pr_prompt_tokens p)
                  || bool_decide (t ∈ pr_output_tokens p),
                  (occurrences (pr_output_tokens p) t,
                   bool_decide (t ∈ pr_output_tokens p)))) as ->.
  { apply lookup_zip_Some. split.
    - unfold pm, om. rewrite lookup_zip_with, !Hseq. done.
    - apply lookup_zip_Some. unfold oc, om. by rewrite !Hseq. }
  done.
Qed.

Lemma apply_penalties_lookup (logits out : matrix)
    (pt ot : list (list nat)) (pres freq rep : list ext)
    (r t : nat) (l : row) (x : ext) :
  _apply_penalties logits pt ot pres freq rep = Some out ->
  logits !! r = Some l -> l !! t = Some x ->
  exists p o a f rp,
    pt !! r = Some p /\ ot !! r = Some o /\ pres !! r = Some a
    /\ freq !! r = Some f /\ rep !! r = Some rp
    /\ cell out r t
       = Some (penalize_entry a f rp x
                 (bool_decide (t ∈ p) || bool_decide (t ∈ o))
                 (occurrences o t) (bool_decide (t ∈ o))).
Proof.
  unfold _apply_penalties. intros Ha Hl Hx.
  destruct (penalty_rows _ _ _ _ _) as [ps|] eqn:Eps; simpl in Ha; [|done].
  destruct (rows_with_inv _ _ _ _ Ha) as (Hlp & Hlo & Hrows).
  assert (is_Some (ps !! r)) as [p Hp].
  { apply lookup_lt_is_Some_2. apply lookup_lt_Some in Hl. lia. }
  destruct (Hrows r l p Hl Hp) as (o & Ho & Hrow).
  destruct (penalty_rows_lookup _ _ _ _ _ _ _ _ Eps Hp)
    as (H1 & H2 & H3 & H4 & H5).
  exists (pr_prompt_tokens p), (pr_output_tokens p), (pr_presence p),
         (pr_frequency p), (pr_repetition p).
  repeat (split; [done|]).
  unfold cell. rewrite Ho. simpl. by apply (penalties_row_lookup l).
Qed.

(** The penalties leave a token alone that is neither in the prompt nor
    among the output tokens of its row: with finite presence and
    frequency coefficients its logit keeps its value, whatever the
    repetition coefficient. *)
Theorem penalties_spare_unseen_tokens (logits out : matrix)
    (pt ot : list (list nat)) (pres freq rep : list ext)
    (r t : nat) (l : row) (x : ext) (p o : list nat) (a f : ext) :
  _apply_penalties logits pt ot pres freq rep = Some out ->
  logits !! r = Some l -> l !! t = Some x ->
  pt !! r = Some p -> ot !! r = Some o ->
  pres !! r = Some a -> freq !! r = Some f ->
  t ∉ p -> t ∉ o ->
  is_finite a = true -> is_finite f = true ->
  exists y, cell out r t = Some y /\ ext_equiv y x.
Proof.
  intros Ha Hl Hx Hp Ho Hpa Hf Htp Hto Hfa Hff.
  destruct (apply_penalties_lookup _ _ _ _ _ _ _ r t l x Ha Hl Hx)
    as (p' & o' & a' & f' & rp & Hp' & Ho' & Ha' & Hf' & _ & Hc).
  rewrite Hp in Hp'. rewrite Ho in Ho'. rewrite Hpa in Ha'.
  rewrite Hf in Hf'. injection Hp' as <-. injection Ho' as <-.
  injection Ha' as <-. injection Hf' as <-.
  eexists. split; [done|].
  rewrite !bool_decide_eq_false_2 by done.
  assert (occurrences o t = 0%nat) as ->.
  { pose proof (occurrences_pos o t) as Hocc.
    rewrite bool_decide_eq_false_2 in Hocc by done.
    apply Nat.ltb_ge in Hocc. lia. }
  destruct a as [|qa| |]; try done. destruct f as [|qf| |]; try done.
  unfold penalize_entry, ext_of_nat, ext_of_bool. simpl.
  destruct x as [|q| |]; simpl; try done.
  destruct (Qltb 0 q); simpl; field.
Qed.

Lemma penalties_spare_unseen_tokens_witness :
  exists y, cell [[Fin (-2 * 3 - 0 * inject_Z 0 - 0 * 0);
                   Fin (2 / 1 - 0 * inject_Z 0 - 0 * 0)]] 0 1 = Some y
            /\ ext_equiv y (Fin 2).
Proof.
  apply (penalties_spare_unseen_tokens [[Fin (-2); Fin 2]] _
           [[0%nat; 2%nat]] [[2%nat]] [Fin 0] [Fin 0] [Fin 3]
           0 1 [Fin (-2); Fin 2] (Fin 2) [0%nat; 2%nat] [2%nat]
           (Fin 0) (Fin 0)).
  - reflexivity.
  - reflexivity.
  - reflexivity.
  - reflexivity.
  - reflexivity.
  - reflexivity.
  - reflexivity.
  - apply (bool_decide_eq_false_1 (1%nat ∈ [0%nat; 2%nat])). reflexivity.
  - apply (bool_decide_eq_false_1 (1%nat ∈ [2%nat])). reflexivity.
  - reflexivity.
  - reflexivity.
Defined.

Lemma penalize_entry_le (a f rp : Q) (x : ext) (seen : bool) (count : nat)
    (out_seen : bool) :
  (0 <= a)%Q -> (0 <= f)%Q -> (1 <= rp)%Q -> regular x = true ->
  (penalize_entry (Fin a) (Fin f) (Fin rp) x seen count out_seen <=? x)%ext
  = true.
Proof.
  intros Ha Hf Hr Hx.
  assert (0 <= inject_Z (Z.of_nat count))%Q as Hc.
  { change 0%Q with (inject_Z 0). rewrite <- Zle_Qle. lia. }
  assert (0 <= (if out_seen then 1 else 0))%Q as Hb
    by (destruct out_seen; lra).
  set (r' := if seen then rp else 1%Q).
  assert (1 <= r')%Q as Hr' by (unfold r'; destruct seen; lra).
  assert (Qeq_bool r' 0 = false) as Hr0.
  { destruct (Qeq_bool r' 0) eqn:E; [|done].
    apply Qeq_bool_iff in E. lra. }
  assert ((r' ?= 0)%Q = Gt) as Hrg by (apply Qgt_alt; lra).
  unfold penalize_entry, ext_of_nat, ext_of_bool.
  replace (if seen then Fin rp else Fin 1) with (Fin r')
    by (unfold r'; by destruct seen).
  destruct x as [|q| |]; try done; simpl.
  - unfold inf_times. by rewrite Hrg.
  - destruct (Qltb 0 q) eqn:Eq; simpl; rewrite ?Hr0; simpl;
      apply Qle_bool_iff.
    + apply Qltb_lt in Eq.
      assert (q / r' <= q)%Q as Hdiv.
      { apply Qle_shift_div_r; [lra|]. nra. }
      nra.
    + apply Qltb_ge in Eq. nra.
Qed.

(** With a repetition coefficient of at least 1 and presence and
    frequency coefficients that are not negative, the penalties raise no
    logit: every entry of the result is at most the entry it replaces. *)
Theorem penalties_never_raise_a_logit (logits out : matrix)
    (pt ot : list (list nat)) (pres freq rep : list ext)
    (r t : nat) (l : row) (x : ext) (a f rp : Q) :
  _apply_penalties logits pt ot pres freq rep = Some out ->
  logits !! r = Some l -> l !! t = Some x ->
  pres !! r = Some (Fin a) -> freq !! r = Some (Fin f) ->
  rep !! r = Some (Fin rp) ->
  (0 <= a)%Q -> (0 <= f)%Q -> (1 <= rp)%Q ->
  regular x = true ->
  exists y, cell out r t = Some y /\ (y <=? x)%ext = true.
Proof.
  intros Ha Hl Hx Hpa Hf Hrp Hage Hfge Hrge Hreg.
  destruct (apply_penalties_lookup _ _ _ _ _ _ _ r t l x Ha Hl Hx)
    as (p' & o' & a' & f' & rp' & _ & _ & Ha' & Hf' & Hrp' & Hc).
  rewrite Hpa in Ha'. rewrite Hf in Hf'. rewrite Hrp in Hrp'.
  injection Ha' as <-. injection Hf' as <-. injection Hrp' as <-.
  eexists. split; [done|]. by apply penalize_entry_le.
Qed.

Lemma penalties_never_raise_a_logit_witness :
  exists y, cell [[Fin (-2 * 3 - (1 # 2) * inject_Z 0 - 1 * 0);
                   Fin (2 / 1 - (1 # 2) * inject_Z 0 - 1 * 0)]] 0 0 = Some y
            /\ (y <=? Fin (-2))%ext = true.
Proof.
  apply (penalties_never_raise_a_logit [[Fin (-2); Fin 2]] _
           [[0%nat; 2%nat]] [[2%nat]] [Fin 1] [Fin (1 # 2)] [Fin 3]
           0 0 [Fin (-2); Fin 2] (Fin (-2)) 1 (1 # 2) 3).
  - reflexivity.
  - reflexivity.
  - reflexivity.
  - reflexivity.
  - reflexivity.
  - reflexivity.
  - lra.
  - lra.
  - lra.
  - reflexivity.
Defined.

Lemma masked_fill_masked_from (l : row) (mask : list bool) :
  length mask = length l -> masked_from l (masked_fill_neg_inf l mask).
Proof.
  intros Hlen. split; [by apply masked_fill_length|].
  intros t x Hx.
  destruct (lookup_lt_is_Some_2 mask t) as [m Hm].
  { rewrite Hlen. by eapply lookup_lt_Some. }
  rewrite (masked_fill_lookup l mask t x m Hx Hm).
  destruct m; [by right|by left].
Qed.

Lemma masked_from_refl (l : row) : masked_from l l.
Proof. split; [done|]. intros t x Hx. by left. Qed.

Lemma masked_from_trans (l m o : row) :
  masked_from l m -> masked_from m o -> masked_from l o.
Proof.
  intros (Hl1 & H1) (Hl2 & H2). split; [congruence|].
  intros t x Hx. destruct (H1 t x Hx) as [Hm|Hm].
  - by apply H2.
  - destruct (H2 t NInf Hm) as [Ho|Ho]; by right.
Qed.

Lemma clear_at_length (mask mask' : list bool) (i : nat) :
  clear_at mask i = Some mask' -> length mask' = length mask.
Proof.
  unfold clear_at. case_decide; [|done]. intros [= <-].
  apply length_insert.
Qed.

Section OnlyMask.
Context `{TorchMath}.

Lemma length_log_softmax (l : row) : length (log_softmax l) = length l.
Proof. unfold log_softmax. by rewrite length_map. Qed.

Lemma min_p_row_masks (l o : row) (min_p : ext) :
  min_p_row l min_p = Some o -> masked_from l o.
Proof.
  unfold min_p_row. intros [= <-]. apply masked_fill_masked_from.
  by rewrite length_map, length_softmax.
Qed.

Lemma top_a_row_masks (l o : row) (top_a : ext) :
  top_a_row l top_a = Some o -> masked_from l o.
Proof.
  unfold top_a_row. intros [= <-]. apply masked_fill_masked_from.
  by rewrite length_map, length_softmax.
Qed.

Lemma epsilon_cutoff_row_masks (l o : row) (epsilon_cutoff : ext) :
  epsilon_cutoff_row l epsilon_cutoff = Some o -> masked_from l o.
Proof.
  unfold epsilon_cutoff_row. intros Ho.
  destruct (clear_at _ _) as [mask|] eqn:Ec; simpl in Ho; [|done].
  injection Ho as <-. apply masked_fill_masked_from.
  apply clear_at_length in Ec. by rewrite Ec, length_map, length_softmax.
Qed.

Lemma eta_cutoff_row_masks (l o : row) (eta_cutoff : ext) :
  eta_cutoff_row l eta_cutoff = Some o -> masked_from l o.
Proof.
  unfold eta_cutoff_row. intros Ho.
  destruct (clear_at _ _) as [mask|] eqn:Ec; simpl in Ho; [|done].
  injection Ho as <-. apply masked_fill_masked_from.
  apply clear_at_length in Ec.
  by rewrite Ec, !length_map, length_log_softmax.
Qed.

Lemma typical_sampling_row_masks (l o : row) (typical_p : ext) :
  typical_sampling_row l typical_p = Some o -> masked_from l o.
Proof.
  unfold typical_sampling_row. cbv beta iota zeta.
  rewrite tensor_sort_pairs. simpl snd.
  set (dev := map _ (log_softmax l)).
  assert (length dev = length l) as Hdev
    by (unfold dev; by rewrite length_map, length_log_softmax).
  set (s := sorted_pairs false dev).
  intros Ho.
  destruct (gather _ (s.*2)) as [reordered|] eqn:Eg;
    cbn [mbind option_bind] in Ho; [|done].
  destruct (scatter _ _ _) as [tm|] eqn:Esc;
    cbn [mbind option_bind] in Ho; [|done].
  injection Ho as <-. apply masked_fill_masked_from.
  apply scatter_length in Esc. rewrite Esc.
  apply gather_length in Eg.
  rewrite length_app, length_replicate, length_drop, length_map.
  unfold cumsum. rewrite length_cumsum_from, Eg, length_fmap.
  unfold s. rewrite sorted_pairs_length. lia.
Qed.

Lemma tfs_row_masks (l o : row) (tfs : ext) :
  tfs_row l tfs = Some o -> masked_from l o.
Proof.
  intros Ho. destruct (tfs_row_spec l o tfs Ho) as (_ & Hlen & Hpos).
  split; [done|]. intros t x Hx.
  destruct (sorted_pairs_position true l t x Hx) as (k & Hk).
  rewrite (Hpos k x t Hk).
  destruct (decide (k = 0)%nat); [by left|].
  destruct (decide (k = length l - 1)%nat); [by right|].
  destruct (curvature_cdf _ !! _) as [c|]; [|by left].
  destruct (c >? tfs)%ext; [by right|by left].
Qed.

(** [_apply_top_k_top_p] on one row, position by position of the sorted
    order: the parameter [k] is between 1 and the length of the row, and
    the token at position [j] of the ascending order gets what the two
    masks leave at [j]. *)
Lemma top_k_top_p_row_spec (l o : row) (p : ext) (k : Z) :
  top_k_top_p_row l (p, k) = Some o ->
  let s := sorted_pairs false l in
  (1 <= k <= Z.of_nat (length l))%Z
  /\ length o = length l
  /\ exists kth,
       s.*1 !! Z.to_nat (Z.of_nat (length l) - k) = Some kth
       /\ forall j v i, s !! j = Some (v, i) ->
            o !! i
            = (let ls1 := masked_fill_neg_inf (s.*1)
                            (map (fun x => (x <? kth)%ext) (s.*1)) in
               masked_fill_neg_inf ls1
                 (<[pred (length l) := false]>
                    (map (fun c => (c <=? Fin 1 - p)%ext)
                         (cumsum (softmax ls1))))) !! j.
Proof.
  unfold top_k_top_p_row. rewrite tensor_sort_pairs.
  cbv beta iota zeta. intros Ho.
  set (s := sorted_pairs false l) in *.
  assert (length s = length l) as Hs by apply sorted_pairs_length.
  assert (length (s.*1) = length l) as Hs1 by (by rewrite length_fmap).
  assert (length (s.*2) = length l) as Hs2 by (by rewrite length_fmap).
  rewrite Hs1, Hs2 in Ho.
  destruct (negb _) eqn:Erange; [done|].
  apply negb_false_iff, andb_true_iff in Erange as [Hlo Hhi].
  apply Z.leb_le in Hlo. apply Z.ltb_lt in Hhi.
  destruct (s.*1 !! Z.to_nat _) as [kth|] eqn:Ekth;
    cbn [mbind option_bind] in Ho; [|done].
  destruct (scatter _ _ _) as [inv|] eqn:Einv;
    cbn [mbind option_bind] in Ho; [|done].
  split; [lia|]. split.
  { apply gather_length in Ho. apply scatter_length in Einv.
    by rewrite Ho, Einv, length_replicate. }
  exists kth. split; [done|]. intros j v i Hj.
  assert (inv !! i = Some j) as Hinv.
  { eapply (scatter_lookup _ _ _ _ j); [done| | |].
    - apply sorted_pairs_NoDup.
    - by rewrite list_lookup_fmap, Hj.
    - apply lookup_seq. split; [done|].
      apply lookup_lt_Some in Hj. lia. }
  destruct (gather_lookup _ _ _ _ _ Ho Hinv) as (x & Hx & Hox).
  by rewrite Hox, <- Hx.
Qed.

Lemma top_k_top_p_row_masks (l o : row) (pk : ext * Z) :
  top_k_top_p_row l pk = Some o -> masked_from l o.
Proof.
  destruct pk as [p k]. intros Ho.
  destruct (top_k_top_p_row_spec l o p k Ho) as (_ & Hlen & kth & _ & Hpos).
  split; [done|]. intros t x Hx.
  destruct (sorted_pairs_position false l t x Hx) as (j & Hj).
  rewrite (Hpos j x t Hj). cbv zeta.
  set (s := sorted_pairs false l) in *.
  assert (length (s.*1) = length l) as Hs1
    by (rewrite length_fmap; apply sorted_pairs_length).
  assert (s.*1 !! j = Some x) as Hv by (by rewrite list_lookup_fmap, Hj).
  set (m1 := map (fun x => (x <? kth)%ext) (s.*1)).
  assert (masked_from (s.*1) (masked_fill_neg_inf (s.*1) m1)) as Hm1.
  { apply masked_fill_masked_from. unfold m1. by rewrite length_map. }
  set (ls1 := masked_fill_neg_inf (s.*1) m1) in *.
  assert (masked_from ls1
            (masked_fill_neg_inf ls1
               (<[pred (length l) := false]>
                  (map (fun c => (c <=? Fin 1 - p)%ext)
                       (cumsum (softmax ls1)))))) as Hm2.
  { apply masked_fill_masked_from.
    rewrite length_insert, length_map. unfold cumsum.
    by rewrite length_cumsum_from, length_softmax. }
  destruct (masked_from_trans _ _ _ Hm1 Hm2) as (_ & Hpos2).
  by apply Hpos2.
Qed.

(** The truncation filters only mask: the stage returns a tensor of the
    same shape in which every entry is the entry it was or minus
    infinity.  No filter changes the value of a logit that it keeps. *)
Theorem truncation_filters_only_mask (c : SamplerCache)
    (md : SamplingMetadata) (s : Stage) (logits out : matrix) :
  s ∈ masking_stages ->
  run_stage c md s logits = Some out ->
  Forall2 masked_from logits out.
Proof.
  intros Hs Hrun.
  assert (forall {A} (f : row -> A -> option row) (params : list A),
            (forall l p o, f l p = Some o -> masked_from l o) ->
            rows_with f logits params = Some out ->
            Forall2 masked_from logits out) as Hrows.
  { intros A f params Hf Hrw.
    destruct (rows_with_inv _ _ _ _ Hrw) as (Hlp & Hlo & Hr).
    apply Forall2_same_length_lookup_2; [done|].
    intros i l o Hl Ho.
    destruct (lookup_lt_is_Some_2 params i) as [p Hp].
    { rewrite Hlp. by eapply lookup_lt_Some. }
    destruct (Hr i l p Hl Hp) as (o' & Ho' & Hfo).
    rewrite Ho in Ho'. injection Ho' as <-. by eapply Hf. }
  unfold masking_stages in Hs.
  repeat (apply elem_of_cons in Hs as [->|Hs]); simpl in Hrun.
  - unfold _apply_top_k_top_p in Hrun. case_decide; [|done].
    eapply Hrows; [|done]. intros l p o. apply top_k_top_p_row_masks.
  - eapply Hrows; [|done]. intros l p o. apply top_a_row_masks.
  - eapply Hrows; [|done]. intros l p o. apply min_p_row_masks.
  - eapply Hrows; [|done]. intros l p o. apply tfs_row_masks.
  - eapply Hrows; [|done]. intros l p o. apply eta_cutoff_row_masks.
  - eapply Hrows; [|done]. intros l p o. apply epsilon_cutoff_row_masks.
  - eapply Hrows; [|done]. intros l p o. apply typical_sampling_row_masks.
  - by apply elem_of_nil in Hs.
Qed.

End OnlyMask.

Lemma truncation_filters_only_mask_witness :
  Forall2 masked_from [[Fin 1; Fin 3; Fin 2]] [[NInf; Fin 3; NInf]].
Proof.
  apply (truncation_filters_only_mask (H := rational_math)
           (top_a_cache (Fin 1)) plain_batch TopA
           [[Fin 1; Fin 3; Fin 2]] [[NInf; Fin 3; NInf]]).
  - unfold masking_stages. apply list_elem_of_In. simpl. tauto.
  - vm_compute. reflexivity.
Defined.

Lemma count_greater_app (l1 l2 : row) (v : ext) :
  count_greater (l1 ++ l2) v = (count_greater l1 v + count_greater l2 v)%nat.
Proof.
  unfold count_greater. induction l1 as [|x l1 IH]; simpl; [done|].
  rewrite IH. lia.
Qed.

Lemma count_greater_le_length (l : row) (v : ext) :
  (count_greater l v <= length l)%nat.
Proof.
  unfold count_greater. induction l as [|x l IH]; simpl; [lia|].
  destruct (x >? v)%ext; lia.
Qed.

Lemma count_greater_Permutation (l1 l2 : row) (v : ext) :
  l1 ≡ₚ l2 -> count_greater l1 v = count_greater l2 v.
Proof.
  intros Hp. unfold count_greater.
  induction Hp as [|x l1 l2 _ IH|x y l|l1 l2 l3 _ IH1 _ IH2]; simpl;
    [done|by rewrite IH|lia|congruence].
Qed.

Lemma count_greater_none (l : row) (v : ext) :
  (forall x, x ∈ l -> sort_leb x v = true) -> count_greater l v = 0%nat.
Proof.
  unfold count_greater. induction l as [|x l IH]; intros Hle; [done|].
  simpl. rewrite IH by (intros y Hy; by apply Hle, list_elem_of_further).
  pose proof (sort_leb_not_gtb _ _ (Hle x (list_elem_of_here _ _))) as E.
  by rewrite E.
Qed.

(** Sorted ascending, the entry at position [a] has at most the entries
    after it above it. *)
Lemma sorted_count_greater (l : row) (a : nat) (kth : ext) :
  (sorted_pairs false l).*1 !! a = Some kth ->
  (count_greater l kth <= length l - S a)%nat.
Proof.
  intros Ha. set (s := sorted_pairs false l) in *.
  assert (length (s.*1) = length l) as Hs1
    by (rewrite length_fmap; apply sorted_pairs_length).
  rewrite <- (count_greater_Permutation (s.*1) l)
    by apply sorted_pairs_values.
  rewrite <- (take_drop (S a) (s.*1)), count_greater_app.
  rewrite count_greater_none.
  - pose proof (count_greater_le_length (drop (S a) (s.*1)) kth) as Hle.
    rewrite length_drop in Hle. lia.
  - intros x Hx. apply elem_of_take in Hx as (j & Hj & Hja).
    apply list_lookup_fmap_Some in Hj as ([x' i] & -> & Hj).
    apply list_lookup_fmap_Some in Ha as ([k' i'] & -> & Ha). simpl.
    destruct (decide (j = a)) as [->|Hne].
    + rewrite Ha in Hj. injection Hj as -> ->. apply sort_leb_refl.
    + pose proof (sorted_pairs_ordered false l j a _ _ ltac:(lia) Hj Ha)
        as Hrel.
      unfold key_rel in Hrel. simpl in Hrel. by apply Is_true_true.
Qed.

(** Top-k.  [_apply_top_k_top_p] needs [k] between 1 and the size of the
    vocabulary (it raises otherwise), and it masks every token whose logit
    is strictly below the k-th greatest logit of the row: a logit [kth] of
    the row with fewer than [k] logits strictly above it. *)
Theorem top_k_masks_below_kth_greatest `{TorchMath} (logits out : matrix)
    (p : list ext) (k : list Z) (r : nat) (l : row) (z : Z) :
  _apply_top_k_top_p logits p k = Some out ->
  logits !! r = Some l -> k !! r = Some z ->
  (1 <= z <= Z.of_nat (length l))%Z
  /\ exists kth,
       kth ∈ l
       /\ (count_greater l kth < Z.to_nat z)%nat
       /\ forall t x, l !! t = Some x -> (x <? kth)%ext = true ->
                      cell out r t = Some NInf.
Proof.
  unfold _apply_top_k_top_p. intros Ha Hl Hz.
  case_decide as Hpk; [|done].
  destruct (rows_with_inv _ _ _ _ Ha) as (Hlp & Hlo & Hrows).
  destruct (lookup_lt_is_Some_2 p r) as [x Hx].
  { apply lookup_lt_Some in Hz. lia. }
  destruct (Hrows r l (x, z) Hl) as (o & Ho & Hrow).
  { by apply lookup_zip_Some. }
  destruct (top_k_top_p_row_spec l o x z Hrow)
    as (Hrange & Hlen & kth & Hkth & Hpos).
  split; [done|]. exists kth. split; [|split].
  - apply list_lookup_fmap_Some in Hkth as ([k' i'] & -> & Hk).
    apply sorted_pairs_lookup in Hk. by eapply list_elem_of_lookup_2.
  - pose proof (sorted_count_greater l _ kth Hkth). lia.
  - intros t v Hv Hlt. unfold cell. rewrite Ho. simpl.
    destruct (sorted_pairs_position false l t v Hv) as (j & Hj).
    rewrite (Hpos j v t Hj). cbv zeta.
    set (s := sorted_pairs false l) in *.
    assert (length (s.*1) = length l) as Hs1
      by (rewrite length_fmap; apply sorted_pairs_length).
    assert (s.*1 !! j = Some v) as Hsv.
    { apply list_lookup_fmap_Some. by exists (v, t). }
    pose proof (lookup_lt_Some _ _ _ Hsv) as Hjlt.
    set (ls1 := masked_fill_neg_inf (s.*1) _).
    assert (ls1 !! j = Some NInf) as H1.
    { unfold ls1.
      rewrite (masked_fill_lookup _ _ j v true Hsv); [done|].
      by rewrite lookup_map, Hsv, <- Hlt. }
    assert (length ls1 = length l) as Hls1.
    { unfold ls1. rewrite masked_fill_length; [done|].
      by rewrite length_map. }
    set (m2 := <[pred (length l) := false]> _).
    destruct (lookup_lt_is_Some_2 m2 j) as [b Hb].
    { unfold m2, cumsum.
      rewrite length_insert, length_map, length_cumsum_from,
        length_softmax. lia. }
    rewrite (masked_fill_lookup _ _ j NInf b H1 Hb). by destruct b.
Qed.

Lemma top_k_masks_below_kth_greatest_witness :
  (1 <= 2 <= Z.of_nat (length [Fin 1; Fin 3; Fin 2]))%Z
  /\ exists kth,
       kth ∈ [Fin 1; Fin 3; Fin 2]
       /\ (count_greater [Fin 1; Fin 3; Fin 2] kth < Z.to_nat 2)%nat
       /\ forall t x, [Fin 1; Fin 3; Fin 2] !! t = Some x ->
                      (x <? kth)%ext = true ->
                      cell [[NInf; Fin 3; Fin 2]] 0 t = Some NInf.
Proof.
  apply (top_k_masks_below_kth_greatest (H := rational_math)
           [[Fin 1; Fin 3; Fin 2]] [[NInf; Fin 3; Fin 2]]
           [Fin 1] [2%Z] 0 [Fin 1; Fin 3; Fin 2] 2%Z).
  - vm_compute. reflexivity.
  - reflexivity.
  - reflexivity.
Defined.

Lemma quadratic_sampling_row_lookup (l o : row) (f c qm : Q) (t : nat)
    (x : ext) :
  quadratic_sampling_row l (Fin f, Fin c) = Some o ->
  row_max l = Fin qm ->
  l !! t = Some x -> regular x = true ->
  o !! t
  = Some (match x with
          | Fin q =>
              if Qltb 0 f
              then Fin (- ((3 + - c) / 2 * f * ((q + - qm) * (q + - qm)))
                        + (c + - (1)) / 2 * f
                          * ((q + - qm) * (q + - qm) * (q + - qm))
                        + qm)
              else x
          | _ => x
          end).
Proof.
  unfold quadratic_sampling_row. intros [= <-] Hmax Hx Hreg.
  rewrite Hmax. unfold ext_gtb. simpl.
  destruct (Qltb 0 f) eqn:Ef.
  - rewrite lookup_map, Hx. simpl. by destruct x as [|q| |].
  - rewrite Hx. by destruct x.
Qed.

Lemma quadratic_sampling_row_length (l o : row) (fc : ext * ext) :
  quadratic_sampling_row l fc = Some o -> length o = length l.
Proof.
  destruct fc as [f c]. unfold quadratic_sampling_row. intros [= <-].
  match goal with |- context [if ?b then _ else _] => destruct b end;
    [apply length_map|done].
Qed.

(** Quadratic smoothing around the greatest logit: the shape is kept, a
    masked token stays masked, and a row whose factor is not above zero is
    returned as it is.  On a row of finite or masked logits, with a finite
    factor and curve whose coefficients (3 - curve) / 2 * factor and
    (curve - 1) / 2 * factor are at most 2^15 in magnitude (so that they
    are finite in every float type of the tensors), the greatest logit and
    its equals keep their value. *)
Theorem quadratic_sampling_fixes_the_maximum (logits out : matrix)
    (fs cs : list ext) (r : nat) (l : row) (f c : ext) :
  _apply_quadratic_sampling logits fs cs = Some out ->
  logits !! r = Some l ->
  fs !! r = Some f -> cs !! r = Some c ->
  exists o,
    out !! r = Some o
    /\ length o = length l
    /\ (forall t, l !! t = Some NInf -> o !! t = Some NInf)
    /\ ((f >? Fin 0)%ext = false -> o = l)
    /\ (forall qf qc qm,
          f = Fin qf -> c = Fin qc ->
          (Qabs ((3 - qc) / 2 * qf) <= 32768)%Q ->
          (Qabs ((qc - 1) / 2 * qf) <= 32768)%Q ->
          (forall x, x ∈ l -> regular x = true) ->
          row_max l = Fin qm ->
          forall t q, l !! t = Some (Fin q) -> (q == qm)%Q ->
            exists y, o !! t = Some (Fin y) /\ (y == qm)%Q).
Proof.
  unfold _apply_quadratic_sampling. intros Ha Hl Hf Hc.
  case_decide as Hfc; [|done].
  destruct (rows_with_inv _ _ _ _ Ha) as (Hlp & Hlo & Hrows).
  destruct (Hrows r l (f, c) Hl) as (o & Ho & Hrow).
  { by apply lookup_zip_Some. }
  exists o. split; [done|]. split; [|split; [|split]].
  - by eapply quadratic_sampling_row_length.
  - intros t Ht. unfold quadratic_sampling_row in Hrow.
    injection Hrow as <-.
    match goal with
    | |- context [if ?b then _ else _] => destruct b
    end; [|done].
    by rewrite lookup_map, Ht.
  - intros Hoff. unfold quadratic_sampling_row in Hrow.
    injection Hrow as <-.
    match goal with
    | |- context [if ?b then _ else _] =>
        replace b with false by (symmetry; exact Hoff)
    end.
    done.
  - intros qf qc qm -> -> _ _ Hreg Hmax t q Ht Hq.
    rewrite (quadratic_sampling_row_lookup l o qf qc qm t (Fin q) Hrow Hmax
               Ht eq_refl).
    destruct (Qltb 0 qf).
    + eexists. split; [done|]. rewrite Hq. field.
    + by exists q.
Qed.

Lemma quadratic_sampling_fixes_the_maximum_witness :
  exists o,
    [[Fin (- ((3 + - (1)) / 2 * 1 * ((1 + - (3)) * (1 + - (3))))
           + (1 + - (1)) / 2 * 1 * ((1 + - (3)) * (1 + - (3)) * (1 + - (3)))
           + 3);
      Fin (- ((3 + - (1)) / 2 * 1 * ((3 + - (3)) * (3 + - (3))))
           + (1 + - (1)) / 2 * 1 * ((3 + - (3)) * (3 + - (3)) * (3 + - (3)))
           + 3);
      NInf]] !! 0%nat = Some o
    /\ length o = length [Fin 1; Fin 3; NInf]
    /\ (forall t, [Fin 1; Fin 3; NInf] !! t = Some NInf -> o !! t = Some NInf)
    /\ ((Fin 1 >? Fin 0)%ext = false -> o = [Fin 1; Fin 3; NInf])
    /\ (forall qf qc qm,
          Fin 1 = Fin qf -> Fin 1 = Fin qc ->
          (Qabs ((3 - qc) / 2 * qf) <= 32768)%Q ->
          (Qabs ((qc - 1) / 2 * qf) <= 32768)%Q ->
          (forall x, x ∈ [Fin 1; Fin 3; NInf] -> regular x = true) ->
          row_max [Fin 1; Fin 3; NInf] = Fin qm ->
          forall t q, [Fin 1; Fin 3; NInf] !! t = Some (Fin q) ->
            (q == qm)%Q ->
            exists y, o !! t = Some (Fin y) /\ (y == qm)%Q).
Proof.
  apply (quadratic_sampling_fixes_the_maximum
           [[Fin 1; Fin 3; NInf]] _ [Fin 1] [Fin 1] 0
           [Fin 1; Fin 3; NInf] (Fin 1) (Fin 1)).
  - reflexivity.
  - reflexivity.
  - reflexivity.
  - reflexivity.
Defined.

(** A flat position of a rectangular matrix. *)
Lemma concat_lookup_rect {A} (m : list (list A)) (V p t : nat) :
  Forall (fun l => length l = V) m -> (t < V)%nat ->
  concat m !! (p * V + t)%nat = m !! p ≫= (fun l => l !! t).
Proof.
  intros Hm Ht. revert p. induction Hm as [|l m Hl _ IH]; intros p.
  - done.
  - simpl. destruct p as [|p]; simpl.
    + by rewrite lookup_app_l by lia.
    + rewrite lookup_app_r by lia.
      replace (V + p * V + t - length l)%nat with (p * V + t)%nat by lia.
      apply IH.
Qed.

Lemma length_concat_rect {A} (m : list (list A)) (V : nat) :
  Forall (fun l => length l = V) m -> length (concat m) = (length m * V)%nat.
Proof.
  induction 1 as [|l m Hl _ IH]; [done|].
  simpl. rewrite length_app, IH. lia.
Qed.

(** Beam search, generation phase.  A group with [n] live beams and beam
    width [B] gets [2 * B] candidates (token, parent): the parent is one
    of the [n] beams, the token one of the vocabulary, and no other
    continuation (parent, token) has a better score than a candidate,
    the score being the log-probability of the token in the parent's row
    plus the cumulative log-probability of the parent. *)
Theorem beam_search_generation_candidates
    (pre post : list SequenceGroupToSample) (g : SequenceGroupToSample)
    (logprobs : matrix) (results : list (list nat * list nat)) (V : nat) :
  _beam_search_sample (pre ++ g :: post) logprobs = Some results ->
  do_sample g = true ->
  is_prompt g = false ->
  Forall (fun l => length l = V) logprobs ->
  exists toks parents cum,
    results !! length pre = Some (toks, parents)
    /\ cumulative_logprobs g = Some cum
    /\ length toks = (2 * best_of (sampling_params g))%nat
    /\ length parents = (2 * best_of (sampling_params g))%nat
    /\ (forall j tok parent,
          toks !! j = Some tok -> parents !! j = Some parent ->
          (tok < V)%nat /\ (parent < length (seq_ids g))%nat)
    /\ (forall j tok parent x c p' t' y c',
          toks !! j = Some tok -> parents !! j = Some parent ->
          cell logprobs (rows_before pre + parent) tok = Some x ->
          cum !! parent = Some c ->
          cell logprobs (rows_before pre + p') t' = Some y ->
          cum !! p' = Some c' ->
          (forall j', toks !! j' = Some t' -> parents !! j' = Some p' ->
                      False) ->
          sort_leb (y + c')%ext (x + c)%ext = true).
Proof.
  intros Hs Hdo Hgen Hrect. unfold _beam_search_sample in Hs.
  destruct (beam_search_loop _ _ _) as [[rs fin]|] eqn:El; simpl in Hs;
    [|done].
  case_decide; [|done]. injection Hs as <-.
  destruct (beam_search_loop_lookup _ _ _ _ _ _ _ El Hdo) as (r & Hr & Hlk).
  simpl in Hr. unfold beam_search_group in Hr. rewrite Hgen in Hr.
  set (n := length (seq_ids g)) in *.
  set (B := best_of (sampling_params g)) in *.
  set (start := rows_before pre) in *.
  destruct (cumulative_logprobs g) as [cum|] eqn:Ecum;
    cbn [mbind option_bind] in Hr; [|done].
  set (slice := take n (drop start logprobs)) in *.
  destruct (rows_with _ slice cum) as [shifted|] eqn:Esh;
    cbn [mbind option_bind] in Hr; [|done].
  destruct (topk (concat shifted) (2 * B)) as [[values indices]|] eqn:Etk;
    cbn [mbind option_bind] in Hr; [|done].
  injection Hr as <-.
  destruct (rows_with_inv _ _ _ _ Esh) as (Hlc & Hls & Hrows).
  destruct (topk_spec _ _ _ _ Etk) as (Hlen & Hnd & Hlt & Htop).
  assert (length cum = n) as Hcum.
  { unfold cumulative_logprobs in Ecum. apply length_mapM in Ecum.
    unfold n. lia. }
  assert (length slice = n) as Hslice by lia.
  assert (forall p l, slice !! p = Some l ->
            logprobs !! (start + p)%nat = Some l) as Hsl.
  { intros p l Hp. unfold slice in Hp.
    apply lookup_take_Some in Hp as [Hp _]. by rewrite lookup_drop in Hp. }
  assert (Forall (fun l => length l = V) shifted) as Hrect'.
  { apply Forall_lookup. intros p o Ho.
    destruct (lookup_lt_is_Some_2 slice p) as [l Hl].
    { rewrite <- Hls. by eapply lookup_lt_Some. }
    destruct (lookup_lt_is_Some_2 cum p) as [c Hc].
    { rewrite Hlc. by eapply lookup_lt_Some. }
    destruct (Hrows p l c Hl Hc) as (o' & Ho' & Hf).
    rewrite Ho in Ho'. injection Ho' as <-. injection Hf as <-.
    rewrite length_map.
    by apply (Forall_lookup_1 _ _ _ _ Hrect (Hsl p l Hl)). }
  assert (length (concat shifted) = (n * V)%nat) as Hcat
    by (rewrite (length_concat_rect _ V Hrect'); lia).
  (* the score at a flat position *)
  assert (forall p t x c,
            cell logprobs (start + p) t = Some x -> cum !! p = Some c ->
            concat shifted !! (p * V + t)%nat = Some (x + c)%ext
            /\ (t < V)%nat /\ vocab_size_of shifted = V) as Hscore.
  { intros p t x c Hx Hc. unfold cell in Hx.
    destruct (logprobs !! (start + p)%nat) as [l|] eqn:El'; simpl in Hx;
      [|done].
    pose proof (Forall_lookup_1 _ _ _ _ Hrect El') as HlV.
    assert (t < V)%nat as Ht by (rewrite <- HlV; by eapply lookup_lt_Some).
    assert (slice !! p = Some l) as Hp.
    { unfold slice. apply lookup_take_Some. split.
      - by rewrite lookup_drop.
      - rewrite <- Hcum. by eapply lookup_lt_Some. }
    destruct (Hrows p l c Hp Hc) as (o & Ho & Hf). injection Hf as <-.
    split; [|split; [done|]].
    - rewrite (concat_lookup_rect _ V p t Hrect' Ht), Ho. simpl.
      by rewrite lookup_map, Hx.
    - unfold vocab_size_of. destruct shifted as [|o0 sh]; [done|].
      simpl. by apply Forall_cons in Hrect' as [? _]. }
  assert (forall i, i ∈ indices ->
            (0 < V)%nat /\ vocab_size_of shifted = V /\ (i < n * V)%nat)
    as Hidx.
  { intros i Hi. pose proof (Hlt i Hi) as Hi'. rewrite Hcat in Hi'.
    assert (0 < V)%nat as HV by (destruct V; lia).
    split; [done|]. split; [|done].
    unfold vocab_size_of. destruct shifted as [|o0 sh].
    - simpl in Hcat. lia.
    - simpl. by apply Forall_cons in Hrect' as [? _]. }
  exists (map (fun i => i mod vocab_size_of shifted)%nat indices),
         (map (fun i => i / vocab_size_of shifted)%nat indices), cum.
  split; [done|]. split; [done|].
  split; [by rewrite length_map|]. split; [by rewrite length_map|]. split.
  - intros j tok parent Htok Hpar.
    rewrite lookup_map in Htok, Hpar.
    destruct (indices !! j) as [i|] eqn:Ei; simpl in *; [|done].
    injection Htok as <-. injection Hpar as <-.
    destruct (Hidx i (list_elem_of_lookup_2 _ _ _ Ei)) as (HV & -> & Hi).
    split; [apply Nat.mod_upper_bound; lia|].
    apply Nat.Div0.div_lt_upper_bound. lia.
  - intros j tok parent x c p' t' y c' Htok Hpar Hx Hc Hy Hc' Hother.
    rewrite lookup_map in Htok, Hpar.
    destruct (indices !! j) as [i|] eqn:Ei; simpl in *; [|done].
    injection Htok as <-. injection Hpar as <-.
    destruct (Hidx i (list_elem_of_lookup_2 _ _ _ Ei)) as (HV & EV & Hi).
    rewrite EV in *.
    destruct (Hscore _ _ _ _ Hx Hc) as (Hflat & _ & _).
    destruct (Hscore _ _ _ _ Hy Hc') as (Hflat' & Ht' & _).
    replace (i / V * V + i mod V)%nat with i in Hflat
      by (rewrite (Nat.div_mod_eq i V) at 1; lia).
    eapply (Htop i (p' * V + t')%nat); [|  |done|done].
    + by eapply list_elem_of_lookup_2.
    + intros Hin. apply list_elem_of_lookup in Hin as (j' & Hj').
      apply (Hother j').
      * rewrite lookup_map, Hj'. simpl. f_equal.
        rewrite Nat.add_comm, Nat.Div0.mod_add. by apply Nat.mod_small.
      * rewrite lookup_map, Hj'. simpl. f_equal.
        rewrite Nat.div_add_l by lia. rewrite Nat.div_small by done. lia.
Qed.

Lemma beam_search_generation_candidates_witness :
  exists toks parents cum,
    [([0; 1]%nat, [0; 0]%nat)] !! length ([] : list SequenceGroupToSample)
    = Some (toks, parents)
    /\ cumulative_logprobs beam_decode_group = Some cum
    /\ length toks = (2 * best_of (sampling_params beam_decode_group))%nat
    /\ length parents = (2 * best_of (sampling_params beam_decode_group))%nat
    /\ (forall j tok parent,
          toks !! j = Some tok -> parents !! j = Some parent ->
          (tok < 2)%nat /\ (parent < length (seq_ids beam_decode_group))%nat)
    /\ (forall j tok parent x c p' t' y c',
          toks !! j = Some tok -> parents !! j = Some parent ->
          cell [[Fin (-1); Fin (-2)]; [Fin (-3); Fin (-1)]]
               (rows_before [] + parent) tok = Some x ->
          cum !! parent = Some c ->
          cell [[Fin (-1); Fin (-2)]; [Fin (-3); Fin (-1)]]
               (rows_before [] + p') t' = Some y ->
          cum !! p' = Some c' ->
          (forall j', toks !! j' = Some t' -> parents !! j' = Some p' ->
                      False) ->
          sort_leb (y + c')%ext (x + c)%ext = true).
Proof.
  apply (beam_search_generation_candidates [] [] beam_decode_group
           [[Fin (-1); Fin (-2)]; [Fin (-3); Fin (-1)]]
           [([0; 1]%nat, [0; 0]%nat)] 2).
  - vm_compute. reflexivity.
  - reflexivity.
  - reflexivity.
  - repeat constructor.
Defined.

Lemma update_top_spec (top_ids : list nat) (top_probs : list ext)
    (s n : nat) (d : gmap nat (ext * nat)) :
  let d' := update_top d top_ids top_probs (seq s n) in
  (forall k, is_Some (d !! k) -> is_Some (d' !! k))
  /\ (size d' <= size d + n)%nat
  /\ (forall k v, d' !! k = Some v ->
        d !! k = Some v \/ (s <= v.2 < s + n)%nat).
Proof.
  revert top_probs s n d.
  induction top_ids as [|i ids IH]; intros ps s n d; simpl.
  { split; [done|]. split; [lia|]. intros k v Hk. by left. }
  destruct ps as [|p ps]; simpl.
  { split; [done|]. split; [lia|]. intros k v Hk. by left. }
  destruct n as [|n]; simpl.
  { split; [done|]. split; [lia|]. intros k v Hk. by left. }
  destruct (IH ps (S s) n (<[i := (p, s)]> d)) as (Hold & Hsize & Hnew).
  split; [|split].
  - intros k Hk. apply Hold. destruct (decide (i = k)) as [->|Hne].
    + rewrite lookup_insert_eq. by eexists.
    + by rewrite lookup_insert_ne.
  - etrans; [apply Hsize|].
    destruct (d !! i) as [v|] eqn:Ei.
    + rewrite map_size_insert_Some by done. lia.
    + rewrite map_size_insert_None by done. lia.
  - intros k v Hk. destruct (Hnew k v Hk) as [Hin|Hr]; [|right; lia].
    destruct (decide (i = k)) as [->|Hne].
    + rewrite lookup_insert_eq in Hin. injection Hin as <-. right.
      simpl. lia.
    + rewrite lookup_insert_ne in Hin by done. by left.
Qed.

Lemma add_top_logprobs_spec (num_logprobs : option nat)
    (top_token_ids : option (list (list nat)))
    (top_logprobs : option matrix) (r : nat)
    (d d' : gmap nat (ext * nat)) :
  add_top_logprobs num_logprobs top_token_ids top_logprobs r d = Some d' ->
  (forall k, is_Some (d !! k) -> is_Some (d' !! k))
  /\ (size d' <= size d + requested num_logprobs)%nat
  /\ (forall k v, d' !! k = Some v ->
        d !! k = Some v \/ (1 <= v.2 <= requested num_logprobs)%nat).
Proof.
  unfold add_top_logprobs, requested. intros Ha.
  assert (Some d = Some d' ->
          (forall k, is_Some (d !! k) -> is_Some (d' !! k))
          /\ (size d' <= size d + default 0 num_logprobs)%nat
          /\ (forall k v, d' !! k = Some v ->
                d !! k = Some v
                \/ (1 <= v.2 <= default 0 num_logprobs)%nat)) as Hsame.
  { intros [= <-]. split; [done|]. split; [lia|]. intros k v Hk. by left. }
  destruct num_logprobs as [n|]; [|by apply Hsame].
  destruct (0 <? n)%nat; [|by apply Hsame].
  destruct top_token_ids as [ids|]; simpl in Ha; [|done].
  destruct top_logprobs as [lps|]; simpl in Ha; [|done].
  destruct (ids !! r) as [top_ids|]; simpl in Ha; [|done].
  destruct (lps !! r) as [top_probs|]; simpl in Ha; [|done].
  injection Ha as <-.
  destruct (update_top_spec (take n top_ids) (take n top_probs) 1 n d)
    as (Hold & Hsize & Hnew).
  split; [done|]. split; [done|]. intros k v Hk.
  destruct (Hnew k v Hk) as [?|?]; [by left|right; simpl; lia].
Qed.

Lemma sampled_logprob_dicts_spec (num_logprobs : option nat)
    (items : list ext) (rank_items : list nat)
    (top_token_ids : option (list (list nat)))
    (top_logprobs : option matrix) (top_logprob_idx : nat)
    (toks parents : list nat) (idx : nat) (dicts : list (gmap nat Logprob)) :
  sampled_logprob_dicts num_logprobs items rank_items top_token_ids
    top_logprobs top_logprob_idx idx toks parents = Some dicts ->
  length dicts = min (length toks) (length parents)
  /\ forall j d tok,
       dicts !! j = Some d -> toks !! j = Some tok ->
       exists lp rk e,
         items !! (idx + j)%nat = Some lp
         /\ rank_items !! (idx + j)%nat = Some rk
         /\ d !! tok = Some e
         /\ (e = {| logprob := lp; rank := Some rk |}
             \/ top_entry (requested num_logprobs) e)
         /\ (size d <= 1 + requested num_logprobs)%nat
         /\ (forall k e', d !! k = Some e' -> k <> tok ->
               top_entry (requested num_logprobs) e').
Proof.
  revert parents idx dicts.
  induction toks as [|t toks IH]; intros parents idx dicts Hs; simpl in Hs.
  { injection Hs as <-. split; [done|]. intros j d tok Hd. done. }
  destruct parents as [|pa parents]; simpl in Hs.
  { injection Hs as <-. split; [done|]. intros j d tok Hd. done. }
  destruct (items !! idx) as [lp|] eqn:Elp; simpl in Hs; [|done].
  destruct (rank_items !! idx) as [rk|] eqn:Erk; simpl in Hs; [|done].
  destruct (add_top_logprobs _ _ _ _ _) as [d0|] eqn:Ead; simpl in Hs;
    [|done].
  destruct (sampled_logprob_dicts _ _ _ _ _ _ _ _ _) as [tl|] eqn:Etl;
    simpl in Hs; [|done].
  injection Hs as <-.
  destruct (IH _ _ _ Etl) as (Hlen & Hrest).
  split; [simpl; lia|].
  intros j d tok Hd Htok. destruct j as [|j]; simpl in Hd, Htok.
  - injection Hd as <-. injection Htok as <-.
    destruct (add_top_logprobs_spec _ _ _ _ _ _ Ead)
      as (Hold & Hsize & Hnew).
    destruct (Hold t) as [[lp' rk'] Hv].
    { rewrite lookup_singleton_eq. by eexists. }
    exists lp, rk, (Logprob_of (lp', rk')).
    rewrite Nat.add_0_r. split; [done|]. split; [done|].
    split; [by rewrite lookup_fmap, Hv|]. split; [|split].
    + destruct (Hnew _ _ Hv) as [Hin|Hr].
      * rewrite lookup_singleton_eq in Hin. injection Hin as <- <-.
        by left.
      * right. by exists rk'.
    + rewrite map_size_fmap. rewrite map_size_singleton in Hsize. lia.
    + intros k e' Hk Hne. rewrite lookup_fmap in Hk.
      destruct (d0 !! k) as [[a b]|] eqn:Ek; simpl in Hk; [|done].
      injection Hk as <-.
      destruct (Hnew _ _ Ek) as [Hin|Hr].
      * rewrite lookup_singleton_ne in Hin by done. done.
      * by exists b.
  - destruct (Hrest j d tok Hd Htok)
      as (lp' & rk' & e & H1 & H2 & H3 & H4 & H5 & H6).
    exists lp', rk', e.
    replace (idx + S j)%nat with (S idx + j)%nat by lia. done.
Qed.

(** The branch of [_get_sampled_logprob_if_needed] that reads the
    tensors (logprobs requested, or beam search).  The two running indices
    advance by the number of parent sequences and of sampled tokens; there
    is one dictionary per pair of [zip(next_token_ids, parent_seq_ids)];
    each holds its sampled token, at most [num_logprobs] entries besides,
    and the sampled token carries its selected log-probability with the
    computed rank unless the top-k table holds the token too, whose entry
    then replaces it; every other entry has a rank between 1 and
    [num_logprobs]. *)
Theorem sampled_logprobs_hold_the_sampled_token
    (seq_group : SequenceGroupToSample) (toks parents : list nat)
    (selected_logprobs : option (list ext)) (ranks : option (list nat))
    (top_token_ids : option (list (list nat)))
    (top_logprobs : option matrix)
    (selected_logprobs_idx top_logprob_idx top' sel' : nat)
    (dicts : list (gmap nat Logprob)) :
  _get_sampled_logprob_if_needed seq_group (toks, parents)
    selected_logprobs ranks top_token_ids top_logprobs
    selected_logprobs_idx top_logprob_idx = Some (dicts, top', sel') ->
  do_sample seq_group = true ->
  bool_decide (logprobs (sampling_params seq_group) = None)
  && negb (use_beam_search (sampling_params seq_group)) = false ->
  let n := requested (logprobs (sampling_params seq_group)) in
  top' = (top_logprob_idx + length (seq_ids seq_group))%nat
  /\ sel' = (selected_logprobs_idx + length toks)%nat
  /\ (0 < length toks)%nat
  /\ length dicts = min (length toks) (length parents)
  /\ exists sel rks,
       selected_logprobs = Some sel /\ ranks = Some rks
       /\ forall j d tok,
            dicts !! j = Some d -> toks !! j = Some tok ->
            exists lp rk e,
              sel !! (selected_logprobs_idx + j)%nat = Some lp
              /\ rks !! (selected_logprobs_idx + j)%nat = Some rk
              /\ d !! tok = Some e
              /\ (e = {| logprob := lp; rank := Some rk |} \/ top_entry n e)
              /\ (size d <= 1 + n)%nat
              /\ (forall k e', d !! k = Some e' -> k <> tok ->
                    top_entry n e').
Proof.
  intros Hg Hdo Hbranch n. unfold _get_sampled_logprob_if_needed in Hg.
  rewrite Hdo, Hbranch in Hg.
  case_decide as Hlen; [|done].
  destruct selected_logprobs as [sel|]; simpl in Hg; [|done].
  destruct ranks as [rks|]; simpl in Hg; [|done].
  destruct (sampled_logprob_dicts _ _ _ _ _ _ _ _ _) as [ds|] eqn:Eds;
    simpl in Hg; [|done].
  injection Hg as <- <- <-.
  destruct (sampled_logprob_dicts_spec _ _ _ _ _ _ _ _ _ _ Eds)
    as (Hl & Hdicts).
  split; [done|]. split; [done|]. split; [done|]. split; [done|].
  exists sel, rks. split; [done|]. split; [done|].
  intros j d tok Hd Htok.
  destruct (Hdicts j d tok Hd Htok)
    as (lp & rk & e & H1 & H2 & H3 & H4 & H5 & H6).
  exists lp, rk, e. simpl in H1, H2.
  apply lookup_take_Some in H1 as [H1 _].
  apply lookup_take_Some in H2 as [H2 _].
  rewrite lookup_drop in H1. rewrite lookup_drop in H2. done.
Qed.

Lemma sampled_logprobs_hold_the_sampled_token_witness :
  let n := requested (logprobs (sampling_params logprob_group)) in
  1%nat = (0 + length (seq_ids logprob_group))%nat
  /\ 1%nat = (0 + length [1%nat])%nat
  /\ (0 < length [1%nat])%nat
  /\ length [({[ 1%nat := {| logprob := Fin (-1); rank := Some 2%nat |};
                 2%nat := {| logprob := Fin 0; rank := Some 1%nat |} ]}
              : gmap nat Logprob)]
     = min (length [1%nat]) (length [0%nat])
  /\ exists sel rks,
       Some [Fin (-1)] = Some sel /\ Some [2%nat] = Some rks
       /\ forall j d tok,
            [({[ 1%nat := {| logprob := Fin (-1); rank := Some 2%nat |};
                 2%nat := {| logprob := Fin 0; rank := Some 1%nat |} ]}
              : gmap nat Logprob)] !! j = Some d ->
            [1%nat] !! j = Some tok ->
            exists lp rk e,
              sel !! (0 + j)%nat = Some lp
              /\ rks !! (0 + j)%nat = Some rk
              /\ d !! tok = Some e
              /\ (e = {| logprob := lp; rank := Some rk |} \/ top_entry n e)
              /\ (size d <= 1 + n)%nat
              /\ (forall k e', d !! k = Some e' -> k <> tok ->
                    top_entry n e').
Proof.
  apply (sampled_logprobs_hold_the_sampled_token logprob_group
           [1%nat] [0%nat] (Some [Fin (-1)]) (Some [2%nat])
           (Some [[2%nat; 1%nat; 0%nat]])
           (Some [[Fin 0; Fin (-1); Fin (-2)]]) 0 0 1 1).
  - vm_compute. reflexivity.
  - reflexivity.
  - reflexivity.
Defined.

Lemma token_bans_loop_spec (banned_tokens : list (list nat)) (i : nat)
    (logits out : matrix) :
  token_bans_loop logits i banned_tokens = Some out ->
  length out = length logits
  /\ (forall r l, logits !! r = Some l ->
        exists l', out !! r = Some l' /\ length l' = length l)
  /\ (forall r t ids, (i <= r)%nat ->
        banned_tokens !! (r - i)%nat = Some ids -> t ∈ ids ->
        cell out r t = Some NInf)
  /\ (forall r t,
        (forall ids, (i <= r)%nat ->
           banned_tokens !! (r - i)%nat = Some ids -> t ∉ ids) ->
        cell out r t = cell logits r t)
  /\ (forall r t, cell logits r t = Some NInf -> cell out r t = Some NInf).
Proof.
  revert i logits.
  induction banned_tokens as [|ids0 rest IH]; intros i logits Hs;
    simpl in Hs.
  { injection Hs as <-. split; [done|]. split; [by eauto|].
    split; [done|]. done. }
  assert (exists mid,
            set_all_neg_inf logits (map (fun t => (i, t)) ids0) = Some mid
            /\ token_bans_loop mid (S i) rest = Some out) as (mid & Hm & Hr).
  { case_bool_decide as Hnil.
    - exists logits. subst ids0. done.
    - destruct (set_all_neg_inf _ _) as [mid|]; simpl in Hs; [|done].
      by exists mid. }
  clear Hs.
  destruct (IH _ _ Hr) as (Hlen & Hrows & Hhit & Hframe & Hkeep).
  pose proof (set_all_neg_inf_length _ _ _ Hm) as Hlen0.
  split; [congruence|]. split; [|split; [|split]].
  - intros r l Hl.
    destruct (proj1 (set_all_neg_inf_frame _ _ _ r 0 Hm) l Hl)
      as (l1 & Hl1 & Hlen1).
    destruct (Hrows r l1 Hl1) as (l' & Hl' & Hlen').
    exists l'. split; [done|congruence].
  - intros r t ids Hir Hids Ht.
    destruct (decide (r = i)) as [->|Hne].
    + rewrite Nat.sub_diag in Hids. injection Hids as ->.
      apply Hkeep. eapply set_all_neg_inf_hit; [|done].
      apply list_elem_of_In, in_map_iff. exists t.
      split; [done|by apply list_elem_of_In].
    + apply (Hhit r t ids); [lia| |done].
      replace (r - i)%nat with (S (r - S i)) in Hids by lia. done.
  - intros r t Hfree.
    rewrite (Hframe r t).
    + apply (proj2 (set_all_neg_inf_frame _ _ _ r t Hm)).
      intros Hin. apply list_elem_of_In, in_map_iff in Hin
        as (t' & [= <- <-] & Ht').
      apply (Hfree ids0); [lia|by rewrite Nat.sub_diag|].
      by apply list_elem_of_In.
    + intros ids Hir Hids. apply Hfree; [lia|].
      replace (r - i)%nat with (S (r - S i)) by lia. done.
  - intros r t Hc. apply Hkeep. by eapply set_all_neg_inf_keeps.
Qed.

Lemma cell_is_Some_shape (m m' : matrix) (r t : nat) :
  (forall r l, m !! r = Some l ->
     exists l', m' !! r = Some l' /\ length l' = length l) ->
  is_Some (cell m r t) -> is_Some (cell m' r t).
Proof.
  intros Hshape [x Hx]. unfold cell in *.
  destruct (m !! r) as [l|] eqn:El; simpl in Hx; [|done].
  destruct (Hshape r l El) as (l' & -> & Hlen). simpl.
  apply lookup_lt_is_Some_2. rewrite Hlen. by eapply lookup_lt_Some.
Qed.

Lemma set_all_neg_inf_total (rts : list (nat * nat)) (m : matrix) :
  Forall (fun rt => is_Some (cell m rt.1 rt.2)) rts ->
  is_Some (set_all_neg_inf m rts).
Proof.
  revert m. induction rts as [|[r t] rts IH]; intros m Hf; simpl.
  { by eexists. }
  apply Forall_cons in Hf as [[x Hx] Hf]. simpl in Hx.
  unfold set_neg_inf. simpl. unfold cell in Hx.
  destruct (m !! r) as [l|] eqn:El; simpl in Hx; [|done].
  cbn [mbind option_bind]. rewrite Hx. cbn [mbind option_bind]. apply IH.
  eapply Forall_impl; [done|]. intros [r' t'] Hc. simpl in *.
  eapply cell_is_Some_shape; [|done].
  intros r0 l0 Hl0. destruct (decide (r = r0)) as [->|Hne].
  - rewrite list_lookup_insert_eq by (by eapply lookup_lt_Some).
    rewrite El in Hl0. injection Hl0 as <-.
    eexists. split; [done|]. apply length_insert.
  - rewrite list_lookup_insert_ne by done. by exists l0.
Qed.

Lemma token_bans_loop_total (banned_tokens : list (list nat)) (i : nat)
    (logits : matrix) :
  (forall k ids t, banned_tokens !! k = Some ids -> t ∈ ids ->
     is_Some (cell logits (i + k) t)) ->
  is_Some (token_bans_loop logits i banned_tokens).
Proof.
  revert i logits.
  induction banned_tokens as [|ids0 rest IH]; intros i logits Hex; simpl.
  { by eexists. }
  assert (is_Some (set_all_neg_inf logits (map (fun t => (i, t)) ids0)))
    as [mid Hmid].
  { apply set_all_neg_inf_total, Forall_forall. intros [r t] Hin.
    apply list_elem_of_In, in_map_iff in Hin as (t' & [= <- <-] & Ht').
    simpl. replace i with (i + 0)%nat at 1 by lia.
    apply (Hex 0%nat ids0); [done|by apply list_elem_of_In]. }
  assert (is_Some (token_bans_loop mid (S i) rest)) as Hrest.
  { apply IH. intros k ids t Hk Ht.
    eapply cell_is_Some_shape.
    - intros r l. apply (proj1 (set_all_neg_inf_frame _ _ _ r 0 Hmid)).
    - replace (S i + k)%nat with (i + S k)%nat by lia.
      by apply (Hex (S k) ids). }
  case_bool_decide as Hnil.
  - subst ids0. simpl in Hmid. by injection Hmid as <-.
  - rewrite Hmid. done.
Qed.

(** [_apply_token_bans] returns exactly when every banned token of every
    row is an entry of the logits (a row with an empty ban list need not
    exist); it then keeps the shape, sets the banned entries to minus
    infinity and leaves every other entry as it was. *)
Theorem token_bans_mask_the_banned_tokens (logits : matrix)
    (banned_tokens : list (list nat)) :
  (is_Some (_apply_token_bans logits banned_tokens)
   <-> forall r t, banned banned_tokens r t -> is_Some (cell logits r t))
  /\ forall out,
       _apply_token_bans logits banned_tokens = Some out ->
       length out = length logits
       /\ (forall r l, logits !! r = Some l ->
             exists l', out !! r = Some l' /\ length l' = length l)
       /\ (forall r t, banned banned_tokens r t -> cell out r t = Some NInf)
       /\ (forall r t, ~ banned banned_tokens r t ->
             cell out r t = cell logits r t).
Proof.
  unfold _apply_token_bans, banned.
  assert (forall out,
            token_bans_loop logits 0 banned_tokens = Some out ->
            length out = length logits
            /\ (forall r l, logits !! r = Some l ->
                  exists l', out !! r = Some l' /\ length l' = length l)
            /\ (forall r t,
                  (exists ids, banned_tokens !! r = Some ids /\ t ∈ ids) ->
                  cell out r t = Some NInf)
            /\ (forall r t,
                  ~ (exists ids, banned_tokens !! r = Some ids /\ t ∈ ids) ->
                  cell out r t = cell logits r t)) as Hspec.
  { intros out Ho.
    destruct (token_bans_loop_spec _ _ _ _ Ho)
      as (Hlen & Hrows & Hhit & Hframe & _).
    split; [done|]. split; [done|]. split.
    - intros r t (ids & Hids & Ht). apply (Hhit r t ids); [lia| |done].
      by rewrite Nat.sub_0_r.
    - intros r t Hfree. apply Hframe. intros ids _ Hids Ht.
      rewrite Nat.sub_0_r in Hids. apply Hfree. by exists ids. }
  split; [|done]. split.
  - intros [out Ho] r t Hb.
    destruct (Hspec out Ho) as (Hlen & Hrows & Hhit & _).
    pose proof (Hhit r t Hb) as Hc. unfold cell in *.
    destruct (out !! r) as [l'|] eqn:El'; simpl in Hc; [|done].
    destruct (lookup_lt_is_Some_2 logits r) as [l Hl].
    { rewrite <- Hlen. by eapply lookup_lt_Some. }
    destruct (Hrows r l Hl) as (l2 & Hl2 & Hlen2).
    rewrite El' in Hl2. injection Hl2 as <-.
    rewrite Hl. simpl. apply lookup_lt_is_Some_2.
    rewrite <- Hlen2. by eapply lookup_lt_Some.
  - intros Hex. apply token_bans_loop_total. intros k ids t Hk Ht.
    simpl. apply Hex. by exists ids.
Qed.

Lemma sampling_groups_cons (g : SequenceGroupToSample)
    (groups : list SequenceGroupToSample) :
  sampling_groups (g :: groups)
  = ((if do_sample g then 1 else 0) + sampling_groups groups)%nat.
Proof. unfold sampling_groups. simpl. by destruct (do_sample g). Qed.

Lemma greedy_sample_loop_lookup (pre post : list SequenceGroupToSample)
    (g : SequenceGroupToSample) (samples : list nat) (sample_idx : nat)
    (results : list (list nat * list nat)) :
  greedy_sample_loop (pre ++ g :: post) samples sample_idx = Some results ->
  length results = length (pre ++ g :: post)
  /\ (do_sample g = false -> results !! length pre = Some ([], []))
  /\ (do_sample g = true ->
      length (seq_ids g) = 1%nat
      /\ exists tok,
           samples !! (sample_idx + sampling_groups pre)%nat = Some tok
           /\ results !! length pre = Some ([tok], [0%nat])).
Proof.
  revert sample_idx results.
  induction pre as [|g' pre IH]; intros sample_idx results Hl; simpl in Hl.
  - assert (forall groups i rs,
              greedy_sample_loop groups samples i = Some rs ->
              length rs = length groups) as Hlen.
    { induction groups as [|g0 groups IHg]; intros i rs Hrs; simpl in Hrs.
      - by injection Hrs as <-.
      - destruct (do_sample g0); simpl in Hrs.
        + case_decide; [|done].
          destruct (samples !! i); simpl in Hrs; [|done].
          destruct (greedy_sample_loop groups samples _) as [rs'|] eqn:E;
            simpl in Hrs; [|done].
          injection Hrs as <-. simpl. f_equal. by eapply IHg.
        + destruct (greedy_sample_loop groups samples _) as [rs'|] eqn:E;
            simpl in Hrs; [|done].
          injection Hrs as <-. simpl. f_equal. by eapply IHg. }
    destruct (do_sample g) eqn:Hdo; simpl in Hl.
    + case_decide as Hone; [|done].
      destruct (samples !! sample_idx) as [tok|] eqn:Etok; simpl in Hl;
        [|done].
      destruct (greedy_sample_loop post samples _) as [rs|] eqn:E;
        simpl in Hl; [|done].
      injection Hl as <-. split; [simpl; f_equal; by eapply Hlen|].
      split; [done|]. intros _. split; [done|]. exists tok.
      unfold sampling_groups. simpl. rewrite Nat.add_0_r, Hone. done.
    + destruct (greedy_sample_loop post samples _) as [rs|] eqn:E;
        simpl in Hl; [|done].
      injection Hl as <-. split; [simpl; f_equal; by eapply Hlen|].
      split; [done|]. done.
  - rewrite sampling_groups_cons.
    destruct (do_sample g') eqn:Hdo'; simpl in Hl.
    + case_decide as Hone; [|done].
      destruct (samples !! sample_idx) as [tok'|]; simpl in Hl; [|done].
      destruct (greedy_sample_loop (pre ++ g :: post) samples _)
        as [rs|] eqn:E; simpl in Hl; [|done].
      injection Hl as <-. rewrite Hone in E.
      destruct (IH _ _ E) as (Hlen & Hoff & Hon).
      split; [simpl; by f_equal|]. split; [done|].
      intros Hdo. destruct (Hon Hdo) as (H1 & tok & Htok & Hr).
      split; [done|]. exists tok. split; [|done].
      by replace (sample_idx + (1 + sampling_groups pre))%nat
        with (sample_idx + 1 + sampling_groups pre)%nat by lia.
    + destruct (greedy_sample_loop (pre ++ g :: post) samples _)
        as [rs|] eqn:E; simpl in Hl; [|done].
      injection Hl as <-.
      destruct (IH _ _ E) as (Hlen & Hoff & Hon).
      split; [simpl; by f_equal|]. split; [done|]. done.
Qed.

Lemma greedy_sample_loop_total (groups : list SequenceGroupToSample)
    (samples : list nat) (sample_idx : nat) :
  is_Some (greedy_sample_loop groups samples sample_idx)
  <-> Forall (fun g => do_sample g = true -> length (seq_ids g) = 1%nat)
             groups
      /\ (sampling_groups groups = 0%nat
          \/ sample_idx + sampling_groups groups <= length samples)%nat.
Proof.
  revert sample_idx. induction groups as [|g groups IH]; intros sample_idx.
  { simpl. split; [|by eexists]. intros _. split; [constructor|by left]. }
  rewrite sampling_groups_cons. simpl.
  destruct (do_sample g) eqn:Hdo; simpl.
  - case_decide as Hone.
    + rewrite Hone. split.
      * intros [rs Hrs].
        destruct (samples !! sample_idx) as [tok|] eqn:Etok; simpl in Hrs;
          [|done].
        destruct (greedy_sample_loop groups samples _) as [rs'|] eqn:E;
          simpl in Hrs; [|done].
        destruct (proj1 (IH (sample_idx + 1)%nat)) as (Hf & Hcount);
          [by rewrite E|].
        split; [by constructor|]. right.
        apply lookup_lt_Some in Etok. lia.
      * intros (Hf & Hcount). apply Forall_cons in Hf as [_ Hf].
        destruct (lookup_lt_is_Some_2 samples sample_idx) as [tok ->];
          [lia|].
        simpl.
        destruct (proj2 (IH (sample_idx + 1)%nat)) as [rs ->]; [|done].
        split; [done|].
        destruct (sampling_groups groups); [by left|right; lia].
    + split; [by intros [? ?]|].
      intros (Hf & _). apply Forall_cons in Hf as [Hg _].
      by specialize (Hg Hdo).
  - split.
    + intros [rs Hrs].
      destruct (greedy_sample_loop groups samples _) as [rs'|] eqn:E;
        simpl in Hrs; [|done].
      destruct (proj1 (IH sample_idx)) as (Hf & Hcount); [by rewrite E|].
      split; [|done]. constructor; [congruence|done].
    + intros (Hf & Hcount). apply Forall_cons in Hf as [_ Hf].
      destruct (proj2 (IH sample_idx)) as [rs ->]; [done|]. done.
Qed.

(** [_greedy_sample] returns exactly when every sampling group has a
    single sequence and [samples] has an entry for each of them.  The
    result has one pair per group, [([], [])] for a group that does not
    sample, and for the i-th sampling group the token [samples[i]] with
    parent 0. *)
Theorem greedy_sample_assigns_samples_in_order
    (pre post : list SequenceGroupToSample) (g : SequenceGroupToSample)
    (samples : list nat) :
  (is_Some (_greedy_sample (pre ++ g :: post) samples)
   <-> Forall (fun g => do_sample g = true -> length (seq_ids g) = 1%nat)
              (pre ++ g :: post)
       /\ (sampling_groups (pre ++ g :: post) <= length samples)%nat)
  /\ forall results,
       _greedy_sample (pre ++ g :: post) samples = Some results ->
       length results = length (pre ++ g :: post)
       /\ (do_sample g = false -> results !! length pre = Some ([], []))
       /\ (do_sample g = true ->
           exists tok,
             samples !! sampling_groups pre = Some tok
             /\ results !! length pre = Some ([tok], [0%nat])).
Proof.
  unfold _greedy_sample. split.
  - rewrite greedy_sample_loop_total. simpl.
    split; intros (Hf & Hc); (split; [done|]); [|right; done].
    destruct Hc as [->|Hc]; lia.
  - intros results Hr.
    destruct (greedy_sample_loop_lookup _ _ _ _ _ _ Hr) as (Hlen & Hoff & Hon).
    split; [done|]. split; [done|]. intros Hdo.
    destruct (Hon Hdo) as (_ & tok & Htok & Hres). by exists tok.
Qed.

Lemma random_sample_loop_length (groups : list SequenceGroupToSample)
    (random_samples : list (list nat)) (sample_idx : nat)
    (results : list (list nat * list nat)) :
  random_sample_loop groups random_samples sample_idx = Some results ->
  length results = length groups.
Proof.
  revert sample_idx results.
  induction groups as [|g groups IH]; intros i rs Hrs; simpl in Hrs.
  - by injection Hrs as <-.
  - destruct (do_sample g); simpl in Hrs.
    + destruct (random_sample_group g random_samples i); simpl in Hrs;
        [|done].
      destruct (random_sample_loop groups random_samples _) as [rs'|] eqn:E;
        simpl in Hrs; [|done].
      injection Hrs as <-. simpl. f_equal. by eapply IH.
    + destruct (random_sample_loop groups random_samples _) as [rs'|] eqn:E;
        simpl in Hrs; [|done].
      injection Hrs as <-. simpl. f_equal. by eapply IH.
Qed.

Lemma random_sample_loop_lookup (pre post : list SequenceGroupToSample)
    (g : SequenceGroupToSample) (random_samples : list (list nat))
    (sample_idx : nat) (results : list (list nat * list nat)) :
  random_sample_loop (pre ++ g :: post) random_samples sample_idx
  = Some results ->
  (do_sample g = false -> results !! length pre = Some ([], []))
  /\ (do_sample g = true ->
      exists r,
        random_sample_group g random_samples (sample_idx + rows_before pre)
        = Some r
        /\ results !! length pre = Some r).
Proof.
  revert sample_idx results.
  induction pre as [|g' pre IH]; intros sample_idx results Hl; simpl in Hl.
  - unfold rows_before. simpl. rewrite Nat.add_0_r.
    destruct (do_sample g) eqn:Hdo; simpl in Hl.
    + destruct (random_sample_group g random_samples sample_idx) as [r|];
        simpl in Hl; [|done].
      destruct (random_sample_loop post random_samples _) as [rs|];
        simpl in Hl; [|done].
      injection Hl as <-. split; [done|]. intros _. by exists r.
    + destruct (random_sample_loop post random_samples _) as [rs|];
        simpl in Hl; [|done].
      injection Hl as <-. done.
  - unfold rows_before. simpl. fold (rows_before pre).
    destruct (do_sample g'); simpl in Hl.
    + destruct (random_sample_group g' random_samples sample_idx) as [r'|];
        simpl in Hl; [|done].
      destruct (random_sample_loop (pre ++ g :: post) random_samples _)
        as [rs|] eqn:E; simpl in Hl; [|done].
      injection Hl as <-. destruct (IH _ _ E) as (Hoff & Hon).
      split; [done|]. intros Hdo. destruct (Hon Hdo) as (r & Hr & Hlk).
      exists r. split; [|done]. by rewrite Nat.add_assoc.
    + destruct (random_sample_loop (pre ++ g :: post) random_samples _)
        as [rs|] eqn:E; simpl in Hl; [|done].
      injection Hl as <-. destruct (IH _ _ E) as (Hoff & Hon).
      split; [done|]. intros Hdo. destruct (Hon Hdo) as (r & Hr & Hlk).
      exists r. split; [|done]. by rewrite Nat.add_0_l.
Qed.

(** [_random_sample] walks the rows of the drawn samples in the order of
    the groups.  A group that does not sample gets [([], [])] and uses no
    row.  A prompt group gets the first [best_of] draws of its row, all
    with parent 0; a decoding group gets the first draw of one row per
    sequence, the j-th with parent [j].  Fewer tokens than parents come
    back, without an error, when the row has fewer than [best_of] columns
    or when the rows run out. *)
Theorem random_sample_reads_rows_in_order
    (pre post : list SequenceGroupToSample) (g : SequenceGroupToSample)
    (random_samples : list (list nat))
    (results : list (list nat * list nat)) :
  _random_sample (pre ++ g :: post) random_samples = Some results ->
  length results = length (pre ++ g :: post)
  /\ (do_sample g = false -> results !! length pre = Some ([], []))
  /\ (do_sample g = true ->
      exists toks parents,
        results !! length pre = Some (toks, parents)
        /\ (is_prompt g = true ->
            parents = replicate (best_of (sampling_params g)) 0%nat
            /\ exists r,
                 random_samples !! rows_before pre = Some r
                 /\ toks = take (best_of (sampling_params g)) r)
        /\ (is_prompt g = false ->
            parents = seq 0 (length (seq_ids g))
            /\ length toks
               = min (length (seq_ids g))
                     (length random_samples - rows_before pre)
            /\ forall j tok,
                 toks !! j = Some tok ->
                 exists r,
                   random_samples !! (rows_before pre + j)%nat = Some r
                   /\ r !! 0%nat = Some tok)).
Proof.
  unfold _random_sample. intros Hr.
  split; [by eapply random_sample_loop_length|].
  destruct (random_sample_loop_lookup _ _ _ _ _ _ Hr) as (Hoff & Hon).
  split; [done|]. intros Hdo.
  destruct (Hon Hdo) as ([toks parents] & Hg & Hlk). simpl in Hg.
  exists toks, parents. split; [done|].
  unfold random_sample_group in Hg.
  destruct (is_prompt g); split; try done; intros _.
  - destruct (random_samples !! rows_before pre) as [r|]; simpl in Hg;
      [|done].
    injection Hg as <- <-. split; [done|]. by exists r.
  - destruct (mapM _ _) as [next|] eqn:Em; simpl in Hg; [|done].
    injection Hg as <- <-. split; [done|].
    pose proof (length_mapM _ _ _ Em) as Hlen.
    rewrite length_take, length_drop in Hlen. split; [lia|].
    intros j tok Hj. apply mapM_Some_1 in Em.
    destruct (Forall2_lookup_r _ _ _ _ _ Em Hj) as (r & Hrow & Hr0).
    apply lookup_take_Some in Hrow as [Hrow _].
    rewrite lookup_drop in Hrow. by exists r.
Qed.

Lemma random_sample_reads_rows_in_order_witness :
  length [([5]%nat, [0]%nat); ([1; 4]%nat, [0; 1]%nat)]
  = length ([logprob_group] ++ beam_decode_group :: [])
  /\ (do_sample beam_decode_group = false ->
      [([5]%nat, [0]%nat); ([1; 4]%nat, [0; 1]%nat)]
        !! length [logprob_group] = Some ([], []))
  /\ (do_sample beam_decode_group = true ->
      exists toks parents,
        [([5]%nat, [0]%nat); ([1; 4]%nat, [0; 1]%nat)]
          !! length [logprob_group]
        = Some (toks, parents)
        /\ (is_prompt beam_decode_group = true ->
            parents = replicate (best_of (sampling_params beam_decode_group))
                                0%nat
            /\ exists r,
                 [[5; 6]; [1; 2]; [4; 3]]%nat
                   !! rows_before [logprob_group] = Some r
                 /\ toks = take (best_of (sampling_params beam_decode_group))
                                r)
        /\ (is_prompt beam_decode_group = false ->
            parents = seq 0 (length (seq_ids beam_decode_group))
            /\ length toks
               = min (length (seq_ids beam_decode_group))
                     (length [[5; 6]; [1; 2]; [4; 3]]%nat
                      - rows_before [logprob_group])
            /\ forall j tok,
                 toks !! j = Some tok ->
                 exists r,
                   [[5; 6]; [1; 2]; [4; 3]]%nat
                     !! (rows_before [logprob_group] + j)%nat
                   = Some r
                   /\ r !! 0%nat = Some tok)).
Proof.
  apply (random_sample_reads_rows_in_order
           [logprob_group] [] beam_decode_group
           [[5; 6]; [1; 2]; [4; 3]]%nat).
  vm_compute. reflexivity.
Defined.

Lemma view_rows_spec {A} (rows n : nat) (l : list A) :
  length (view_rows rows n l) = rows
  /\ forall i, (i < rows)%nat ->
       view_rows rows n l !! i = Some (take n (drop (i * n) l)).
Proof.
  revert l. induction rows as [|rows IH]; intros l; simpl.
  { split; [done|]. intros i Hi. lia. }
  destruct (IH (drop n l)) as (Hlen & Hrows).
  split; [by rewrite Hlen|]. intros [|i] Hi; simpl.
  - by rewrite drop_0.
  - rewrite Hrows by lia. rewrite drop_drop. done.
Qed.

Lemma view_spec {A} (n : nat) (l : list A) (out : list (list A)) :
  view n l = Some out ->
  (0 < n)%nat
  /\ length l = (length out * n)%nat
  /\ forall i row, out !! i = Some row ->
       length row = n
       /\ forall j, (j < n)%nat -> row !! j = l !! (i * n + j)%nat.
Proof.
  unfold view. case_decide as Hn; [|done]. intros [= <-].
  destruct Hn as [Hn Hmod].
  destruct (view_rows_spec (length l / n) n l) as (Hlen & Hrows).
  assert (length l = (length l / n * n)%nat) as Hdiv.
  { pose proof (Nat.div_mod_eq (length l) n). lia. }
  split; [done|]. split; [by rewrite Hlen|].
  intros i row Hi.
  assert (i < length l / n)%nat as Hilt
    by (rewrite <- Hlen; by eapply lookup_lt_Some).
  rewrite Hrows in Hi by done. injection Hi as <-.
  assert (i * n + n <= length l)%nat as Hfit by nia.
  split.
  - rewrite length_take, length_drop. lia.
  - intros j Hj. rewrite lookup_take_lt by done. by rewrite lookup_drop.
Qed.

Lemma repeat_rows_lookup {A} (n : nat) (m : list A) (i j : nat) :
  (j < n)%nat -> repeat_rows n m !! (i * n + j)%nat = m !! i.
Proof.
  intros Hj. unfold repeat_rows. revert i.
  induction m as [|x m IH]; intros i; [done|].
  change ((x :: m) ≫= replicate n) with (replicate n x ++ (m ≫= replicate n)).
  destruct i as [|i]; simpl.
  - rewrite lookup_app_l by (rewrite length_replicate; lia).
    by apply lookup_replicate_2.
  - rewrite lookup_app_r by (rewrite length_replicate; lia).
    rewrite length_replicate.
    replace (n + i * n + j - n)%nat with (i * n + j)%nat by lia.
    apply IH.
Qed.

Lemma length_repeat_rows {A} (n : nat) (m : list A) :
  length (repeat_rows n m) = (length m * n)%nat.
Proof.
  unfold repeat_rows. induction m as [|x m IH]; [done|].
  change ((x :: m) ≫= replicate n) with (replicate n x ++ (m ≫= replicate n)).
  rewrite length_app, length_replicate, IH. simpl. lia.
Qed.

(** The draw of a row of probabilities under a positive noise has a
    positive probability. *)
Lemma argmax_div_noise_positive (l ql d : row) :
  div_noise l ql = Some d ->
  Forall (fun x => is_probability x = true) l ->
  Forall (fun x => positive_finite x = true) ql ->
  (exists t p, l !! t = Some (Fin p) /\ (0 < p)%Q) ->
  exists p, l !! argmax d = Some (Fin p) /\ (0 < p)%Q.
Proof.
  unfold div_noise. case_decide as Hlen; [|done]. intros [= <-].
  intros Hl Hq (t0 & p0 & Ht0 & Hp0).
  assert (forall t x, l !! t = Some x ->
            exists p qt, x = Fin p /\ (0 <= p)%Q
              /\ ql !! t = Some (Fin qt) /\ (0 < qt)%Q
              /\ zip_with ext_div l ql !! t = Some (Fin (p / qt))) as Hent.
  { intros t x Hx.
    destruct (lookup_lt_is_Some_2 ql t) as [y Hy].
    { rewrite Hlen. by eapply lookup_lt_Some. }
    pose proof (Forall_lookup_1 _ _ _ _ Hl Hx) as Hpx.
    pose proof (Forall_lookup_1 _ _ _ _ Hq Hy) as Hpy.
    destruct x as [|p| |]; try done. destruct y as [|qt| |]; try done.
    simpl in Hpx, Hpy. apply Qle_bool_iff in Hpx. apply Qltb_lt in Hpy.
    exists p, qt. repeat (split; [done|]).
    rewrite lookup_zip_with, Hx. simpl. rewrite Hy. simpl.
    destruct (Qeq_bool qt 0) eqn:E; [|done].
    apply Qeq_bool_iff in E. lra. }
  destruct (argmax_spec (zip_with ext_div l ql)) as (v & Hv & Hmax).
  { intros E. destruct (Hent t0 _ Ht0) as (? & ? & _ & _ & _ & _ & Hz).
    by rewrite E in Hz. }
  destruct (Hent t0 _ Ht0) as (p0' & q0 & [= <-] & _ & _ & Hq0 & Hz0).
  pose proof (Hmax _ (list_elem_of_lookup_2 _ _ _ Hz0)) as Hle.
  destruct (lookup_lt_is_Some_2 l (argmax (zip_with ext_div l ql)))
    as [x Hx].
  { apply lookup_lt_Some in Hv. rewrite length_zip_with in Hv. lia. }
  destruct (Hent _ x Hx) as (p & qt & -> & Hp & _ & Hqt & Hz).
  rewrite Hz in Hv. injection Hv as <-. simpl in Hle.
  apply Qle_bool_iff in Hle.
  exists p. split; [done|].
  assert (0 < p0 / q0)%Q as Hpos by (apply Qlt_shift_div_l; lra).
  assert (0 < p / qt)%Q as Hpos' by lra.
  destruct (Qlt_le_dec 0 p) as [?|Hneg]; [done|].
  assert (p / qt <= 0)%Q; [|lra].
  apply Qle_shift_div_r; lra.
Qed.

(** [_multinomial] returns one row of [num_samples] draws per row of
    [probs] ([num_samples] must be positive); the j-th draw of row [i] is
    a token of the vocabulary, the argmax of the row divided by the noise
    at position [i * num_samples + j]; and when that noise is positive and
    the row holds probabilities, not all zero, the drawn token has a
    positive probability: a token at probability 0 is never drawn. *)
Theorem multinomial_never_draws_a_zero_probability_token
    (probs : matrix) (num_samples : nat) (q : matrix)
    (out : list (list nat)) :
  _multinomial probs num_samples q = Some out ->
  (0 < num_samples)%nat
  /\ length out = length probs
  /\ forall i draws, out !! i = Some draws ->
       length draws = num_samples
       /\ forall j tok, draws !! j = Some tok ->
            exists l ql d,
              probs !! i = Some l
              /\ q !! (i * num_samples + j)%nat = Some ql
              /\ div_noise l ql = Some d
              /\ tok = argmax d
              /\ (tok < length l)%nat
              /\ (Forall (fun x => is_probability x = true) l ->
                  Forall (fun x => positive_finite x = true) ql ->
                  (exists t p, l !! t = Some (Fin p) /\ (0 < p)%Q) ->
                  exists p, l !! tok = Some (Fin p) /\ (0 < p)%Q).
Proof.
  unfold _multinomial. intros Hm.
  set (E := if (1 <? num_samples)%nat
            then repeat_rows num_samples probs else probs) in *.
  destruct (rows_with div_noise E q) as [divided|] eqn:Ediv;
    cbn [mbind option_bind] in Hm; [|done].
  destruct (mapM argmax_dim1 divided) as [samples|] eqn:Earg;
    cbn [mbind option_bind] in Hm; [|done].
  destruct (view_spec _ _ _ Hm) as (Hn & Hlen & Hrows).
  destruct (rows_with_inv _ _ _ _ Ediv) as (Hlq & Hld & Hrw).
  pose proof (length_mapM _ _ _ Earg) as Hls.
  apply mapM_Some_1 in Earg.
  assert (length E = (length probs * num_samples)%nat) as HlE.
  { unfold E. destruct (1 <? num_samples)%nat eqn:E1.
    - apply length_repeat_rows.
    - apply Nat.ltb_ge in E1. nia. }
  assert (forall i j, (j < num_samples)%nat ->
            E !! (i * num_samples + j)%nat = probs !! i) as HE.
  { intros i j Hj. unfold E. destruct (1 <? num_samples)%nat eqn:E1.
    - by apply repeat_rows_lookup.
    - apply Nat.ltb_ge in E1. f_equal. nia. }
  split; [done|]. split; [nia|].
  intros i draws Hi. destruct (Hrows i draws Hi) as (Hdl & Hdraw).
  split; [done|]. intros j tok Hj.
  assert (j < num_samples)%nat as Hjn
    by (rewrite <- Hdl; by eapply lookup_lt_Some).
  rewrite (Hdraw j Hjn) in Hj.
  destruct (Forall2_lookup_r _ _ _ _ _ Earg Hj) as (d & Hd & Hag).
  unfold argmax_dim1 in Hag. case_decide as Hne; [done|].
  injection Hag as <-.
  destruct (lookup_lt_is_Some_2 E (i * num_samples + j)) as [l Hl].
  { rewrite <- Hld. by eapply lookup_lt_Some. }
  destruct (lookup_lt_is_Some_2 q (i * num_samples + j)) as [ql Hql].
  { rewrite Hlq. by eapply lookup_lt_Some. }
  destruct (Hrw _ l ql Hl Hql) as (d' & Hd' & Hdn).
  rewrite Hd in Hd'. injection Hd' as <-.
  rewrite (HE i j Hjn) in Hl.
  exists l, ql, d. repeat (split; [done|]). split.
  - destruct (argmax_spec d Hne) as (v & Hv & _).
    apply lookup_lt_Some in Hv. unfold div_noise in Hdn.
    case_decide; [|done]. injection Hdn as <-.
    rewrite length_zip_with in Hv. lia.
  - by apply argmax_div_noise_positive.
Qed.

Lemma multinomial_never_draws_a_zero_probability_token_witness :
  (0 < 2)%nat
  /\ length [[1; 2]%nat] = length [[Fin 0; Fin (1 # 4); Fin (3 # 4)]]
  /\ forall i draws, [[1; 2]%nat] !! i = Some draws ->
       length draws = 2%nat
       /\ forall j tok, draws !! j = Some tok ->
            exists l ql d,
              [[Fin 0; Fin (1 # 4); Fin (3 # 4)]] !! i = Some l
              /\ [[Fin 1; Fin (1 # 8); Fin 1]; [Fin 1; Fin 1; Fin 2]]
                   !! (i * 2 + j)%nat = Some ql
              /\ div_noise l ql = Some d
              /\ tok = argmax d
              /\ (tok < length l)%nat
              /\ (Forall (fun x => is_probability x = true) l ->
                  Forall (fun x => positive_finite x = true) ql ->
                  (exists t p, l !! t = Some (Fin p) /\ (0 < p)%Q) ->
                  exists p, l !! tok = Some (Fin p) /\ (0 < p)%Q).
Proof.
  apply (multinomial_never_draws_a_zero_probability_token
           [[Fin 0; Fin (1 # 4); Fin (3 # 4)]] 2
           [[Fin 1; Fin (1 # 8); Fin 1]; [Fin 1; Fin 1; Fin 2]]
           [[1; 2]%nat]).
  vm_compute. reflexivity.
Defined.

Section PromptLogprobFacts.
Variable query_len : SequenceGroupToSample -> option nat.
Variable get_num_computed_tokens : SequenceData -> nat.
Variable prompt_token_ids : SequenceData -> list nat.

Lemma get_next_prompt_tokens_spec (seq_group : SequenceGroupToSample)
    (toks : list nat) :
  _get_next_prompt_tokens query_len get_num_computed_tokens
    prompt_token_ids seq_group = Some toks ->
  is_prompt seq_group = true
  /\ exists q seq_id d,
       query_len seq_group = Some q
       /\ seq_ids seq_group = [seq_id]
       /\ seq_data seq_group !! seq_id = Some d
       /\ length toks
          = min q (length (prompt_token_ids d)
                   - (get_num_computed_tokens d + 1))
       /\ forall k tok,
            toks !! k = Some tok ->
            prompt_token_ids d !! (get_num_computed_tokens d + 1 + k)%nat
            = Some tok.
Proof.
  unfold _get_next_prompt_tokens. intros Hn.
  destruct (is_prompt seq_group); [|done]. split; [done|].
  destruct (query_len seq_group) as [q|] eqn:Eq; simpl in Hn; [|done].
  destruct (seq_ids seq_group) as [|seq_id [|? ?]] eqn:Eids; try done.
  destruct (seq_data seq_group !! seq_id) as [d|] eqn:Ed; simpl in Hn;
    [|done].
  injection Hn as <-. exists q, seq_id, d. repeat (split; [done|]). split.
  - rewrite length_take, length_drop. lia.
  - intros k tok Hk. apply lookup_take_Some in Hk as [Hk _].
    by rewrite lookup_drop in Hk.
Qed.

(** [_get_next_prompt_tokens] returns, for a prompt group with a single
    sequence, the prompt tokens that follow the query tokens of the
    chunk: the k-th is the prompt token at [computed_len + 1 + k]; there
    are [query_len] of them, fewer when the chunk reaches the end of the
    prompt, whose last token has no next prompt token. *)
Theorem next_prompt_tokens_follow_the_query_tokens
    (seq_group : SequenceGroupToSample) (toks : list nat) :
  _get_next_prompt_tokens query_len get_num_computed_tokens
    prompt_token_ids seq_group = Some toks ->
  is_prompt seq_group = true
  /\ exists q seq_id d,
       query_len seq_group = Some q
       /\ seq_ids seq_group = [seq_id]
       /\ seq_data seq_group !! seq_id = Some d
       /\ length toks
          = min q (length (prompt_token_ids d)
                   - (get_num_computed_tokens d + 1))
       /\ forall k tok,
            toks !! k = Some tok ->
            prompt_token_ids d !! (get_num_computed_tokens d + 1 + k)%nat
            = Some tok.
Proof. apply get_next_prompt_tokens_spec. Qed.

Lemma prompt_logprob_dicts_spec (n : nat)
    (items : list ext) (rank_items : list nat)
    (top_token_ids : option (list (list nat)))
    (top_logprobs : option matrix) (top_logprob_idx : nat)
    (toks : list nat) (idx : nat) (dicts : list (gmap nat Logprob)) :
  prompt_logprob_dicts n items rank_items top_token_ids top_logprobs
    top_logprob_idx idx toks = Some dicts ->
  length dicts = length toks
  /\ forall j d tok,
       dicts !! j = Some d -> toks !! j = Some tok ->
       exists lp rk e,
         items !! (idx + j)%nat = Some lp
         /\ rank_items !! (idx + j)%nat = Some rk
         /\ d !! tok = Some e
         /\ (e = {| logprob := lp; rank := Some rk |} \/ top_entry n e)
         /\ (size d <= 1 + n)%nat
         /\ (forall k e', d !! k = Some e' -> k <> tok -> top_entry n e').
Proof.
  revert top_logprob_idx idx dicts.
  induction toks as [|t toks IH]; intros top_idx idx dicts Hs;
    cbn [prompt_logprob_dicts] in Hs.
  { injection Hs as <-. split; [done|]. intros j d tok Hd. done. }
  destruct (items !! idx) as [lp|] eqn:Elp;
    cbn [mbind option_bind] in Hs; [|done].
  destruct (rank_items !! idx) as [rk|] eqn:Erk;
    cbn [mbind option_bind] in Hs; [|done].
  destruct (add_top_logprobs _ _ _ _ _) as [d0|] eqn:Ead;
    cbn [mbind option_bind] in Hs; [|done].
  destruct (prompt_logprob_dicts _ _ _ _ _ _ _ _) as [tl|] eqn:Etl;
    cbn [mbind option_bind] in Hs; [|done].
  injection Hs as <-.
  destruct (IH _ _ _ Etl) as (Hlen & Hrest).
  split; [simpl; lia|].
  intros j d tok Hd Htok. destruct j as [|j]; simpl in Hd, Htok.
  - injection Hd as <-. injection Htok as <-.
    destruct (add_top_logprobs_spec _ _ _ _ _ _ Ead)
      as (Hold & Hsize & Hnew).
    unfold requested in *. simpl in *.
    destruct (Hold t) as [[lp' rk'] Hv].
    { rewrite lookup_singleton_eq. by eexists. }
    exists lp, rk, (Logprob_of (lp', rk')).
    rewrite Nat.add_0_r. split; [done|]. split; [done|].
    split; [by rewrite lookup_fmap, Hv|]. split; [|split].
    + destruct (Hnew _ _ Hv) as [Hin|Hr].
      * rewrite lookup_singleton_eq in Hin. injection Hin as <- <-.
        by left.
      * right. by exists rk'.
    + rewrite map_size_fmap. rewrite map_size_singleton in Hsize. lia.
    + intros k e' Hk Hne. rewrite lookup_fmap in Hk.
      destruct (d0 !! k) as [[a b]|] eqn:Ek; simpl in Hk; [|done].
      injection Hk as <-.
      destruct (Hnew _ _ Ek) as [Hin|Hr].
      * rewrite lookup_singleton_ne in Hin by done. done.
      * by exists b.
  - destruct (Hrest j d tok Hd Htok)
      as (lp' & rk' & e & H1 & H2 & H3 & H4 & H5 & H6).
    exists lp', rk', e.
    replace (idx + S j)%nat with (S idx + j)%nat by lia. done.
Qed.

(** [_get_prompt_logprob_if_needed].  A group that is no prompt, or asks
    for no prompt log-probabilities, gets [None] and leaves the two
    running indices alone.  Otherwise there is one dictionary per next
    prompt token and both indices advance by their number; the dictionary
    of a position holds the prompt token that follows it, with its
    selected log-probability and rank unless the top-k table holds the
    token too, and at most [prompt_logprobs] entries besides, ranked from
    1 to [prompt_logprobs]. *)
Theorem prompt_logprobs_one_dictionary_per_prompt_token
    (seq_group : SequenceGroupToSample)
    (selected_logprobs : option (list ext)) (ranks : option (list nat))
    (top_token_ids : option (list (list nat)))
    (top_logprobs : option matrix)
    (selected_logprobs_idx top_logprob_idx top' sel' : nat)
    (result : option (list (gmap nat Logprob))) :
  _get_prompt_logprob_if_needed query_len get_num_computed_tokens
    prompt_token_ids seq_group selected_logprobs ranks top_token_ids
    top_logprobs selected_logprobs_idx top_logprob_idx
  = Some (result, top', sel') ->
  (is_prompt seq_group = false
   \/ prompt_logprobs (sampling_params seq_group) = None ->
   result = None /\ top' = top_logprob_idx /\ sel' = selected_logprobs_idx)
  /\ forall n,
       is_prompt seq_group = true ->
       prompt_logprobs (sampling_params seq_group) = Some n ->
       exists toks dicts sel rks,
         _get_next_prompt_tokens query_len get_num_computed_tokens
    prompt_token_ids seq_group = Some toks
         /\ result = Some dicts
         /\ selected_logprobs = Some sel /\ ranks = Some rks
         /\ length dicts = length toks
         /\ top' = (top_logprob_idx + length toks)%nat
         /\ sel' = (selected_logprobs_idx + length toks)%nat
         /\ forall j d tok,
              dicts !! j = Some d -> toks !! j = Some tok ->
              exists lp rk e,
                sel !! (selected_logprobs_idx + j)%nat = Some lp
                /\ rks !! (selected_logprobs_idx + j)%nat = Some rk
                /\ d !! tok = Some e
                /\ (e = {| logprob := lp; rank := Some rk |}
                    \/ top_entry n e)
                /\ (size d <= 1 + n)%nat
                /\ (forall k e', d !! k = Some e' -> k <> tok ->
                      top_entry n e').
Proof.
  unfold _get_prompt_logprob_if_needed. intros Hg. split.
  - intros [Hp|Hp]; rewrite Hp in Hg.
    + by injection Hg as <- <- <-.
    + destruct (is_prompt seq_group); by injection Hg as <- <- <-.
  - intros n Hp Hn. rewrite Hp, Hn in Hg.
    destruct (_get_next_prompt_tokens _ _ _ _) as [toks|] eqn:Et;
      simpl in Hg; [|done].
    destruct selected_logprobs as [sel|]; simpl in Hg; [|done].
    destruct ranks as [rks|]; simpl in Hg; [|done].
    destruct (prompt_logprob_dicts _ _ _ _ _ _ _ _) as [dicts|] eqn:Ed;
      simpl in Hg; [|done].
    injection Hg as <- <- <-.
    destruct (prompt_logprob_dicts_spec _ _ _ _ _ _ _ _ _ Ed) as (Hl & Hd).
    exists toks, dicts, sel, rks. repeat (split; [done|]).
    intros j d tok Hj Htok.
    destruct (Hd j d tok Hj Htok)
      as (lp & rk & e & H1 & H2 & H3 & H4 & H5 & H6).
    exists lp, rk, e. simpl in H1, H2.
    apply lookup_take_Some in H1 as [H1 _].
    apply lookup_take_Some in H2 as [H2 _].
    rewrite lookup_drop in H1. rewrite lookup_drop in H2. done.
Qed.

End PromptLogprobFacts.

Lemma next_prompt_tokens_follow_the_query_tokens_witness :
  is_prompt prompt_group = true
  /\ exists q seq_id d,
       Some 2%nat = Some q
       /\ seq_ids prompt_group = [seq_id]
       /\ seq_data prompt_group !! seq_id = Some d
       /\ length [13; 14]%nat
          = min q (length prompt_tokens_example - (2 + 1))
       /\ forall k tok,
            [13; 14]%nat !! k = Some tok ->
            prompt_tokens_example !! (2 + 1 + k)%nat = Some tok.
Proof.
  apply (next_prompt_tokens_follow_the_query_tokens
           (fun _ => Some 2%nat) (fun _ => 2%nat)
           (fun _ => prompt_tokens_example) prompt_group [13; 14]%nat).
  reflexivity.
Defined.

Lemma prompt_logprobs_one_dictionary_per_prompt_token_witness :
  (is_prompt prompt_group = false
   \/ prompt_logprobs (sampling_params prompt_group) = None ->
   Some [({[ 13%nat := {| logprob := Fin (-2); rank := Some 3%nat |};
             0%nat := {| logprob := Fin (-1); rank := Some 1%nat |} ]}
          : gmap nat Logprob);
         {[ 14%nat := {| logprob := Fin (-1); rank := Some 1%nat |} ]}]
   = None /\ 2%nat = 0%nat /\ 2%nat = 0%nat)
  /\ forall n,
       is_prompt prompt_group = true ->
       prompt_logprobs (sampling_params prompt_group) = Some n ->
       exists toks dicts sel rks,
         _get_next_prompt_tokens (fun _ => Some 2%nat) (fun _ => 2%nat)
           (fun _ => prompt_tokens_example) prompt_group = Some toks
         /\ Some [({[ 13%nat := {| logprob := Fin (-2); rank := Some 3%nat |};
                      0%nat := {| logprob := Fin (-1); rank := Some 1%nat |} ]}
                   : gmap nat Logprob);
                  {[ 14%nat := {| logprob := Fin (-1); rank := Some 1%nat |} ]}]
            = Some dicts
         /\ Some [Fin (-2); Fin (-1)] = Some sel
         /\ Some [3%nat; 1%nat] = Some rks
         /\ length dicts = length toks
         /\ 2%nat = (0 + length toks)%nat
         /\ 2%nat = (0 + length toks)%nat
         /\ forall j d tok,
              dicts !! j = Some d -> toks !! j = Some tok ->
              exists lp rk e,
                sel !! (0 + j)%nat = Some lp
                /\ rks !! (0 + j)%nat = Some rk
                /\ d !! tok = Some e
                /\ (e = {| logprob := lp; rank := Some rk |}
                    \/ top_entry n e)
                /\ (size d <= 1 + n)%nat
                /\ (forall k e', d !! k = Some e' -> k <> tok ->
                      top_entry n e').
Proof.
  apply (prompt_logprobs_one_dictionary_per_prompt_token
           (fun _ => Some 2%nat) (fun _ => 2%nat)
           (fun _ => prompt_tokens_example) prompt_group
           (Some [Fin (-2); Fin (-1)]) (Some [3%nat; 1%nat])
           (Some [[0%nat; 5%nat]; [14%nat; 5%nat]])
           (Some [[Fin (-1); Fin (-3)]; [Fin (-1); Fin (-3)]]) 0 0 2 2).
  vm_compute. reflexivity.
Defined.

Section GetLogprobsFacts.
Variable query_len : SequenceGroupToSample -> option nat.
Variable get_num_computed_tokens : SequenceData -> nat.
Variable prompt_token_ids : SequenceData -> list nat.

Lemma logprob_query_step_nil (q q1 : LogprobQuery)
    (gs : SequenceGroupToSample * (list nat * list nat)) :
  logprob_query_step query_len get_num_computed_tokens prompt_token_ids q gs
  = Some q1 ->
  (query_indices q1 = [] <-> query_indices q = [] /\ queries_nothing gs).
Proof.
  destruct gs as [g [toks parents]].
  unfold logprob_query_step, queries_nothing. simpl. intros Hs.
  set (qa := match is_prompt g, prompt_logprobs (sampling_params g) with
             | true, Some n => _
             | _, _ => _
             end) in Hs.
  destruct qa as [q2|] eqn:Eqa; cbn [mbind option_bind] in Hs; [|done].
  assert (query_indices q2
          = query_indices q
            ++ (if is_prompt g
                then match prompt_logprobs (sampling_params g) with
                     | Some _ => prompt_logprob_indices g
                     | None => []
                     end
                else [])) as E2.
  { unfold qa in Eqa.
    destruct (is_prompt g), (prompt_logprobs (sampling_params g));
      try (injection Eqa as <-; by rewrite app_nil_r).
    destruct (_get_next_prompt_tokens _ _ _ _); simpl in Eqa; [|done].
    by injection Eqa as <-. }
  clear Eqa qa.
  set (qb := if do_sample g then _ else _) in Hs.
  destruct qb as [q3|] eqn:Eqb; cbn [mbind option_bind] in Hs; [|done].
  assert (query_indices q3
          = query_indices q2
            ++ (if do_sample g
                then map (fun parent_id =>
                            default 0%nat (sample_indices g !! 0%nat)
                            + parent_id)%nat parents
                else [])) as E3.
  { unfold qb in Eqb. destruct (do_sample g).
    - destruct (sample_indices g !! 0%nat); simpl in Eqb; [|done].
      by injection Eqb as <-.
    - injection Eqb as <-. by rewrite app_nil_r. }
  case_decide; [|done]. injection Hs as <-.
  rewrite E3, E2. split.
  - intros E. apply app_eq_nil in E as [E Eb].
    apply app_eq_nil in E as [E Ea]. split; [done|]. split.
    + intros Hp Hn. rewrite Hp in Ea.
      by destruct (prompt_logprobs (sampling_params g)).
    + intros Hd. rewrite Hd in Eb. by destruct parents.
  - intros (E & Ha & Hb). rewrite E. simpl.
    assert ((if is_prompt g
             then match prompt_logprobs (sampling_params g) with
                  | Some _ => prompt_logprob_indices g
                  | None => []
                  end
             else []) = []) as ->.
    { destruct (is_prompt g); [|done].
      destruct (prompt_logprobs (sampling_params g)); [|done].
      by apply Ha. }
    simpl. destruct (do_sample g); [|done]. by rewrite Hb.
Qed.

Lemma logprob_query_fold_nil
    (pairs : list (SequenceGroupToSample * (list nat * list nat)))
    (q q' : LogprobQuery) :
  fold_option (logprob_query_step query_len get_num_computed_tokens
                                  prompt_token_ids) q pairs = Some q' ->
  (query_indices q' = []
   <-> query_indices q = [] /\ Forall queries_nothing pairs).
Proof.
  revert q. induction pairs as [|gs pairs IH]; intros q Hf;
    cbn [fold_option] in Hf.
  - injection Hf as <-. split; [done|]. by intros [? _].
  - destruct (logprob_query_step _ _ _ q gs) as [q1|] eqn:E1;
      cbn [mbind option_bind] in Hf; [|done].
    rewrite (IH _ Hf), (logprob_query_step_nil _ _ _ E1), Forall_cons.
    tauto.
Qed.

Lemma logprob_results_fold_length
    (sel : option (list ext)) (rks : option (list nat))
    (tids : option (list (list nat))) (tlps : option matrix)
    (pairs : list (SequenceGroupToSample * (list nat * list nat)))
    (s s' : LogprobResults) :
  fold_option (logprob_results_step query_len get_num_computed_tokens
                 prompt_token_ids sel rks tids tlps) s pairs = Some s' ->
  length (prompt_logprobs_per_seq_group s')
  = (length (prompt_logprobs_per_seq_group s) + length pairs)%nat
  /\ length (sample_logprobs_per_seq_group s')
     = (length (sample_logprobs_per_seq_group s) + length pairs)%nat.
Proof.
  revert s. induction pairs as [|[g r] pairs IH]; intros s Hf;
    cbn [fold_option] in Hf.
  - injection Hf as <-. simpl. lia.
  - destruct (logprob_results_step _ _ _ _ _ _ _ s (g, r)) as [s1|] eqn:E1;
      cbn [mbind option_bind] in Hf; [|done].
    destruct (IH _ Hf) as (H1 & H2). rewrite H1, H2.
    unfold logprob_results_step in E1.
    destruct (_get_prompt_logprob_if_needed _ _ _ _ _ _ _ _ _ _)
      as [[[pl t1] s1']|]; cbn [mbind option_bind] in E1; [|done].
    destruct (_get_sampled_logprob_if_needed _ _ _ _ _ _ _ _)
      as [[[sl t2] s2']|]; cbn [mbind option_bind] in E1; [|done].
    injection E1 as <-. simpl. rewrite !length_app. simpl. lia.
Qed.

(** The shape of what [_get_logprobs] returns.  When the batch queries
    no row at all (no prompt log-probability index and no parent sequence
    in any group), the two lists have the single entries [None] and [[]],
    whatever the number of groups; otherwise each has one entry per pair
    of [zip(seq_groups, sample_results)]. *)
Theorem get_logprobs_one_entry_per_group (logprobs : matrix)
    (sampling_metadata : SamplingMetadata)
    (sample_results : list (list nat * list nat))
    (prompt_lps : list (option (list (gmap nat Logprob))))
    (sample_lps : list (list (gmap nat Logprob))) :
  _get_logprobs query_len get_num_computed_tokens prompt_token_ids
    logprobs sampling_metadata sample_results
  = Some (prompt_lps, sample_lps) ->
  let pairs := zip (seq_groups sampling_metadata) sample_results in
  (Forall queries_nothing pairs
   /\ prompt_lps = [None] /\ sample_lps = [[]])
  \/ (~ Forall queries_nothing pairs
      /\ length prompt_lps = length pairs
      /\ length sample_lps = length pairs).
Proof.
  intros Hg pairs. unfold _get_logprobs in Hg. fold pairs in Hg.
  destruct (fold_option (logprob_query_step _ _ _) _ pairs) as [q|] eqn:Eq;
    cbn [mbind option_bind] in Hg; [|done].
  pose proof (logprob_query_fold_nil _ _ _ Eq) as Hnil. simpl in Hnil.
  case_decide as Hlen.
  - injection Hg as <- <-. left.
    apply length_zero_iff_nil in Hlen. apply Hnil in Hlen as [_ Hall].
    done.
  - right. split.
    { intros Hall. apply Hlen. apply length_zero_iff_nil, Hnil. done. }
    destruct (logprob_tensors logprobs q) as [[[[sel rks] tlps] tids]|];
      cbn [mbind option_bind] in Hg; [|done].
    destruct (fold_option (logprob_results_step _ _ _ _ _ _ _) _ pairs)
      as [s|] eqn:Es; cbn [mbind option_bind] in Hg; [|done].
    injection Hg as <- <-.
    by destruct (logprob_results_fold_length _ _ _ _ _ _ _ Es).
Qed.

Lemma logprob_query_step_no_logprobs (q q1 : LogprobQuery)
    (gs : SequenceGroupToSample * (list nat * list nat)) :
  asks_no_logprobs gs.1 ->
  logprob_query_step query_len get_num_computed_tokens prompt_token_ids q gs
  = Some q1 ->
  largest_num_logprobs q1 = largest_num_logprobs q
  /\ lq_use_beam_search q1 = lq_use_beam_search q.
Proof.
  destruct gs as [g [toks parents]]. simpl. intros (Hl & Hp & Hb).
  unfold logprob_query_step. rewrite Hp, Hl, Hb.
  assert (match is_prompt g with
          | true | _ => Some q
          end = Some q) as -> by (by destruct (is_prompt g)).
  cbn [mbind option_bind].
  destruct (do_sample g); cbn [mbind option_bind].
  - destruct (sample_indices g !! 0%nat); cbn [mbind option_bind]; [|done].
    case_decide; [|done]. intros [= <-]. simpl.
    by rewrite orb_false_r.
  - case_decide; [|done]. by intros [= <-].
Qed.

Lemma logprob_query_fold_no_logprobs
    (pairs : list (SequenceGroupToSample * (list nat * list nat)))
    (q q' : LogprobQuery) :
  Forall (fun gs => asks_no_logprobs gs.1) pairs ->
  fold_option (logprob_query_step query_len get_num_computed_tokens
                                  prompt_token_ids) q pairs = Some q' ->
  largest_num_logprobs q' = largest_num_logprobs q
  /\ lq_use_beam_search q' = lq_use_beam_search q.
Proof.
  intros Hall. revert q.
  induction Hall as [|gs pairs Hgs _ IH]; intros q Hf;
    cbn [fold_option] in Hf.
  - by injection Hf as <-.
  - destruct (logprob_query_step _ _ _ q gs) as [q1|] eqn:E1;
      cbn [mbind option_bind] in Hf; [|done].
    destruct (IH _ Hf) as (-> & ->).
    by apply (logprob_query_step_no_logprobs q q1 gs).
Qed.

Lemma logprob_results_fold_no_logprobs
    (pairs : list (SequenceGroupToSample * (list nat * list nat)))
    (s s' : LogprobResults) :
  Forall (fun gs => asks_no_logprobs gs.1) pairs ->
  fold_option (logprob_results_step query_len get_num_computed_tokens
                 prompt_token_ids None None None None) s pairs = Some s' ->
  prompt_logprobs_per_seq_group s'
  = prompt_logprobs_per_seq_group s ++ replicate (length pairs) None
  /\ sample_logprobs_per_seq_group s'
     = sample_logprobs_per_seq_group s
       ++ map (fun gs : SequenceGroupToSample * (list nat * list nat) =>
                 if do_sample gs.1
                 then map placeholder_logprob gs.2.1 else [])
              pairs.
Proof.
  intros Hall. revert s.
  induction Hall as [|[g [toks parents]] pairs Hgs _ IH]; intros s Hf;
    cbn [fold_option] in Hf.
  - injection Hf as <-. simpl. by rewrite !app_nil_r.
  - destruct (logprob_results_step _ _ _ _ _ _ _ s _) as [s1|] eqn:E1;
      cbn [mbind option_bind] in Hf; [|done].
    destruct (IH _ Hf) as (-> & ->).
    destruct Hgs as (Hl & Hp & Hb). simpl in Hl, Hp, Hb.
    unfold logprob_results_step, _get_prompt_logprob_if_needed in E1.
    rewrite Hp in E1.
    assert (match is_prompt g with
            | true | _ =>
                Some (@None (list (gmap nat Logprob)),
                      lr_top_logprob_idx s, lr_selected_logprobs_idx s)
            end
            = Some (None, lr_top_logprob_idx s,
                    lr_selected_logprobs_idx s)) as E
      by (by destruct (is_prompt g)).
    rewrite E in E1. clear E. cbn [mbind option_bind] in E1.
    unfold _get_sampled_logprob_if_needed in E1. rewrite Hl, Hb in E1.
    simpl. destruct (do_sample g).
    + case_decide; [|done]. simpl in E1. injection E1 as <-. simpl.
      by rewrite <- !app_assoc.
    + simpl in E1. injection E1 as <-. simpl. by rewrite <- !app_assoc.
Qed.

Lemma get_logprobs_no_request_result (logprobs : matrix)
    (sampling_metadata : SamplingMetadata)
    (sample_results : list (list nat * list nat))
    (prompt_lps : list (option (list (gmap nat Logprob))))
    (sample_lps : list (list (gmap nat Logprob))) :
  _get_logprobs query_len get_num_computed_tokens prompt_token_ids
    logprobs sampling_metadata sample_results
  = Some (prompt_lps, sample_lps) ->
  Forall asks_no_logprobs (seq_groups sampling_metadata) ->
  let pairs := zip (seq_groups sampling_metadata) sample_results in
  Forall (fun pl => pl = None) prompt_lps
  /\ ((Forall queries_nothing pairs /\ sample_lps = [[]])
      \/ sample_lps
         = map (fun gs : SequenceGroupToSample * (list nat * list nat) =>
                  if do_sample gs.1
                  then map placeholder_logprob gs.2.1 else [])
               pairs).
Proof.
  intros Hg Hall pairs. unfold _get_logprobs in Hg. fold pairs in Hg.
  assert (Forall (fun gs => asks_no_logprobs gs.1) pairs) as Hpairs.
  { apply Forall_forall. intros [g r] Hin.
    apply elem_of_zip_l in Hin. simpl.
    by apply (proj1 (Forall_forall _ _) Hall). }
  destruct (fold_option (logprob_query_step _ _ _) _ pairs) as [q|] eqn:Eq;
    cbn [mbind option_bind] in Hg; [|done].
  destruct (logprob_query_fold_no_logprobs _ _ _ Hpairs Eq) as (Hl & Hb).
  simpl in Hl, Hb.
  pose proof (logprob_query_fold_nil _ _ _ Eq) as Hnil. simpl in Hnil.
  case_decide as Hlen.
  - injection Hg as <- <-. split; [by repeat constructor|]. left.
    apply length_zero_iff_nil in Hlen. apply Hnil in Hlen as [_ Hq].
    done.
  - unfold logprob_tensors in Hg. rewrite Hl, Hb in Hg.
    cbn [mbind option_bind orb Z.leb Z.compare] in Hg.
    destruct (fold_option (logprob_results_step _ _ _ _ _ _ _) _ pairs)
      as [s|] eqn:Es; cbn [mbind option_bind] in Hg; [|done].
    injection Hg as <- <-.
    destruct (logprob_results_fold_no_logprobs _ _ _ Hpairs Es)
      as (-> & ->).
    simpl. split; [|by right].
    apply Forall_forall. intros pl Hpl.
    by apply elem_of_replicate in Hpl as [-> _].
Qed.

(** A batch that asks for no log-probability (no [logprobs], no
    [prompt_logprobs], no beam search in any group): [_get_logprobs]
    reads no entry of the log-probability tensor; every prompt entry is
    [None], and the sample entry of a group is the placeholder dictionary
    of each of its sampled tokens ([[]] for a group that does not
    sample). *)
Theorem get_logprobs_without_request_gives_placeholders (logprobs : matrix)
    (sampling_metadata : SamplingMetadata)
    (sample_results : list (list nat * list nat))
    (prompt_lps : list (option (list (gmap nat Logprob))))
    (sample_lps : list (list (gmap nat Logprob))) :
  _get_logprobs query_len get_num_computed_tokens prompt_token_ids
    logprobs sampling_metadata sample_results
  = Some (prompt_lps, sample_lps) ->
  Forall asks_no_logprobs (seq_groups sampling_metadata) ->
  let pairs := zip (seq_groups sampling_metadata) sample_results in
  Forall (fun pl => pl = None) prompt_lps
  /\ ((Forall queries_nothing pairs /\ sample_lps = [[]])
      \/ sample_lps
         = map (fun gs : SequenceGroupToSample * (list nat * list nat) =>
                  if do_sample gs.1
                  then map placeholder_logprob gs.2.1 else [])
               pairs).
Proof. apply get_logprobs_no_request_result. Qed.

End GetLogprobsFacts.

Lemma get_logprobs_one_entry_per_group_witness :
  let pairs := zip (seq_groups plain_batch) [([3%nat], [0%nat])] in
  (Forall queries_nothing pairs
   /\ [@None (list (gmap nat Logprob))] = [None]
   /\ [[placeholder_logprob 3]] = [[]])
  \/ (~ Forall queries_nothing pairs
      /\ length [@None (list (gmap nat Logprob))] = length pairs
      /\ length [[placeholder_logprob 3]] = length pairs).
Proof.
  apply (get_logprobs_one_entry_per_group
           (fun _ => None) (fun _ => 0%nat) (fun _ => [])
           [[Fin (-1); Fin (-2); Fin (-3); Fin (-1)]] plain_batch
           [([3%nat], [0%nat])]).
  vm_compute. reflexivity.
Defined.

Lemma get_logprobs_without_request_gives_placeholders_witness :
  let pairs := zip (seq_groups plain_batch) [([3%nat], [0%nat])] in
  Forall (fun pl => pl = None) [@None (list (gmap nat Logprob))]
  /\ ((Forall queries_nothing pairs /\ [[placeholder_logprob 3]] = [[]])
      \/ [[placeholder_logprob 3]]
         = map (fun gs : SequenceGroupToSample * (list nat * list nat) =>
                  if do_sample gs.1
                  then map placeholder_logprob gs.2.1 else [])
               pairs).
Proof.
  apply (get_logprobs_without_request_gives_placeholders
           (fun _ => None) (fun _ => 0%nat) (fun _ => [])
           [[Fin (-1); Fin (-2); Fin (-3); Fin (-1)]] plain_batch
           [([3%nat], [0%nat])]).
  - vm_compute. reflexivity.
  - repeat constructor.
Defined.

Lemma seq_outputs_loop_spec (ids parents toks : list nat)
    (lps : list (gmap nat Logprob)) (outs : list SequenceOutput) :
  seq_outputs_loop ids parents toks lps = Some outs ->
  length outs = min (length parents) (min (length toks) (length lps))
  /\ forall j so, outs !! j = Some so ->
       exists p, parents !! j = Some p
                 /\ ids !! p = Some (parent_seq_id so)
                 /\ toks !! j = Some (output_token so)
                 /\ lps !! j = Some (so_logprobs so).
Proof.
  revert toks lps outs.
  induction parents as [|p parents IH]; intros toks lps outs Hs;
    simpl in Hs.
  { injection Hs as <-. split; [done|]. intros j so Hj. done. }
  destruct toks as [|t toks]; simpl in Hs.
  { injection Hs as <-. split; [done|]. intros j so Hj. done. }
  destruct lps as [|lp lps]; simpl in Hs.
  { injection Hs as <-. split; [simpl; lia|]. intros j so Hj. done. }
  destruct (ids !! p) as [seq_id|] eqn:Ep; simpl in Hs; [|done].
  destruct (seq_outputs_loop ids parents toks lps) as [tl|] eqn:Etl;
    simpl in Hs; [|done].
  injection Hs as <-. destruct (IH _ _ _ Etl) as (Hlen & Hrest).
  split; [simpl; lia|]. intros [|j] so Hj; simpl in Hj.
  - injection Hj as <-. by exists p.
  - by apply Hrest.
Qed.

Lemma sampler_output_loop_spec (groups : list SequenceGroupToSample)
    (results : list (list nat * list nat))
    (pls : list (option (list (gmap nat Logprob))))
    (sls : list (list (gmap nat Logprob)))
    (outs : list CompletionSequenceGroupOutput) :
  sampler_output_loop groups results pls sls = Some outs ->
  length outs
  = min (length groups)
        (min (length results) (min (length pls) (length sls)))
  /\ forall i o, outs !! i = Some o ->
       exists g toks parents gpl gsl,
         groups !! i = Some g
         /\ results !! i = Some (toks, parents)
         /\ pls !! i = Some gpl /\ sls !! i = Some gsl
         /\ cs_prompt_logprobs o = gpl
         /\ seq_outputs_loop (seq_ids g) parents toks gsl
            = Some (samples o).
Proof.
  revert results pls sls outs.
  induction groups as [|g groups IH]; intros results pls sls outs Hs;
    simpl in Hs.
  { injection Hs as <-. split; [done|]. intros i o Hi. done. }
  destruct results as [|[toks parents] results]; simpl in Hs.
  { injection Hs as <-. split; [done|]. intros i o Hi. done. }
  destruct pls as [|gpl pls]; simpl in Hs.
  { injection Hs as <-. split; [simpl; lia|]. intros i o Hi. done. }
  destruct sls as [|gsl sls]; simpl in Hs.
  { injection Hs as <-. split; [simpl; lia|]. intros i o Hi. done. }
  destruct (seq_outputs_loop _ _ _ _) as [so|] eqn:Eso; simpl in Hs;
    [|done].
  destruct (sampler_output_loop groups results pls sls) as [tl|] eqn:Etl;
    simpl in Hs; [|done].
  injection Hs as <-. destruct (IH _ _ _ _ Etl) as (Hlen & Hrest).
  split; [simpl; lia|]. intros [|i] o Hi; simpl in Hi.
  - injection Hi as <-. by exists g, toks, parents, gpl, gsl.
  - by apply Hrest.
Qed.

(** [_build_sampler_output].  The on-device tensors are handed through
    (or all absent).  With [skip_sampler_cpu_output] there is no output
    per group.  Without it, the two lists of log-probabilities must be
    there, there is one output per entry of the zip of the four lists,
    with the group's prompt log-probabilities, and its j-th sample is the
    j-th sampled token, attributed to the sequence id [seq_ids[parent]] of
    its parent, with the j-th dictionary. *)
Theorem sampler_output_attributes_tokens_to_parents
    (sample_results : list (list nat * list nat))
    (sampling_metadata : SamplingMetadata)
    (prompt_logprobs : option (list (option (list (gmap nat Logprob)))))
    (sample_logprobs : option (list (list (gmap nat Logprob))))
    (on_device_tensors : option (matrix * matrix * token_ids_tensor))
    (skip_sampler_cpu_output : bool) (out : SamplerOutput) :
  _build_sampler_output sample_results sampling_metadata prompt_logprobs
    sample_logprobs on_device_tensors skip_sampler_cpu_output = Some out ->
  (sampled_token_probs out, out_logprobs out, sampled_token_ids out)
  = match on_device_tensors with
    | Some (p, l, t) => (Some p, Some l, Some t)
    | None => (None, None, None)
    end
  /\ (skip_sampler_cpu_output = true -> outputs out = [])
  /\ (skip_sampler_cpu_output = false ->
      exists pls sls,
        prompt_logprobs = Some pls /\ sample_logprobs = Some sls
        /\ length (outputs out)
           = min (length (seq_groups sampling_metadata))
                 (min (length sample_results)
                      (min (length pls) (length sls)))
        /\ forall i o, outputs out !! i = Some o ->
             exists g toks parents gsl,
               seq_groups sampling_metadata !! i = Some g
               /\ sample_results !! i = Some (toks, parents)
               /\ pls !! i = Some (cs_prompt_logprobs o)
               /\ sls !! i = Some gsl
               /\ length (samples o)
                  = min (length parents) (min (length toks) (length gsl))
               /\ forall j so, samples o !! j = Some so ->
                    exists p, parents !! j = Some p
                      /\ seq_ids g !! p = Some (parent_seq_id so)
                      /\ toks !! j = Some (output_token so)
                      /\ gsl !! j = Some (so_logprobs so)).
Proof.
  unfold _build_sampler_output. intros Hb.
  destruct skip_sampler_cpu_output; simpl in Hb.
  - injection Hb as <-. split; [by destruct on_device_tensors as [[[? ?] ?]|]|].
    split; [|done]. intros _. by destruct on_device_tensors as [[[? ?] ?]|].
  - destruct prompt_logprobs as [pls|]; simpl in Hb; [|done].
    destruct sample_logprobs as [sls|]; simpl in Hb; [|done].
    destruct (sampler_output_loop _ _ _ _) as [outs|] eqn:Eo; simpl in Hb;
      [|done].
    injection Hb as <-.
    split; [by destruct on_device_tensors as [[[? ?] ?]|]|].
    split; [done|]. intros _.
    destruct (sampler_output_loop_spec _ _ _ _ _ Eo) as (Hlen & Hout).
    exists pls, sls. split; [done|]. split; [done|]. split.
    { by destruct on_device_tensors as [[[? ?] ?]|]. }
    intros i o Hi.
    assert (outs !! i = Some o) as Hi'
      by (by destruct on_device_tensors as [[[? ?] ?]|]).
    destruct (Hout i o Hi')
      as (g & toks & parents & gpl & gsl & Hg & Hr & Hpl & Hsl & Hcp & Hso).
    destruct (seq_outputs_loop_spec _ _ _ _ _ Hso) as (Hl & Hs).
    exists g, toks, parents, gsl. rewrite Hcp. done.
Qed.

Lemma sampler_output_attributes_tokens_to_parents_witness :
  (sampled_token_probs beam_decode_output, out_logprobs beam_decode_output,
   sampled_token_ids beam_decode_output)
  = (None, None, None)
  /\ (false = true -> outputs beam_decode_output = [])
  /\ (false = false ->
      exists pls sls,
        Some [@None (list (gmap nat Logprob))] = Some pls
        /\ Some [[placeholder_logprob 9; placeholder_logprob 8]] = Some sls
        /\ length (outputs beam_decode_output)
           = min (length (seq_groups beam_decode_batch))
                 (min (length [([9; 8]%nat, [1; 0]%nat)])
                      (min (length pls) (length sls)))
        /\ forall i o, outputs beam_decode_output !! i = Some o ->
             exists g toks parents gsl,
               seq_groups beam_decode_batch !! i = Some g
               /\ [([9; 8]%nat, [1; 0]%nat)] !! i = Some (toks, parents)
               /\ pls !! i = Some (cs_prompt_logprobs o)
               /\ sls !! i = Some gsl
               /\ length (samples o)
                  = min (length parents) (min (length toks) (length gsl))
               /\ forall j so, samples o !! j = Some so ->
                    exists p, parents !! j = Some p
                      /\ seq_ids g !! p = Some (parent_seq_id so)
                      /\ toks !! j = Some (output_token so)
                      /\ gsl !! j = Some (so_logprobs so)).
Proof.
  apply (sampler_output_attributes_tokens_to_parents
           [([9; 8]%nat, [1; 0]%nat)] beam_decode_batch (Some [None])
           (Some [[placeholder_logprob 9; placeholder_logprob 8]])
           None false beam_decode_output).
  reflexivity.
Defined.

(** ** The groups of a sampling type *)

Lemma categorize_from_app (s : nat) (pre post : list SequenceGroupToSample)
    (t : SamplingType) :
  categorize_from s (pre ++ post) t
  = categorize_from s pre t ++ categorize_from (s + length pre) post t.
Proof.
  revert s. induction pre as [|g pre IH]; intros s; simpl.
  - by rewrite Nat.add_0_r.
  - rewrite IH. replace (S s + length pre)%nat with (s + S (length pre))%nat
      by lia.
    by case_decide.
Qed.

Lemma categorize_from_bounds (s : nat) (groups : list SequenceGroupToSample)
    (t : SamplingType) (i : nat) :
  i ∈ categorize_from s groups t ->
  (s <= i)%nat
  /\ exists g, groups !! (i - s)%nat = Some g
               /\ sampling_type (sampling_params g) = t.
Proof.
  revert s. induction groups as [|g groups IH]; intros s Hi; simpl in Hi.
  - by apply elem_of_nil in Hi.
  - assert (i ∈ categorize_from (S s) groups t ->
            (s <= i)%nat
            /\ exists g0, (g :: groups) !! (i - s)%nat = Some g0
                          /\ sampling_type (sampling_params g0) = t) as Hrec.
    { intros Hin. destruct (IH _ Hin) as (Hle & g0 & Hg0 & Ht).
      split; [lia|]. exists g0. split; [|done].
      replace (i - s)%nat with (S (i - S s)) by lia. done. }
    case_decide as Ht; [|by apply Hrec].
    apply elem_of_cons in Hi as [->|Hi]; [|by apply Hrec].
    split; [lia|]. exists g. by rewrite Nat.sub_diag.
Qed.

Lemma categorize_from_groups (pre groups : list SequenceGroupToSample)
    (t : SamplingType) :
  mapM (fun i => (pre ++ groups) !! i) (categorize_from (length pre) groups t)
  = Some (List.filter (of_type t) groups).
Proof.
  revert pre. induction groups as [|g groups IH]; intros pre; simpl.
  - done.
  - specialize (IH (pre ++ [g])).
    rewrite <- app_assoc, length_app in IH. simpl in IH.
    replace (length pre + 1)%nat with (S (length pre)) in IH by lia.
    unfold of_type at 1. case_decide as Ht.
    + rewrite bool_decide_eq_true_2 by done. simpl.
      rewrite lookup_app_r by lia. rewrite Nat.sub_diag. simpl.
      by rewrite IH.
    + rewrite bool_decide_eq_false_2 by done. done.
Qed.

Lemma length_categorize_from (s : nat) (groups : list SequenceGroupToSample)
    (t : SamplingType) :
  length (categorize_from s groups t)
  = length (List.filter (of_type t) groups).
Proof.
  revert s. induction groups as [|g groups IH]; intros s; simpl; [done|].
  unfold of_type at 1. case_decide as Ht.
  - rewrite bool_decide_eq_true_2 by done. simpl. by rewrite IH.
  - rewrite bool_decide_eq_false_2 by done. apply IH.
Qed.

(** ** [dict.update] *)

Lemma dict_update_outside {V} (d : gmap nat V) (kvs : list (nat * V))
    (i : nat) :
  i ∉ kvs.*1 -> dict_update d kvs !! i = d !! i.
Proof.
  revert d. induction kvs as [|[k v] kvs IH]; intros d Hi; simpl; [done|].
  simpl in Hi. apply not_elem_of_cons in Hi as [Hne Hi].
  unfold dict_update in *. rewrite IH by done. simpl.
  by rewrite lookup_insert_ne.
Qed.

Lemma dict_update_zip_lookup {V} (d : gmap nat V)
    (ids1 ids2 : list nat) (i : nat) (r1 r2 : list V) (r : V) :
  length ids1 = length r1 -> i ∉ ids2 ->
  dict_update d (zip (ids1 ++ i :: ids2) (r1 ++ r :: r2)) !! i = Some r.
Proof.
  intros Hlen Hi. unfold dict_update.
  rewrite zip_with_app by done. rewrite foldl_app. simpl.
  fold (dict_update (<[i := r]> (foldl (fun d kv => <[kv.1 := kv.2]> d) d
                                       (zip ids1 r1))) (zip ids2 r2)).
  rewrite dict_update_outside.
  - by rewrite lookup_insert_eq.
  - intros Hin. apply Hi.
    apply list_elem_of_fmap in Hin as ([k v] & -> & Hkv).
    by apply elem_of_zip_l in Hkv.
Qed.

(** ** The two loops of [_sample_with_torch] *)

Lemma fold_option_app {S A} (f : S -> A -> option S) (s : S)
    (l1 l2 : list A) :
  fold_option f s (l1 ++ l2)
  = fold_option f s l1 ≫= fun s' => fold_option f s' l2.
Proof.
  revert s. induction l1 as [|x l1 IH]; intros s; simpl; [done|].
  destruct (f s x) as [s1|]; simpl; [apply IH|done].
Qed.

Lemma second_loop_outside
    (entries : list (list nat * list SequenceGroupToSample * Drawn))
    (d d' : gmap nat (list nat * list nat)) (i : nat) :
  fold_option sample_second_loop_step d entries = Some d' ->
  Forall (fun e => i ∉ e.1.1) entries ->
  d' !! i = d !! i.
Proof.
  revert d. induction entries as [|[[ids gs] drawn] entries IH];
    intros d Hf Hout; cbn [fold_option] in Hf.
  - by injection Hf as <-.
  - apply Forall_cons in Hout as [Hi Hout]. simpl in Hi.
    destruct (sample_second_loop_step d _) as [d1|] eqn:E1;
      cbn [mbind option_bind] in Hf; [|done].
    rewrite (IH _ Hf Hout).
    unfold sample_second_loop_step in E1.
    destruct (match drawn with
              | GreedySamples a => _
              | MultinomialSamples b => _
              | BeamSearchLogprobs c => _
              end) as [rs|]; cbn [mbind option_bind] in E1; [|done].
    injection E1 as <-. apply dict_update_outside.
    intros Hin. apply Hi.
    apply list_elem_of_fmap in Hin as ([k v] & -> & Hkv).
    by apply elem_of_zip_l in Hkv.
Qed.

Section SampleWithTorchFacts.
Variable categorized_sample_indices : SamplingType -> list nat.
Variable noise : SamplingType -> matrix.

(** What one round of the first loop adds to [sample_metadata]. *)
Lemma first_loop_step_metadata (logprobs : matrix) (md : SamplingMetadata)
    (include modify : bool) (st st' : TorchSampling) (t : SamplingType) :
  sample_first_loop_step categorized_sample_indices noise logprobs md
    include modify st t = Some st' ->
  (categorized_sample_indices t = []
   /\ ts_sample_metadata st' = ts_sample_metadata st)
  \/ (categorized_sample_indices t <> []
      /\ exists drawn,
           ts_sample_metadata st'
           = ts_sample_metadata st
             ++ [(categorized_seq_group_ids (seq_groups md) t,
                  List.filter (of_type t) (seq_groups md), drawn)]
           /\ (t = GREEDY ->
               exists rows gs,
                 gather logprobs (categorized_sample_indices t) = Some rows
                 /\ mapM argmax_dim1 rows = Some gs
                 /\ drawn = GreedySamples gs)).
Proof.
  unfold sample_first_loop_step. intros Hs.
  case_decide as Hn.
  { left. injection Hs as <-. split; [|done].
    by apply length_zero_iff_nil. }
  right. split; [intros E; by rewrite E in Hn|].
  unfold categorized_seq_group_ids in *.
  pose proof (categorize_from_groups [] (seq_groups md) t) as Hgroups.
  simpl in Hgroups. rewrite Hgroups in Hs. clear Hgroups.
  cbn [mbind option_bind] in Hs.
  destruct t.
  - destruct (gather logprobs _) as [rows|] eqn:Er;
      cbn [mbind option_bind] in Hs; [|done].
    destruct (mapM argmax_dim1 rows) as [gs|] eqn:Eg;
      cbn [mbind option_bind] in Hs; [|done].
    destruct (match ts_sampled_token_ids_tensor st with
              | Some t => _
              | None => _
              end) as [tensor|]; cbn [mbind option_bind] in Hs; [|done].
    destruct (if modify then _ else _) as [probs|];
      cbn [mbind option_bind] in Hs; [|done].
    injection Hs as <-. eexists. split; [done|].
    intros _. by exists rows, gs.
  - destruct (gather (ts_probs st) _) as [rows|];
      cbn [mbind option_bind] in Hs; [|done].
    destruct (_multinomial _ _ _) as [ms|];
      cbn [mbind option_bind] in Hs; [|done].
    destruct (match ts_sampled_token_ids_tensor st with
              | Some t => _
              | None => _
              end) as [tensor|]; cbn [mbind option_bind] in Hs; [|done].
    injection Hs as <-. eexists. split; [done|]. done.
  - destruct (gather (ts_probs st) _) as [rows|];
      cbn [mbind option_bind] in Hs; [|done].
    destruct (_multinomial _ _ _) as [ms|];
      cbn [mbind option_bind] in Hs; [|done].
    destruct (match ts_sampled_token_ids_tensor st with
              | Some t => _
              | None => _
              end) as [tensor|]; cbn [mbind option_bind] in Hs; [|done].
    injection Hs as <-. eexists. split; [done|]. done.
  - destruct (gather logprobs _) as [rows|];
      cbn [mbind option_bind] in Hs; [|done].
    injection Hs as <-. eexists. split; [done|]. done.
Qed.

Lemma first_loop_step_entries (logprobs : matrix) (md : SamplingMetadata)
    (include modify : bool) (st st' : TorchSampling) (t : SamplingType) :
  sample_first_loop_step categorized_sample_indices noise logprobs md
    include modify st t = Some st' ->
  exists m,
    ts_sample_metadata st' = ts_sample_metadata st ++ m
    /\ Forall (fun e => e.1.1 = categorized_seq_group_ids (seq_groups md) t)
              m.
Proof.
  intros Hs.
  destruct (first_loop_step_metadata _ _ _ _ _ _ _ Hs)
    as [(_ & Hm)|(_ & drawn & Hm & _)].
  - exists []. by rewrite app_nil_r.
  - eexists. split; [done|]. by repeat constructor.
Qed.

Lemma not_categorized (groups : list SequenceGroupToSample)
    (t : SamplingType) (i : nat) (g : SequenceGroupToSample) :
  groups !! i = Some g -> sampling_type (sampling_params g) <> t ->
  i ∉ categorized_seq_group_ids groups t.
Proof.
  intros Hg Ht Hin. unfold categorized_seq_group_ids in Hin.
  destruct (categorize_from_bounds _ _ _ _ Hin) as (_ & g' & Hg' & Ht').
  rewrite Nat.sub_0_r, Hg in Hg'. injection Hg' as <-. done.
Qed.

Lemma sample_with_torch_greedy_result
    (probs logprobs : matrix) (md : SamplingMetadata)
    (include modify : bool) (results : list (list nat * list nat))
    (tensor : option token_ids_tensor) (probs' : matrix)
    (pre post : list SequenceGroupToSample) (g : SequenceGroupToSample) :
  _sample_with_torch categorized_sample_indices noise probs logprobs md
    include modify = Some (results, tensor, probs') ->
  skip_sampler_cpu_output md = false ->
  seq_groups md = pre ++ g :: post ->
  sampling_type (sampling_params g) = GREEDY ->
  length results = length (seq_groups md)
  /\ (categorized_sample_indices GREEDY = [] \/ do_sample g = false ->
      results !! length pre = Some ([], []))
  /\ (categorized_sample_indices GREEDY <> [] -> do_sample g = true ->
      exists row l,
        categorized_sample_indices GREEDY
          !! sampling_groups (List.filter (of_type GREEDY) pre) = Some row
        /\ logprobs !! row = Some l
        /\ results !! length pre = Some ([argmax l], [0%nat])
        /\ l <> []).
Proof.
  intros Hs Hskip Hgroups Htype. unfold _sample_with_torch in Hs.
  cbn [fold_option] in Hs.
  set (st0 := {| ts_probs := probs |}) in Hs.
  destruct (sample_first_loop_step _ _ _ _ _ _ st0 GREEDY) as [st1|] eqn:E1;
    cbn [mbind option_bind] in Hs; [|done].
  destruct (sample_first_loop_step _ _ _ _ _ _ st1 RANDOM) as [st2|] eqn:E2;
    cbn [mbind option_bind] in Hs; [|done].
  destruct (sample_first_loop_step _ _ _ _ _ _ st2 RANDOM_SEED)
    as [st3|] eqn:E3; cbn [mbind option_bind] in Hs; [|done].
  destruct (sample_first_loop_step _ _ _ _ _ _ st3 BEAM) as [st4|] eqn:E4;
    cbn [mbind option_bind] in Hs; [|done].
  rewrite Hskip in Hs. cbn [negb] in Hs.
  destruct (fold_option sample_second_loop_step ∅ (ts_sample_metadata st4))
    as [d|] eqn:Ed; cbn [mbind option_bind] in Hs; [|done].
  injection Hs as <- <- <-.
  set (i := length pre).
  assert (seq_groups md !! i = Some g) as Hi.
  { rewrite Hgroups. by apply list_lookup_middle. }
  assert (i < length (seq_groups md))%nat as Hilt
    by (by eapply lookup_lt_Some).
  assert (forall r, default ([], []) (d !! i) = r ->
            map (fun i => default ([], []) (d !! i))
                (seq 0 (length (seq_groups md))) !! i = Some r) as Hres.
  { intros r <-. rewrite lookup_map, lookup_seq_lt by done. done. }
  (* the metadata of the four rounds *)
  destruct (first_loop_step_entries _ _ _ _ _ _ _ E2) as (mR & HmR & HfR).
  destruct (first_loop_step_entries _ _ _ _ _ _ _ E3) as (mS & HmS & HfS).
  destruct (first_loop_step_entries _ _ _ _ _ _ _ E4) as (mB & HmB & HfB).
  assert (forall t (m : list (list nat * list SequenceGroupToSample
                                * Drawn)),
            t <> GREEDY ->
            Forall (fun e => e.1.1
                             = categorized_seq_group_ids (seq_groups md) t) m ->
            Forall (fun e => i ∉ e.1.1) m) as Hother.
  { intros t m Ht Hm. eapply Forall_impl; [done|]. intros e ->.
    eapply not_categorized; [done|]. by rewrite Htype. }
  rewrite HmB, HmS, HmR, <- !app_assoc in Ed.
  rewrite fold_option_app in Ed.
  destruct (fold_option sample_second_loop_step ∅ (ts_sample_metadata st1))
    as [dG|] eqn:EG; cbn [mbind option_bind] in Ed; [|done].
  assert (d !! i = dG !! i) as Hd.
  { eapply second_loop_outside; [done|].
    apply Forall_app; split; [by apply (Hother RANDOM)|].
    apply Forall_app; split;
      [by apply (Hother RANDOM_SEED)|by apply (Hother BEAM)]. }
  split; [by rewrite length_map, length_seq|].
  destruct (first_loop_step_metadata _ _ _ _ _ _ _ E1)
    as [(Hcat & Hm)|(Hcat & drawn & Hm & Hdrawn)].
  - (* no row for greedy sampling *)
    rewrite Hm in EG. simpl in EG. injection EG as <-.
    split; [|done]. intros _. apply Hres. by rewrite Hd.
  - destruct (Hdrawn eq_refl) as (rows & gs & Hrows & Hgs & ->).
    rewrite Hm in EG. simpl in EG.
    destruct (_greedy_sample _ gs) as [rG|] eqn:ErG;
      cbn [mbind option_bind] in EG; [|done].
    injection EG as <-.
    (* the greedy groups, around [g] *)
    unfold categorized_seq_group_ids in *. rewrite Hgroups in *.
    rewrite categorize_from_app in Hd. simpl in Hd.
    rewrite decide_True in Hd by done.
    rewrite List.filter_app in ErG. simpl in ErG.
    unfold of_type at 2 in ErG.
    rewrite bool_decide_eq_true_2 in ErG by done.
    set (gpre := List.filter (of_type GREEDY) pre) in *.
    set (gpost := List.filter (of_type GREEDY) post) in *.
    unfold _greedy_sample in ErG.
    destruct (greedy_sample_loop_lookup _ _ _ _ _ _ ErG)
      as (Hlen & Hoff & Hon).
    assert (exists r, rG !! length gpre = Some r) as (r & Hr).
    { apply lookup_lt_is_Some_2. rewrite Hlen, length_app. simpl. lia. }
    assert (d !! i = Some r) as Hdi.
    { rewrite Hd, <- (take_drop_middle rG (length gpre) r Hr).
      apply dict_update_zip_lookup.
      - rewrite length_take, length_categorize_from. fold gpre.
        apply lookup_lt_Some in Hr. lia.
      - intros Hin. apply categorize_from_bounds in Hin as (Hle & _).
        unfold i in Hle. lia. }
    split.
    + intros [Hnil|Hdo]; [done|]. apply Hres. rewrite Hdi. simpl.
      specialize (Hoff Hdo). congruence.
    + intros _ Hdo. destruct (Hon Hdo) as (_ & tok & Htok & Hrtok).
      simpl in Htok. apply mapM_Some_1 in Hgs.
      destruct (Forall2_lookup_r _ _ _ _ _ Hgs Htok) as (l & Hl & Hal).
      unfold argmax_dim1 in Hal. case_decide as Hne; [done|].
      injection Hal as <-.
      unfold gather in Hrows. apply mapM_Some_1 in Hrows.
      destruct (Forall2_lookup_r _ _ _ _ _ Hrows Hl) as (row & Hrow & Hlr).
      exists row, l. split; [done|]. split; [done|]. split; [|done].
      apply Hres. rewrite Hdi. simpl. congruence.
Qed.

(** [_sample_with_torch] on the greedy groups.  Without
    [skip_sampler_cpu_output] there is one result per group.  A greedy
    group that does not sample, or a batch that assigns no row to greedy
    sampling, gets [([], [])]; the k-th greedy group that samples gets,
    with parent 0, the argmax of the row of log-probabilities that the
    k-th greedy sample index names. *)
Theorem sample_with_torch_greedy_takes_the_argmax
    (probs logprobs : matrix) (md : SamplingMetadata)
    (include modify : bool) (results : list (list nat * list nat))
    (tensor : option token_ids_tensor) (probs' : matrix)
    (pre post : list SequenceGroupToSample) (g : SequenceGroupToSample) :
  _sample_with_torch categorized_sample_indices noise probs logprobs md
    include modify = Some (results, tensor, probs') ->
  skip_sampler_cpu_output md = false ->
  seq_groups md = pre ++ g :: post ->
  sampling_type (sampling_params g) = GREEDY ->
  length results = length (seq_groups md)
  /\ (categorized_sample_indices GREEDY = [] \/ do_sample g = false ->
      results !! length pre = Some ([], []))
  /\ (categorized_sample_indices GREEDY <> [] -> do_sample g = true ->
      exists row l,
        categorized_sample_indices GREEDY
          !! sampling_groups (List.filter (of_type GREEDY) pre) = Some row
        /\ logprobs !! row = Some l
        /\ results !! length pre = Some ([argmax l], [0%nat])).
Proof.
  intros Hs Hskip Hgroups Htype.
  destruct (sample_with_torch_greedy_result _ _ _ _ _ _ _ _ _ _ _
              Hs Hskip Hgroups Htype) as (Hlen & Hoff & Hon).
  split; [done|]. split; [done|]. intros Hne Hdo.
  destruct (Hon Hne Hdo) as (row & l & Hrow & Hl & Hr & _).
  by exists row, l.
Qed.

End SampleWithTorchFacts.

Lemma sample_with_torch_greedy_takes_the_argmax_witness :
  length [([1]%nat, [0]%nat); ([0]%nat, [0]%nat); ([2]%nat, [0]%nat)]
  = length (seq_groups mixed_batch)
  /\ (mixed_sample_indices GREEDY = [] \/ do_sample plain_group = false ->
      [([1]%nat, [0]%nat); ([0]%nat, [0]%nat); ([2]%nat, [0]%nat)]
        !! length [plain_group; random_group] = Some ([], []))
  /\ (mixed_sample_indices GREEDY <> [] -> do_sample plain_group = true ->
      exists row l,
        mixed_sample_indices GREEDY
          !! sampling_groups
               (List.filter (of_type GREEDY) [plain_group; random_group])
        = Some row
        /\ mixed_logprobs !! row = Some l
        /\ [([1]%nat, [0]%nat); ([0]%nat, [0]%nat); ([2]%nat, [0]%nat)]
             !! length [plain_group; random_group]
           = Some ([argmax l], [0%nat])).
Proof.
  apply (sample_with_torch_greedy_takes_the_argmax
           mixed_sample_indices mixed_noise mixed_probs mixed_logprobs
           mixed_batch false false
           [([1]%nat, [0]%nat); ([0]%nat, [0]%nat); ([2]%nat, [0]%nat)]
           None mixed_probs [plain_group; random_group] [] plain_group).
  - vm_compute. reflexivity.
  - reflexivity.
  - reflexivity.
  - reflexivity.
Defined.

(** ** Greedy decoding through [Sampler.forward] *)

Section ForwardFacts.
Context `{TorchMath}.

Variable from_sampling_metadata : SamplingMetadata -> nat -> SamplerCache.
Variable categorized_sample_indices : SamplingType -> list nat.
Variable noise : SamplingType -> matrix.
Variable query_len : SequenceGroupToSample -> option nat.
Variable get_num_computed_tokens : SequenceData -> nat.
Variable prompt_token_ids : SequenceData -> list nat.

Lemma logprob_results_fold_prefix
    (sel : option (list ext)) (rks : option (list nat))
    (tids : option (list (list nat))) (tlps : option matrix)
    (pairs : list (SequenceGroupToSample * (list nat * list nat)))
    (s s' : LogprobResults) :
  fold_option (logprob_results_step query_len get_num_computed_tokens
                 prompt_token_ids sel rks tids tlps) s pairs = Some s' ->
  exists more,
    sample_logprobs_per_seq_group s'
    = sample_logprobs_per_seq_group s ++ more.
Proof.
  revert s. induction pairs as [|[g r] pairs IH]; intros s Hf;
    cbn [fold_option] in Hf.
  - injection Hf as <-. exists []. by rewrite app_nil_r.
  - destruct (logprob_results_step _ _ _ _ _ _ _ s (g, r)) as [s1|] eqn:E1;
      cbn [mbind option_bind] in Hf; [|done].
    destruct (IH _ Hf) as (more & ->).
    unfold logprob_results_step in E1.
    destruct (_get_prompt_logprob_if_needed _ _ _ _ _ _ _ _ _ _)
      as [[[pl t1] s1']|]; cbn [mbind option_bind] in E1; [|done].
    destruct (_get_sampled_logprob_if_needed _ _ _ _ _ _ _ _)
      as [[[sl t2] s2']|]; cbn [mbind option_bind] in E1; [|done].
    injection E1 as <-. simpl. rewrite <- app_assoc. by eexists.
Qed.

Lemma logprob_results_fold_sample_lookup
    (sel : option (list ext)) (rks : option (list nat))
    (tids : option (list (list nat))) (tlps : option matrix)
    (pre post : list (SequenceGroupToSample * (list nat * list nat)))
    (g : SequenceGroupToSample) (r : list nat * list nat)
    (s s' : LogprobResults) :
  fold_option (logprob_results_step query_len get_num_computed_tokens
                 prompt_token_ids sel rks tids tlps) s
    (pre ++ (g, r) :: post) = Some s' ->
  exists sl i j t u,
    _get_sampled_logprob_if_needed g r sel rks tids tlps i j
    = Some (sl, t, u)
    /\ sample_logprobs_per_seq_group s'
         !! (length (sample_logprobs_per_seq_group s) + length pre)%nat
       = Some sl.
Proof.
  intros Hf. rewrite fold_option_app in Hf.
  destruct (fold_option _ s pre) as [s1|] eqn:E1;
    cbn [mbind option_bind] in Hf; [|done].
  destruct (logprob_results_fold_length _ _ _ _ _ _ _ _ _ _ E1)
    as (_ & Hlen).
  cbn [fold_option] in Hf.
  destruct (logprob_results_step _ _ _ _ _ _ _ s1 (g, r)) as [s2|] eqn:E2;
    cbn [mbind option_bind] in Hf; [|done].
  destruct (logprob_results_fold_prefix _ _ _ _ _ _ _ Hf) as (more & ->).
  unfold logprob_results_step in E2.
  destruct (_get_prompt_logprob_if_needed _ _ _ _ _ _ _ _ _ _)
    as [[[pl t1] s1']|]; cbn [mbind option_bind] in E2; [|done].
  destruct (_get_sampled_logprob_if_needed g r sel rks tids tlps s1' t1)
    as [[[sl t2] s2']|] eqn:Es; cbn [mbind option_bind] in E2; [|done].
  injection E2 as <-. simpl.
  exists sl, s1', t1, t2, s2'. split; [done|].
  rewrite <- Hlen, <- app_assoc. by apply list_lookup_middle.
Qed.

Lemma sampled_logprob_single (g : SequenceGroupToSample) (tok p : nat)
    (sel : option (list ext)) (rks : option (list nat))
    (tids : option (list (list nat))) (tlps : option matrix)
    (i j t u : nat) (sl : list (gmap nat Logprob)) :
  _get_sampled_logprob_if_needed g ([tok], [p]) sel rks tids tlps i j
  = Some (sl, t, u) ->
  do_sample g = true ->
  length sl = 1%nat.
Proof.
  intros Hs Hdo. unfold _get_sampled_logprob_if_needed in Hs.
  rewrite Hdo in Hs. case_decide; [|done].
  destruct (bool_decide (logprobs (sampling_params g) = None)
            && negb (use_beam_search (sampling_params g))).
  - cbn [mbind option_bind] in Hs. by injection Hs as <- _ _.
  - destruct sel as [sel|]; cbn [mbind option_bind] in Hs; [|done].
    destruct rks as [rks|]; cbn [mbind option_bind] in Hs; [|done].
    destruct (sampled_logprob_dicts _ _ _ _ _ _ _ _ _) as [dicts|] eqn:Ed;
      cbn [mbind option_bind] in Hs; [|done].
    injection Hs as <- _ _.
    by destruct (sampled_logprob_dicts_spec _ _ _ _ _ _ _ _ _ _ Ed)
      as (-> & _).
Qed.

(** What [_get_logprobs] holds for a group whose sample result is one
    token of one parent: a list of one dictionary, at the group's
    place. *)
Lemma get_logprobs_single_sample (logprobs : matrix)
    (md : SamplingMetadata) (results : list (list nat * list nat))
    (pls : list (option (list (gmap nat Logprob))))
    (sls : list (list (gmap nat Logprob)))
    (pre post : list SequenceGroupToSample) (g : SequenceGroupToSample)
    (tok p : nat) :
  _get_logprobs query_len get_num_computed_tokens prompt_token_ids
    logprobs md results = Some (pls, sls) ->
  seq_groups md = pre ++ g :: post ->
  length results = length (seq_groups md) ->
  results !! length pre = Some ([tok], [p]) ->
  do_sample g = true ->
  length pls = length (seq_groups md)
  /\ length sls = length (seq_groups md)
  /\ exists d, sls !! length pre = Some [d].
Proof.
  intros Hg Hgroups Hlen Hr Hdo.
  apply list_elem_of_split_length in Hr as (rpre & rpost & -> & Hpre).
  assert (zip (seq_groups md) (rpre ++ ([tok], [p]) :: rpost)
          = zip pre rpre ++ (g, ([tok], [p])) :: zip post rpost) as Hzip.
  { rewrite Hgroups. by rewrite zip_with_app. }
  assert (length (zip (seq_groups md) (rpre ++ ([tok], [p]) :: rpost))
          = length (seq_groups md)) as Hzlen.
  { rewrite length_zip_with. lia. }
  assert (length (zip pre rpre) = length pre) as Hzpre.
  { rewrite length_zip_with. lia. }
  unfold _get_logprobs in Hg.
  destruct (fold_option (logprob_query_step _ _ _) _ _) as [q|] eqn:Eq;
    cbn [mbind option_bind] in Hg; [|done].
  pose proof (logprob_query_fold_nil _ _ _ _ _ _ Eq) as Hnil.
  simpl in Hnil.
  case_decide as Hq.
  { apply length_zero_iff_nil, Hnil in Hq as [_ Hall].
    rewrite Hzip in Hall. apply Forall_app in Hall as [_ Hall].
    apply Forall_cons in Hall as [[_ Hno] _]. by specialize (Hno Hdo). }
  destruct (logprob_tensors logprobs q) as [[[[sel rks] tlps] tids]|];
    cbn [mbind option_bind] in Hg; [|done].
  destruct (fold_option (logprob_results_step _ _ _ _ _ _ _) _ _)
    as [s|] eqn:Es; cbn [mbind option_bind] in Hg; [|done].
  injection Hg as <- <-.
  destruct (logprob_results_fold_length _ _ _ _ _ _ _ _ _ _ Es)
    as (Hl1 & Hl2).
  simpl in Hl1, Hl2. rewrite Hzlen in Hl1, Hl2.
  split; [done|]. split; [done|].
  rewrite Hzip in Es.
  destruct (logprob_results_fold_sample_lookup _ _ _ _ _ _ _ _ _ _ Es)
    as (sl & i & j & t & u & Hsl & Hlook).
  simpl in Hlook. rewrite Hzpre in Hlook.
  pose proof (sampled_logprob_single _ _ _ _ _ _ _ _ _ _ _ _ Hsl Hdo)
    as Hone.
  destruct sl as [|d [|? ?]]; try done. by exists d.
Qed.

Lemma argmax_lt (l : row) : l <> [] -> (argmax l < length l)%nat.
Proof.
  intros Hne. destruct (argmax_spec l Hne) as (v & Hv & _).
  by eapply lookup_lt_Some.
Qed.

(** Greedy decoding, from the logits to the output.  When [forward]
    returns without [skip_sampler_cpu_output], it has one output per
    sequence group, and a greedy group that samples has, at its place,
    exactly one sample: it belongs to the group's first sequence id, and
    its token is an index of the vocabulary (of the row of logits that the
    group's greedy sample index names).  When the sampler exposes the
    on-device tensors, the token is the argmax of that row of the
    log-probabilities it returns, the first one among equals. *)
Theorem forward_greedy_gives_one_sample
    (self : option SamplerCache) (include_gpu_probs_tensor : bool)
    (logits : matrix) (md : SamplingMetadata) (c : SamplerCache)
    (out : SamplerOutput) (pre post : list SequenceGroupToSample)
    (g : SequenceGroupToSample) (row : nat) :
  forward_output from_sampling_metadata categorized_sample_indices noise
    query_len get_num_computed_tokens prompt_token_ids self
    include_gpu_probs_tensor logits md = Some (c, out) ->
  skip_sampler_cpu_output md = false ->
  seq_groups md = pre ++ g :: post ->
  sampling_type (sampling_params g) = GREEDY ->
  do_sample g = true ->
  categorized_sample_indices GREEDY
    !! sampling_groups (List.filter (of_type GREEDY) pre) = Some row ->
  exists processed l o so,
    forward from_sampling_metadata self logits md = Some (c, processed)
    /\ processed !! row = Some l
    /\ length (outputs out) = length (seq_groups md)
    /\ outputs out !! length pre = Some o
    /\ samples o = [so]
    /\ seq_ids g !! 0%nat = Some (parent_seq_id so)
    /\ (output_token so < length l)%nat
    /\ (include_gpu_probs_tensor = true ->
        exists lps lp,
          out_logprobs out = Some lps
          /\ lps !! row = Some lp
          /\ length lp = length l
          /\ output_token so = argmax lp).
Proof.
  intros Hf Hskip Hgroups Hty Hdo Hrow.
  unfold forward_output in Hf.
  destruct (forward from_sampling_metadata self logits md)
    as [[c' processed]|] eqn:Efw; cbn [mbind option_bind] in Hf; [|done].
  destruct (_sample _ _ _ _ _ _ _) as [[[results tensor] probs']|] eqn:Es;
    cbn [mbind option_bind] in Hf; [|done].
  set (odt := if include_gpu_probs_tensor then _ else _) in Hf.
  destruct odt as [on_device|] eqn:Eodt; cbn [mbind option_bind] in Hf;
    [|done].
  rewrite Hskip in Hf. cbn [negb] in Hf.
  destruct (_get_logprobs _ _ _ _ _ _) as [[pls sls]|] eqn:Eg;
    cbn [mbind option_bind] in Hf; [|done].
  destruct (_build_sampler_output _ _ _ _ _ _) as [out'|] eqn:Eb;
    cbn [mbind option_bind] in Hf; [|done].
  injection Hf as -> ->.
  unfold _sample in Es.
  destruct (sample_with_torch_greedy_result _ _ _ _ _ _ _ _ _ _ _ _ _
              Es Hskip Hgroups Hty) as (Hlen & _ & Hres).
  destruct Hres as (row' & l' & Hrow' & Hl' & Hr & Hne); [|done|].
  { intros E. by rewrite E in Hrow. }
  rewrite Hrow in Hrow'. injection Hrow' as <-.
  pose proof Hl' as Hlp.
  change (map log_softmax processed) with (log_softmax <$> processed)
    in Hl'.
  apply list_lookup_fmap_Some in Hl' as (l & -> & Hl).
  assert (length (log_softmax l) = length l) as Hll.
  { unfold log_softmax. by rewrite length_map. }
  destruct (get_logprobs_single_sample _ _ _ _ _ _ _ _ _ _
              Eg Hgroups Hlen Hr Hdo) as (Hpl & Hsl & d & Hd).
  unfold _build_sampler_output in Eb. cbn [negb mbind option_bind] in Eb.
  destruct (sampler_output_loop _ _ _ _) as [outs|] eqn:Eo;
    cbn [mbind option_bind] in Eb; [|done].
  assert (outputs out = outs) as Houts.
  { injection Eb as <-. by destruct on_device as [[[? ?] ?]|]. }
  destruct (sampler_output_loop_spec _ _ _ _ _ Eo) as (Holen & Hout).
  rewrite Hlen, Hpl, Hsl in Holen.
  assert (length outs = length (seq_groups md)) as Holen' by lia.
  assert (is_Some (outs !! length pre)) as [o Ho].
  { apply lookup_lt_is_Some_2. rewrite Holen', Hgroups, length_app.
    simpl. lia. }
  destruct (Hout _ _ Ho)
    as (g' & toks & parents & gpl & gsl & Hg' & Hr' & _ & Hsl' & _ & Hso).
  rewrite Hgroups, list_lookup_middle in Hg' by done.
  injection Hg' as <-.
  rewrite Hr in Hr'. injection Hr' as <- <-.
  rewrite Hd in Hsl'. injection Hsl' as <-.
  cbn [seq_outputs_loop] in Hso.
  destruct (seq_ids g !! 0%nat) as [seq_id|] eqn:Eid;
    cbn [mbind option_bind] in Hso; [|done].
  injection Hso as Hso.
  exists processed, l, o,
    {| parent_seq_id := seq_id;
       output_token := argmax (log_softmax l); so_logprobs := d |}.
  rewrite Houts. split; [done|]. split; [done|]. split; [done|].
  split; [done|]. split; [done|]. split; [done|]. split.
  { simpl. rewrite <- Hll. by apply argmax_lt. }
  intros ->. simpl. unfold odt in Eodt.
  destruct tensor as [t|]; cbn [mbind option_bind] in Eodt; [|done].
  injection Eodt as <-. injection Eb as <-. simpl.
  exists (map log_softmax processed), (log_softmax l). done.
Qed.

End ForwardFacts.

Lemma forward_greedy_gives_one_sample_witness :
  exists processed l o so,
    forward (H := rational_math) (fun _ _ => neutral_cache) None
      plain_logits plain_batch = Some (neutral_cache, processed)
    /\ processed !! 0%nat = Some l
    /\ length (outputs plain_output) = length (seq_groups plain_batch)
    /\ outputs plain_output !! length (@nil SequenceGroupToSample) = Some o
    /\ samples o = [so]
    /\ seq_ids plain_group !! 0%nat = Some (parent_seq_id so)
    /\ (output_token so < length l)%nat
    /\ (false = true ->
        exists lps lp,
          out_logprobs plain_output = Some lps
          /\ lps !! 0%nat = Some lp
          /\ length lp = length l
          /\ output_token so = argmax lp).
Proof.
  apply (forward_greedy_gives_one_sample (H := rational_math)
           (fun _ _ => neutral_cache) greedy_sample_indices mixed_noise
           (fun _ => None) (fun _ => 0%nat) (fun _ => []) None false
           plain_logits plain_batch neutral_cache plain_output [] []
           plain_group 0%nat).
  - vm_compute. reflexivity.
  - reflexivity.
  - reflexivity.
  - reflexivity.
  - reflexivity.
  - reflexivity.
Defined.

(** ** [_get_custom_token_bans] with [_apply_token_bans] *)

Section CustomTokenBansFacts.
Variable custom_token_bans : SamplingParams -> list nat.
Variable num_prompts : SamplingMetadata -> nat.

Lemma custom_token_bans_loop_split (md : SamplingMetadata) (i : nat)
    (pre post : list SequenceGroupToSample) (g : SequenceGroupToSample) :
  custom_token_bans_loop custom_token_bans num_prompts md i
    (pre ++ g :: post)
  = custom_token_bans_loop custom_token_bans num_prompts md i pre
    ++ replicate (group_ban_rows num_prompts md (i + length pre) g)
                 (custom_token_bans (sampling_params g))
    ++ custom_token_bans_loop custom_token_bans num_prompts md
         (S (i + length pre)) post.
Proof.
  revert i. induction pre as [|g0 pre IH]; intros i.
  - cbn [app length custom_token_bans_loop]. rewrite Nat.add_0_r.
    unfold group_ban_rows. rewrite replicate_add, <- app_assoc.
    by destruct (_ && _).
  - cbn [app length custom_token_bans_loop]. rewrite IH.
    replace (S i + length pre)%nat with (i + S (length pre))%nat by lia.
    by rewrite <- !app_assoc.
Qed.

Lemma length_custom_token_bans_loop (md : SamplingMetadata) (i : nat)
    (groups : list SequenceGroupToSample) :
  length (custom_token_bans_loop custom_token_bans num_prompts md i groups)
  = ban_rows_before num_prompts md i groups.
Proof.
  revert i. induction groups as [|g groups IH]; intros i; [done|].
  cbn [custom_token_bans_loop ban_rows_before].
  rewrite !length_app, IH. unfold group_ban_rows.
  destruct (_ && _); rewrite ?length_replicate; simpl; lia.
Qed.

Lemma custom_token_bans_loop_elem (md : SamplingMetadata) (i : nat)
    (groups : list SequenceGroupToSample) (ids : list nat) :
  ids ∈ custom_token_bans_loop custom_token_bans num_prompts md i groups ->
  exists g, g ∈ groups /\ ids = custom_token_bans (sampling_params g).
Proof.
  revert i. induction groups as [|g groups IH]; intros i Hin;
    cbn [custom_token_bans_loop] in Hin.
  - by apply elem_of_nil in Hin.
  - rewrite !elem_of_app in Hin. destruct Hin as [Hin|[Hin|Hin]].
    + destruct (_ && _); [|by apply elem_of_nil in Hin].
      apply elem_of_replicate in Hin as [-> _].
      exists g. split; [apply list_elem_of_here|done].
    + apply elem_of_replicate in Hin as [-> _].
      exists g. split; [apply list_elem_of_here|done].
    + destruct (IH _ Hin) as (g' & Hg' & ->).
      exists g'. split; [by apply list_elem_of_further|done].
Qed.

(** The ban lists of the batch, applied to the logits.  The rows that
    [_get_custom_token_bans] gives to a group are the [group_ban_rows]
    rows after those of the groups before it; on each of them
    [_apply_token_bans] sets the group's banned tokens to [-inf].  A
    token that no group of the batch bans keeps its logit on every
    row. *)
Theorem custom_token_bans_mask_the_rows_of_their_group
    (md : SamplingMetadata) (logits out : matrix)
    (pre post : list SequenceGroupToSample) (g : SequenceGroupToSample) :
  _apply_token_bans logits
    (_get_custom_token_bans custom_token_bans num_prompts md) = Some out ->
  seq_groups md = pre ++ g :: post ->
  length (_get_custom_token_bans custom_token_bans num_prompts md)
  = ban_rows_before num_prompts md 0 (seq_groups md)
  /\ (forall j t,
        (j < group_ban_rows num_prompts md (length pre) g)%nat ->
        t ∈ custom_token_bans (sampling_params g) ->
        cell out (ban_rows_before num_prompts md 0 pre + j) t = Some NInf)
  /\ (forall r t,
        (forall g', g' ∈ seq_groups md ->
           t ∉ custom_token_bans (sampling_params g')) ->
        cell out r t = cell logits r t).
Proof.
  intros Ho Hgroups. unfold _apply_token_bans in Ho.
  destruct (token_bans_loop_spec _ _ _ _ Ho)
    as (_ & _ & Hhit & Hframe & _).
  split; [apply length_custom_token_bans_loop|]. split.
  - intros j t Hj Ht.
    apply (Hhit _ t (custom_token_bans (sampling_params g))); [lia| |done].
    rewrite Nat.sub_0_r. unfold _get_custom_token_bans.
    rewrite Hgroups, custom_token_bans_loop_split.
    rewrite <- length_custom_token_bans_loop.
    rewrite lookup_app_r by lia.
    replace (_ + j - _)%nat with j by lia.
    rewrite lookup_app_l by (by rewrite length_replicate).
    by apply lookup_replicate_2.
  - intros r t Hfree. apply Hframe. intros ids _ Hids Ht.
    apply list_elem_of_lookup_2, custom_token_bans_loop_elem in Hids
      as (g' & Hg' & ->).
    by apply (Hfree g').
Qed.

End CustomTokenBansFacts.

Lemma custom_token_bans_mask_the_rows_of_their_group_witness :
  length (_get_custom_token_bans
            (fun p => match sampling_type p with
                      | RANDOM => [1%nat]
                      | _ => []
                      end)
            (fun _ => 0%nat) mixed_batch)
  = ban_rows_before (fun _ => 0%nat) mixed_batch 0 (seq_groups mixed_batch)
  /\ (forall j t,
        (j < group_ban_rows (fun _ => 0%nat) mixed_batch
               (length [plain_group]) random_group)%nat ->
        t ∈ match sampling_type (sampling_params random_group) with
            | RANDOM => [1%nat]
            | _ => []
            end ->
        cell [[Fin (-3); Fin (-1); Fin (-2)];
              [Fin (-1); NInf; Fin (-3)];
              [Fin (-2); Fin (-3); Fin (-1)]]
             (ban_rows_before (fun _ => 0%nat) mixed_batch 0 [plain_group]
              + j) t
        = Some NInf)
  /\ (forall r t,
        (forall g', g' ∈ seq_groups mixed_batch ->
           t ∉ match sampling_type (sampling_params g') with
               | RANDOM => [1%nat]
               | _ => []
               end) ->
        cell [[Fin (-3); Fin (-1); Fin (-2)];
              [Fin (-1); NInf; Fin (-3)];
              [Fin (-2); Fin (-3); Fin (-1)]] r t
        = cell mixed_logprobs r t).
Proof.
  apply (custom_token_bans_mask_the_rows_of_their_group
           (fun p => match sampling_type p with
                     | RANDOM => [1%nat]
                     | _ => []
                     end)
           (fun _ => 0%nat) mixed_batch mixed_logprobs
           [[Fin (-3); Fin (-1); Fin (-2)];
            [Fin (-1); NInf; Fin (-3)];
            [Fin (-2); Fin (-3); Fin (-1)]]
           [plain_group] [plain_group] random_group).
  - reflexivity.
  - reflexivity.
Defined.
